(** * ConsistencyCheck workload of FoundationDB: a shallow embedding

    Source: [fdbserver/workloads/ConsistencyCheck.actor.cpp].

    The workload is a Flow actor program.  Its control flow is embedded as
    Rocq functions over an explicit state: the workload object ([self] in the
    source) together with the log of emitted trace events.  Replies of remote
    procedure calls are inputs of the functions; a loop that waits on the
    network takes fuel.  [int] is a 32-bit signed integer whose wrap-around is
    written out, [double] is the kernel's binary64 float. *)

From Stdlib Require Import ZArith List String Ascii Bool Lia DecimalString.
From Stdlib Require Import Floats.PrimFloat Numbers.Cyclic.Int63.Uint63.
Import ListNotations.

Local Open Scope string_scope.
Local Open Scope list_scope.
Local Open Scope Z_scope.

(** ** Machine integers *)

Module Int32.

Definition min_int : Z := - 2 ^ 31.
Definition max_int : Z := 2 ^ 31 - 1.

(** Two's complement reduction of a mathematical integer to [int]. *)
Definition wrap (z : Z) : Z := (z + 2 ^ 31) mod 2 ^ 32 - 2 ^ 31.

Definition in_range (z : Z) : Prop := min_int <= z <= max_int.

Definition add (a b : Z) : Z := wrap (a + b).
Definition sub (a b : Z) : Z := wrap (a - b).
Definition mul (a b : Z) : Z := wrap (a * b).
Definition incr (a : Z) : Z := add a 1.

(** [abs] of <cstdlib> on [int]. *)
Definition abs (a : Z) : Z := wrap (Z.abs a).

End Int32.

(** [size_t] is 64 bits wide; comparing a [size_t] with an [int] converts the
    [int] to [size_t] first. *)
Definition to_size_t (z : Z) : Z := z mod 2 ^ 64.

(** [(double)i] for an [int] [i]. *)
Definition double_of_int (z : Z) : float :=
  if z <? 0 then PrimFloat.opp (PrimFloat.of_uint63 (Uint63.of_Z (- z)))
  else PrimFloat.of_uint63 (Uint63.of_Z z).

(** ** Keys, values, replies *)

(** The types of the client library, which this file of the source only
    uses: keys and values are byte strings, compared byte by byte and then by
    length; versions are 64-bit integers; identifiers and addresses are
    compared for equality only. *)
Definition Key := string.
Definition Value := string.
Definition UID := Z.
Definition NetworkAddress := string.
Definition Version := Z.

Record KeyValueRef : Type := mkKV { key : Key; value : Value }.

Definition KeyValueRef_eqb (a b : KeyValueRef) : bool :=
  String.eqb (key a) (key b) && String.eqb (value a) (value b).

(** [operator==] of [VectorRef<KeyValueRef>]: same size, and equal element by
    element. *)
Fixpoint data_eqb (a b : list KeyValueRef) : bool :=
  match a, b with
  | [], [] => true
  | x :: a', y :: b' => KeyValueRef_eqb x y && data_eqb a' b'
  | _, _ => false
  end.

Record GetKeyValuesReply : Type := mkReply { data : list KeyValueRef; more : bool }.

(** The error codes the workload names, and any other one by its number. *)
Inductive Error : Type :=
| transaction_too_old
| future_version
| wrong_shard_server
| all_alternatives_failed
| server_request_queue_full
| attribute_not_found
| internal_error
| other_error (code : Z).

(** [ErrorOr<T>]: what [getReplyUnlessFailedFor] yields. *)
Inductive ErrorOr (T : Type) : Type :=
| Present (t : T)
| Failed (e : Error).
Arguments Present {T} t.
Arguments Failed {T} e.

Definition present {T : Type} (r : ErrorOr T) : bool :=
  match r with Present _ => true | Failed _ => false end.

(** ** Trace events *)

Inductive Severity : Type := SevInfo | SevWarn | SevError.

Inductive Detail : Type :=
| DStr (s : string)
| DInt (z : Z)
| DKey (k : Key)          (* printable(k) *)
| DUID (u : UID)
| DDouble (f : float)
| DError (e : Error).

Record TraceEvent : Type := mkEvent {
  severity : Severity;
  eventType : string;
  details : list (string * Detail)
}.

Definition event (name : string) (ds : list (string * Detail)) : TraceEvent :=
  mkEvent SevInfo name ds.

(** ** The workload object *)

Record ConsistencyCheckWorkload : Type := mkWorkload {
  performQuiescentChecks : bool;
  quiescentWaitTimeout : float;
  firstClient : bool;
  distributed : bool;
  shardSampleFactor : Z;
  failureIsError : bool;
  rateLimit : Z;
  shuffleShards : bool;
  success : bool;
  repetitions : Z;
  indefinite : bool;
  (* inherited from TestWorkload *)
  clientId : Z;
  clientCount : Z;
  sharedRandomNumber : Z
}.

(** The options of the test specification, already parsed; [None] when the
    option is not given. *)
Record Options : Type := mkOptions {
  opt_performQuiescentChecks : option bool;
  opt_quiescentWaitTimeout : option float;
  opt_distributed : option bool;
  opt_shardSampleFactor : option Z;
  opt_failureIsError : option bool;
  opt_rateLimit : option Z;
  opt_shuffleShards : option bool;
  opt_indefinite : option bool
}.

Record WorkloadContext : Type := mkContext {
  options : Options;
  wcx_clientId : Z;
  wcx_clientCount : Z;
  wcx_sharedRandomNumber : Z
}.

Definition getOption {A : Type} (o : option A) (defaultValue : A) : A :=
  match o with Some v => v | None => defaultValue end.

(** The constructor. *)
Definition newConsistencyCheckWorkload (wcx : WorkloadContext) : ConsistencyCheckWorkload :=
  let o := options wcx in
  {| performQuiescentChecks := getOption (opt_performQuiescentChecks o) false;
     quiescentWaitTimeout := getOption (opt_quiescentWaitTimeout o) 600%float;
     distributed := getOption (opt_distributed o) true;
     shardSampleFactor := Z.max (getOption (opt_shardSampleFactor o) 1) 1;
     failureIsError := getOption (opt_failureIsError o) false;
     rateLimit := getOption (opt_rateLimit o) 0;
     shuffleShards := getOption (opt_shuffleShards o) false;
     indefinite := getOption (opt_indefinite o) false;
     success := true;
     firstClient := wcx_clientId wcx =? 0;
     repetitions := 0;
     clientId := wcx_clientId wcx;
     clientCount := wcx_clientCount wcx;
     sharedRandomNumber := wcx_sharedRandomNumber wcx |}.

(** The state an actor of the workload runs on: the workload object and the
    trace log, oldest event first. *)
Record State : Type := mkState {
  self : ConsistencyCheckWorkload;
  trace : list TraceEvent
}.

Definition initialState (wcx : WorkloadContext) : State :=
  mkState (newConsistencyCheckWorkload wcx) [].

Definition set_success (b : bool) (w : ConsistencyCheckWorkload) : ConsistencyCheckWorkload :=
  {| performQuiescentChecks := performQuiescentChecks w;
     quiescentWaitTimeout := quiescentWaitTimeout w;
     firstClient := firstClient w;
     distributed := distributed w;
     shardSampleFactor := shardSampleFactor w;
     failureIsError := failureIsError w;
     rateLimit := rateLimit w;
     shuffleShards := shuffleShards w;
     success := b;
     repetitions := repetitions w;
     indefinite := indefinite w;
     clientId := clientId w;
     clientCount := clientCount w;
     sharedRandomNumber := sharedRandomNumber w |}.

Definition set_performQuiescentChecks (b : bool) (w : ConsistencyCheckWorkload)
  : ConsistencyCheckWorkload :=
  {| performQuiescentChecks := b;
     quiescentWaitTimeout := quiescentWaitTimeout w;
     firstClient := firstClient w;
     distributed := distributed w;
     shardSampleFactor := shardSampleFactor w;
     failureIsError := failureIsError w;
     rateLimit := rateLimit w;
     shuffleShards := shuffleShards w;
     success := success w;
     repetitions := repetitions w;
     indefinite := indefinite w;
     clientId := clientId w;
     clientCount := clientCount w;
     sharedRandomNumber := sharedRandomNumber w |}.

Definition set_repetitions (r : Z) (w : ConsistencyCheckWorkload) : ConsistencyCheckWorkload :=
  {| performQuiescentChecks := performQuiescentChecks w;
     quiescentWaitTimeout := quiescentWaitTimeout w;
     firstClient := firstClient w;
     distributed := distributed w;
     shardSampleFactor := shardSampleFactor w;
     failureIsError := failureIsError w;
     rateLimit := rateLimit w;
     shuffleShards := shuffleShards w;
     success := success w;
     repetitions := r;
     indefinite := indefinite w;
     clientId := clientId w;
     clientCount := clientCount w;
     sharedRandomNumber := sharedRandomNumber w |}.

(** [TraceEvent(...)...;]: the event is logged. *)
Definition traceEvent (ev : TraceEvent) (s : State) : State :=
  mkState (self s) (trace s ++ [ev]).

(** The event [testFailure] logs for [message]. *)
Definition failEvent (w : ConsistencyCheckWorkload) (message : string) : TraceEvent :=
  mkEvent (if failureIsError w then SevError else SevWarn) "TestFailure"
    [ ("Workload", DStr (if performQuiescentChecks w then "QuiescentCheck" else "ConsistencyCheck"));
      ("Reason", DStr ("Consistency check: " ++ message)%string) ].

Definition testFailure (message : string) (s : State) : State :=
  mkState (set_success false (self s)) (trace s ++ [failEvent (self s) message]).

(** [check]: the verdict of the workload. *)
Definition check (s : State) : bool := success (self s).

(** A failure with [message] is on record in the log. *)
Definition failureRecorded (message : string) (s : State) : Prop :=
  exists ev, In ev (trace s) /\ eventType ev = "TestFailure"
             /\ In ("Reason", DStr ("Consistency check: " ++ message)%string) (details ev).

(** The failure messages on record, oldest first. *)
Fixpoint reasons (evs : list TraceEvent) : list string :=
  match evs with
  | [] => []
  | ev :: evs' =>
      if String.eqb (eventType ev) "TestFailure" then
        match details ev with
        | [ _; (_, DStr r) ] => r :: reasons evs'
        | _ => reasons evs'
        end
      else reasons evs'
  end.

(** ** Results of actors *)

(** An actor returns a value or throws.  [Unfinished] is the model's: it has
    no result for the actor, which was still running when the fuel of one of
    its loops ran out, or whose run left defined behaviour (a read past the
    end of a vector, a division by zero), after which nothing is known of
    it. *)
Inductive Result (A : Type) : Type :=
| Ok (a : A)
| Thrown (e : Error)
| Unfinished.
Arguments Ok {A} a.
Arguments Thrown {A} e.
Arguments Unfinished {A}.

(** One turn of a loop body: go on with a new loop state, leave the enclosing
    function with a value ([return]), throw, or give no result ([Stuck]: the
    fuel ran out, or the run left defined behaviour). *)
Inductive Flow (R A : Type) : Type :=
| Next (a : A)
| Return (r : R)
| Throw (e : Error)
| Stuck.
Arguments Next {R A} a.
Arguments Return {R A} r.
Arguments Throw {R A} e.
Arguments Stuck {R A}.

(** [try { body } catch (Error& e) { handler }]. *)
Definition try_catch {R A : Type} (body : Flow R A) (handler : Error -> Flow R A) : Flow R A :=
  match body with
  | Throw e => handler e
  | other => other
  end.

(** [T x = wait(f); k x]: the value of the future, or its error thrown. *)
Definition wait {R A T : Type} (f : ErrorOr T) (k : T -> Flow R A) : Flow R A :=
  match f with
  | Present t => k t
  | Failed e => Throw e
  end.

(** A piece of an actor: it runs on the state and ends its turn in a [Flow]. *)
Definition Step (R A : Type) : Type := State -> Flow R A * State.

Definition pure {R A : Type} (a : A) : Step R A := fun s => (Next a, s).

Definition bind {R A B : Type} (m : Step R A) (k : A -> Step R B) : Step R B :=
  fun s =>
    match m s with
    | (Next a, s') => k a s'
    | (Return r, s') => (Return r, s')
    | (Throw e, s') => (Throw e, s')
    | (Stuck, s') => (Stuck, s')
    end.

Notation "x <- m ;; k" := (bind m (fun x => k))
  (at level 61, m at next level, right associativity).

(** ** getVersion *)

Section GetVersion.

(** [tr.getReadVersion()] of the transaction the [n]-th turn of the loop
    creates: the network decides. *)
Variable getReadVersion : nat -> ErrorOr Version.

(** [tr.onError(e)]: the future it returns, which is an error for an [e] that
    a transaction does not retry. *)
Variable onError : nat -> Error -> ErrorOr unit.

(** The body of the loop, on the [n]-th fresh transaction.  The future of
    [tr.onError(e)] is dropped: the handler does not wait for it. *)
Definition getVersion_body (n : nat) : Flow Version unit :=
  try_catch
    (wait (getReadVersion n) (fun version => Return version))
    (fun e => let _dropped := onError n e in Next tt).

Fixpoint getVersion_from (fuel n : nat) : Result Version :=
  match fuel with
  | O => Unfinished
  | S fuel' =>
      match getVersion_body n with
      | Return version => Ok version
      | Throw e => Thrown e
      | Next _ => getVersion_from fuel' (S n)
      | Stuck => Unfinished
      end
  end.

Definition getVersion (fuel : nat) : Result Version := getVersion_from fuel 0.

End GetVersion.

(** ** getKeyLocations *)

Record KeyRange : Type := mkRange { range_begin : Key; range_end : Key }.

Record StorageServerInterface : Type := mkSSI { ssi_id : UID; ssi_address : NetworkAddress }.

Inductive KeySelector : Type :=
| firstGreaterOrEqual (k : Key)
| firstGreaterThan (k : Key).

Definition getKey (sel : KeySelector) : Key :=
  match sel with firstGreaterOrEqual k => k | firstGreaterThan k => k end.

Record GetKeyValuesRequest : Type := mkReq {
  req_begin : KeySelector;
  req_end : KeySelector;
  req_limit : Z;
  req_limitBytes : Z;
  req_version : Version
}.

(** [current.data != reference.data || current.more != reference.more]. *)
Definition replyDiffers (current reference : GetKeyValuesReply) : bool :=
  negb (data_eqb (data current) (data reference))
  || negb (Bool.eqb (more current) (more reference)).

(** [futures[i].get().get()].  Reading an absent reply, or outside the vector,
    is undefined in the source; the model then reads an empty reply. *)
Definition getReply (futures : list (ErrorOr GetKeyValuesReply)) (i : Z) : GetKeyValuesReply :=
  match nth_error futures (Z.to_nat i) with
  | Some (Present r) => if i <? 0 then mkReply [] false else r
  | _ => mkReply [] false
  end.

Definition serverAt (servers : list StorageServerInterface) (i : Z) : StorageServerInterface :=
  nth (Z.to_nat i) servers (mkSSI 0 "").

(** The body of the loop that reads the shard location results, at index [j]
    with [reply = keyValueFutures[j].get()]. *)
Definition readLocationReply (servers : list StorageServerInterface)
  (keyValueFutures : list (ErrorOr GetKeyValuesReply)) (j : Z)
  (reply : ErrorOr GetKeyValuesReply) (firstValidStorageServer : Z) (s : State)
  : Flow bool Z * State :=
  match reply with
  | Failed _ =>
      if performQuiescentChecks (self s) then
        (Return false,
         testFailure "Key server unavailable"
           (traceEvent (event "ConsistencyCheck_KeyServerUnavailable"
                          [("StorageServer", DUID (ssi_id (serverAt servers j)))]) s))
      else if (firstValidStorageServer <? 0)
              && (j =? Z.of_nat (List.length keyValueFutures) - 1) then
        (Throw all_alternatives_failed, s)
      else (Next firstValidStorageServer, s)
  | Present current =>
      if firstValidStorageServer <? 0 then (Next j, s)
      else if replyDiffers current (getReply keyValueFutures firstValidStorageServer) then
        (Return false,
         testFailure "Key servers inconsistent"
           (traceEvent (event "ConsistencyCheck_InconsistentKeyServers"
                          [("StorageServer1", DUID (ssi_id (serverAt servers firstValidStorageServer)));
                           ("StorageServer2", DUID (ssi_id (serverAt servers j)))]) s))
      else (Next firstValidStorageServer, s)
  end.

(** [for(int j = ...; j < keyValueFutures.size(); j++)], from index [j] on;
    [rest] is the part of the vector from [j]. *)
Fixpoint readLocationReplies (servers : list StorageServerInterface)
  (keyValueFutures rest : list (ErrorOr GetKeyValuesReply)) (j : Z)
  (firstValidStorageServer : Z) (s : State) : Flow bool Z * State :=
  match rest with
  | [] => (Next firstValidStorageServer, s)
  | reply :: rest' =>
      match readLocationReply servers keyValueFutures j reply firstValidStorageServer s with
      | (Next firstValid', s') =>
          readLocationReplies servers keyValueFutures rest' (j + 1) firstValid' s'
      | other => other
      end
  end.

(** The whole loop over the replies of one page. *)
Definition readShardLocationResults (servers : list StorageServerInterface)
  (keyValueFutures : list (ErrorOr GetKeyValuesReply)) (s : State) : Flow bool Z * State :=
  readLocationReplies servers keyValueFutures keyValueFutures 0 (-1) s.

Section GetKeyLocations.

(** The network, as the [round]-th page request sees it: the read versions of
    the transactions [getVersion] creates, and the reply of each storage
    server to the request. *)
Variable getReadVersion : nat -> nat -> ErrorOr Version.
Variable onError : nat -> nat -> Error -> ErrorOr unit.
Variable getKeyValues :
  nat -> StorageServerInterface -> GetKeyValuesRequest -> ErrorOr GetKeyValuesReply.

(** The codec of the shard map and the system key space are not part of this
    file of the source. *)
Variable krmDecodeRanges : Key -> KeyRange -> GetKeyValuesReply -> list KeyValueRef.
Variables keyServersPrefix allKeys_begin allKeys_end : Key.
Variables MOVE_KEYS_KRM_LIMIT MOVE_KEYS_KRM_LIMIT_BYTES : Z.

Definition withPrefix (prefix k : Key) : Key := (prefix ++ k)%string.

Definition removePrefix (prefix k : Key) : Key :=
  substring (String.length prefix) (String.length k - String.length prefix) k.

(** [std::min<KeyRef>(a, b)]. *)
Definition minKey (a b : Key) : Key := if String.ltb b a then b else a.

Definition noKeyValue : KeyValueRef := mkKV "" "".

Record LocationState : Type := mkLoc {
  keyLocations : list KeyValueRef;
  beginKey : Key
}.

Definition endKey : Key := withPrefix keyServersPrefix allKeys_end.

Definition isVersionProblem (e : Error) : bool :=
  match e with
  | transaction_too_old | future_version => true
  | _ => false
  end.

(** The request for one page of the shard map, and the replies of the
    servers of the shard to it. *)
Definition keyLocationsRequest (shard : KeyRange * list StorageServerInterface)
  (st : LocationState) (version : Version) : GetKeyValuesRequest :=
  mkReq (firstGreaterOrEqual (beginKey st))
        (firstGreaterOrEqual (minKey (range_end (fst shard)) endKey))
        MOVE_KEYS_KRM_LIMIT MOVE_KEYS_KRM_LIMIT_BYTES version.

Definition keyLocationsFutures (shard : KeyRange * list StorageServerInterface)
  (round : nat) (req : GetKeyValuesRequest) : list (ErrorOr GetKeyValuesReply) :=
  map (fun ss => getKeyValues round ss req) (snd shard).

(** The [try] block of the [while] loop: one page of the shard map. *)
Definition keyLocationsPage (shard : KeyRange * list StorageServerInterface)
  (round fuel : nat) (st : LocationState) (s : State) : Flow bool LocationState * State :=
  let rangeEnd := minKey (range_end (fst shard)) endKey in
  match getVersion (getReadVersion round) (onError round) fuel with
  | Unfinished => (Stuck, s)
  | Thrown e => (Throw e, s)
  | Ok version =>
      let req := keyLocationsRequest shard st version in
      let keyValueFutures := keyLocationsFutures shard round req in
      match readShardLocationResults (snd shard) keyValueFutures s with
      | (Next firstValidStorageServer, s') =>
          let keyValueResponse := getReply keyValueFutures firstValidStorageServer in
          let currentLocations :=
            krmDecodeRanges keyServersPrefix
              (mkRange (removePrefix keyServersPrefix (beginKey st))
                       (removePrefix keyServersPrefix rangeEnd))
              keyValueResponse in
          let size := Z.of_nat (List.length currentLocations) in
          let locations1 :=
            if negb (Z.of_nat (List.length (data keyValueResponse)) =? 0)
               && String.eqb (beginKey st) (key (nth 0 (data keyValueResponse) noKeyValue))
            then keyLocations st ++ [nth 0 currentLocations noKeyValue]
            else keyLocations st in
          let locations2 :=
            if size >? 2
            then locations1 ++ firstn (Z.to_nat (size - 2)) (skipn 1 currentLocations)
            else locations1 in
          if negb (size >? 1) then (Throw internal_error, s')
          else
            let beginKey' :=
              if negb (more keyValueResponse) then range_end (fst shard)
              else key (last (data keyValueResponse) noKeyValue) in
            let locations3 :=
              if negb (String.ltb beginKey' endKey)
              then locations2 ++ [last currentLocations noKeyValue]
              else locations2 in
            (Next (mkLoc locations3 beginKey'), s')
      | (Return b, s') => (Return b, s')
      | (Throw e, s') => (Throw e, s')
      | (Stuck, s') => (Stuck, s')
      end
  end.

(** The [catch] of the [while] loop: a version problem is logged and the page
    is asked for again; any other error is thrown on. *)
Definition keyLocationsTry (shard : KeyRange * list StorageServerInterface)
  (round fuel : nat) (st : LocationState) (s : State) : Flow bool LocationState * State :=
  match keyLocationsPage shard round fuel st s with
  | (Throw e, s') =>
      if isVersionProblem e
      then (Next st, traceEvent (event "ConsistencyCheck_RetryGetKeyLocations"
                                   [("Error", DError e)]) s')
      else (Throw e, s')
  | other => other
  end.

(** The [for] loop over the shards with its inner [while] loop; every turn of
    either takes one unit of fuel. *)
Fixpoint keyLocationsLoop (fuel : nat) (shards : list (KeyRange * list StorageServerInterface))
  (round : nat) (st : LocationState) (s : State) : Flow bool LocationState * State :=
  match fuel with
  | O => (Stuck, s)
  | S fuel' =>
      match shards with
      | [] => (Next st, s)
      | shard :: shards' =>
          if String.ltb (beginKey st) (minKey (range_end (fst shard)) endKey) then
            match keyLocationsTry shard round fuel' st s with
            | (Next st', s') => keyLocationsLoop fuel' shards (S round) st' s'
            | other => other
            end
          else keyLocationsLoop fuel' shards' round st s
      end
  end.

(** The actor: its result and what was sent through [keyLocationPromise]. *)
Definition getKeyLocations (fuel : nat) (shards : list (KeyRange * list StorageServerInterface))
  (s : State) : Result bool * option (list KeyValueRef) * State :=
  match keyLocationsLoop fuel shards 0
          (mkLoc [] (withPrefix keyServersPrefix allKeys_begin)) s with
  | (Next st, s') => (Ok true, Some (keyLocations st), s')
  | (Return b, s') => (Ok b, None, s')
  | (Throw e, s') => (Thrown e, None, s')
  | (Stuck, s') => (Unfinished, None, s')
  end.

End GetKeyLocations.

(** ** Quiescent checks of runCheck *)

(** The tag of a store type. *)
Definition KeyValueStoreType := Z.

(** Modelled from the spec: the declaration of [DatabaseConfiguration] is
    not in this file of the source.  The spec lists the options the workload
    reads: [storageTeamSize], an [int], and [storageServerStoreType]. *)
Record DatabaseConfiguration : Type := mkConfiguration {
  storageTeamSize : Z;
  storageServerStoreType : KeyValueStoreType
}.

(** The inner loop of [checkForUndesirableServers]: the first server after
    [storageServers[i]] with the same address. *)
Fixpoint sameAddressAfter (address : NetworkAddress) (rest : list StorageServerInterface)
  : option StorageServerInterface :=
  match rest with
  | [] => None
  | ss :: rest' =>
      if String.eqb address (ssi_address ss) then Some ss
      else sameAddressAfter address rest'
  end.

(** The outer loop of [checkForUndesirableServers] from index [i] on; [rest]
    is the part of [storageServers] from [i], and [typeReply i] the reply of
    [storageServers[i]] to [getKeyValueStoreType]. *)
Fixpoint undesirableServersFrom (typeReply : Z -> ErrorOr KeyValueStoreType)
  (configuration : DatabaseConfiguration) (i : Z) (rest : list StorageServerInterface)
  (s : State) : bool * State :=
  match rest with
  | [] => (false, s)
  | ss :: rest' =>
      let pairs (s1 : State) : bool * State :=
        match sameAddressAfter (ssi_address ss) rest' with
        | Some other =>
            (true,
             testFailure "Multiple storage servers have the same address"
               (traceEvent (event "ConsistencyCheck_UndesirableServer"
                              [("StorageServer1", DUID (ssi_id ss));
                               ("StorageServer2", DUID (ssi_id other));
                               ("Address", DStr (ssi_address ss))]) s1))
        | None => undesirableServersFrom typeReply configuration (i + 1) rest' s1
        end in
      match typeReply i with
      | Failed _ =>
          pairs (testFailure "Storage server unavailable"
                   (traceEvent (event "ConsistencyCheck_ServerUnavailable"
                                  [("ServerID", DUID (ssi_id ss))]) s))
      | Present storeType =>
          if negb (storeType =? storageServerStoreType configuration) then
            (true,
             testFailure "Storage server has wrong key-value store type"
               (traceEvent (event "ConsistencyCheck_WrongKeyValueStoreType"
                              [("ServerID", DUID (ssi_id ss));
                               ("StoreType", DInt storeType);
                               ("DesiredType", DInt (storageServerStoreType configuration))]) s))
          else pairs s
      end
  end.

Definition checkForUndesirableServers (storageServers : list StorageServerInterface)
  (typeReply : Z -> ErrorOr KeyValueStoreType) (configuration : DatabaseConfiguration)
  (s : State) : bool * State :=
  undesirableServersFrom typeReply configuration 0 storageServers s.

(** The check of the storage server queues in [runCheck]:
    [maxStorageServerQueueSize] is what [getMaxStorageServerQueueSize] gave,
    a size or the error it threw. *)
Definition checkStorageServerQueue (hasUndesirableServers : bool)
  (maxStorageServerQueueSize : ErrorOr Z) (s : State) : Result unit * State :=
  match maxStorageServerQueueSize with
  | Present size =>
      if size >? 0 then
        (Ok tt,
         testFailure "Non-zero storage server queue size"
           (traceEvent (event "ConsistencyCheck_NonZeroStorageServerQueue"
                          [("MaxQueueSize", DInt size)]) s))
      else (Ok tt, s)
  | Failed attribute_not_found =>
      let s1 := traceEvent (event "ConsistencyCheck_StorageQueueSizeError"
                              [("Reason", DStr "Could not read queue size");
                               ("Error", DError attribute_not_found)]) s in
      if negb hasUndesirableServers
      then (Ok tt, testFailure "Could not read storage queue size" s1)
      else (Ok tt, s1)
  | Failed e => (Thrown e, s)
  end.

(** The measurements the quiescent checks of [runCheck] wait for, up to the
    check of the storage server queues. *)
Record QuiescentInputs : Type := mkQuiescent {
  storageServers : list StorageServerInterface;
  storeTypeReply : Z -> ErrorOr KeyValueStoreType;
  inDataDistributionQueue : Z;
  maxTLogQueueSize : Z;
  maxStorageServerQueueSize : ErrorOr Z
}.

(** [runCheck], the quiescence-only checks from the check for undesirable
    servers to the check of the storage server queues. *)
Definition quiescentQueueChecks (configuration : DatabaseConfiguration)
  (q : QuiescentInputs) (s : State) : Result unit * State :=
  let (hasUndesirableServers, s1) :=
    checkForUndesirableServers (storageServers q) (storeTypeReply q) configuration s in
  let s2 :=
    if inDataDistributionQueue q >? 0 then
      testFailure "Non-zero data distribution queue/in-flight size"
        (traceEvent (event "ConsistencyCheck_NonZeroDataDistributionQueue"
                       [("QueueSize", DInt (inDataDistributionQueue q))]) s1)
    else s1 in
  let s3 :=
    if maxTLogQueueSize q >? 100000 then
      testFailure "Non-zero tlog queue size"
        (traceEvent (event "ConsistencyCheck_NonZeroTLogQueue"
                       [("MaxQueueSize", DInt (maxTLogQueueSize q))]) s2)
    else s2 in
  checkStorageServerQueue hasUndesirableServers (maxStorageServerQueueSize q) s3.

(** ** checkDataConsistency *)

(** [format("%d", z)]. *)
Definition format_d (z : Z) : string := NilZero.string_of_int (Z.to_int z).

(** *** The alignment of two replies *)

(** The counters and keys the event [ConsistencyCheck_DataInconsistent]
    reports; the counters are [int]. *)
Record DiffTotals : Type := mkTotals {
  currentUniques : Z;
  referenceUniques : Z;
  valueMismatches : Z;
  matchingKVPairs : Z;
  currentUniqueKey : Key;
  referenceUniqueKey : Key;
  valueMismatchKey : Key
}.

Definition noTotals : DiffTotals := mkTotals 0 0 0 0 "" "" "".

Definition countCurrentUnique (k : Key) (t : DiffTotals) : DiffTotals :=
  mkTotals (Int32.incr (currentUniques t)) (referenceUniques t) (valueMismatches t)
           (matchingKVPairs t) k (referenceUniqueKey t) (valueMismatchKey t).

Definition countReferenceUnique (k : Key) (t : DiffTotals) : DiffTotals :=
  mkTotals (currentUniques t) (Int32.incr (referenceUniques t)) (valueMismatches t)
           (matchingKVPairs t) (currentUniqueKey t) k (valueMismatchKey t).

Definition countValueMismatch (k : Key) (t : DiffTotals) : DiffTotals :=
  mkTotals (currentUniques t) (referenceUniques t) (Int32.incr (valueMismatches t))
           (matchingKVPairs t) (currentUniqueKey t) (referenceUniqueKey t) k.

Definition countMatchingKVPair (t : DiffTotals) : DiffTotals :=
  mkTotals (currentUniques t) (referenceUniques t) (valueMismatches t)
           (Int32.incr (matchingKVPairs t)) (currentUniqueKey t) (referenceUniqueKey t)
           (valueMismatchKey t).

(** The [while] loop over [currentI] and [referenceI].  [current] and
    [reference] are the parts of [current.data] and [reference.data] from
    these indices on: an index past the end is an empty part, and an
    increment of an index drops the head. *)
Fixpoint alignmentLoop (current : list KeyValueRef)
  : list KeyValueRef -> DiffTotals -> DiffTotals :=
  fix walk (reference : list KeyValueRef) (t : DiffTotals) {struct reference} : DiffTotals :=
    match current, reference with
    | [], [] => t
    | [], referenceKV :: reference' =>
        walk reference' (countReferenceUnique (key referenceKV) t)
    | currentKV :: current', [] =>
        alignmentLoop current' [] (countCurrentUnique (key currentKV) t)
    | currentKV :: current', referenceKV :: reference' =>
        if String.eqb (key currentKV) (key referenceKV) then
          alignmentLoop current' reference'
            (if String.eqb (value currentKV) (value referenceKV)
             then countMatchingKVPair t
             else countValueMismatch (key currentKV) t)
        else if String.ltb (key currentKV) (key referenceKV) then
          alignmentLoop current' reference (countCurrentUnique (key currentKV) t)
        else walk reference' (countReferenceUnique (key referenceKV) t)
    end.

Definition alignmentDiff (current reference : list KeyValueRef) : DiffTotals :=
  alignmentLoop current reference noTotals.

(** The event for a reply of server [j] that differs from the reply of the
    reference server. *)
Definition dataInconsistentEvent (storageServers : list UID) (req : GetKeyValuesRequest)
  (j firstValidServer : Z) (t : DiffTotals) : TraceEvent :=
  event "ConsistencyCheck_DataInconsistent"
    [ ("StorageServer" ++ format_d j, DUID (nth (Z.to_nat j) storageServers 0))%string;
      ("StorageServer" ++ format_d firstValidServer,
       DUID (nth (Z.to_nat firstValidServer) storageServers 0))%string;
      ("ShardBegin", DKey (getKey (req_begin req)));
      ("ShardEnd", DKey (getKey (req_end req)));
      ("VersionNumber", DInt (req_version req));
      ("Server" ++ format_d j ++ "Uniques", DInt (currentUniques t))%string;
      ("Server" ++ format_d j ++ "UniqueKey", DKey (currentUniqueKey t))%string;
      ("Server" ++ format_d firstValidServer ++ "Uniques", DInt (referenceUniques t))%string;
      ("Server" ++ format_d firstValidServer ++ "UniqueKey", DKey (referenceUniqueKey t))%string;
      ("ValueMismatches", DInt (valueMismatches t));
      ("ValueMismatchKey", DKey (valueMismatchKey t));
      ("MatchingKVPairs", DInt (matchingKVPairs t)) ].

(** *** Sizes of a shard *)

(** Modelled from the spec: the declaration of [ByteSampleInfo] is not in
    this file of the source.  The spec gives a sample the fields [size],
    [sampledSize] and [inSample]. *)
Record ByteSampleInfo : Type := mkSample {
  inSample : bool;
  size : Z;
  sampledSize : Z
}.

(** Modelled from the spec: the declaration of [ShardSizeBounds] is not in
    this file of the source.  The spec gives the bounds the fields [min],
    [max] and [permittedError]; the source reads the [bytes] of each, a
    64-bit integer. *)
Record ShardSizeBounds : Type := mkBounds {
  bounds_min : Z;
  bounds_max : Z;
  permittedError : Z
}.

(** What the read loop accumulates for a shard. *)
Record ShardStats : Type := mkStats {
  shardKeys : Z;
  shardBytes : Z;
  sampledBytes : Z;
  splitBytes : Z;
  firstKeySampledBytes : Z;
  sampledKeys : Z;
  shardVariance : float;
  canSplit : bool
}.

Definition noStats : ShardStats := mkStats 0 0 0 0 0 0 0%float false.

(** The inputs of the checks of one shard: the decoded value of its key
    location, and what the cluster answers.  [serverListError n] is the
    error, if any, that the [n]-th wait for the entries of the server list
    throws, [serverList_onError n e] what [tr.onError(e)] then answers, and
    [serverListValue] the entries read by the wait that goes through. *)
Record ShardEnv : Type := mkShardEnv {
  sourceStorageServers : list UID;
  destStorageServers : list UID;
  serverListValue : UID -> option StorageServerInterface;
  waitMetrics : StorageServerInterface -> ErrorOr Z;
  waitMetricsError : option Error;
  shardBounds : ShardSizeBounds;
  shard_getReadVersion : nat -> nat -> ErrorOr Version;
  shard_onError : nat -> nat -> Error -> ErrorOr unit;
  shard_getKeyValues :
    nat -> StorageServerInterface -> GetKeyValuesRequest -> ErrorOr GetKeyValuesReply;
  serverListError : nat -> option Error;
  serverList_onError : nat -> Error -> ErrorOr unit
}.

(** *** Work partitioning *)

Definition effectiveClientCount (w : ConsistencyCheckWorkload) : Z :=
  if distributed w then clientCount w else 1.

(** The initial value of the shard index [i]. *)
Definition firstShardIndex (w : ConsistencyCheckWorkload) : Z :=
  Int32.mul (clientId w) (Int32.add (shardSampleFactor w) 1).

Definition increment (w : ConsistencyCheckWorkload) : Z :=
  if distributed w && negb (firstClient w)
  then Int32.mul (effectiveClientCount w) (shardSampleFactor w)
  else 1.

(** The values [i] takes in [for(; i < ranges.size(); i += increment)] over
    [n] ranges, when no turn of the loop leaves it; [i] is an [int] and
    [ranges.size()] a [size_t]. *)
Fixpoint shardIndices (fuel : nat) (n i inc : Z) : Result (list Z) :=
  if to_size_t i <? n then
    match fuel with
    | O => Unfinished
    | S fuel' =>
        match shardIndices fuel' n (Int32.add i inc) inc with
        | Ok l => Ok (i :: l)
        | other => other
        end
    end
  else Ok [].

(** *** The team size *)

(** The check of the team size of a shard with the source servers
    [sourceStorageServers], in the loop over the shards. *)
Definition checkTeamSize (configuration : DatabaseConfiguration) (range : KeyRange)
  (sourceStorageServers : list UID) : Step bool unit :=
  fun s =>
    if firstClient (self s) && performQuiescentChecks (self s)
       && negb (Z.of_nat (List.length sourceStorageServers)
                =? to_size_t (storageTeamSize configuration))
    then
      (Return false,
       testFailure "Invalid team size"
         (traceEvent (event "ConsistencyCheck_InvalidTeamSize"
                        [("ShardBegin", DKey (range_begin range));
                         ("ShardEnd", DKey (range_end range));
                         ("teamSize", DInt (Z.of_nat (List.length sourceStorageServers)));
                         ("desiredTeamSize", DInt (storageTeamSize configuration))]) s))
    else (Next tt, s).

(** The head of the body of the loop over the shards: [isRelocating], the
    check of the team size, and the servers to read the shard from. *)
Definition shardServers (configuration : DatabaseConfiguration) (range : KeyRange)
  (env : ShardEnv) : Step bool (bool * list UID) :=
  let isRelocating := Z.of_nat (List.length (destStorageServers env)) >? 0 in
  _ <- checkTeamSize configuration range (sourceStorageServers env) ;;
  pure (isRelocating,
        if isRelocating then destStorageServers env else sourceStorageServers env).

(** The loop over [serverListValues], the entries of the server list in the
    order of [storageServers], once the wait for them has gone through. *)
Fixpoint serverListEntries (serverListValues : list (option StorageServerInterface))
  (storageServerInterfaces : list StorageServerInterface) (s : State)
  : list StorageServerInterface * State :=
  match serverListValues with
  | [] => (storageServerInterfaces, s)
  | Some interface :: rest =>
      serverListEntries rest (storageServerInterfaces ++ [interface]) s
  | None :: rest =>
      serverListEntries rest storageServerInterfaces
        (if performQuiescentChecks (self s)
         then testFailure "/FF/serverList changing in a quiescent database" s
         else s)
  end.

(** The [loop] that reads the entries of the server list of a shard:
    [wait(getAll(serverListEntries))] may throw, and the handler then waits
    for [tr.onError(e)], which lets the entries be read again or throws.
    Every turn takes one unit of fuel; [n] counts the turns.  (The vector
    [storageServerInterfaces] is declared before the loop, but it is only
    written after a wait that went through, which ends the loop.) *)
Fixpoint readServerList (fuel : nat) (env : ShardEnv) (storageServers : list UID) (n : nat)
  : Step bool (list StorageServerInterface) :=
  match fuel with
  | O => fun s => (Stuck, s)
  | S fuel' =>
      match serverListError env n with
      | None =>
          fun s =>
            let (storageServerInterfaces, s') :=
              serverListEntries (map (serverListValue env) storageServers) [] s in
            (Next storageServerInterfaces, s')
      | Some e =>
          match serverList_onError env n e with
          | Present _ => readServerList fuel' env storageServers (S n)
          | Failed e' => fun s => (Throw e', s)
          end
      end
  end.

(** *** getStorageSizeEstimate *)

Fixpoint storageSizeEstimatesFrom (shard : KeyRange)
  (storageServers : list StorageServerInterface) (metric : StorageServerInterface -> ErrorOr Z)
  (i : Z) (rest : list StorageServerInterface) (estimatedBytes : list Z)
  (firstValidStorageServer : Z) (s : State) : list Z * State :=
  match rest with
  | [] => (estimatedBytes, s)
  | server :: rest' =>
      match metric server with
      | Failed _ =>
          storageSizeEstimatesFrom shard storageServers metric (i + 1) rest'
            (estimatedBytes ++ [-1]) firstValidStorageServer
            (traceEvent (event "ConsistencyCheck_FailedToFetchMetrics"
                           [("Begin", DKey (range_begin shard));
                            ("End", DKey (range_end shard));
                            ("StorageServer", DUID (ssi_id server))]) s)
      | Present numBytes =>
          if firstValidStorageServer <? 0 then
            storageSizeEstimatesFrom shard storageServers metric (i + 1) rest'
              (estimatedBytes ++ [numBytes]) i s
          else
            let first := nth (Z.to_nat firstValidStorageServer) estimatedBytes 0 in
            storageSizeEstimatesFrom shard storageServers metric (i + 1) rest'
              (estimatedBytes ++ [numBytes]) firstValidStorageServer
              (if negb (first =? numBytes) then
                 traceEvent (event "ConsistencyCheck_InconsistentStorageMetrics"
                               [("ByteEstimate1", DInt first);
                                ("ByteEstimate2", DInt numBytes);
                                ("Begin", DKey (range_begin shard));
                                ("End", DKey (range_end shard));
                                ("StorageServer1",
                                 DUID (ssi_id (serverAt storageServers firstValidStorageServer)));
                                ("StorageServer2", DUID (ssi_id server))]) s
               else s)
      end
  end.

Definition getStorageSizeEstimate (env : ShardEnv)
  (storageServers : list StorageServerInterface) (shard : KeyRange) (s : State)
  : list Z * State :=
  match waitMetricsError env with
  | Some e =>
      ([], traceEvent (event "ConsistencyCheck_ErrorFetchingMetrics"
                         [("Begin", DKey (range_begin shard));
                          ("End", DKey (range_end shard));
                          ("Error", DError e)]) s)
  | None =>
      storageSizeEstimatesFrom shard storageServers (waitMetrics env) 0 storageServers [] (-1) s
  end.

(** *** The estimates of the storage servers *)

(** The loop over [estimatedBytes] from index [j] on, in a quiescent
    database; [rest] is the part of the vector from [j].  The result is
    [hasValidEstimate]. *)
Fixpoint checkEstimatesFrom (storageServers : list UID) (sampled : Z) (j : Z)
  (rest : list Z) (hasValidEstimate : bool) (s : State) : bool * State :=
  match rest with
  | [] => (hasValidEstimate, s)
  | estimate :: rest' =>
      if (estimate >=? 0) && negb (estimate =? sampled) then
        (false,
         testFailure "Storage servers had incorrect sampled estimate"
           (traceEvent (event "ConsistencyCheck_IncorrectEstimate"
                          [("EstimatedBytes", DInt estimate);
                           ("CorrectSampledBytes", DInt sampled);
                           ("StorageServer", DUID (nth (Z.to_nat j) storageServers 0))]) s))
      else if estimate <? 0 then
        (false, testFailure "Could not get storage metrics from server" s)
      else checkEstimatesFrom storageServers sampled (j + 1) rest' hasValidEstimate s
  end.

Definition checkEstimates (storageServers : list UID) (estimatedBytes : list Z)
  (sampled : Z) (s : State) : bool * State :=
  let hasValidEstimate := Z.of_nat (List.length estimatedBytes) >? 0 in
  if performQuiescentChecks (self s)
  then checkEstimatesFrom storageServers sampled 0 estimatedBytes hasValidEstimate s
  else (hasValidEstimate, s).

(** *** The size of a shard against its sampled size *)

Definition failErrorNumStdDev : float := 7.

Definition stdDev (a : ShardStats) : float := PrimFloat.sqrt (shardVariance a).

(** [int estimateError = abs(shardBytes - sampledBytes)]. *)
Definition estimateError (a : ShardStats) : Z :=
  Int32.abs (Int32.sub (shardBytes a) (sampledBytes a)).

(** [sampledKeys > 30 && estimateError > failErrorNumStdDev * stdDev]. *)
Definition inaccurateShardEstimate (a : ShardStats) : bool :=
  (sampledKeys a >? 30)
  && PrimFloat.ltb (PrimFloat.mul failErrorNumStdDev (stdDev a))
                   (double_of_int (estimateError a)).

Definition checkShardEstimate (bounds : ShardSizeBounds) (range : KeyRange)
  (a : ShardStats) (s : State) : State :=
  if inaccurateShardEstimate a then
    let numStdDev :=
      PrimFloat.div (double_of_int (estimateError a)) (PrimFloat.sqrt (shardVariance a)) in
    testFailure "Shard size is more than 7.000000 std dev from estimate"
      (traceEvent (event "ConsistencyCheck_InaccurateShardEstimate"
                     [("Min", DInt (bounds_min bounds));
                      ("Max", DInt (bounds_max bounds));
                      ("Estimate", DInt (sampledBytes a));
                      ("Actual", DInt (shardBytes a));
                      ("NumStdDev", DDouble numStdDev);
                      ("Variance", DDouble (shardVariance a));
                      ("StdDev", DDouble (stdDev a));
                      ("ShardBegin", DKey (range_begin range));
                      ("ShardEnd", DKey (range_end range));
                      ("NumKeys", DInt (shardKeys a));
                      ("NumSampledKeys", DInt (sampledKeys a))]) s)
  else s.

Section CheckDataConsistency.

(** Parts of the code base that are not in this file of the source: the byte
    sample of the storage servers, the size a reply is expected to take, the
    shuffle of [DeterministicRandom], knobs and system keys. *)
Variable isKeyValueInSample : KeyValueRef -> ByteSampleInfo.
Variable expectedSize : list KeyValueRef -> Z.
Variable randomShuffle : Z -> list Z -> list Z.
Variables SPLIT_KEY_SIZE_LIMIT REPLY_BYTE_LIMIT : Z.
Variable STORAGE_METRICS_UNFAIR_SPLIT_LIMIT : float.
Variables keyServersPrefix allKeys_end : Key.

(** *** Reading a shard from its servers *)

(** The body of the loop over the replies to one range request, at index [j]
    with [rangeResult = keyValueFutures[j].get()]; the loop carries
    [firstValidServer] and [totalReadAmount].  (In simulation the source also
    prints both replies to the standard output, which the model leaves out;
    an event logged with [suppressFor] is logged here every time.) *)
Definition readRangeResult (storageServers : list UID)
  (storageServerInterfaces : list StorageServerInterface) (range : KeyRange)
  (req : GetKeyValuesRequest) (isRelocating : bool)
  (keyValueFutures : list (ErrorOr GetKeyValuesReply)) (j : Z)
  (rangeResult : ErrorOr GetKeyValuesReply) (acc : Z * Z) : Step bool (Z * Z) :=
  fun s =>
    let (firstValidServer, totalReadAmount) := acc in
    match rangeResult with
    | Present current =>
        let totalReadAmount' := totalReadAmount + expectedSize (data current) in
        if firstValidServer =? -1 then (Next (j, totalReadAmount'), s)
        else
          let reference := getReply keyValueFutures firstValidServer in
          if replyDiffers current reference then
            (Return false,
             testFailure "Data inconsistent"
               (traceEvent (dataInconsistentEvent storageServers req j firstValidServer
                              (alignmentDiff (data current) (data reference))) s))
          else (Next (firstValidServer, totalReadAmount'), s)
    | Failed _ =>
        if negb isRelocating then
          let s1 :=
            traceEvent (event "ConsistencyCheck_StorageServerUnavailable"
                          [("StorageServer", DUID (nth (Z.to_nat j) storageServers 0));
                           ("ShardBegin", DKey (range_begin range));
                           ("ShardEnd", DKey (range_end range));
                           ("Address", DStr (ssi_address (serverAt storageServerInterfaces j)))]) s in
          if performQuiescentChecks (self s)
          then (Return false, testFailure "Storage server unavailable" s1)
          else (Next (firstValidServer, totalReadAmount), s1)
        else (Next (firstValidServer, totalReadAmount), s)
    end.

Fixpoint readRangeResults (storageServers : list UID)
  (storageServerInterfaces : list StorageServerInterface) (range : KeyRange)
  (req : GetKeyValuesRequest) (isRelocating : bool)
  (keyValueFutures rest : list (ErrorOr GetKeyValuesReply)) (j : Z) (acc : Z * Z)
  : Step bool (Z * Z) :=
  match rest with
  | [] => pure acc
  | rangeResult :: rest' =>
      acc' <- readRangeResult storageServers storageServerInterfaces range req isRelocating
                keyValueFutures j rangeResult acc ;;
      readRangeResults storageServers storageServerInterfaces range req isRelocating
        keyValueFutures rest' (j + 1) acc'
  end.

(** The body of the loop over the keys of the reference reply, at index [k]:
    the size of the shard, the variance of its estimate and the estimate.
    [pow(x, 2)] is [x * x]. *)
Definition sampleKeyValue (bounds : ShardSizeBounds) (k : Z) (kv : KeyValueRef)
  (a : ShardStats) : ShardStats :=
  let sampleInfo := isKeyValueInSample kv in
  let bytes := Int32.add (shardBytes a) (size sampleInfo) in
  let itemProbability :=
    PrimFloat.div (double_of_int (size sampleInfo)) (double_of_int (sampledSize sampleInfo)) in
  let variance :=
    if PrimFloat.ltb itemProbability 1 then
      PrimFloat.add (shardVariance a)
        (PrimFloat.mul
           (PrimFloat.mul itemProbability (PrimFloat.sub 1 itemProbability))
           (PrimFloat.mul (double_of_int (sampledSize sampleInfo))
                          (double_of_int (sampledSize sampleInfo))))
    else shardVariance a in
  if inSample sampleInfo then
    let sampled := Int32.add (sampledBytes a) (sampledSize sampleInfo) in
    let split :=
      negb (canSplit a) && (sampled >=? bounds_min bounds)
      && (Z.of_nat (String.length (key kv)) <=? SPLIT_KEY_SIZE_LIMIT)
      && PrimFloat.leb (double_of_int sampled)
           (PrimFloat.div
              (PrimFloat.mul (double_of_int (bounds_max bounds))
                             STORAGE_METRICS_UNFAIR_SPLIT_LIMIT) 2) in
    mkStats (shardKeys a) bytes sampled
      (if split then sampled else splitBytes a)
      (if k =? 0 then Int32.add (firstKeySampledBytes a) (sampledSize sampleInfo)
       else firstKeySampledBytes a)
      (Int32.incr (sampledKeys a)) variance (canSplit a || split)
  else
    mkStats (shardKeys a) bytes (sampledBytes a) (splitBytes a) (firstKeySampledBytes a)
      (sampledKeys a) variance (canSplit a).

Fixpoint sampleData (bounds : ShardSizeBounds) (k : Z) (rest : list KeyValueRef)
  (a : ShardStats) : ShardStats :=
  match rest with
  | [] => a
  | kv :: rest' => sampleData bounds (k + 1) rest' (sampleKeyValue bounds k kv a)
  end.

Definition addShardKeys (n : Z) (a : ShardStats) : ShardStats :=
  mkStats (Int32.add (shardKeys a) n) (shardBytes a) (sampledBytes a) (splitBytes a)
    (firstKeySampledBytes a) (sampledKeys a) (shardVariance a) (canSplit a).

Record ReadState : Type := mkRead {
  stats : ShardStats;
  begin : KeySelector;
  bytesReadInRange : Z
}.

(** The [try] block of the read loop of a shard: one range request to every
    server.  The result says whether the loop goes on.  (The wait for the
    rate limiter only takes time; [lastSampleKey] and [lastStartSampleKey]
    are written and never read.) *)
Definition readPage (env : ShardEnv) (range : KeyRange) (isRelocating : bool)
  (storageServers : list UID) (storageServerInterfaces : list StorageServerInterface)
  (round fuel : nat) (rs : ReadState) : Step bool (ReadState * bool) :=
  fun s =>
    match getVersion (shard_getReadVersion env round) (shard_onError env round) fuel with
    | Unfinished => (Stuck, s)
    | Thrown e => (Throw e, s)
    | Ok version =>
        let req := mkReq (begin rs) (firstGreaterOrEqual (range_end range))
                         10000 REPLY_BYTE_LIMIT version in
        let keyValueFutures :=
          map (fun server => shard_getKeyValues env round server req) storageServerInterfaces in
        match readRangeResults storageServers storageServerInterfaces range req isRelocating
                keyValueFutures keyValueFutures 0 (-1, 0) s with
        | (Next (firstValidServer, totalReadAmount), s') =>
            let reference := getReply keyValueFutures firstValidServer in
            let stats' :=
              if firstValidServer >=? 0 then
                addShardKeys (Z.of_nat (List.length (data reference)))
                  (sampleData (shardBounds env) 0 (data reference) (stats rs))
              else stats rs in
            let bytesRead := Int32.wrap (bytesReadInRange rs + totalReadAmount) in
            if (firstValidServer >=? 0) && more reference then
              if negb (Z.of_nat (List.length (data reference)) >? 0)
              then (Throw internal_error, s')
              else
                let begin' := firstGreaterThan (key (last (data reference) (mkKV "" ""))) in
                if String.eqb (getKey begin') allKeys_end
                then (Throw internal_error, s')
                else (Next (mkRead stats' begin' bytesRead, true), s')
            else (Next (mkRead stats' (begin rs) bytesRead, false), s')
        | (Return b, s') => (Return b, s')
        | (Throw e, s') => (Throw e, s')
        | (Stuck, s') => (Stuck, s')
        end
    end.

(** The [catch] of the read loop. *)
Definition readTry (env : ShardEnv) (range : KeyRange) (isRelocating : bool)
  (storageServers : list UID) (storageServerInterfaces : list StorageServerInterface)
  (round fuel : nat) (rs : ReadState) : Step bool (ReadState * bool) :=
  fun s =>
    match readPage env range isRelocating storageServers storageServerInterfaces
            round fuel rs s with
    | (Throw e, s') =>
        if isVersionProblem e
        then (Next (rs, true),
              traceEvent (event "ConsistencyCheck_RetryDataConsistency" [("Error", DError e)]) s')
        else (Throw e, s')
    | other => other
    end.

Fixpoint readLoop (fuel : nat) (env : ShardEnv) (range : KeyRange) (isRelocating : bool)
  (storageServers : list UID) (storageServerInterfaces : list StorageServerInterface)
  (round : nat) (rs : ReadState) : Step bool ReadState :=
  match fuel with
  | O => fun s => (Stuck, s)
  | S fuel' =>
      next <- readTry env range isRelocating storageServers storageServerInterfaces
                round fuel' rs ;;
      if snd next
      then readLoop fuel' env range isRelocating storageServers storageServerInterfaces
             (S round) (fst next)
      else pure (fst next)
  end.

(** [canSplit], after the read loop. *)
Definition finishCanSplit (bounds : ShardSizeBounds) (a : ShardStats) : ShardStats :=
  mkStats (shardKeys a) (shardBytes a) (sampledBytes a) (splitBytes a)
    (firstKeySampledBytes a) (sampledKeys a) (shardVariance a)
    (canSplit a
     && (Int32.sub (sampledBytes a) (splitBytes a) >=? bounds_min bounds)
     && (sampledBytes a >? splitBytes a)).

(** The check of the size of a shard against the permitted bounds, in a
    quiescent database. *)
Definition checkShardSize (bounds : ShardSizeBounds) (range : KeyRange) (shardCount : Z)
  (a : ShardStats) : Step bool unit :=
  fun s =>
    if canSplit a && (sampledKeys a >? 5) && performQuiescentChecks (self s)
       && negb (String.prefix keyServersPrefix (range_begin range))
       && ((sampledBytes a <? bounds_min bounds - 3 * permittedError bounds)
           || (Int32.sub (sampledBytes a) (firstKeySampledBytes a)
               >? bounds_max bounds + 3 * permittedError bounds))
    then
      (Return false,
       testFailure
         (String.append "Shard size in quiescent database is too "
            (if sampledBytes a <? bounds_min bounds then "small" else "large"))
         (traceEvent (event "ConsistencyCheck_InvalidShardSize"
                        [("Min", DInt (bounds_min bounds));
                         ("Max", DInt (bounds_max bounds));
                         ("Size", DInt (shardBytes a));
                         ("EstimatedSize", DInt (sampledBytes a));
                         ("ShardBegin", DKey (range_begin range));
                         ("ShardEnd", DKey (range_end range));
                         ("ShardCount", DInt shardCount);
                         ("SampledKeys", DInt (sampledKeys a))]) s))
    else (Next tt, s).

(** The checks on what was read of a shard: the estimates of the servers,
    the accuracy of the sampled size, the permitted size. *)
Definition checkShardSizes (range : KeyRange) (shardCount : Z) (env : ShardEnv)
  (storageServers : list UID) (estimatedBytes : list Z) (read : ShardStats)
  : Step bool unit :=
  fun s =>
    let a := finishCanSplit (shardBounds env) read in
    let (_hasValidEstimate, s1) := checkEstimates storageServers estimatedBytes (sampledBytes a) s in
    let s2 := checkShardEstimate (shardBounds env) range a s1 in
    checkShardSize (shardBounds env) range shardCount a s2.

(** On the first client, what follows the estimates of a shard: the failure
    of a quiescent database without estimates, or else, in a distributed
    check, the loop that adds [std::max(estimatedBytes[j], 0)] to
    [storageServerSizes[storageServers[j]]] for every [j] below
    [storageServers.size()].  The totals in [storageServerSizes] are never
    read and are left out, but not the read of [estimatedBytes[j]]: with
    fewer estimates than servers it is past the end of the vector, and the
    run leaves defined behaviour. *)
Definition addEstimatedSizes (storageServers : list UID) (estimatedBytes : list Z)
  : Step bool unit :=
  fun s =>
    let w := self s in
    if firstClient w then
      if performQuiescentChecks w && (Z.of_nat (List.length estimatedBytes) =? 0)
      then (Next tt, testFailure "Error fetching storage metrics" s)
      else if distributed w && firstClient w then
        if Z.of_nat (List.length estimatedBytes) <? Z.of_nat (List.length storageServers)
        then (Stuck, s)
        else (Next tt, s)
      else (Next tt, s)
    else (Next tt, s).

(** [!self->firstClient || shard % (effectiveClientCount *
    self->shardSampleFactor) == 0]: whether the rest of the body of the loop
    is run for the shard.  The product is an [int]; on the first client a
    remainder by zero, and the remainder of the least [int] by -1, leave
    defined behaviour. *)
Definition shardIsSampled (shard : Z) : Step bool bool :=
  fun s =>
    let w := self s in
    if negb (firstClient w) then (Next true, s)
    else
      let divisor := Int32.mul (effectiveClientCount w) (shardSampleFactor w) in
      if (divisor =? 0) || ((shard =? Int32.min_int) && (divisor =? -1))
      then (Stuck, s)
      else (Next (Z.rem shard divisor =? 0), s).

(** The body of the loop over the shards; [fuel] is that of the loop that
    reads the server list and of the loop that reads the shard. *)
Definition checkShard (configuration : DatabaseConfiguration) (shardCount shard : Z)
  (range : KeyRange) (env : ShardEnv) (fuel : nat) : Step bool unit :=
  servers <- shardServers configuration range env ;;
  let isRelocating := fst servers in
  let storageServers := snd servers in
  storageServerInterfaces <- readServerList fuel env storageServers 0 ;;
  estimatedBytes <-
    (fun s =>
       let (estimatedBytes, s') := getStorageSizeEstimate env storageServerInterfaces range s in
       (Next estimatedBytes, s')) ;;
  _ <- addEstimatedSizes storageServers estimatedBytes ;;
  sampled <- shardIsSampled shard ;;
  bytesRead <-
    (if sampled then
       rs <- readLoop fuel env range isRelocating storageServers storageServerInterfaces
               0 (mkRead noStats (firstGreaterOrEqual (range_begin range)) 0) ;;
       _ <- checkShardSizes range shardCount env storageServers estimatedBytes (stats rs) ;;
       pure (bytesReadInRange rs)
     else pure 0) ;;
  fun s =>
    (Next tt,
     if bytesRead >? 0
     then traceEvent (event "ConsistencyCheck_ReadRange"
                        [("range", DKey (range_begin range)); ("bytesRead", DInt bytesRead)]) s
     else s).

(** [ranges]: the adjacent pairs of [keyLocations]. *)
Fixpoint rangesOf (keyLocations : list KeyValueRef) : list KeyRange :=
  match keyLocations with
  | [] => []
  | location :: rest =>
      match rest with
      | [] => []
      | next :: _ => mkRange (key location) (key next) :: rangesOf rest
      end
  end.

(** [for(; i < ranges.size(); i += increment)]; [i] is an [int] and
    [ranges.size()] a [size_t].  [env shard] holds the decoded value of
    [keyLocations[shard]] and the answers of the cluster for that shard. *)
Fixpoint shardLoop (fuel : nat) (configuration : DatabaseConfiguration)
  (ranges : list KeyRange) (shardOrder : list Z) (env : Z -> ShardEnv) (i inc : Z)
  : Step bool unit :=
  match fuel with
  | O => fun s => (Stuck, s)
  | S fuel' =>
      if to_size_t i <? Z.of_nat (List.length ranges) then
        let shard := nth (Z.to_nat i) shardOrder 0 in
        let range := nth (Z.to_nat shard) ranges (mkRange "" "") in
        _ <- checkShard configuration (Z.of_nat (List.length ranges)) shard range
               (env shard) fuel' ;;
        shardLoop fuel' configuration ranges shardOrder env (Int32.add i inc) inc
      else pure tt
  end.

Definition shardOrderOf (w : ConsistencyCheckWorkload) (shardCount : nat) : list Z :=
  let identity := map Z.of_nat (seq 0 shardCount) in
  if shuffleShards w then
    let seed := (sharedRandomNumber w + repetitions w) mod 2 ^ 32 in
    randomShuffle (if seed =? 0 then 1 else seed) identity
  else identity.

Definition checkDataConsistency (fuel : nat) (keyLocations : list KeyValueRef)
  (configuration : DatabaseConfiguration) (env : Z -> ShardEnv) (s : State)
  : Result bool * State :=
  let w := self s in
  let ranges := rangesOf keyLocations in
  match shardLoop fuel configuration ranges (shardOrderOf w (List.length ranges)) env
          (firstShardIndex w) (increment w) s with
  | (Next _, s') => (Ok true, s')
  | (Return b, s') => (Ok b, s')
  | (Throw e, s') => (Thrown e, s')
  | (Stuck, s') => (Unfinished, s')
  end.

End CheckDataConsistency.

(** ** The handler of runCheck *)

Section RunCheck.

(** [e.code()] and [e.name()]. *)
Variable errorCode : Error -> Z.
Variable errorName : Error -> string.

Definition loggedAsRetry (e : Error) : bool :=
  match e with
  | transaction_too_old | future_version | wrong_shard_server
  | all_alternatives_failed | server_request_queue_full => true
  | _ => false
  end.

(** The [catch] block of [runCheck]. *)
Definition runCheckCatch (e : Error) (s : State) : State :=
  if loggedAsRetry e
  then traceEvent (event "ConsistencyCheck_Retry" [("Error", DError e)]) s
  else testFailure ("Error " ++ format_d (errorCode e) ++ " - " ++ errorName e)%string s.

End RunCheck.

(** ** The workload as a sequence of statements *)

(** [_setup]: [quietDatabase] is what the wait for a quiet database gave
    within the timeout, or the error thrown. *)
Definition _setup (quietDatabase : ErrorOr unit) (s : State) : State :=
  if firstClient (self s) && performQuiescentChecks (self s) then
    match quietDatabase with
    | Present _ => s
    | Failed e =>
        let s1 := testFailure "Unable to achieve a quiet database"
                    (traceEvent (event "ConsistencyCheck_QuietDatabaseError"
                                   [("Error", DError e)]) s) in
        mkState (set_performQuiescentChecks false (self s1)) (trace s1)
    end
  else s.

(** The statements of the workload that write to the workload object or to
    the trace log, and the actors above, each with the answers of the cluster
    it runs on. *)
Inductive Statement : Type :=
| STestFailure (message : string)
| STraceEvent (ev : TraceEvent)
| SSetup (quietDatabase : ErrorOr unit)
| SNextRepetition
| SQuiescentQueueChecks (configuration : DatabaseConfiguration) (q : QuiescentInputs)
| SRunCheckCatch (errorCode : Error -> Z) (errorName : Error -> string) (e : Error)
| SGetKeyLocations
    (getReadVersion : nat -> nat -> ErrorOr Version)
    (onError : nat -> nat -> Error -> ErrorOr unit)
    (getKeyValues :
       nat -> StorageServerInterface -> GetKeyValuesRequest -> ErrorOr GetKeyValuesReply)
    (krmDecodeRanges : Key -> KeyRange -> GetKeyValuesReply -> list KeyValueRef)
    (keyServersPrefix allKeys_begin allKeys_end : Key)
    (MOVE_KEYS_KRM_LIMIT MOVE_KEYS_KRM_LIMIT_BYTES : Z)
    (fuel : nat) (shards : list (KeyRange * list StorageServerInterface))
| SCheckDataConsistency
    (isKeyValueInSample : KeyValueRef -> ByteSampleInfo)
    (expectedSize : list KeyValueRef -> Z)
    (randomShuffle : Z -> list Z -> list Z)
    (SPLIT_KEY_SIZE_LIMIT REPLY_BYTE_LIMIT : Z)
    (STORAGE_METRICS_UNFAIR_SPLIT_LIMIT : float)
    (keyServersPrefix allKeys_end : Key)
    (fuel : nat) (keyLocations : list KeyValueRef)
    (configuration : DatabaseConfiguration) (env : Z -> ShardEnv).

Definition exec (st : Statement) (s : State) : State :=
  match st with
  | STestFailure message => testFailure message s
  | STraceEvent ev => traceEvent ev s
  | SSetup quietDatabase => _setup quietDatabase s
  | SNextRepetition =>
      mkState (set_repetitions (repetitions (self s) + 1) (self s)) (trace s)
  | SQuiescentQueueChecks configuration q => snd (quiescentQueueChecks configuration q s)
  | SRunCheckCatch errorCode errorName e => runCheckCatch errorCode errorName e s
  | SGetKeyLocations grv oe gkv krm prefix kb ke lim limBytes fuel shards =>
      snd (getKeyLocations grv oe gkv krm prefix kb ke lim limBytes fuel shards s)
  | SCheckDataConsistency sample esize shuffle splitLimit replyLimit unfair prefix ke
                          fuel keyLocations configuration env =>
      snd (checkDataConsistency sample esize shuffle splitLimit replyLimit unfair prefix ke
             fuel keyLocations configuration env s)
  end.

Definition run (program : list Statement) (s : State) : State :=
  fold_left (fun s' st => exec st s') program s.

(** ** Vocabulary of the statements below *)

(** [s'] is [s] after some events were logged and some failures recorded,
    and nothing else. *)
Inductive extends (s : State) : State -> Prop :=
| extends_refl : extends s s
| extends_trace (s' : State) (ev : TraceEvent) :
    extends s s' -> extends s (traceEvent ev s')
| extends_failure (s' : State) (message : string) :
    extends s s' -> extends s (testFailure message s').

(** The first reply that is present, with its index counted from [j]. *)
Fixpoint firstPresentFrom (j : Z) (replies : list (ErrorOr GetKeyValuesReply))
  : option (Z * GetKeyValuesReply) :=
  match replies with
  | [] => None
  | Present r :: _ => Some (j, r)
  | Failed _ :: rest => firstPresentFrom (j + 1) rest
  end.

Definition firstPresent (replies : list (ErrorOr GetKeyValuesReply))
  : option (Z * GetKeyValuesReply) :=
  firstPresentFrom 0 replies.

(** Every reply that is present is the same as [reference]. *)
Definition allAgree (reference : GetKeyValuesReply) (replies : list (ErrorOr GetKeyValuesReply))
  : Prop :=
  forall current, In (Present current) replies -> replyDiffers current reference = false.

(** An estimate of a storage server that is the recomputed sampled size. *)
Definition goodEstimate (sampled estimate : Z) : Prop := 0 <= estimate /\ estimate = sampled.

(** The failure messages recorded from [s] to [s']. *)
Definition newReasons (s s' : State) : list string :=
  skipn (List.length (reasons (trace s))) (reasons (trace s')).

(** Keys in strictly increasing order. *)
Fixpoint keysIncrease (l : list KeyValueRef) : Prop :=
  match l with
  | [] => True
  | a :: rest =>
      match rest with
      | [] => True
      | b :: _ => String.ltb (key a) (key b) = true /\ keysIncrease rest
      end
  end.

(** Every key of [l] is after [k]. *)
Definition keysAbove (k : Key) (l : list KeyValueRef) : Prop :=
  Forall (fun b => String.ltb k (key b) = true) l.

Definition hasKey (k : Key) (l : list KeyValueRef) : bool :=
  existsb (fun kv => String.eqb k (key kv)) l.

Definition hasKeyValue (a : KeyValueRef) (l : list KeyValueRef) : bool :=
  existsb (KeyValueRef_eqb a) l.

(** The counters of [t] are not negative, and can count every item of
    [current] and of [reference] without leaving the range of [int]. *)
Definition roomFor (current reference : list KeyValueRef) (t : DiffTotals) : Prop :=
  0 <= currentUniques t /\ 0 <= referenceUniques t
  /\ 0 <= valueMismatches t /\ 0 <= matchingKVPairs t
  /\ currentUniques t + valueMismatches t + matchingKVPairs t
     + Z.of_nat (List.length current) <= Int32.max_int
  /\ referenceUniques t + valueMismatches t + matchingKVPairs t
     + Z.of_nat (List.length reference) <= Int32.max_int.

(** How many items satisfy [f]. *)
Definition count {A : Type} (f : A -> bool) (l : list A) : Z :=
  Z.of_nat (List.length (filter f l)).

(** ** getDatabaseSize *)

Section GetDatabaseSize.

(** [tr.getStorageMetrics(...)] at the [n]-th turn of the loop, as the
    [bytes] of the metrics, and [tr.onError(e)] at that turn. *)
Variable getStorageMetrics : nat -> ErrorOr Z.
Variable onError : nat -> Error -> ErrorOr unit.

(** The body of the loop.  Unlike [getVersion], the handler waits for the
    future of [tr.onError(e)], whose error leaves the actor. *)
Definition getDatabaseSize_body (n : nat) : Flow Z unit :=
  try_catch
    (wait (getStorageMetrics n) (fun bytes => Return bytes))
    (fun e => wait (onError n e) (fun _ => Next tt)).

Fixpoint getDatabaseSize_from (fuel n : nat) : Result Z :=
  match fuel with
  | O => Unfinished
  | S fuel' =>
      match getDatabaseSize_body n with
      | Return bytes => Ok bytes
      | Throw e => Thrown e
      | Next _ => getDatabaseSize_from fuel' (S n)
      | Stuck => Unfinished
      end
  end.

Definition getDatabaseSize (fuel : nat) : Result Z := getDatabaseSize_from fuel 0.

End GetDatabaseSize.

(** ** getKeyServers *)

Record MasterProxyInterface : Type := mkProxy {
  proxy_id : UID;
  proxy_address : NetworkAddress
}.

Record GetKeyServerLocationsRequest : Type := mkLocationsRequest {
  locations_begin : Key;
  locations_end : Key;
  locations_limit : Z;
  locations_reverse : bool
}.

(** Modelled from the spec: the declaration of [GetKeyServerLocationsReply]
    is not in this file of the source.  The spec gives the reply of
    [getKeyServersLocations] as a list of key ranges, each with its storage
    servers; the source reads it as [results]. *)
Record GetKeyServerLocationsReply : Type := mkLocationsReply {
  results : list (KeyRange * list StorageServerInterface)
}.

(** What the [while] loop of [getKeyServers] carries. *)
Record KeyServersState : Type := mkKeyServers {
  keyServers : list (KeyRange * list StorageServerInterface);
  keyServers_begin : Key
}.

(** [results.back().first.end].  On an empty vector [back()] is undefined in
    the source; the model then reads the empty key. *)
Definition lastRangeEnd (shards : list (KeyRange * list StorageServerInterface)) : Key :=
  range_end (fst (last shards (mkRange "" "", []))).

(** The [for] loop that reads the key server location results, from index
    [i] on; [rest] is the part of [keyServerLocationFutures] from [i], each
    future with the proxy it was asked of.  The loop carries
    [keyServersInsertedForThisIteration], [keyServers] and [begin]; a
    [break] ends it as its last turn does. *)
Fixpoint readKeyServerLocations
  (rest : list (MasterProxyInterface * ErrorOr GetKeyServerLocationsReply))
  (keyServersInsertedForThisIteration : bool) (st : KeyServersState) (s : State)
  : Flow bool (bool * KeyServersState) * State :=
  match rest with
  | [] => (Next (keyServersInsertedForThisIteration, st), s)
  | (proxy, shards) :: rest' =>
      if performQuiescentChecks (self s) && negb (present shards) then
        (Return false,
         testFailure "Master proxy unavailable"
           (traceEvent (event "ConsistencyCheck_MasterProxyUnavailable"
                          [("MasterProxyID", DUID (proxy_id proxy))]) s))
      else
        match shards with
        | Present reply =>
            if negb keyServersInsertedForThisIteration then
              let st' := mkKeyServers (keyServers st ++ results reply)
                                      (lastRangeEnd (results reply)) in
              if negb (performQuiescentChecks (self s))
              then (Next (true, st'), s)
              else readKeyServerLocations rest' true st' s
            else readKeyServerLocations rest' keyServersInsertedForThisIteration st s
        | Failed _ =>
            readKeyServerLocations rest' keyServersInsertedForThisIteration st s
        end
  end.

Section GetKeyServers.

(** The cluster, as the [round]-th turn of the [while] loop sees it: the
    master proxies of the database, the reply of each to the request for
    key server locations, and whether the notification that the proxies
    changed comes before all the replies are in. *)
Variable getMasterProxies : nat -> ErrorOr (list MasterProxyInterface).
Variable getKeyServersLocations :
  nat -> MasterProxyInterface -> GetKeyServerLocationsRequest
  -> ErrorOr GetKeyServerLocationsReply.
Variable onMasterProxiesChanged : nat -> bool.

(** The key space of the shard map and the fault injection switch are not
    part of this file of the source. *)
Variables keyServersKeys_begin keyServersKeys_end : Key.
Variable BUGGIFY : bool.

Definition limitKeyServers : Z := if BUGGIFY then 1 else 100.

Definition keyServerLocationFutures (round : nat) (proxyInfo : list MasterProxyInterface)
  (st : KeyServersState)
  : list (MasterProxyInterface * ErrorOr GetKeyServerLocationsReply) :=
  map (fun proxy =>
         (proxy,
          getKeyServersLocations round proxy
            (mkLocationsRequest (keyServers_begin st) keyServersKeys_end
                                limitKeyServers false)))
      proxyInfo.

(** One turn of the [while] loop, entered with [begin < end]. *)
Definition keyServersRound (round : nat) (st : KeyServersState) (s : State)
  : Flow bool KeyServersState * State :=
  match getMasterProxies round with
  | Failed e => (Throw e, s)
  | Present proxyInfo =>
      if onMasterProxiesChanged round then (Next st, s)
      else
        match readKeyServerLocations (keyServerLocationFutures round proxyInfo st)
                false st s with
        | (Next (_, st'), s') => (Next st', s')
        | (Return b, s') => (Return b, s')
        | (Throw e, s') => (Throw e, s')
        | (Stuck, s') => (Stuck, s')
        end
  end.

(** The [while] loop; every turn takes one unit of fuel.  (A turn that
    inserted nothing waits a second before the next one.) *)
Fixpoint keyServersLoop (fuel round : nat) (st : KeyServersState) (s : State)
  : Flow bool KeyServersState * State :=
  if String.ltb (keyServers_begin st) keyServersKeys_end then
    match fuel with
    | O => (Stuck, s)
    | S fuel' =>
        match keyServersRound round st s with
        | (Next st', s') => keyServersLoop fuel' (S round) st' s'
        | other => other
        end
    end
  else (Next st, s).

(** The actor: its result and what was sent through [keyServersPromise]. *)
Definition getKeyServers (fuel : nat) (s : State)
  : Result bool * option (list (KeyRange * list StorageServerInterface)) * State :=
  match keyServersLoop fuel 0 (mkKeyServers [] keyServersKeys_begin) s with
  | (Next st, s') => (Ok true, Some (keyServers st), s')
  | (Return b, s') => (Ok b, None, s')
  | (Throw e, s') => (Thrown e, None, s')
  | (Stuck, s') => (Unfinished, None, s')
  end.

End GetKeyServers.

(** ** The checks of the topology *)

(** The enumerations of [ProcessClass], by their numbers. *)
Definition ClassType := Z.
Definition ClassSource := Z.
Definition Fitness := Z.
Definition ClusterRole := Z.

(** Modelled from the spec: the declaration of [ProcessClass] is not in this
    file of the source.  The spec pairs a worker with its process class and
    tells workers apart by class ([StorageClass], [UnsetClass]); the source
    builds a class from a class type and a source, reads [classType()] and
    compares a class with a class type. *)
Record ProcessClass : Type := mkProcessClass {
  classType : ClassType;
  classSource : ClassSource
}.

Record WorkerInterface : Type := mkWorker { worker_address : NetworkAddress }.

Record TLogInterface : Type := mkTLog { tlog_id : UID; tlog_address : NetworkAddress }.

Record ResolverInterface : Type := mkResolver { resolver_address : NetworkAddress }.

(** What the simulator knows of a process; [isReliable()] is a method of the
    simulator, read here as a field. *)
Record ProcessInfo : Type := mkProcess {
  process_address : NetworkAddress;
  process_failed : bool;
  process_isReliable : bool;
  process_name : string;
  process_startingClass : ProcessClass
}.

(** The parts of [ServerDBInfo] the workload reads: the addresses of the
    cluster controller and of the master, the proxies, the resolvers, and
    the logs that [allPresentLogs()] gives. *)
Record ServerDBInfo : Type := mkDBInfo {
  clusterController_address : NetworkAddress;
  master_address : NetworkAddress;
  db_proxies : list MasterProxyInterface;
  db_resolvers : list ResolverInterface;
  allPresentLogs : list TLogInterface
}.

(** [std::set<UID>] and [std::set<NetworkAddress>], of which the source only
    asks [count]: the members, in any order. *)
Definition hasUID (id : UID) (ids : list UID) : bool := existsb (Z.eqb id) ids.

Definition hasAddress (address : NetworkAddress) (addresses : list NetworkAddress) : bool :=
  existsb (String.eqb address) addresses.

(** [std::map<NetworkAddress, std::set<UID>>], which the source never
    iterates: the entries, in the order of their first insertion. *)
Definition StatefulProcesses : Type := list (NetworkAddress * list UID).

(** [statefulProcesses[address]], as a value. *)
Fixpoint storesAt (address : NetworkAddress) (m : StatefulProcesses) : list UID :=
  match m with
  | [] => []
  | (a, ids) :: rest => if String.eqb a address then ids else storesAt address rest
  end.

(** [statefulProcesses[address].insert(id)]. *)
Fixpoint insertStore (address : NetworkAddress) (id : UID) (m : StatefulProcesses)
  : StatefulProcesses :=
  match m with
  | [] => [(address, [id])]
  | (a, ids) :: rest =>
      if String.eqb a address
      then (a, if hasUID id ids then ids else id :: ids) :: rest
      else (a, ids) :: insertStore address id rest
  end.

Definition statefulProcessesOf (storageServers : list StorageServerInterface)
  (logs : list TLogInterface) : StatefulProcesses :=
  fold_left (fun m log => insertStore (tlog_address log) (tlog_id log) m) logs
    (fold_left (fun m ss => insertStore (ssi_address ss) (ssi_id ss) m) storageServers []).

(** [std::map<NetworkAddress, ProcessClass>], which the source never
    iterates. *)
Definition ProcessMap : Type := list (NetworkAddress * ProcessClass).

(** [m.find(address)]. *)
Fixpoint classAt (address : NetworkAddress) (m : ProcessMap) : option ProcessClass :=
  match m with
  | [] => None
  | (a, class) :: rest => if String.eqb a address then Some class else classAt address rest
  end.

(** [m.count(address)]. *)
Definition countAt (address : NetworkAddress) (m : ProcessMap) : bool :=
  match classAt address m with Some _ => true | None => false end.

(** [m[address] = class]. *)
Fixpoint setClass (address : NetworkAddress) (class : ProcessClass) (m : ProcessMap)
  : ProcessMap :=
  match m with
  | [] => [(address, class)]
  | (a, c) :: rest =>
      if String.eqb a address then (a, class) :: rest
      else (a, c) :: setClass address class rest
  end.

(** [std::set<ProcessClass::ClassType>], which the source iterates: the
    members in increasing order. *)
Fixpoint insertClassType (c : ClassType) (set : list ClassType) : list ClassType :=
  match set with
  | [] => [c]
  | x :: rest =>
      if c <? x then c :: set
      else if c =? x then set
      else x :: insertClassType c rest
  end.

Definition classTypesOf (workers : list (WorkerInterface * ProcessClass)) : list ClassType :=
  fold_left (fun set worker => insertClassType (classType (snd worker)) set) workers [].

Definition processMapOf (workers : list (WorkerInterface * ProcessClass)) : ProcessMap :=
  fold_left (fun m worker => setClass (worker_address (fst worker)) (snd worker) m) workers [].

Section Topology.

(** Parts of the code base that are not in this file of the source: the
    exclusion list of the configuration, the enumerators of [ProcessClass],
    its default value, its printed form, and the fitness of a class for a
    role. *)
Variable isExcludedServer : DatabaseConfiguration -> NetworkAddress -> bool.
Variables UnsetClass StorageClass TesterClass : ClassType.
Variables CommandLineSource InvalidSource : ClassSource.
Variables NeverAssign ExcludeFit : Fitness.
Variables ClusterController Master Proxy Resolver : ClusterRole.
Variable machineClassFitness : ProcessClass -> ClusterRole -> Fitness.
Variable defaultProcessClass : ProcessClass.
Variable classToString : ProcessClass -> string.

(** *** checkForStorage *)

(** The inner loop: [found]. *)
Fixpoint found (address : NetworkAddress) (storageServers : list StorageServerInterface)
  : bool :=
  match storageServers with
  | [] => false
  | ss :: rest =>
      if String.eqb (ssi_address ss) address then true else found address rest
  end.

(** The worker is one that should have a storage server. *)
Definition needsStorage (configuration : DatabaseConfiguration)
  (worker : WorkerInterface * ProcessClass) : bool :=
  negb (isExcludedServer configuration (worker_address (fst worker)))
  && ((classType (snd worker) =? StorageClass) || (classType (snd worker) =? UnsetClass)).

(** The loop over the workers, from [rest] on. *)
Fixpoint checkForStorageFrom (configuration : DatabaseConfiguration)
  (storageServers : list StorageServerInterface)
  (rest : list (WorkerInterface * ProcessClass)) (s : State) : bool * State :=
  match rest with
  | [] => (true, s)
  | worker :: rest' =>
      if needsStorage configuration worker
         && negb (found (worker_address (fst worker)) storageServers)
      then
        (false,
         testFailure "No storage server on worker"
           (traceEvent (event "ConsistencyCheck_NoStorage"
                          [("Address", DStr (worker_address (fst worker)))]) s))
      else checkForStorageFrom configuration storageServers rest' s
  end.

(** The actor; [workers] and [storageServers] are what [getWorkers] and
    [getStorageServers] gave. *)
Definition checkForStorage (workers : ErrorOr (list (WorkerInterface * ProcessClass)))
  (storageServers : ErrorOr (list StorageServerInterface))
  (configuration : DatabaseConfiguration) (s : State) : Result bool * State :=
  match workers, storageServers with
  | Failed e, _ => (Thrown e, s)
  | Present _, Failed e => (Thrown e, s)
  | Present ws, Present ss =>
      let (b, s') := checkForStorageFrom configuration ss ws s in (Ok b, s')
  end.

(** *** checkForExtraDataStores *)

(** The loop over the stores of the worker at [address]; [registered] is
    [statefulProcesses[address]].  (In simulation the source also has the
    simulator reboot the process, which the event
    [ConsistencyCheck_RebootProcess] records.) *)
Fixpoint extraStoresOf (isSimulated : bool) (address : NetworkAddress)
  (registered : list UID) (stores : list UID) (foundExtraDataStore : bool) (s : State)
  : bool * State :=
  match stores with
  | [] => (foundExtraDataStore, s)
  | id :: rest =>
      if negb (hasUID id registered) then
        let s1 := traceEvent (event "ConsistencyCheck_ExtraDataStore"
                                [("Address", DStr address); ("DataStoreID", DUID id)]) s in
        let s2 :=
          if isSimulated
          then traceEvent (event "ConsistencyCheck_RebootProcess"
                             [("Address", DStr address); ("DataStoreID", DUID id)]) s1
          else s1 in
        extraStoresOf isSimulated address registered rest true s2
      else extraStoresOf isSimulated address registered rest foundExtraDataStore s
  end.

(** The loop over the workers; [diskStoreRequest worker] is the reply of the
    worker to the request for its disk stores. *)
Fixpoint extraDataStoresFrom (isSimulated : bool)
  (diskStoreRequest : WorkerInterface -> ErrorOr (list UID))
  (statefulProcesses : StatefulProcesses)
  (rest : list (WorkerInterface * ProcessClass)) (foundExtraDataStore : bool) (s : State)
  : Flow bool bool * State :=
  match rest with
  | [] => (Next foundExtraDataStore, s)
  | worker :: rest' =>
      let address := worker_address (fst worker) in
      match diskStoreRequest (fst worker) with
      | Failed e =>
          (Return false,
           testFailure "Failed to get data stores"
             (traceEvent (event "ConsistencyCheck_GetDataStoreFailure"
                            [("Address", DStr address); ("Error", DError e)]) s))
      | Present stores =>
          let (found', s') :=
            extraStoresOf isSimulated address (storesAt address statefulProcesses)
              stores foundExtraDataStore s in
          extraDataStoresFrom isSimulated diskStoreRequest statefulProcesses rest' found' s'
      end
  end.

Definition checkForExtraDataStores (isSimulated : bool)
  (workers : ErrorOr (list (WorkerInterface * ProcessClass)))
  (storageServers : ErrorOr (list StorageServerInterface)) (db : ServerDBInfo)
  (diskStoreRequest : WorkerInterface -> ErrorOr (list UID)) (s : State)
  : Result bool * State :=
  match workers, storageServers with
  | Failed e, _ => (Thrown e, s)
  | Present _, Failed e => (Thrown e, s)
  | Present ws, Present ss =>
      match extraDataStoresFrom isSimulated diskStoreRequest
              (statefulProcessesOf ss (allPresentLogs db)) ws false s with
      | (Next foundExtraDataStore, s') =>
          if foundExtraDataStore
          then (Ok false, testFailure "Extra data stores present on workers" s')
          else (Ok true, s')
      | (Return b, s') => (Ok b, s')
      | (Throw e, s') => (Thrown e, s')
      | (Stuck, s') => (Unfinished, s')
      end
  end.

(** *** workerHasClass *)

Fixpoint workerHasClass (workers : list (WorkerInterface * ProcessClass))
  (address : NetworkAddress) (machineClass : ClassType) (interfaceType : string)
  (s : State) : bool * State :=
  match workers with
  | [] =>
      (false,
       traceEvent (event "ConsistencyCheck_WorkerNotFound"
                     [("Address", DStr address);
                      ("ActualClass",
                       DStr (classToString (mkProcessClass machineClass CommandLineSource)));
                      ("InterfaceType", DStr interfaceType)]) s)
  | worker :: rest =>
      if String.eqb (worker_address (fst worker)) address then
        if (classType (snd worker) =? machineClass) || (classType (snd worker) =? UnsetClass)
        then (true, s)
        else
          (false,
           traceEvent (event "ConsistencyCheck_InvalidClassType"
                         [("RequestedClass", DStr (classToString (snd worker)));
                          ("ActualClass",
                           DStr (classToString (mkProcessClass machineClass CommandLineSource)));
                          ("InterfaceType", DStr interfaceType)]) s)
      else workerHasClass rest address machineClass interfaceType s
  end.

(** *** checkWorkerList *)

(** The parts of a network address; [publicAddress ip port] is
    [NetworkAddress(ip, port, true, false)]. *)
Variables address_ip address_port : NetworkAddress -> Z.
Variable publicAddress : Z -> Z -> NetworkAddress.

(** The loop over the workers, which collects [workerAddresses];
    [getProcessByAddress] is the simulator's. *)
Fixpoint workerAddressesFrom (getProcessByAddress : NetworkAddress -> option ProcessInfo)
  (rest : list (WorkerInterface * ProcessClass)) (workerAddresses : list NetworkAddress)
  (s : State) : Flow bool (list NetworkAddress) * State :=
  match rest with
  | [] => (Next workerAddresses, s)
  | it :: rest' =>
      let address := worker_address (fst it) in
      if match getProcessByAddress address with
         | Some info => process_failed info
         | None => true
         end
      then
        (Return false,
         traceEvent (event "ConsistencyCheck_FailedWorkerInList" [("addr", DStr address)]) s)
      else
        workerAddressesFrom getProcessByAddress rest'
          (publicAddress (address_ip address) (address_port address) :: workerAddresses) s
  end.

(** The process is one that the worker list should hold. *)
Definition isServerProcess (process : ProcessInfo) : bool :=
  process_isReliable process && String.eqb (process_name process) "Server"
  && negb (classType (process_startingClass process) =? TesterClass).

(** The loop over all the processes of the simulator. *)
Fixpoint missingFromList (workerAddresses : list NetworkAddress) (all : list ProcessInfo)
  (s : State) : bool * State :=
  match all with
  | [] => (true, s)
  | process :: rest =>
      if isServerProcess process
         && negb (hasAddress (process_address process) workerAddresses)
      then
        (false,
         traceEvent (event "ConsistencyCheck_WorkerMissingFromList"
                       [("addr", DStr (process_address process))]) s)
      else missingFromList workerAddresses rest s
  end.

Definition checkWorkerList (extraDB : bool)
  (workers : ErrorOr (list (WorkerInterface * ProcessClass)))
  (getProcessByAddress : NetworkAddress -> option ProcessInfo)
  (getAllProcesses : list ProcessInfo) (s : State) : Result bool * State :=
  if extraDB then (Ok true, s)
  else
    match workers with
    | Failed e => (Thrown e, s)
    | Present ws =>
        match workerAddressesFrom getProcessByAddress ws [] s with
        | (Next workerAddresses, s') =>
            let (b, s'') := missingFromList workerAddresses getAllProcesses s' in (Ok b, s'')
        | (Return b, s') => (Ok b, s')
        | (Throw e, s') => (Thrown e, s')
        | (Stuck, s') => (Unfinished, s')
        end
    end.

(** *** getBestAvailableFitness *)

Definition getBestAvailableFitness (availableClassTypes : list ClassType)
  (role : ClusterRole) : Fitness :=
  fold_left
    (fun bestAvailableFitness classType =>
       Z.min bestAvailableFitness
             (machineClassFitness (mkProcessClass classType InvalidSource) role))
    availableClassTypes NeverAssign.

(** *** checkUsingDesiredClasses *)

(** [m.count(address) ? m[address].machineClassFitness(role) : -1]. *)
Definition fitnessAt (m : ProcessMap) (address : NetworkAddress) (role : ClusterRole)
  : Fitness :=
  match classAt address m with
  | Some class => machineClassFitness class role
  | None => -1
  end.

(** [!m.count(address) || m[address].machineClassFitness(role) != best]. *)
Definition notBest (m : ProcessMap) (address : NetworkAddress) (role : ClusterRole)
  (best : Fitness) : bool :=
  match classAt address m with
  | Some class => negb (machineClassFitness class role =? best)
  | None => true
  end.

(** The fitness the master is held to. *)
Definition bestMasterFitnessOf (nonExcludedClassTypes allClassTypes : list ClassType)
  : Fitness :=
  let bestMasterFitness := getBestAvailableFitness nonExcludedClassTypes Master in
  if bestMasterFitness =? NeverAssign then
    let bestOfAll := getBestAvailableFitness allClassTypes Master in
    if negb (bestOfAll =? NeverAssign) then ExcludeFit else bestOfAll
  else bestMasterFitness.

(** The condition of the check of the master, and
    [nonExcludedWorkerProcessMap] after it: reading
    [nonExcludedWorkerProcessMap[address]] enters the default class for an
    address that the map does not hold. *)
Definition masterNotBest (allWorkerProcessMap nonExcludedWorkerProcessMap : ProcessMap)
  (address : NetworkAddress) (bestMasterFitness : Fitness) : bool * ProcessMap :=
  if negb (countAt address allWorkerProcessMap) then (true, nonExcludedWorkerProcessMap)
  else if negb (countAt address nonExcludedWorkerProcessMap)
          && negb (bestMasterFitness =? ExcludeFit)
  then (true, nonExcludedWorkerProcessMap)
  else
    match classAt address nonExcludedWorkerProcessMap with
    | Some class =>
        (negb (machineClassFitness class Master =? bestMasterFitness),
         nonExcludedWorkerProcessMap)
    | None =>
        (negb (machineClassFitness defaultProcessClass Master =? bestMasterFitness),
         setClass address defaultProcessClass nonExcludedWorkerProcessMap)
    end.

(** The loop over the master proxies. *)
Fixpoint checkProxies (m : ProcessMap) (bestMasterProxyFitness : Fitness)
  (proxies : list MasterProxyInterface) (s : State) : bool * State :=
  match proxies with
  | [] => (true, s)
  | masterProxy :: rest =>
      if notBest m (proxy_address masterProxy) Proxy bestMasterProxyFitness then
        (false,
         traceEvent (event "ConsistencyCheck_ProxyNotBest"
                       [("bestMasterProxyFitness", DInt bestMasterProxyFitness);
                        ("existingMasterProxyFitness",
                         DInt (fitnessAt m (proxy_address masterProxy) Proxy))]) s)
      else checkProxies m bestMasterProxyFitness rest s
  end.

(** The loop over the resolvers. *)
Fixpoint checkResolvers (m : ProcessMap) (bestResolverFitness : Fitness)
  (resolvers : list ResolverInterface) (s : State) : bool * State :=
  match resolvers with
  | [] => (true, s)
  | resolver :: rest =>
      if notBest m (resolver_address resolver) Resolver bestResolverFitness then
        (false,
         traceEvent (event "ConsistencyCheck_ResolverNotBest"
                       [("bestResolverFitness", DInt bestResolverFitness);
                        ("existingResolverFitness",
                         DInt (fitnessAt m (resolver_address resolver) Resolver))]) s)
      else checkResolvers m bestResolverFitness rest s
  end.

(** The checks, once the lists of workers are in. *)
Definition usingDesiredClasses (allWorkers nonExcludedWorkers : list (WorkerInterface * ProcessClass))
  (db : ServerDBInfo) (s : State) : bool * State :=
  let allClassTypes := classTypesOf allWorkers in
  let allWorkerProcessMap := processMapOf allWorkers in
  let nonExcludedClassTypes := classTypesOf nonExcludedWorkers in
  let nonExcludedWorkerProcessMap := processMapOf nonExcludedWorkers in
  let bestClusterControllerFitness :=
    getBestAvailableFitness nonExcludedClassTypes ClusterController in
  if notBest nonExcludedWorkerProcessMap (clusterController_address db) ClusterController
       bestClusterControllerFitness
  then
    (false,
     traceEvent (event "ConsistencyCheck_ClusterControllerNotBest"
                   [("bestClusterControllerFitness", DInt bestClusterControllerFitness);
                    ("existingClusterControllerFit",
                     DInt (fitnessAt nonExcludedWorkerProcessMap
                             (clusterController_address db) ClusterController))]) s)
  else
    let bestMasterFitness := bestMasterFitnessOf nonExcludedClassTypes allClassTypes in
    let (masterFails, nonExcludedWorkerProcessMap') :=
      masterNotBest allWorkerProcessMap nonExcludedWorkerProcessMap (master_address db)
        bestMasterFitness in
    if masterFails then
      (false,
       traceEvent (event "ConsistencyCheck_MasterNotBest"
                     [("bestMasterFitness", DInt bestMasterFitness);
                      ("existingMasterFit",
                       DInt (fitnessAt nonExcludedWorkerProcessMap'
                               (master_address db) Master))]) s)
    else
      let (proxiesBest, s1) :=
        checkProxies nonExcludedWorkerProcessMap'
          (getBestAvailableFitness nonExcludedClassTypes Proxy) (db_proxies db) s in
      if proxiesBest then
        checkResolvers nonExcludedWorkerProcessMap'
          (getBestAvailableFitness nonExcludedClassTypes Resolver) (db_resolvers db) s1
      else (false, s1).

(** The actor; [allWorkers], [nonExcludedWorkers] and [storageServers] are
    what [getWorkers] (twice) and [getStorageServers] gave. *)
Definition checkUsingDesiredClasses
  (allWorkers nonExcludedWorkers : ErrorOr (list (WorkerInterface * ProcessClass)))
  (storageServers : ErrorOr (list StorageServerInterface)) (db : ServerDBInfo) (s : State)
  : Result bool * State :=
  match allWorkers, nonExcludedWorkers, storageServers with
  | Failed e, _, _ => (Thrown e, s)
  | Present _, Failed e, _ => (Thrown e, s)
  | Present _, Present _, Failed e => (Thrown e, s)
  | Present all, Present nonExcluded, Present _ =>
      let (b, s') := usingDesiredClasses all nonExcluded db s in (Ok b, s')
  end.

End Topology.

(** ** runCheck *)

(** [T x = wait(f);] in the middle of an actor. *)
Definition waitFor {R T : Type} (f : ErrorOr T) : Step R T :=
  fun s => match f with
           | Present t => (Next t, s)
           | Failed e => (Throw e, s)
           end.

(** [T x = wait(actor(...));]: the actor runs to its end on the state. *)
Definition call {R T : Type} (actor : State -> Result T * State) : Step R T :=
  fun s => match actor s with
           | (Ok t, s') => (Next t, s')
           | (Thrown e, s') => (Throw e, s')
           | (Unfinished, s') => (Stuck, s')
           end.

(** A statement that only writes to the workload object or to the log. *)
Definition perform {R : Type} (statement : State -> State) : Step R unit :=
  fun s => (Next tt, statement s).

(** What the cluster answers in one run of [runCheck], by the actor that
    asks. *)
Record ClusterAnswers : Type := mkAnswers {
  (* the read of the configuration: the [n]-th [getRange] and [onError] *)
  config_getRange : nat -> ErrorOr (list KeyValueRef);
  config_onError : nat -> Error -> ErrorOr unit;
  (* checkForUndesirableServers *)
  undesirable_storageServers : ErrorOr (list StorageServerInterface);
  undesirable_storeType : Z -> ErrorOr KeyValueStoreType;
  (* the queues *)
  dataDistributionQueueSize : ErrorOr Z;
  tLogQueueSize : ErrorOr Z;
  storageServerQueueSize : ErrorOr Z;
  (* checkForStorage *)
  storage_workers : ErrorOr (list (WorkerInterface * ProcessClass));
  storage_storageServers : ErrorOr (list StorageServerInterface);
  (* checkForExtraDataStores *)
  stores_workers : ErrorOr (list (WorkerInterface * ProcessClass));
  stores_storageServers : ErrorOr (list StorageServerInterface);
  stores_db : ServerDBInfo;
  stores_diskStoreRequest : WorkerInterface -> ErrorOr (list UID);
  (* checkUsingDesiredClasses *)
  classes_allWorkers : ErrorOr (list (WorkerInterface * ProcessClass));
  classes_nonExcludedWorkers : ErrorOr (list (WorkerInterface * ProcessClass));
  classes_storageServers : ErrorOr (list StorageServerInterface);
  classes_db : ServerDBInfo;
  (* checkWorkerList and the simulator *)
  list_workers : ErrorOr (list (WorkerInterface * ProcessClass));
  isSimulated : bool;
  extraDB : bool;
  getProcessByAddress : NetworkAddress -> option ProcessInfo;
  getAllProcesses : list ProcessInfo;
  (* getKeyServers *)
  getMasterProxies : nat -> ErrorOr (list MasterProxyInterface);
  getKeyServersLocations :
    nat -> MasterProxyInterface -> GetKeyServerLocationsRequest
    -> ErrorOr GetKeyServerLocationsReply;
  onMasterProxiesChanged : nat -> bool;
  buggify : bool;
  (* getKeyLocations *)
  locations_getReadVersion : nat -> nat -> ErrorOr Version;
  locations_onError : nat -> nat -> Error -> ErrorOr unit;
  locations_getKeyValues :
    nat -> StorageServerInterface -> GetKeyValuesRequest -> ErrorOr GetKeyValuesReply;
  (* checkDataConsistency: getDatabaseSize, and the shards *)
  size_getStorageMetrics : nat -> ErrorOr Z;
  size_onError : nat -> Error -> ErrorOr unit;
  shardEnv : Z -> ShardEnv
}.

Section RunCheckActor.

(** Parts of the code base that are not in this file of the source. *)
Variable errorCode : Error -> Z.
Variable errorName : Error -> string.
Variable defaultConfiguration : DatabaseConfiguration.
Variable configurationSet : DatabaseConfiguration -> Key -> Value -> DatabaseConfiguration.
Variable krmDecodeRanges : Key -> KeyRange -> GetKeyValuesReply -> list KeyValueRef.
Variables keyServersPrefix allKeys_begin allKeys_end : Key.
Variables keyServersKeys_begin keyServersKeys_end : Key.
Variables MOVE_KEYS_KRM_LIMIT MOVE_KEYS_KRM_LIMIT_BYTES : Z.
Variable isKeyValueInSample : KeyValueRef -> ByteSampleInfo.
Variable expectedSize : list KeyValueRef -> Z.
Variable randomShuffle : Z -> list Z -> list Z.
Variables SPLIT_KEY_SIZE_LIMIT REPLY_BYTE_LIMIT : Z.
Variable STORAGE_METRICS_UNFAIR_SPLIT_LIMIT : float.
Variable isExcludedServer : DatabaseConfiguration -> NetworkAddress -> bool.
Variables UnsetClass StorageClass TesterClass : ClassType.
Variable InvalidSource : ClassSource.
Variables NeverAssign ExcludeFit : Fitness.
Variables ClusterController Master Proxy Resolver : ClusterRole.
Variable machineClassFitness : ProcessClass -> ClusterRole -> Fitness.
Variable defaultProcessClass : ProcessClass.
Variables address_ip address_port : NetworkAddress -> Z.
Variable publicAddress : Z -> Z -> NetworkAddress.

(** The loop that reads the configuration, at its [n]-th turn; every turn
    takes one unit of fuel. *)
Fixpoint readConfiguration (a : ClusterAnswers) (fuel n : nat)
  : Step unit DatabaseConfiguration :=
  match fuel with
  | O => fun s => (Stuck, s)
  | S fuel' =>
      fun s =>
        match config_getRange a n with
        | Present res =>
            (Next (fold_left (fun configuration kv =>
                                configurationSet configuration (key kv) (value kv))
                             res defaultConfiguration),
             if Z.of_nat (List.length res) =? 1000
             then testFailure "Read too many configuration options"
                    (traceEvent (event "ConsistencyCheck_TooManyConfigOptions" []) s)
             else s)
        | Failed e =>
            match config_onError a n e with
            | Present _ => readConfiguration a fuel' (S n) s
            | Failed e' => (Throw e', s)
            end
        end
  end.

(** The quiescence-only checks. *)
Definition quiescentChecks (a : ClusterAnswers) (configuration : DatabaseConfiguration)
  : Step unit unit :=
  storageServers <- waitFor (undesirable_storageServers a) ;;
  hasUndesirableServers <-
    (fun s =>
       let (b, s') :=
         checkForUndesirableServers storageServers (undesirable_storeType a) configuration s in
       (Next b, s')) ;;
  inDataDistributionQueue <- waitFor (dataDistributionQueueSize a) ;;
  _ <- perform (fun s =>
        if inDataDistributionQueue >? 0 then
          testFailure "Non-zero data distribution queue/in-flight size"
            (traceEvent (event "ConsistencyCheck_NonZeroDataDistributionQueue"
                           [("QueueSize", DInt inDataDistributionQueue)]) s)
        else s) ;;
  maxTLogQueueSize <- waitFor (tLogQueueSize a) ;;
  _ <- perform (fun s =>
        if maxTLogQueueSize >? 100000 then
          testFailure "Non-zero tlog queue size"
            (traceEvent (event "ConsistencyCheck_NonZeroTLogQueue"
                           [("MaxQueueSize", DInt maxTLogQueueSize)]) s)
        else s) ;;
  _ <- call (checkStorageServerQueue hasUndesirableServers (storageServerQueueSize a)) ;;
  _hasStorage <-
    call (checkForStorage isExcludedServer UnsetClass StorageClass
            (storage_workers a) (storage_storageServers a) configuration) ;;
  _hasExtraStores <-
    call (checkForExtraDataStores (isSimulated a) (stores_workers a)
            (stores_storageServers a) (stores_db a) (stores_diskStoreRequest a)) ;;
  usingDesiredClasses <-
    call (checkUsingDesiredClasses InvalidSource NeverAssign ExcludeFit ClusterController
            Master Proxy Resolver machineClassFitness defaultProcessClass
            (classes_allWorkers a) (classes_nonExcludedWorkers a)
            (classes_storageServers a) (classes_db a)) ;;
  _ <- (if negb usingDesiredClasses
        then perform (testFailure "Cluster has machine(s) not using requested classes")
        else pure tt) ;;
  workerListCorrect <-
    call (checkWorkerList TesterClass address_ip address_port publicAddress (extraDB a)
            (list_workers a) (getProcessByAddress a) (getAllProcesses a)) ;;
  if negb workerListCorrect
  then perform (testFailure "Worker list incorrect")
  else pure tt.

(** [checkDataConsistency] as [runCheck] calls it.  In simulation the actor
    first waits for the size of the database, from which the source computes
    the bounds of the shard sizes that [shardEnv] holds. *)
Definition checkDataConsistencyIn (a : ClusterAnswers) (fuel : nat)
  (keyLocations : list KeyValueRef) (configuration : DatabaseConfiguration) (s : State)
  : Result bool * State :=
  let check_ :=
    checkDataConsistency isKeyValueInSample expectedSize randomShuffle SPLIT_KEY_SIZE_LIMIT
      REPLY_BYTE_LIMIT STORAGE_METRICS_UNFAIR_SPLIT_LIMIT keyServersPrefix allKeys_end
      fuel keyLocations configuration (shardEnv a) in
  if isSimulated a then
    match getDatabaseSize (size_getStorageMetrics a) (size_onError a) fuel with
    | Ok _dbSize => check_ s
    | Thrown e => (Thrown e, s)
    | Unfinished => (Unfinished, s)
    end
  else check_ s.

(** The key servers, the key locations, and the data of the shards: each
    step is taken when the one before it returned true.  (A promise is set
    whenever the actor that holds it returns true.) *)
Definition checkShards (a : ClusterAnswers) (fuel : nat)
  (configuration : DatabaseConfiguration) : Step unit unit :=
  fun s =>
    match getKeyServers (getMasterProxies a) (getKeyServersLocations a)
            (onMasterProxiesChanged a) keyServersKeys_begin keyServersKeys_end (buggify a)
            fuel s with
    | (Ok keyServerResult, keyServerPromise, s1) =>
        match keyServerResult, keyServerPromise with
        | true, Some keyServers =>
            match getKeyLocations (locations_getReadVersion a) (locations_onError a)
                    (locations_getKeyValues a) krmDecodeRanges keyServersPrefix
                    allKeys_begin allKeys_end MOVE_KEYS_KRM_LIMIT MOVE_KEYS_KRM_LIMIT_BYTES
                    fuel keyServers s1 with
            | (Ok keyLocationResult, keyLocationPromise, s2) =>
                match keyLocationResult, keyLocationPromise with
                | true, Some keyLocations =>
                    match checkDataConsistencyIn a fuel keyLocations configuration s2 with
                    | (Ok _dataConsistencyResult, s3) => (Next tt, s3)
                    | (Thrown e, s3) => (Throw e, s3)
                    | (Unfinished, s3) => (Stuck, s3)
                    end
                | true, None => (Throw internal_error, s2)
                | false, _ => (Next tt, s2)
                end
            | (Thrown e, _, s2) => (Throw e, s2)
            | (Unfinished, _, s2) => (Stuck, s2)
            end
        | true, None => (Throw internal_error, s1)
        | false, _ => (Next tt, s1)
        end
    | (Thrown e, _, s1) => (Throw e, s1)
    | (Unfinished, _, s1) => (Stuck, s1)
    end.

(** The [try] block of [runCheck]. *)
Definition runCheckTry (a : ClusterAnswers) (fuel : nat) : Step unit unit :=
  configuration <- readConfiguration a fuel 0 ;;
  _ <- (fun s =>
          if firstClient (self s) && performQuiescentChecks (self s)
          then quiescentChecks a configuration s
          else (Next tt, s)) ;;
  checkShards a fuel configuration.

(** The event that ends [runCheck]. *)
Definition finishedCheck (s : State) : State :=
  traceEvent (event "ConsistencyCheck_FinishedCheck"
                [("repetitions", DInt (repetitions (self s)))]) s.

Definition runCheck (a : ClusterAnswers) (fuel : nat) (s : State) : Result unit * State :=
  if firstClient (self s) || distributed (self s) then
    match runCheckTry a fuel s with
    | (Next _, s') => (Ok tt, finishedCheck s')
    | (Return _, s') => (Ok tt, finishedCheck s')
    | (Throw e, s') => (Ok tt, finishedCheck (runCheckCatch errorCode errorName e s'))
    | (Stuck, s') => (Unfinished, s')
    end
  else (Ok tt, finishedCheck s).

(** [_start]: [answers round] is what the cluster answers in the [round]-th
    run of [runCheck]; every run takes one unit of fuel.  (Between two runs
    the actor waits five seconds.)  [repetitions] is an [int64_t] that
    starts at 0 and goes up by one per run, so the counter is not wrapped
    here. *)
Fixpoint _start (answers : nat -> ClusterAnswers) (fuel round : nat) (s : State)
  : Result unit * State :=
  match fuel with
  | O => (Unfinished, s)
  | S fuel' =>
      match runCheck (answers round) fuel' s with
      | (Ok _, s') =>
          if negb (indefinite (self s')) then (Ok tt, s')
          else _start answers fuel' (S round)
                 (mkState (set_repetitions (repetitions (self s') + 1) (self s')) (trace s'))
      | other => other
      end
  end.

(** [start]. *)
Definition start (answers : nat -> ClusterAnswers) (fuel : nat) (s : State)
  : Result unit * State :=
  _start answers fuel 0 (traceEvent (event "ConsistencyCheck" []) s).

End RunCheckActor.

(** ** Vocabulary of the further statements *)

(** [s'] is [s] after some events that are not failures were logged and
    some failures with a message in [allowed] were recorded, and nothing
    else. *)
Inductive extendsBy (allowed : string -> Prop) (s : State) : State -> Prop :=
| extendsBy_refl : extendsBy allowed s s
| extendsBy_trace (s' : State) (ev : TraceEvent) :
    String.eqb (eventType ev) "TestFailure" = false ->
    extendsBy allowed s s' -> extendsBy allowed s (traceEvent ev s')
| extendsBy_failure (s' : State) (message : string) :
    allowed message -> extendsBy allowed s s' -> extendsBy allowed s (testFailure message s').

(** Nothing but events that are not failures was logged from [s] to [s']. *)
Definition quietly (s s' : State) : Prop := extendsBy (fun _ => False) s s'.

(** The estimate [getStorageSizeEstimate] keeps for the answer of a server. *)
Definition estimateOf (reply : ErrorOr Z) : Z :=
  match reply with Present numBytes => numBytes | Failed _ => -1 end.

(** The server list values that are present, in order. *)
Fixpoint presentValues {A : Type} (values : list (option A)) : list A :=
  match values with
  | [] => []
  | Some a :: rest => a :: presentValues rest
  | None :: rest => presentValues rest
  end.

Definition isNone {A : Type} (value : option A) : bool :=
  match value with Some _ => false | None => true end.

(** The totals of an alignment, read from the other side. *)
Definition swapTotals (t : DiffTotals) : DiffTotals :=
  mkTotals (referenceUniques t) (currentUniques t) (valueMismatches t) (matchingKVPairs t)
           (referenceUniqueKey t) (currentUniqueKey t) (valueMismatchKey t).

Definition sumZ (l : list Z) : Z := fold_right Z.add 0 l.

(** The first reply of a proxy that is present. *)
Fixpoint firstReply (replies : list (MasterProxyInterface * ErrorOr GetKeyServerLocationsReply))
  : option GetKeyServerLocationsReply :=
  match replies with
  | [] => None
  | (_, Present reply) :: _ => Some reply
  | (_, Failed _) :: rest => firstReply rest
  end.

(** What a piece of an actor did from [s]: it recorded only failures in
    [allowed], and on top of them the failure [message], after an event,
    exactly when it left the actor with [false]; it never left it with
    [true]. *)
Definition endsWith {A : Type} (allowed : string -> Prop) (message : string) (s : State)
  (r : Flow bool A * State) : Prop :=
  match fst r with
  | Return b =>
      b = false
      /\ exists s1 ev,
           extendsBy allowed s s1 /\ String.eqb (eventType ev) "TestFailure" = false
           /\ snd r = testFailure message (traceEvent ev s1)
  | _ => extendsBy allowed s (snd r)
  end.

(** The failure of the check of the sampled size of a shard. *)
Definition inaccurateEstimate (message : string) : Prop :=
  message = "Shard size is more than 7.000000 std dev from estimate".

(** The [m]-th attempt failed with an error that [onError] lets the caller
    try again after. *)
Definition retriedAt {T : Type} (attempt : nat -> ErrorOr T)
  (onError : nat -> Error -> ErrorOr unit) (m : nat) : Prop :=
  exists e, attempt m = Failed e /\ onError m e = Present tt.

(** [keyServers] and [begin] after the shards of [reply] were inserted. *)
Definition insertShards (st : KeyServersState) (reply : GetKeyServerLocationsReply)
  : KeyServersState :=
  mkKeyServers (keyServers st ++ results reply) (lastRangeEnd (results reply)).

(** Every proxy answered. *)
Definition allAnswered (replies : list (MasterProxyInterface * ErrorOr GetKeyServerLocationsReply))
  : Prop :=
  Forall (fun reply => present (snd reply) = true) replies.

(** The store [id] is the store of a storage server or of a log at
    [address]. *)
Definition registered (storageServers : list StorageServerInterface)
  (logs : list TLogInterface) (address : NetworkAddress) (id : UID) : Prop :=
  (exists ss, In ss storageServers /\ ssi_address ss = address /\ ssi_id ss = id)
  \/ (exists log, In log logs /\ tlog_address log = address /\ tlog_id log = id).

(** The worker answered the request for its disk stores, and every store it
    has is registered at its address. *)
Definition storesRegistered (storageServers : list StorageServerInterface)
  (logs : list TLogInterface) (diskStoreRequest : WorkerInterface -> ErrorOr (list UID))
  (worker : WorkerInterface * ProcessClass) : Prop :=
  exists stores,
    diskStoreRequest (fst worker) = Present stores
    /\ forall id, In id stores ->
         registered storageServers logs (worker_address (fst worker)) id.

(** The worker is at [address]. *)
Definition workerAt (address : NetworkAddress) (worker : WorkerInterface * ProcessClass)
  : bool :=
  String.eqb (worker_address (fst worker)) address.

(** The class the map holds for [address] has the fitness [best] for
    [role]. *)
Definition holdsBest (machineClassFitness : ProcessClass -> ClusterRole -> Fitness)
  (m : ProcessMap) (address : NetworkAddress) (role : ClusterRole) (best : Fitness) : Prop :=
  exists class, classAt address m = Some class /\ machineClassFitness class role = best.

(** The failures a run that is not quiescent can record: the four below,
    and the report of an error that the handler of [runCheck] does not log
    as a retry. *)
Definition busyFailure (errorCode : Error -> Z) (errorName : Error -> string)
  (message : string) : Prop :=
  message = "Read too many configuration options"
  \/ message = "Key servers inconsistent"
  \/ message = "Data inconsistent"
  \/ message = "Shard size is more than 7.000000 std dev from estimate"
  \/ exists e, loggedAsRetry e = false
               /\ message = ("Error " ++ format_d (errorCode e) ++ " - " ++ errorName e)%string.

(** The bytes of the replies that are present: what the read loop of a
    shard adds up in [totalReadAmount]. *)
Definition readAmount (expectedSize : list KeyValueRef -> Z)
  (replies : list (ErrorOr GetKeyValuesReply)) : Z :=
  sumZ (map (fun reply => match reply with
                          | Present r => expectedSize (data r)
                          | Failed _ => 0
                          end) replies).

(** The replies that are present are all the same as the first of them. *)
Definition replicasAgree (replies : list (ErrorOr GetKeyValuesReply)) : Prop :=
  match firstPresent replies with
  | Some (_, reference) => allAgree reference replies
  | None => True
  end.

(** The index of the first reply that is present, or -1. *)
Definition firstValidOf (replies : list (ErrorOr GetKeyValuesReply)) : Z :=
  match firstPresent replies with
  | Some (i, _) => i
  | None => -1
  end.

(** A page of replies that the loop over the replies lets pass: the replies
    that are present are the same, none is missing in a quiescent run, and
    at least one is present unless the shard has no server. *)
Definition pageAccepted (quiescent : bool) (page : list (ErrorOr GetKeyValuesReply)) : Prop :=
  replicasAgree page
  /\ (quiescent = true -> Forall (fun x => present x = true) page)
  /\ (firstPresent page = None -> page = []).

Section KeyLocationPages.

Variable getReadVersion : nat -> nat -> ErrorOr Version.
Variable onError : nat -> nat -> Error -> ErrorOr unit.
Variable getKeyValues :
  nat -> StorageServerInterface -> GetKeyValuesRequest -> ErrorOr GetKeyValuesReply.
Variable krmDecodeRanges : Key -> KeyRange -> GetKeyValuesReply -> list KeyValueRef.
Variables keyServersPrefix allKeys_end : Key.
Variables MOVE_KEYS_KRM_LIMIT MOVE_KEYS_KRM_LIMIT_BYTES : Z.

(** The pages [keyLocationsLoop] reads, in order: for every request it makes
    to the servers of a shard, the replies the loop over the replies is run
    on. *)
Fixpoint keyLocationPages (fuel : nat) (shards : list (KeyRange * list StorageServerInterface))
  (round : nat) (st : LocationState) (s : State) : list (list (ErrorOr GetKeyValuesReply)) :=
  match fuel with
  | O => []
  | S fuel' =>
      match shards with
      | [] => []
      | shard :: shards' =>
          if String.ltb (beginKey st)
               (minKey (range_end (fst shard)) (endKey keyServersPrefix allKeys_end)) then
            match getVersion (getReadVersion round) (onError round) fuel' with
            | Ok version =>
                keyLocationsFutures getKeyValues shard round
                  (keyLocationsRequest keyServersPrefix allKeys_end MOVE_KEYS_KRM_LIMIT
                     MOVE_KEYS_KRM_LIMIT_BYTES shard st version)
                :: match keyLocationsTry getReadVersion onError getKeyValues krmDecodeRanges
                           keyServersPrefix allKeys_end MOVE_KEYS_KRM_LIMIT
                           MOVE_KEYS_KRM_LIMIT_BYTES shard round fuel' st s with
                   | (Next st', s') => keyLocationPages fuel' shards (S round) st' s'
                   | _ => []
                   end
            | _ => []
            end
          else keyLocationPages fuel' shards' round st s
      end
  end.

End KeyLocationPages.

Section SizeChecksOfAShard.

Variable isKeyValueInSample : KeyValueRef -> ByteSampleInfo.
Variable expectedSize : list KeyValueRef -> Z.
Variables SPLIT_KEY_SIZE_LIMIT REPLY_BYTE_LIMIT : Z.
Variable STORAGE_METRICS_UNFAIR_SPLIT_LIMIT : float.
Variable allKeys_end : Key.

(** The body of the loop over the shards, run from [s] on a shard that is
    sampled, gets as far as the checks on the sizes of the shard: the team
    size passes, the server list is read, [estimatedBytes] are the
    estimates [getStorageSizeEstimate] returns for the servers of the shard,
    and the loop that reads the shard ends with [rs] in the state [s']. *)
Definition reachesSizeChecks (configuration : DatabaseConfiguration) (shard : Z)
  (range : KeyRange) (env : ShardEnv) (fuel : nat) (s : State)
  (storageServers : list UID) (estimatedBytes : list Z) (rs : ReadState) (s' : State) : Prop :=
  exists isRelocating storageServerInterfaces s0 s1 s2 s3 s4,
    shardServers configuration range env s = (Next (isRelocating, storageServers), s0)
    /\ readServerList fuel env storageServers 0 s0 = (Next storageServerInterfaces, s1)
    /\ getStorageSizeEstimate env storageServerInterfaces range s1 = (estimatedBytes, s2)
    /\ addEstimatedSizes storageServers estimatedBytes s2 = (Next tt, s3)
    /\ shardIsSampled shard s3 = (Next true, s4)
    /\ readLoop isKeyValueInSample expectedSize SPLIT_KEY_SIZE_LIMIT REPLY_BYTE_LIMIT
         STORAGE_METRICS_UNFAIR_SPLIT_LIMIT allKeys_end fuel env range isRelocating
         storageServers storageServerInterfaces 0
         (mkRead noStats (firstGreaterOrEqual (range_begin range)) 0) s4
       = (Next rs, s').

End SizeChecksOfAShard.

(** The failures of the walk over the estimates of the storage servers. *)
Definition estimateFailure (reason : string) : Prop :=
  reason = "Consistency check: Storage servers had incorrect sampled estimate"
  \/ reason = "Consistency check: Could not get storage metrics from server".

(** The failure of the check of the sampled size of a shard, as it is on
    record. *)
Definition inaccurateEstimateReason : string :=
  "Consistency check: Shard size is more than 7.000000 std dev from estimate".

(** A failure of the walk over the estimates, as it is on record. *)
Definition isEstimateFailure (reason : string) : bool :=
  String.eqb reason "Consistency check: Storage servers had incorrect sampled estimate"
  || String.eqb reason "Consistency check: Could not get storage metrics from server".

(** The failures the body of the loop over the shards can record before it
    reads the shard. *)
Definition earlyMessage (message : string) : Prop :=
  message = "/FF/serverList changing in a quiescent database"
  \/ message = "Error fetching storage metrics".

(** What a piece of an actor did from [s], unless it left the actor with a
    value: it logged events that are not failures, and nothing else. *)
Definition passes {A : Type} (s : State) (r : Flow bool A * State) : Prop :=
  match fst r with
  | Return _ => True
  | _ => quietly s (snd r)
  end.
(** ** Sample inputs *)

(** A quiescent workload of one client. *)
Definition someContext : WorkloadContext :=
  mkContext (mkOptions (Some true) None None None None None None None) 0 1 0.

(** The first of two clients of a distributed check, configured with
    [shardSampleFactor = 0]. *)
Definition firstOfTwo : WorkloadContext :=
  mkContext (mkOptions None None (Some true) (Some 0) None None None None) 0 2 0.

(** The third of four clients, configured with [shardSampleFactor = -5]. *)
Definition thirdOfFour : WorkloadContext :=
  mkContext (mkOptions None None (Some true) (Some (-5)) None None None None) 2 4 0.

(** The second of four clients, configured with [shardSampleFactor = 2^30]. *)
Definition secondOfFourSparse : WorkloadContext :=
  mkContext (mkOptions None None (Some true) (Some (2 ^ 30)) None None None None) 1 4 0.

(** A network on which the first two transactions fail to get a read
    version, the first with an error a transaction would not retry, and the
    third one gets version 42. *)
Definition thirdTimeLucky (n : nat) : ErrorOr Version :=
  match n with
  | O => Failed (other_error 2000)
  | S O => Failed future_version
  | _ => Present 42
  end.

(** [Transaction::onError]: the future is an error unless the error is one
    of those a transaction retries. *)
Definition onErrorOfTransaction (n : nat) (e : Error) : ErrorOr unit :=
  match e with
  | transaction_too_old | future_version => Present tt
  | _ => Failed e
  end.

(** The state of a quiescent check on its only client, nothing logged yet. *)
Definition quiescentState : State := initialState someContext.

(** The state of a check that is not quiescent, on the first of two
    clients. *)
Definition busyState : State := initialState firstOfTwo.

(** A shard of 100 keys, 31 of them sampled, read as 1000 bytes and
    estimated as 1200 bytes, with a variance of 100. *)
Definition driftedShard : ShardStats := mkStats 100 1000 1200 0 0 31 100%float false.

(** A cluster configured for store type 0 and teams of three. *)
Definition someConfiguration : DatabaseConfiguration := mkConfiguration 3 0.

(** One storage server, which answers with store type 1; empty queues in
    data distribution and the logs; the size of the storage queues cannot be
    read. *)
Definition wrongStoreType : QuiescentInputs :=
  mkQuiescent [mkSSI 1 "10.0.0.1:4500"] (fun _ => Present 1) 0 0 (Failed attribute_not_found).

(** Two storage servers with different addresses and the configured store
    type, the second of which does not answer; the size of the storage queues
    cannot be read. *)
Definition oneUnreachable : QuiescentInputs :=
  mkQuiescent [mkSSI 1 "10.0.0.1:4500"; mkSSI 2 "10.0.0.2:4500"]
    (fun i => if i =? 1 then Failed internal_error else Present 0)
    0 0 (Failed attribute_not_found).

(** A cluster that answers nothing. *)
Definition silentShard (source dest : list UID) : ShardEnv :=
  mkShardEnv source dest (fun _ => None) (fun _ => Failed internal_error) None
    (mkBounds 0 0 0) (fun _ _ => Failed internal_error) (fun _ _ _ => Present tt)
    (fun _ _ _ => Failed internal_error) (fun _ => None) (fun _ _ => Present tt).

(** A shard that is being moved from one server to a team of three. *)
Definition relocatingShard : ShardEnv := silentShard [1] [2; 3; 4].

(** A shard at rest on a team of two. *)
Definition smallTeamShard : ShardEnv := silentShard [1; 2] [].

(** Two replies to a page of the shard map that differ in a value. *)
Definition replyA : GetKeyValuesReply := mkReply [mkKV "keyServers/a" "team1"] false.
Definition replyB : GetKeyValuesReply := mkReply [mkKV "keyServers/a" "team2"] false.

Definition threeServers : list StorageServerInterface :=
  [mkSSI 1 "10.0.0.1:4500"; mkSSI 2 "10.0.0.2:4500"; mkSSI 3 "10.0.0.3:4500"].

(** Replica A holds [a, c, d] and the reference replica B holds
    [b, c, d, e], with another value at [d]. *)
Definition dataA : list KeyValueRef := [mkKV "a" "1"; mkKV "c" "2"; mkKV "d" "3"].
Definition dataB : list KeyValueRef := [mkKV "b" "1"; mkKV "c" "2"; mkKV "d" "4"; mkKV "e" "1"].


(** A network on which every transaction gets the read version 42, and
    [onError] lets every error pass. *)
Definition steadyVersion (round n : nat) : ErrorOr Version := Present 42.
Definition retryAll (round n : nat) (e : Error) : ErrorOr unit := Present tt.

(** Storage servers of which the first answers [replyA] and the others
    [replyB]. *)
Definition splitAnswers (round : nat) (server : StorageServerInterface)
  (req : GetKeyValuesRequest) : ErrorOr GetKeyValuesReply :=
  if ssi_id server =? 1 then Present replyA else Present replyB.

(** A decoder of the shard map that takes the reply as it is. *)
Definition plainRanges (prefix : Key) (range : KeyRange) (reply : GetKeyValuesReply)
  : list KeyValueRef :=
  data reply.

(** The one shard of the shard map, on three servers. *)
Definition oneShard : list (KeyRange * list StorageServerInterface) :=
  [(mkRange "keyServers/" "keyServers/z", threeServers)].

(** A shard on two servers of which the first holds [dataA] and the second
    [dataB]. *)
Definition divergedShard : ShardEnv :=
  mkShardEnv [1; 2] [] (fun id => Some (mkSSI id "10.0.0.1:4500")) (fun _ => Present 0) None
    (mkBounds 0 0 0) steadyVersion retryAll
    (fun _ server _ =>
       if ssi_id server =? 1 then Present (mkReply dataA false)
       else Present (mkReply dataB false))
    (fun _ => None) (fun _ _ => Present tt).

(** A byte sample that holds every item, at its size. *)
Definition sampleAll (kv : KeyValueRef) : ByteSampleInfo :=
  mkSample true (Z.of_nat (String.length (key kv) + String.length (value kv)))
           (Z.of_nat (String.length (key kv) + String.length (value kv))).

(** Two master proxies, of which the second does not answer. *)
Definition proxyA : MasterProxyInterface := mkProxy 11 "10.0.1.1:4500".
Definition proxyB : MasterProxyInterface := mkProxy 12 "10.0.1.2:4500".

Definition twoProxies (round : nat) : ErrorOr (list MasterProxyInterface) :=
  Present [proxyA; proxyB].

Definition wholeShardMap : GetKeyServerLocationsReply :=
  mkLocationsReply [(mkRange "keyServers/" "keyServers/z", threeServers)].

Definition secondProxyDown (round : nat) (proxy : MasterProxyInterface)
  (req : GetKeyServerLocationsRequest) : ErrorOr GetKeyServerLocationsReply :=
  if proxy_id proxy =? 11 then Present wholeShardMap else Failed internal_error.

Definition proxiesStay (round : nat) : bool := false.

(** A cluster of which nothing answers: every request fails with
    [all_alternatives_failed], and no error of a transaction is let pass. *)
Definition silentCluster : ClusterAnswers :=
  {| config_getRange := fun _ => Failed all_alternatives_failed;
     config_onError := fun _ e => Failed e;
     undesirable_storageServers := Failed all_alternatives_failed;
     undesirable_storeType := fun _ => Failed all_alternatives_failed;
     dataDistributionQueueSize := Failed all_alternatives_failed;
     tLogQueueSize := Failed all_alternatives_failed;
     storageServerQueueSize := Failed all_alternatives_failed;
     storage_workers := Failed all_alternatives_failed;
     storage_storageServers := Failed all_alternatives_failed;
     stores_workers := Failed all_alternatives_failed;
     stores_storageServers := Failed all_alternatives_failed;
     stores_db := mkDBInfo "" "" [] [] [];
     stores_diskStoreRequest := fun _ => Failed all_alternatives_failed;
     classes_allWorkers := Failed all_alternatives_failed;
     classes_nonExcludedWorkers := Failed all_alternatives_failed;
     classes_storageServers := Failed all_alternatives_failed;
     classes_db := mkDBInfo "" "" [] [] [];
     list_workers := Failed all_alternatives_failed;
     isSimulated := false;
     extraDB := false;
     getProcessByAddress := fun _ => None;
     getAllProcesses := [];
     getMasterProxies := fun _ => Failed all_alternatives_failed;
     getKeyServersLocations := fun _ _ _ => Failed all_alternatives_failed;
     onMasterProxiesChanged := fun _ => false;
     buggify := false;
     locations_getReadVersion := fun _ _ => Failed all_alternatives_failed;
     locations_onError := fun _ _ e => Failed e;
     locations_getKeyValues := fun _ _ _ => Failed all_alternatives_failed;
     size_getStorageMetrics := fun _ => Failed all_alternatives_failed;
     size_onError := fun _ e => Failed e;
     shardEnv := fun _ => silentShard [] [] |}.

(** A cluster that answers the read of the configuration with an error that
    is not one of those logged as a retry, and nothing else. *)
Definition brokenCluster : ClusterAnswers :=
  {| config_getRange := fun _ => Failed (other_error 1510);
     config_onError := fun _ e => Failed e;
     undesirable_storageServers := Failed all_alternatives_failed;
     undesirable_storeType := fun _ => Failed all_alternatives_failed;
     dataDistributionQueueSize := Failed all_alternatives_failed;
     tLogQueueSize := Failed all_alternatives_failed;
     storageServerQueueSize := Failed all_alternatives_failed;
     storage_workers := Failed all_alternatives_failed;
     storage_storageServers := Failed all_alternatives_failed;
     stores_workers := Failed all_alternatives_failed;
     stores_storageServers := Failed all_alternatives_failed;
     stores_db := mkDBInfo "" "" [] [] [];
     stores_diskStoreRequest := fun _ => Failed all_alternatives_failed;
     classes_allWorkers := Failed all_alternatives_failed;
     classes_nonExcludedWorkers := Failed all_alternatives_failed;
     classes_storageServers := Failed all_alternatives_failed;
     classes_db := mkDBInfo "" "" [] [] [];
     list_workers := Failed all_alternatives_failed;
     isSimulated := false;
     extraDB := false;
     getProcessByAddress := fun _ => None;
     getAllProcesses := [];
     getMasterProxies := fun _ => Failed all_alternatives_failed;
     getKeyServersLocations := fun _ _ _ => Failed all_alternatives_failed;
     onMasterProxiesChanged := fun _ => false;
     buggify := false;
     locations_getReadVersion := fun _ _ => Failed all_alternatives_failed;
     locations_onError := fun _ _ e => Failed e;
     locations_getKeyValues := fun _ _ _ => Failed all_alternatives_failed;
     size_getStorageMetrics := fun _ => Failed all_alternatives_failed;
     size_onError := fun _ e => Failed e;
     shardEnv := fun _ => silentShard [] [] |}.

(** The numbers and names of the errors, as far as the samples go. *)
Definition sampleErrorCode (e : Error) : Z :=
  match e with other_error code => code | _ => 0 end.
Definition sampleErrorName (e : Error) : string :=
  match e with other_error _ => "unknown_error" | _ => "" end.

(** [runCheck] and [_start] over sample values of the knobs, keys and
    enumerators. *)
Definition sampleRunCheck : ClusterAnswers -> nat -> State -> Result unit * State :=
  runCheck sampleErrorCode sampleErrorName someConfiguration (fun c _ _ => c) plainRanges
    "keyServers/" "" "z" "keyServers/" "keyServers/z" 10 10 sampleAll
    (fun data => Z.of_nat (List.length data)) (fun _ order => order) 100 1000 1%float
    (fun _ _ => false) 0 1 4 (-1) 6 5 5 3 1 4 (fun _ _ => 0) (mkProcessClass 0 0)
    (fun _ => 0) (fun _ => 0) (fun _ _ => "").

(** Storage servers of which the first answers [replyA], the second does not
    answer and the third answers [replyB]. *)
Definition gapBeforeDifference (round : nat) (server : StorageServerInterface)
  (req : GetKeyValuesRequest) : ErrorOr GetKeyValuesReply :=
  if ssi_id server =? 1 then Present replyA
  else if ssi_id server =? 2 then Failed internal_error
  else Present replyB.

(** Storage servers of which the first answers [replyA], the second answers
    [replyB] and the third does not answer. *)
Definition gapAfterDifference (round : nat) (server : StorageServerInterface)
  (req : GetKeyValuesRequest) : ErrorOr GetKeyValuesReply :=
  if ssi_id server =? 1 then Present replyA
  else if ssi_id server =? 2 then Present replyB
  else Failed internal_error.

(** Storage servers none of which answers. *)
Definition noAnswers (round : nat) (server : StorageServerInterface)
  (req : GetKeyValuesRequest) : ErrorOr GetKeyValuesReply :=
  Failed internal_error.

(** A shard at rest on three servers that all hold [dataA], each of which
    estimates the shard at 1000 bytes. *)
Definition agreedShard : ShardEnv :=
  mkShardEnv [1; 2; 3] [] (fun id => Some (mkSSI id "10.0.0.1:4500")) (fun _ => Present 1000)
    None (mkBounds 0 5000 10) steadyVersion retryAll
    (fun _ _ _ => Present (mkReply dataA false))
    (fun _ => None) (fun _ _ => Present tt).

(** What the read loop adds up for [agreedShard] with the sample
    [sampleAll], when a reply is expected to take 10 bytes. *)
Definition agreedShardRead : ReadState :=
  mkRead (mkStats 3 6 6 2 2 3 0%float true) (firstGreaterOrEqual "a") 30.

(** A shard on two servers of which the second has no entry in the server
    list. *)
Definition missingEntryShard : ShardEnv :=
  mkShardEnv [1; 2] []
    (fun id => if id =? 1 then Some (mkSSI id "10.0.0.1:4500") else None)
    (fun _ => Present 0) None (mkBounds 0 0 0) steadyVersion retryAll
    (fun _ _ _ => Present (mkReply dataA false))
    (fun _ => None) (fun _ _ => Present tt).
(** * Properties *)

(** ** Machine integers *)

Lemma wrap_in_range (z : Z) : Int32.in_range z -> Int32.wrap z = z.
Proof.
  unfold Int32.in_range, Int32.min_int, Int32.max_int, Int32.wrap. intros H.
  rewrite Z.mod_small by lia. lia.
Qed.

Lemma wrap_range (z : Z) : Int32.in_range (Int32.wrap z).
Proof.
  unfold Int32.in_range, Int32.min_int, Int32.max_int, Int32.wrap.
  pose proof (Z.mod_pos_bound (z + 2 ^ 31) (2 ^ 32) ltac:(lia)). lia.
Qed.

Lemma to_size_t_nonneg (z : Z) : 0 <= z < 2 ^ 64 -> to_size_t z = z.
Proof. intros H. unfold to_size_t. apply Z.mod_small. lia. Qed.

Lemma to_size_t_negative (z : Z) : - 2 ^ 63 <= z < 0 -> to_size_t z = z + 2 ^ 64.
Proof.
  intros H. unfold to_size_t.
  symmetry. apply Z.mod_unique with (q := -1); lia.
Qed.

(** ** The state only grows *)

Lemma extends_trans (s1 s2 s3 : State) : extends s1 s2 -> extends s2 s3 -> extends s1 s3.
Proof.
  intros H12 H23. induction H23.
  - exact H12.
  - now apply extends_trace.
  - now apply extends_failure.
Qed.

Lemma extends_quiescent (s s' : State) :
  extends s s' -> performQuiescentChecks (self s') = performQuiescentChecks (self s).
Proof. induction 1; simpl; auto. Qed.

Lemma extends_success (s s' : State) :
  extends s s' -> success (self s) = false -> success (self s') = false.
Proof. induction 1; simpl; auto. Qed.

Lemma extends_trace_prefix (s s' : State) :
  extends s s' -> exists new, trace s' = trace s ++ new.
Proof.
  induction 1 as [|s' ev _ [new Hnew]|s' m _ [new Hnew]].
  - exists []. now rewrite app_nil_r.
  - exists (new ++ [ev]). simpl. rewrite Hnew. now rewrite app_assoc.
  - exists (new ++ [failEvent (self s') m]). simpl. rewrite Hnew. now rewrite app_assoc.
Qed.

Ltac grows :=
  repeat first [ apply extends_refl | apply extends_failure | apply extends_trace ].

Ltac break_match :=
  match goal with
  | |- context [match ?x with _ => _ end] => destruct x eqn:?
  end.

Ltac by_cases := repeat (simpl; try break_match); simpl; grows.

Lemma bind_extends {R A B : Type} (m : Step R A) (k : A -> Step R B) (s : State) :
  extends s (snd (m s)) ->
  (forall a s', extends s' (snd (k a s'))) ->
  extends s (snd (bind m k s)).
Proof.
  intros Hm Hk. unfold bind. destruct (m s) as [[a|r|e|] s'] eqn:E; simpl in *; auto.
  eapply extends_trans; [exact Hm | apply Hk].
Qed.

Lemma readLocationReply_extends servers futures j reply firstValid s :
  extends s (snd (readLocationReply servers futures j reply firstValid s)).
Proof. unfold readLocationReply. by_cases. Qed.

Lemma readLocationReplies_extends servers futures rest :
  forall j firstValid s,
    extends s (snd (readLocationReplies servers futures rest j firstValid s)).
Proof.
  induction rest as [|reply rest IH]; intros j firstValid s; simpl.
  - grows.
  - pose proof (readLocationReply_extends servers futures j reply firstValid s) as H.
    destruct (readLocationReply servers futures j reply firstValid s) as [[fv|b|e|] s'];
      simpl in *; auto.
    eapply extends_trans; [exact H | apply IH].
Qed.

Lemma keyLocationsPage_extends grv oe gkv krm prefix ke lim limBytes shard round fuel st s :
  extends s (snd (keyLocationsPage grv oe gkv krm prefix ke lim limBytes shard round fuel st s)).
Proof.
  unfold keyLocationsPage.
  destruct (getVersion _ _ _); simpl; grows.
  unfold readShardLocationResults.
  match goal with
  | |- context [readLocationReplies ?a ?b ?c ?d ?e ?f] =>
      pose proof (readLocationReplies_extends a b c d e f) as H;
      destruct (readLocationReplies a b c d e f) as [[fv|b'|e'|] s']
  end; simpl in *; auto.
  by_cases; auto.
Qed.

Lemma keyLocationsTry_extends grv oe gkv krm prefix ke lim limBytes shard round fuel st s :
  extends s (snd (keyLocationsTry grv oe gkv krm prefix ke lim limBytes shard round fuel st s)).
Proof.
  unfold keyLocationsTry.
  pose proof (keyLocationsPage_extends grv oe gkv krm prefix ke lim limBytes shard round fuel st s) as H.
  destruct (keyLocationsPage _ _ _ _ _ _ _ _ _ _ _ _ _) as [[st'|b|e|] s']; simpl in *; auto.
  destruct (isVersionProblem e); simpl; auto. now apply extends_trace.
Qed.

Lemma keyLocationsLoop_extends grv oe gkv krm prefix ke lim limBytes fuel :
  forall shards round st s,
    extends s (snd (keyLocationsLoop grv oe gkv krm prefix ke lim limBytes fuel shards round st s)).
Proof.
  induction fuel as [|fuel IH]; intros shards round st s; simpl.
  - grows.
  - destruct shards as [|shard shards]; simpl; [grows|].
    destruct (String.ltb _ _); [|apply IH].
    pose proof (keyLocationsTry_extends grv oe gkv krm prefix ke lim limBytes shard round fuel st s) as H.
    destruct (keyLocationsTry _ _ _ _ _ _ _ _ _ _ _ _ _) as [[st'|b|e|] s']; simpl in *; auto.
    eapply extends_trans; [exact H | apply IH].
Qed.

Lemma getKeyLocations_extends grv oe gkv krm prefix kb ke lim limBytes fuel shards s :
  extends s (snd (getKeyLocations grv oe gkv krm prefix kb ke lim limBytes fuel shards s)).
Proof.
  unfold getKeyLocations.
  match goal with
  | |- context [keyLocationsLoop ?a ?b ?c ?d ?e ?f ?g ?h ?i ?j ?k ?l ?m] =>
      pose proof (keyLocationsLoop_extends a b c d e f g h i j k l m) as H;
      destruct (keyLocationsLoop a b c d e f g h i j k l m) as [[st'|b'|e'|] s']
  end; simpl in *; auto.
Qed.

Lemma undesirableServersFrom_extends typeReply configuration rest :
  forall i s, extends s (snd (undesirableServersFrom typeReply configuration i rest s)).
Proof.
  induction rest as [|ss rest IH]; intros i s; simpl; [grows|].
  destruct (typeReply i) as [storeType|e].
  - destruct (negb _); simpl; [grows|].
    destruct (sameAddressAfter _ _); simpl; [grows|apply IH].
  - destruct (sameAddressAfter _ _); simpl; [grows|].
    eapply extends_trans; [|apply IH]. grows.
Qed.

Lemma checkStorageServerQueue_extends hasUndesirable queue s :
  extends s (snd (checkStorageServerQueue hasUndesirable queue s)).
Proof. unfold checkStorageServerQueue. by_cases. Qed.

Lemma quiescentQueueChecks_extends configuration q s :
  extends s (snd (quiescentQueueChecks configuration q s)).
Proof.
  unfold quiescentQueueChecks, checkForUndesirableServers.
  pose proof (undesirableServersFrom_extends (storeTypeReply q) configuration
                (storageServers q) 0 s) as H.
  destruct (undesirableServersFrom _ _ _ _ _) as [has s1]; simpl in H.
  eapply extends_trans; [|apply checkStorageServerQueue_extends].
  eapply extends_trans; [exact H|].
  destruct (inDataDistributionQueue q >? 0), (maxTLogQueueSize q >? 100000); grows.
Qed.

Lemma checkTeamSize_extends configuration range source s :
  extends s (snd (checkTeamSize configuration range source s)).
Proof. unfold checkTeamSize. by_cases. Qed.

Lemma shardServers_extends configuration range env s :
  extends s (snd (shardServers configuration range env s)).
Proof.
  unfold shardServers. apply bind_extends.
  - apply checkTeamSize_extends.
  - intros a s'. apply extends_refl.
Qed.

Lemma serverListEntries_extends values :
  forall interfaces s, extends s (snd (serverListEntries values interfaces s)).
Proof.
  induction values as [|[v|] values IH]; intros interfaces s; simpl; [grows|apply IH|].
  eapply extends_trans; [|apply IH]. destruct (performQuiescentChecks _); grows.
Qed.

Lemma storageSizeEstimatesFrom_extends shard servers metric rest :
  forall i estimated firstValid s,
    extends s (snd (storageSizeEstimatesFrom shard servers metric i rest estimated firstValid s)).
Proof.
  induction rest as [|server rest IH]; intros i estimated firstValid s; simpl; [grows|].
  destruct (metric server) as [numBytes|e].
  - destruct (firstValid <? 0); [apply IH|].
    eapply extends_trans; [|apply IH]. destruct (negb _); grows.
  - eapply extends_trans; [|apply IH]. grows.
Qed.

Lemma getStorageSizeEstimate_extends env servers shard s :
  extends s (snd (getStorageSizeEstimate env servers shard s)).
Proof.
  unfold getStorageSizeEstimate. destruct (waitMetricsError env); simpl; [grows|].
  apply storageSizeEstimatesFrom_extends.
Qed.

Lemma checkEstimatesFrom_extends servers sampled rest :
  forall j valid s, extends s (snd (checkEstimatesFrom servers sampled j rest valid s)).
Proof.
  induction rest as [|estimate rest IH]; intros j valid s; simpl; [grows|].
  destruct (_ && _); simpl; [grows|].
  destruct (estimate <? 0); simpl; [grows|apply IH].
Qed.

Lemma checkEstimates_extends servers estimated sampled s :
  extends s (snd (checkEstimates servers estimated sampled s)).
Proof.
  unfold checkEstimates. destruct (performQuiescentChecks _); simpl; [|grows].
  apply checkEstimatesFrom_extends.
Qed.

Lemma checkShardEstimate_extends bounds range a s :
  extends s (checkShardEstimate bounds range a s).
Proof. unfold checkShardEstimate. destruct (inaccurateShardEstimate a); grows. Qed.

Lemma checkShardSize_extends prefix bounds range n a s :
  extends s (snd (checkShardSize prefix bounds range n a s)).
Proof. unfold checkShardSize. destruct (_ && _); simpl; grows. Qed.

Lemma checkShardSizes_extends prefix range n env servers estimated read s :
  extends s (snd (checkShardSizes prefix range n env servers estimated read s)).
Proof.
  unfold checkShardSizes.
  pose proof (checkEstimates_extends servers estimated
                (sampledBytes (finishCanSplit (shardBounds env) read)) s) as H.
  destruct (checkEstimates _ _ _ _) as [valid s1]; simpl in H.
  eapply extends_trans; [exact H|].
  eapply extends_trans; [apply checkShardEstimate_extends|apply checkShardSize_extends].
Qed.

Lemma readRangeResult_extends esize servers interfaces range req relocating futures j result acc s :
  extends s (snd (readRangeResult esize servers interfaces range req relocating futures j result acc s)).
Proof. unfold readRangeResult. destruct acc. by_cases. Qed.

Lemma readRangeResults_extends esize servers interfaces range req relocating futures rest :
  forall j acc s,
    extends s (snd (readRangeResults esize servers interfaces range req relocating futures rest j acc s)).
Proof.
  induction rest as [|result rest IH]; intros j acc s; simpl; [grows|].
  apply bind_extends; [apply readRangeResult_extends|]. intros a s'. apply IH.
Qed.

Lemma readPage_extends sample esize splitLimit replyLimit unfair ke env range relocating
  servers interfaces round fuel rs s :
  extends s (snd (readPage sample esize splitLimit replyLimit unfair ke env range relocating
                    servers interfaces round fuel rs s)).
Proof.
  unfold readPage. destruct (getVersion _ _ _); simpl; grows.
  match goal with
  | |- context [readRangeResults ?a ?b ?c ?d ?e ?f ?g ?h ?i ?j ?k] =>
      pose proof (readRangeResults_extends a b c d e f g h i j k) as H;
      destruct (readRangeResults a b c d e f g h i j k) as [[[fv total]|b'|e'|] s']
  end; simpl in *; auto.
  by_cases; auto.
Qed.

Lemma readTry_extends sample esize splitLimit replyLimit unfair ke env range relocating
  servers interfaces round fuel rs s :
  extends s (snd (readTry sample esize splitLimit replyLimit unfair ke env range relocating
                    servers interfaces round fuel rs s)).
Proof.
  unfold readTry.
  pose proof (readPage_extends sample esize splitLimit replyLimit unfair ke env range
                relocating servers interfaces round fuel rs s) as H.
  destruct (readPage _ _ _ _ _ _ _ _ _ _ _ _ _ _ _) as [[next|b|e|] s']; simpl in *; auto.
  destruct (isVersionProblem e); simpl; auto. now apply extends_trace.
Qed.

Lemma readLoop_extends sample esize splitLimit replyLimit unfair ke fuel env range relocating
  servers interfaces :
  forall round rs s,
    extends s (snd (readLoop sample esize splitLimit replyLimit unfair ke fuel env range
                      relocating servers interfaces round rs s)).
Proof.
  induction fuel as [|fuel IH]; intros round rs s; simpl; [grows|].
  apply bind_extends; [apply readTry_extends|].
  intros next s'. destruct (snd next); [apply IH|grows].
Qed.

Lemma readServerList_extends fuel env servers :
  forall n s, extends s (snd (readServerList fuel env servers n s)).
Proof.
  induction fuel as [|fuel IH]; intros n s; cbn [readServerList]; [grows|].
  destruct (serverListError env n) as [e|].
  - destruct (serverList_onError env n e); [apply IH|grows].
  - pose proof (serverListEntries_extends (map (serverListValue env) servers) [] s) as H.
    destruct (serverListEntries _ _ _) as [interfaces s']. exact H.
Qed.

Lemma addEstimatedSizes_extends servers estimated s :
  extends s (snd (addEstimatedSizes servers estimated s)).
Proof. unfold addEstimatedSizes. by_cases. Qed.

Lemma shardIsSampled_extends shard s : extends s (snd (shardIsSampled shard s)).
Proof. unfold shardIsSampled. by_cases. Qed.

Lemma checkShard_extends sample esize splitLimit replyLimit unfair prefix ke configuration
  n shard range env fuel s :
  extends s (snd (checkShard sample esize splitLimit replyLimit unfair prefix ke configuration
                    n shard range env fuel s)).
Proof.
  unfold checkShard. apply bind_extends; [apply shardServers_extends|].
  intros servers s0. apply bind_extends; [apply readServerList_extends|].
  intros interfaces s1. apply bind_extends.
  { pose proof (getStorageSizeEstimate_extends env interfaces range s1) as H.
    destruct (getStorageSizeEstimate _ _ _ _) as [estimated s2]. exact H. }
  intros estimated s2. apply bind_extends; [apply addEstimatedSizes_extends|].
  intros _ s3. apply bind_extends; [apply shardIsSampled_extends|].
  intros sampled s4. apply bind_extends.
  - destruct sampled; [|grows].
    apply bind_extends; [apply readLoop_extends|].
    intros rs s'. apply bind_extends; [apply checkShardSizes_extends|].
    intros; grows.
  - intros bytes s'. simpl. destruct (bytes >? 0); grows.
Qed.

Lemma shardLoop_extends sample esize splitLimit replyLimit unfair prefix ke fuel configuration
  ranges order env :
  forall i inc s,
    extends s (snd (shardLoop sample esize splitLimit replyLimit unfair prefix ke fuel
                      configuration ranges order env i inc s)).
Proof.
  induction fuel as [|fuel IH]; intros i inc s; simpl; [grows|].
  destruct (to_size_t i <? _); [|grows].
  apply bind_extends; [apply checkShard_extends|]. intros a s'. apply IH.
Qed.

Lemma checkDataConsistency_extends sample esize shuffle splitLimit replyLimit unfair prefix ke
  fuel keyLocations configuration env s :
  extends s (snd (checkDataConsistency sample esize shuffle splitLimit replyLimit unfair
                    prefix ke fuel keyLocations configuration env s)).
Proof.
  unfold checkDataConsistency.
  match goal with
  | |- context [shardLoop ?a ?b ?c ?d ?e ?f ?g ?h ?i ?j ?k ?l ?m ?n ?o] =>
      pose proof (shardLoop_extends a b c d e f g h i j k l m n o) as H;
      destruct (shardLoop a b c d e f g h i j k l m n o) as [[u|b'|e'|] s']
  end; simpl in *; auto.
Qed.

(** ** The verdict *)

Lemma setup_sticky quietDatabase s :
  success (self s) = false -> success (self (_setup quietDatabase s)) = false.
Proof.
  intros H. unfold _setup.
  destruct (_ && _); auto. destruct quietDatabase; auto.
Qed.

Lemma exec_sticky (st : Statement) (s : State) :
  check s = false -> check (exec st s) = false.
Proof.
  unfold check. intros H. destruct st; simpl.
  - reflexivity.
  - exact H.
  - now apply setup_sticky.
  - exact H.
  - eapply extends_success; [apply quiescentQueueChecks_extends | exact H].
  - unfold runCheckCatch. now destruct (loggedAsRetry e).
  - eapply extends_success; [apply getKeyLocations_extends | exact H].
  - eapply extends_success; [apply checkDataConsistency_extends | exact H].
Qed.

Lemma run_sticky (program : list Statement) :
  forall s, check s = false -> check (run program s) = false.
Proof.
  unfold run. induction program as [|st program IH]; intros s H; simpl; auto.
  apply IH. now apply exec_sticky.
Qed.

Lemma run_app (before after : list Statement) (s : State) :
  run (before ++ after) s = run after (run before s).
Proof. unfold run. apply fold_left_app. Qed.

(** C8.  The flag [success] starts true; [testFailure] sets it to false; no
    statement of the workload (the writes to the workload object, the trace
    events, the handler of [runCheck], and the actors [_setup], the
    quiescent checks, [getKeyLocations] and [checkDataConsistency]) sets it
    back to true: a run that starts with
    the flag false ends with it false, and a run in which [testFailure] is
    called anywhere ends with the verdict [check] false. *)
Theorem success_sticky_false :
  (forall wcx, check (initialState wcx) = true)
  /\ (forall message s, check (testFailure message s) = false)
  /\ (forall program s, check s = false -> check (run program s) = false)
  /\ (forall before message after s,
        check (run (before ++ STestFailure message :: after) s) = false).
Proof.
  repeat split.
  - intros program s H. now apply run_sticky.
  - intros before message after s.
    rewrite run_app. change (run (STestFailure message :: after) (run before s))
      with (run after (testFailure message (run before s))).
    now apply run_sticky.
Qed.

Lemma success_sticky_false_witness :
  check (run [STraceEvent (event "ConsistencyCheck" []); SSetup (Present tt); SNextRepetition]
             (testFailure "Invalid team size" (initialState someContext))) = false.
Proof.
  apply (proj1 (proj2 (proj2 success_sticky_false))). reflexivity.
Defined.

(** ** Work partitioning *)

Lemma wrap_overflow (z : Z) :
  Int32.max_int < z < 2 ^ 32 -> Int32.wrap z = z - 2 ^ 32.
Proof.
  unfold Int32.max_int, Int32.wrap. intros H.
  assert (E : (z + 2 ^ 31) mod 2 ^ 32 = z + 2 ^ 31 - 2 ^ 32)
    by (symmetry; apply Z.mod_unique with (q := 1); lia).
  rewrite E. lia.
Qed.

Lemma shardIndices_stops_below_zero (fuel : nat) (n i inc : Z) :
  n <= 2 ^ 31 -> Int32.min_int <= i < 0 -> shardIndices fuel n i inc = Ok [].
Proof.
  unfold Int32.min_int. intros Hn Hi.
  assert (E : (to_size_t i <? n) = false).
  { rewrite to_size_t_negative by lia. apply Z.ltb_ge. lia. }
  destruct fuel; simpl; now rewrite E.
Qed.

Lemma shardIndices_finishes (n inc : Z) :
  n <= 2 ^ 31 -> 1 <= inc <= Int32.max_int ->
  forall (fuel : nat) (i : Z),
    Int32.in_range i -> i < 0 \/ n - i <= Z.of_nat fuel ->
    exists indices, shardIndices fuel n i inc = Ok indices.
Proof.
  intros Hn Hinc. induction fuel as [|fuel IH]; intros i Hi Hfuel.
  - destruct (Z.ltb_spec i 0) as [Hneg|Hpos].
    + exists []. apply shardIndices_stops_below_zero; unfold Int32.in_range in Hi; lia.
    + exists []. simpl.
      unfold Int32.in_range, Int32.max_int in Hi.
      rewrite to_size_t_nonneg by lia.
      replace (i <? n) with false; [reflexivity|]. symmetry. apply Z.ltb_ge. lia.
  - destruct (Z.ltb_spec i 0) as [Hneg|Hpos].
    + exists []. apply shardIndices_stops_below_zero; unfold Int32.in_range in Hi; lia.
    + simpl. unfold Int32.in_range, Int32.max_int, Int32.min_int in Hi.
      rewrite to_size_t_nonneg by lia.
      destruct (i <? n) eqn:E; [|now exists []].
      apply Z.ltb_lt in E.
      destruct (IH (Int32.add i inc)) as [indices Hindices].
      * apply wrap_range.
      * unfold Int32.add. unfold Int32.max_int in Hinc.
        destruct (Z_le_gt_dec (i + inc) Int32.max_int) as [Hfit|Hover].
        -- right. rewrite wrap_in_range
             by (unfold Int32.in_range, Int32.min_int, Int32.max_int in *; lia).
           lia.
        -- left. rewrite wrap_overflow by (unfold Int32.max_int in *; lia). lia.
      * rewrite Hindices. now exists (i :: indices).
Qed.

Lemma shardIndices_stuck (n i : Z) :
  (to_size_t i <? n) = true -> Int32.add i 0 = i ->
  forall fuel, shardIndices fuel n i 0 = Unfinished.
Proof.
  intros Hlt Hsame. induction fuel as [|fuel IH]; simpl; rewrite Hlt; [reflexivity|].
  now rewrite Hsame, IH.
Qed.

(** C10 (as amended).  Whatever value the option [shardSampleFactor] is
    given, zero and negative values included, the workload's
    [shardSampleFactor] is the larger of that value and 1, hence at least 1.
    For a client [c] of [clientCount] clients, as long as the products
    [c * (shardSampleFactor + 1)] and [clientCount * shardSampleFactor] fit
    an [int]: the shard index starts at [c * (shardSampleFactor + 1)], which
    is 0 for the first client and at least 2 for any other; the increment is
    at least 1; and the loop over the shards comes to its end (it visits
    finitely many indices). *)
Theorem shard_loop_advances (wcx : WorkloadContext) :
  let w := newConsistencyCheckWorkload wcx in
  (shardSampleFactor w = Z.max (getOption (opt_shardSampleFactor (options wcx)) 1) 1
   /\ 1 <= shardSampleFactor w)
  /\ (0 <= clientId w < clientCount w ->
      clientId w * (shardSampleFactor w + 1) <= Int32.max_int ->
      clientCount w * shardSampleFactor w <= Int32.max_int ->
      firstShardIndex w = clientId w * (shardSampleFactor w + 1)
      /\ (clientId w = 0 -> firstShardIndex w = 0)
      /\ (1 <= clientId w -> 2 <= firstShardIndex w)
      /\ 1 <= increment w
      /\ forall shardCount, 0 <= shardCount <= Int32.max_int ->
           exists indices,
             shardIndices (Z.to_nat shardCount) shardCount (firstShardIndex w) (increment w)
             = Ok indices).
Proof.
  intros w.
  assert (Hfactor : 1 <= shardSampleFactor w) by (subst w; simpl; lia).
  split; [split; [reflexivity | exact Hfactor]|].
  intros Hclient Hstart Hstep.
  assert (Hindex : firstShardIndex w = clientId w * (shardSampleFactor w + 1)).
  { unfold firstShardIndex, Int32.mul, Int32.add.
    destruct (Z.eq_dec (clientId w) 0) as [E|E].
    - rewrite E. reflexivity.
    - assert (shardSampleFactor w + 1 <= Int32.max_int) by nia.
      rewrite (wrap_in_range (shardSampleFactor w + 1))
        by (unfold Int32.in_range, Int32.min_int, Int32.max_int in *; lia).
      apply wrap_in_range.
      unfold Int32.in_range, Int32.min_int, Int32.max_int in *. nia. }
  assert (Hinc : 1 <= increment w <= Int32.max_int).
  { unfold increment, effectiveClientCount, Int32.mul.
    destruct (distributed w && negb (firstClient w)) eqn:E;
      [|unfold Int32.max_int; lia].
    apply andb_prop in E. destruct E as [E _]. rewrite E.
    rewrite wrap_in_range
      by (unfold Int32.in_range, Int32.min_int, Int32.max_int in *; nia).
    nia. }
  repeat split.
  - exact Hindex.
  - intros E. rewrite Hindex, E. reflexivity.
  - intros H. rewrite Hindex. nia.
  - apply Hinc.
  - intros shardCount Hcount. apply shardIndices_finishes.
    + unfold Int32.max_int in Hcount. lia.
    + exact Hinc.
    + rewrite Hindex. unfold Int32.in_range, Int32.min_int, Int32.max_int in *. nia.
    + right. rewrite Hindex. rewrite Z2Nat.id by lia. nia.
Qed.

Lemma shard_loop_advances_witness :
  let w := newConsistencyCheckWorkload thirdOfFour in
  shardSampleFactor w = 1 /\ firstShardIndex w = 4 /\ increment w = 4
  /\ exists indices, shardIndices 10 10 (firstShardIndex w) (increment w) = Ok indices.
Proof.
  destruct (shard_loop_advances thirdOfFour) as [[Hmax _] Hrest].
  destruct Hrest as [Hindex [_ [_ [_ Hloop]]]];
    [cbn; lia | cbn; unfold Int32.max_int; lia | cbn; unfold Int32.max_int; lia |].
  split; [exact Hmax|]. split; [exact Hindex|]. split; [reflexivity|].
  apply (Hloop 10). unfold Int32.max_int. lia.
Defined.

(** C10, the claim as stated fails: the first client starts at shard index
    0, which is not at least 1; and for a [shardSampleFactor] of [2^30] with
    four clients the product [clientCount * shardSampleFactor] wraps around
    to an increment of 0, with which the loop stays at its first index. *)
Lemma shard_start_and_increment_below_one :
  ~ 1 <= firstShardIndex (newConsistencyCheckWorkload firstOfTwo)
  /\ ~ 1 <= increment (newConsistencyCheckWorkload secondOfFourSparse)
  /\ forall fuel,
       shardIndices fuel (2 ^ 31)
         (firstShardIndex (newConsistencyCheckWorkload secondOfFourSparse))
         (increment (newConsistencyCheckWorkload secondOfFourSparse)) = Unfinished.
Proof.
  split; [vm_compute; intros H; now apply H|].
  split; [vm_compute; intros H; now apply H|].
  apply shardIndices_stuck; reflexivity.
Qed.

(** ** getVersion *)

Lemma getVersion_body_cases getReadVersion onError (n : nat) :
  getVersion_body getReadVersion onError n
  = match getReadVersion n with
    | Present version => Return version
    | Failed _ => Next tt
    end.
Proof. unfold getVersion_body, wait, try_catch. now destruct (getReadVersion n). Qed.

Lemma getVersion_from_never_throws getReadVersion onError (fuel : nat) :
  forall n e, getVersion_from getReadVersion onError fuel n <> Thrown e.
Proof.
  induction fuel as [|fuel IH]; intros n e; simpl; [discriminate|].
  rewrite getVersion_body_cases. destruct (getReadVersion n); [discriminate|apply IH].
Qed.

Lemma getVersion_from_returns getReadVersion onError (fuel : nat) :
  forall k version,
    getVersion_from getReadVersion onError fuel k = Ok version
    <-> exists n, (n < fuel)%nat /\ getReadVersion (k + n)%nat = Present version
                  /\ forall m, (m < n)%nat -> present (getReadVersion (k + m)%nat) = false.
Proof.
  induction fuel as [|fuel IH]; intros k version; simpl.
  - split; [discriminate|]. intros [n [Hn _]]. lia.
  - rewrite getVersion_body_cases. destruct (getReadVersion k) as [v|e] eqn:E.
    + split.
      * intros H. injection H as ->. exists 0%nat. rewrite Nat.add_0_r.
        repeat split; [lia|exact E|]. intros m Hm. lia.
      * intros [n [_ [Hn Hbefore]]]. destruct n as [|n].
        -- rewrite Nat.add_0_r, E in Hn. now injection Hn as ->.
        -- specialize (Hbefore 0%nat ltac:(lia)). rewrite Nat.add_0_r, E in Hbefore.
           discriminate.
    + rewrite IH. split.
      * intros [n [Hn [Hv Hbefore]]]. exists (S n).
        repeat split; [lia|now rewrite Nat.add_succ_r|].
        intros m Hm. destruct m as [|m]; [now rewrite Nat.add_0_r, E|].
        rewrite Nat.add_succ_r. apply Hbefore. lia.
      * intros [n [Hn [Hv Hbefore]]]. destruct n as [|n].
        -- rewrite Nat.add_0_r, E in Hv. discriminate.
        -- exists n. repeat split; [lia|now rewrite Nat.add_succ_r in Hv|].
           intros m Hm. specialize (Hbefore (S m) ltac:(lia)).
           now rewrite Nat.add_succ_r in Hbefore.
Qed.

(** C9.  [getVersion] never throws to its caller.  Whatever error
    [getReadVersion] fails with, of the kind a transaction retries or not,
    and whatever the future of [onError] holds (it is dropped), the body of
    the loop goes on to the next turn with a fresh transaction.  So the actor
    ends only by returning a read version: the one of the first transaction
    that gets one, given enough fuel to reach it; and when no transaction
    ever gets a version, it never ends. *)
Theorem getVersion_only_returns_a_version
  (getReadVersion : nat -> ErrorOr Version) (onError : nat -> Error -> ErrorOr unit) :
  (forall n e, getReadVersion n = Failed e ->
     getVersion_body getReadVersion onError n = Next tt)
  /\ (forall fuel e, getVersion getReadVersion onError fuel <> Thrown e)
  /\ (forall fuel version,
        getVersion getReadVersion onError fuel = Ok version
        <-> exists n, (n < fuel)%nat /\ getReadVersion n = Present version
                      /\ forall m, (m < n)%nat -> present (getReadVersion m) = false)
  /\ ((forall n, present (getReadVersion n) = false) ->
      forall fuel, getVersion getReadVersion onError fuel = Unfinished).
Proof.
  split; [|split; [|split]].
  - intros n e H. rewrite getVersion_body_cases. now rewrite H.
  - intros fuel e. apply getVersion_from_never_throws.
  - intros fuel version. unfold getVersion. apply getVersion_from_returns.
  - intros Hnone fuel. unfold getVersion.
    destruct (getVersion_from getReadVersion onError fuel 0) as [v|e|] eqn:E.
    + apply getVersion_from_returns in E. destruct E as [n [_ [Hv _]]].
      specialize (Hnone (0 + n)%nat). rewrite Hv in Hnone. discriminate.
    + now apply getVersion_from_never_throws in E.
    + reflexivity.
Qed.

Lemma getVersion_only_returns_a_version_witness :
  getVersion_body thirdTimeLucky onErrorOfTransaction 0 = Next tt
  /\ getVersion thirdTimeLucky onErrorOfTransaction 5 = Ok 42.
Proof.
  destruct (getVersion_only_returns_a_version thirdTimeLucky onErrorOfTransaction)
    as [Hbody [_ [Hreturns _]]].
  split.
  - apply (Hbody 0%nat (other_error 2000)). reflexivity.
  - apply Hreturns. exists 2%nat. repeat split; [lia|].
    intros m Hm. destruct m as [|[|m]]; [reflexivity|reflexivity|lia].
Defined.

(** ** Failure messages on record *)

Lemma reasons_app (a b : list TraceEvent) : reasons (a ++ b) = reasons a ++ reasons b.
Proof.
  induction a as [|ev a IH]; simpl; [reflexivity|].
  destruct (String.eqb (eventType ev) "TestFailure"); [|exact IH].
  destruct (details ev) as [|d1 [|[n2 [r| | | | |]] [|d3 ds]]]; simpl; rewrite ?IH; reflexivity.
Qed.

Lemma reasons_testFailure (message : string) (s : State) :
  reasons (trace (testFailure message s))
  = reasons (trace s) ++ [("Consistency check: " ++ message)%string].
Proof. unfold testFailure. simpl. now rewrite reasons_app. Qed.

Lemma reasons_traceEvent (ev : TraceEvent) (s : State) :
  String.eqb (eventType ev) "TestFailure" = false ->
  reasons (trace (traceEvent ev s)) = reasons (trace s).
Proof.
  intros H. unfold traceEvent. simpl. rewrite reasons_app. simpl. rewrite H.
  apply app_nil_r.
Qed.

Lemma skipn_length_app {A : Type} (l l' : list A) : skipn (List.length l) (l ++ l') = l'.
Proof. induction l as [|x l IH]; simpl; auto. Qed.

Lemma newReasons_app (s s' : State) (new : list string) :
  reasons (trace s') = reasons (trace s) ++ new -> newReasons s s' = new.
Proof. intros H. unfold newReasons. rewrite H. apply skipn_length_app. Qed.

Lemma newReasons_same (s : State) : newReasons s s = [].
Proof. apply newReasons_app. now rewrite app_nil_r. Qed.

(** ** The checks on the sizes of a shard *)

Lemma extends_reasons (s s' : State) :
  extends s s' -> exists new, reasons (trace s') = reasons (trace s) ++ new.
Proof.
  induction 1 as [|s' ev _ [new Hnew]|s' m _ [new Hnew]].
  - exists []. now rewrite app_nil_r.
  - unfold traceEvent. cbn [trace]. rewrite reasons_app, Hnew, <- app_assoc.
    eexists. reflexivity.
  - rewrite reasons_testFailure, Hnew, <- app_assoc. eexists. reflexivity.
Qed.

Lemma newReasons_trans (s s1 s2 : State) :
  extends s s1 -> extends s1 s2 -> newReasons s s2 = newReasons s s1 ++ newReasons s1 s2.
Proof.
  intros H1 H2.
  destruct (extends_reasons _ _ H1) as [n1 E1]. destruct (extends_reasons _ _ H2) as [n2 E2].
  rewrite (newReasons_app s s1 n1 E1), (newReasons_app s1 s2 n2 E2).
  apply newReasons_app. rewrite E2, E1. now rewrite app_assoc.
Qed.

Lemma newReasons_failure (message : string) (ev : TraceEvent) (s : State) :
  String.eqb (eventType ev) "TestFailure" = false ->
  newReasons s (testFailure message (traceEvent ev s))
  = [("Consistency check: " ++ message)%string].
Proof.
  intros Hev. apply newReasons_app. now rewrite reasons_testFailure, reasons_traceEvent.
Qed.

Lemma checkEstimatesFrom_good storageServers sampled (before : list Z) :
  Forall (goodEstimate sampled) before ->
  forall j rest valid s,
    checkEstimatesFrom storageServers sampled j (before ++ rest) valid s
    = checkEstimatesFrom storageServers sampled (j + Z.of_nat (List.length before)) rest valid s.
Proof.
  induction 1 as [|estimate before [Hpos Hsame] _ IH]; intros j rest valid s; simpl.
  - now rewrite Z.add_0_r.
  - replace (estimate >=? 0) with true by (symmetry; apply Z.geb_le; lia).
    replace (estimate =? sampled) with true by (symmetry; now apply Z.eqb_eq).
    replace (estimate <? 0) with false by (symmetry; apply Z.ltb_ge; lia).
    simpl. rewrite IH. f_equal. lia.
Qed.

(** The walk over the estimates in a quiescent run, up to the first estimate
    that is not the recomputed sampled size. *)
Lemma checkEstimates_first_miss (storageServers : list UID) (sampled : Z) (s : State) :
  performQuiescentChecks (self s) = true ->
  (forall before estimate after,
     Forall (goodEstimate sampled) before -> 0 <= estimate -> estimate <> sampled ->
     checkEstimates storageServers (before ++ estimate :: after) sampled s
     = (false,
        testFailure "Storage servers had incorrect sampled estimate"
          (traceEvent (event "ConsistencyCheck_IncorrectEstimate"
                         [("EstimatedBytes", DInt estimate);
                          ("CorrectSampledBytes", DInt sampled);
                          ("StorageServer", DUID (nth (List.length before) storageServers 0))])
             s)))
  /\ (forall before estimate after,
        Forall (goodEstimate sampled) before -> estimate < 0 ->
        checkEstimates storageServers (before ++ estimate :: after) sampled s
        = (false, testFailure "Could not get storage metrics from server" s))
  /\ (forall estimatedBytes,
        Forall (goodEstimate sampled) estimatedBytes ->
        checkEstimates storageServers estimatedBytes sampled s
        = (Z.of_nat (List.length estimatedBytes) >? 0, s)).
Proof.
  intros Hquiescent. unfold checkEstimates. rewrite Hquiescent.
  split; [|split].
  - intros before estimate after Hgood Hpos Hdiff.
    rewrite (checkEstimatesFrom_good _ _ _ Hgood). simpl.
    replace (estimate >=? 0) with true by (symmetry; apply Z.geb_le; lia).
    replace (estimate =? sampled) with false by (symmetry; now apply Z.eqb_neq).
    simpl. now rewrite Nat2Z.id.
  - intros before estimate after Hgood Hneg.
    rewrite (checkEstimatesFrom_good _ _ _ Hgood). simpl.
    replace (estimate >=? 0) with false by (symmetry; rewrite Z.geb_leb; apply Z.leb_gt; lia).
    replace (estimate <? 0) with true by (symmetry; now apply Z.ltb_lt).
    reflexivity.
  - intros estimatedBytes Hgood.
    pose proof (checkEstimatesFrom_good storageServers _ _ Hgood 0 []
                  (Z.of_nat (List.length estimatedBytes) >? 0) s) as H.
    rewrite app_nil_r in H. rewrite H. reflexivity.
Qed.

(** The failures of the walk over the estimates: none, or one of its two. *)
Lemma checkEstimatesFrom_reasons storageServers sampled rest :
  forall j valid s,
    Forall estimateFailure
      (newReasons s (snd (checkEstimatesFrom storageServers sampled j rest valid s))).
Proof.
  induction rest as [|estimate rest IH]; intros j valid s; cbn [checkEstimatesFrom].
  - cbn [snd]. rewrite newReasons_same. constructor.
  - destruct (_ && _).
    + cbn [snd]. rewrite newReasons_failure by reflexivity.
      constructor; [now left|constructor].
    + destruct (estimate <? 0); [|apply IH].
      cbn [snd]. replace (newReasons s (testFailure _ s))
        with ["Consistency check: Could not get storage metrics from server"]
        by (symmetry; apply newReasons_app; now rewrite reasons_testFailure).
      constructor; [now right|constructor].
Qed.

Lemma checkEstimates_reasons storageServers estimatedBytes sampled s :
  Forall estimateFailure
    (newReasons s (snd (checkEstimates storageServers estimatedBytes sampled s))).
Proof.
  unfold checkEstimates. destruct (performQuiescentChecks (self s)).
  - apply checkEstimatesFrom_reasons.
  - cbn [snd]. rewrite newReasons_same. constructor.
Qed.

Lemma checkShardEstimate_reasons bounds range a s :
  newReasons s (checkShardEstimate bounds range a s)
  = if inaccurateShardEstimate a then [inaccurateEstimateReason] else [].
Proof.
  unfold checkShardEstimate. destruct (inaccurateShardEstimate a).
  - now rewrite newReasons_failure.
  - apply newReasons_same.
Qed.

Lemma checkShardSize_flow prefix bounds range n a (s s' : State) :
  performQuiescentChecks (self s') = performQuiescentChecks (self s) ->
  fst (checkShardSize prefix bounds range n a s') = fst (checkShardSize prefix bounds range n a s).
Proof.
  intros H. unfold checkShardSize. rewrite H. now destruct (_ && _).
Qed.

(** The failure of the check of the permitted size. *)
Lemma checkShardSize_reasons prefix bounds range n a s :
  let r := checkShardSize prefix bounds range n a s in
  (fst r = Next tt /\ snd r = s)
  \/ (fst r = Return false /\ performQuiescentChecks (self s) = true
      /\ (newReasons s (snd r)
          = ["Consistency check: Shard size in quiescent database is too small"]
          \/ newReasons s (snd r)
             = ["Consistency check: Shard size in quiescent database is too large"])).
Proof.
  cbv zeta. unfold checkShardSize.
  destruct (performQuiescentChecks (self s)) eqn:Hq;
    [|rewrite andb_false_r; cbn [andb]; left; now split].
  destruct (_ && _); [|left; now split].
  right. cbn [fst snd]. split; [reflexivity|]. split; [reflexivity|].
  rewrite newReasons_failure by reflexivity.
  destruct (sampledBytes a <? bounds_min bounds); [now left|now right].
Qed.

(** ** The storage queue in the quiescent checks *)

Ltac reasons_norm :=
  repeat first [ rewrite reasons_testFailure
               | rewrite reasons_traceEvent by reflexivity ].

Lemma undesirableServersFrom_reasons typeReply configuration rest :
  forall i s,
    exists k final,
      reasons (trace (snd (undesirableServersFrom typeReply configuration i rest s)))
      = reasons (trace s)
        ++ repeat "Consistency check: Storage server unavailable" k ++ final
      /\ (fst (undesirableServersFrom typeReply configuration i rest s) = false -> final = [])
      /\ (fst (undesirableServersFrom typeReply configuration i rest s) = true ->
          final = ["Consistency check: Storage server has wrong key-value store type"]
          \/ final = ["Consistency check: Multiple storage servers have the same address"]).
Proof.
  induction rest as [|ss rest IH]; intros i s; cbn [undesirableServersFrom fst snd].
  - exists 0%nat, []. cbn [repeat app]. rewrite app_nil_r. repeat split; auto; discriminate.
  - destruct (typeReply i) as [storeType|e].
    + destruct (negb _); cbn [fst snd].
      * exists 0%nat, ["Consistency check: Storage server has wrong key-value store type"].
        reasons_norm.
        repeat split; auto; discriminate.
      * destruct (sameAddressAfter _ _); cbn [fst snd]; [|apply IH].
        exists 0%nat, ["Consistency check: Multiple storage servers have the same address"].
        reasons_norm.
        repeat split; auto; discriminate.
    + destruct (sameAddressAfter _ _); cbn [fst snd].
      * exists 1%nat, ["Consistency check: Multiple storage servers have the same address"].
        reasons_norm.
        rewrite <- app_assoc. repeat split; auto; discriminate.
      * match goal with
        | |- context [undesirableServersFrom _ _ _ _ ?s1] =>
            destruct (IH (i + 1) s1) as [k [final [Hreasons [Hfalse Htrue]]]]
        end.
        exists (S k), final. repeat split; auto.
        rewrite Hreasons. reasons_norm.
        cbn [repeat]. rewrite <- !app_assoc. reflexivity.
Qed.

Lemma not_in_repeat (x y : string) (k : nat) : x <> y -> ~ In x (repeat y k).
Proof. intros Hxy Hin. apply repeat_spec in Hin. contradiction. Qed.

(** C7 (as amended).  In a quiescent run, when reading the maximum storage
    server queue size fails with [attribute_not_found], the failure "Could
    not read storage queue size" is recorded if and only if
    [checkForUndesirableServers] returned false; and it returned true if and
    only if it recorded "Storage server has wrong key-value store type" or
    "Multiple storage servers have the same address".  So a wrong store type
    suppresses the failure as a duplicate address does, and nothing else
    does: not a storage server that was unreachable in that check, nor a
    queue of data distribution or of the logs that is not empty. *)
Theorem storage_queue_error_suppressed_iff
  (configuration : DatabaseConfiguration) (q : QuiescentInputs) (s : State) :
  maxStorageServerQueueSize q = Failed attribute_not_found ->
  let hasUndesirableServers :=
    fst (checkForUndesirableServers (storageServers q) (storeTypeReply q) configuration s) in
  let recorded message :=
    In ("Consistency check: " ++ message)%string
       (newReasons s (snd (quiescentQueueChecks configuration q s))) in
  (recorded "Could not read storage queue size" <-> hasUndesirableServers = false)
  /\ (hasUndesirableServers = true
      <-> recorded "Storage server has wrong key-value store type"
          \/ recorded "Multiple storage servers have the same address")
  /\ fst (quiescentQueueChecks configuration q s) = Ok tt.
Proof.
  intros Hqueue hasUndesirableServers recorded.
  subst hasUndesirableServers recorded. unfold quiescentQueueChecks, checkForUndesirableServers.
  destruct (undesirableServersFrom_reasons (storeTypeReply q) configuration (storageServers q) 0 s)
    as [k [final [Hreasons [Hfalse Htrue]]]].
  destruct (undesirableServersFrom _ _ _ _ _) as [has s1]; simpl in *.
  rewrite Hqueue. unfold checkStorageServerQueue.
  set (s2 := if inDataDistributionQueue q >? 0 then _ else s1).
  set (s3 := if maxTLogQueueSize q >? 100000 then _ else s2).
  set (queues :=
         (if inDataDistributionQueue q >? 0
          then ["Consistency check: Non-zero data distribution queue/in-flight size"] else [])
         ++ (if maxTLogQueueSize q >? 100000
             then ["Consistency check: Non-zero tlog queue size"] else [])).
  assert (Hqueues : reasons (trace s3) = reasons (trace s1) ++ queues).
  { subst s3 s2 queues.
    destruct (inDataDistributionQueue q >? 0), (maxTLogQueueSize q >? 100000);
      reasons_norm; cbn [app]; rewrite <- ?app_assoc, ?app_nil_r; reflexivity. }
  assert (Hin : forall x, In x queues ->
                  x = "Consistency check: Non-zero data distribution queue/in-flight size"
                  \/ x = "Consistency check: Non-zero tlog queue size").
  { subst queues. intros x.
    destruct (inDataDistributionQueue q >? 0), (maxTLogQueueSize q >? 100000);
      simpl; intuition. }
  clearbody queues.
  assert (Hnew : newReasons s
                   (snd (if negb has
                         then (Ok tt, testFailure "Could not read storage queue size"
                                 (traceEvent (event "ConsistencyCheck_StorageQueueSizeError"
                                    [("Reason", DStr "Could not read queue size");
                                     ("Error", DError attribute_not_found)]) s3))
                         else (Ok tt, traceEvent (event "ConsistencyCheck_StorageQueueSizeError"
                                    [("Reason", DStr "Could not read queue size");
                                     ("Error", DError attribute_not_found)]) s3)))
                 = repeat "Consistency check: Storage server unavailable" k ++ final ++ queues
                   ++ (if has then [] else ["Consistency check: Could not read storage queue size"])).
  { apply newReasons_app. destruct has; cbn [negb snd]; reasons_norm;
      rewrite Hqueues, Hreasons; rewrite <- ?app_assoc, ?app_nil_r; reflexivity. }
  split; [|split].
  - rewrite Hnew. rewrite !in_app_iff. split.
    + intros [H|[H|[H|H]]].
      * apply not_in_repeat in H; [contradiction|discriminate].
      * destruct has; [|reflexivity].
        destruct (Htrue eq_refl) as [-> | ->]; simpl in H; destruct H as [H|[]]; discriminate.
      * apply Hin in H. destruct H; discriminate.
      * destruct has; [destruct H|reflexivity].
    + intros ->. right. right. right. simpl. auto.
  - rewrite Hnew. rewrite !in_app_iff. split.
    + intros ->. destruct (Htrue eq_refl) as [-> | ->]; [left|right]; right; left; simpl; auto.
    + intros H. destruct has; [reflexivity|]. rewrite (Hfalse eq_refl) in H.
      simpl in H. exfalso.
      destruct H as [[H|[[]|[H|[H|[]]]]]|[H|[[]|[H|[H|[]]]]]];
        try (apply not_in_repeat in H; [contradiction|discriminate]);
        try discriminate; try (apply Hin in H; destruct H; discriminate).
  - destruct (negb has); reflexivity.
Qed.

Lemma storage_queue_error_suppressed_iff_witness :
  In "Consistency check: Could not read storage queue size"
     (newReasons quiescentState
        (snd (quiescentQueueChecks someConfiguration oneUnreachable quiescentState))).
Proof.
  apply (proj1 (storage_queue_error_suppressed_iff someConfiguration oneUnreachable
                  quiescentState eq_refl)).
  reflexivity.
Defined.

(** C7, the claim as stated fails: with one storage server of the wrong
    store type, no failure for a duplicate address is on record, and yet the
    failure "Could not read storage queue size" is not recorded. *)
Lemma storage_queue_error_suppressed_by_wrong_store_type :
  let recorded message :=
    In ("Consistency check: " ++ message)%string
       (reasons (trace (snd (quiescentQueueChecks someConfiguration wrongStoreType
                               quiescentState)))) in
  ~ (recorded "Could not read storage queue size"
     <-> ~ recorded "Multiple storage servers have the same address").
Proof.
  intros recorded [_ H].
  assert (Hnone : ~ recorded "Multiple storage servers have the same address").
  { subst recorded. vm_compute. intros [E|[]]. discriminate. }
  specialize (H Hnone). subst recorded. vm_compute in H. destruct H as [E|[]]. discriminate.
Qed.

(** ** The team size *)

Lemma size_differs_from_int (n : nat) (t : Z) :
  Z.of_nat n < 2 ^ 63 -> Int32.in_range t ->
  (Z.of_nat n =? to_size_t t) = (Z.of_nat n =? t).
Proof.
  unfold Int32.in_range, Int32.min_int, Int32.max_int. intros Hn Ht.
  destruct (Z.ltb_spec t 0).
  - rewrite to_size_t_negative by lia.
    transitivity false; [|symmetry]; apply Z.eqb_neq; lia.
  - rewrite to_size_t_nonneg by lia. reflexivity.
Qed.

Lemma bind_return {R A B : Type} (m : Step R A) (k : A -> Step R B) (s s' : State) (r : R) :
  m s = (Return r, s') -> bind m k s = (Return r, s').
Proof. intros H. unfold bind. now rewrite H. Qed.

(** C1 (as amended).  In a quiescent run on the first client, a shard whose
    list of source servers has a size other than
    [configuration.storageTeamSize] gets the event
    [ConsistencyCheck_InvalidTeamSize] and the failure "Invalid team size",
    and [checkDataConsistency] returns false at that shard: the body of the
    loop, the loop and the actor.  This holds whether the shard is being
    relocated or not: the list of destination servers plays no part.  A
    shard whose source list has the configured size passes the check with
    nothing recorded. *)
Theorem invalid_team_size_fails
  (configuration : DatabaseConfiguration) (range : KeyRange) (env : ShardEnv) (s : State) :
  firstClient (self s) = true -> performQuiescentChecks (self s) = true ->
  Int32.in_range (storageTeamSize configuration) ->
  Z.of_nat (List.length (sourceStorageServers env)) < 2 ^ 63 ->
  let failed :=
    testFailure "Invalid team size"
      (traceEvent (event "ConsistencyCheck_InvalidTeamSize"
                     [("ShardBegin", DKey (range_begin range));
                      ("ShardEnd", DKey (range_end range));
                      ("teamSize", DInt (Z.of_nat (List.length (sourceStorageServers env))));
                      ("desiredTeamSize", DInt (storageTeamSize configuration))]) s) in
  (Z.of_nat (List.length (sourceStorageServers env)) <> storageTeamSize configuration ->
   shardServers configuration range env s = (Return false, failed)
   /\ (forall sample esize splitLimit replyLimit unfair prefix ke shardCount shard fuel,
         checkShard sample esize splitLimit replyLimit unfair prefix ke configuration
           shardCount shard range env fuel s = (Return false, failed))
   /\ (forall sample esize splitLimit replyLimit unfair prefix ke ranges order envs i inc fuel,
         (to_size_t i <? Z.of_nat (List.length ranges)) = true ->
         nth (Z.to_nat (nth (Z.to_nat i) order 0)) ranges (mkRange "" "") = range ->
         envs (nth (Z.to_nat i) order 0) = env ->
         shardLoop sample esize splitLimit replyLimit unfair prefix ke (S fuel) configuration
           ranges order envs i inc s = (Return false, failed))
   /\ (forall sample esize shuffle splitLimit replyLimit unfair prefix ke keyLocations envs fuel,
         let ranges := rangesOf keyLocations in
         let order := shardOrderOf shuffle (self s) (List.length ranges) in
         (to_size_t (firstShardIndex (self s)) <? Z.of_nat (List.length ranges)) = true ->
         nth (Z.to_nat (nth (Z.to_nat (firstShardIndex (self s))) order 0)) ranges
           (mkRange "" "") = range ->
         envs (nth (Z.to_nat (firstShardIndex (self s))) order 0) = env ->
         checkDataConsistency sample esize shuffle splitLimit replyLimit unfair prefix ke
           (S fuel) keyLocations configuration envs s = (Ok false, failed)))
  /\ (Z.of_nat (List.length (sourceStorageServers env)) = storageTeamSize configuration ->
      checkTeamSize configuration range (sourceStorageServers env) s = (Next tt, s)).
Proof.
  intros Hfirst Hquiescent Hrange Hsize failed.
  assert (Hcmp := size_differs_from_int _ _ Hsize Hrange).
  split.
  - intros Hdiff.
    assert (Hteam : checkTeamSize configuration range (sourceStorageServers env) s
                    = (Return false, failed)).
    { unfold checkTeamSize. rewrite Hfirst, Hquiescent, Hcmp.
      replace (_ =? _) with false by (symmetry; now apply Z.eqb_neq). reflexivity. }
    assert (Hservers : shardServers configuration range env s = (Return false, failed)).
    { unfold shardServers. now apply bind_return. }
    assert (Hshard : forall sample esize splitLimit replyLimit unfair prefix ke shardCount
                       shard fuel,
               checkShard sample esize splitLimit replyLimit unfair prefix ke configuration
                 shardCount shard range env fuel s = (Return false, failed)).
    { intros. unfold checkShard. now apply bind_return. }
    assert (Hloop : forall sample esize splitLimit replyLimit unfair prefix ke ranges order
                      envs i inc fuel,
               (to_size_t i <? Z.of_nat (List.length ranges)) = true ->
               nth (Z.to_nat (nth (Z.to_nat i) order 0)) ranges (mkRange "" "") = range ->
               envs (nth (Z.to_nat i) order 0) = env ->
               shardLoop sample esize splitLimit replyLimit unfair prefix ke (S fuel)
                 configuration ranges order envs i inc s = (Return false, failed)).
    { intros sample esize splitLimit replyLimit unfair prefix ke ranges order envs i inc fuel
             Hin Hnth Henv.
      simpl. rewrite Hin, Hnth, Henv. apply bind_return. apply Hshard. }
    repeat split; auto.
    intros sample esize shuffle splitLimit replyLimit unfair prefix ke keyLocations envs fuel
           ranges order Hin Hnth Henv.
    unfold checkDataConsistency. fold ranges. fold order.
    now rewrite (Hloop sample esize splitLimit replyLimit unfair prefix ke ranges order envs
                   _ _ fuel Hin Hnth Henv).
  - intros Hsame. unfold checkTeamSize. rewrite Hfirst, Hquiescent, Hcmp.
    replace (_ =? _) with true by (symmetry; now apply Z.eqb_eq). reflexivity.
Qed.

Lemma invalid_team_size_fails_witness :
  fst (shardServers someConfiguration (mkRange "a" "b") smallTeamShard quiescentState)
  = Return false.
Proof.
  destruct (invalid_team_size_fails someConfiguration (mkRange "a" "b") smallTeamShard
              quiescentState eq_refl eq_refl) as [Hfails _].
  - cbn. unfold Int32.in_range, Int32.min_int, Int32.max_int. lia.
  - cbn. lia.
  - destruct Hfails as [Hservers _]; [cbn; lia|]. now rewrite Hservers.
Defined.

(** C1, the claim as stated fails: a shard that is being relocated is not
    exempt from the check of the team size.  With a destination team of
    three and one source server, in a quiescent run configured for teams of
    three, the failure "Invalid team size" is recorded and the check of the
    shard returns false. *)
Lemma relocating_shard_not_exempt :
  destStorageServers relocatingShard <> []
  /\ fst (shardServers someConfiguration (mkRange "a" "b") relocatingShard quiescentState)
     = Return false
  /\ reasons (trace (snd (shardServers someConfiguration (mkRange "a" "b") relocatingShard
                            quiescentState)))
     = ["Consistency check: Invalid team size"].
Proof. repeat split. discriminate. Qed.

(** ** The replies to one page of the shard map *)

Lemma KeyValueRef_eqb_eq (a b : KeyValueRef) : KeyValueRef_eqb a b = true <-> a = b.
Proof.
  unfold KeyValueRef_eqb. rewrite andb_true_iff, !String.eqb_eq.
  destruct a, b; simpl. split; [intros [-> ->]; reflexivity | intros H; now inversion H].
Qed.

Lemma data_eqb_eq (a : list KeyValueRef) : forall b, data_eqb a b = true <-> a = b.
Proof.
  induction a as [|x a IH]; intros [|y b]; simpl; try (split; [discriminate|discriminate]).
  - split; reflexivity.
  - rewrite andb_true_iff, KeyValueRef_eqb_eq, IH.
    split; [intros [-> ->]; reflexivity | intros H; now inversion H].
Qed.

Lemma replyDiffers_false (a b : GetKeyValuesReply) : replyDiffers a b = false <-> a = b.
Proof.
  unfold replyDiffers. rewrite orb_false_iff, !negb_false_iff, data_eqb_eq, Bool.eqb_true_iff.
  destruct a, b; simpl. split; [intros [-> ->]; reflexivity | intros H; now inversion H].
Qed.

Lemma replyDiffers_refl (r : GetKeyValuesReply) : replyDiffers r r = false.
Proof. now apply replyDiffers_false. Qed.

Lemma getReply_app (before rest : list (ErrorOr GetKeyValuesReply)) (r : GetKeyValuesReply) :
  getReply (before ++ Present r :: rest) (Z.of_nat (List.length before)) = r.
Proof.
  unfold getReply. rewrite Nat2Z.id, nth_error_app2 by lia. rewrite Nat.sub_diag. simpl.
  replace (Z.of_nat (List.length before) <? 0) with false by (symmetry; apply Z.ltb_ge; lia).
  reflexivity.
Qed.

Lemma firstPresentFrom_none (rest : list (ErrorOr GetKeyValuesReply)) :
  forall j, firstPresentFrom j rest = None <-> Forall (fun x => present x = false) rest.
Proof.
  induction rest as [|[r|e] rest IH]; intros j; simpl.
  - split; auto.
  - split; [discriminate|]. intros H. inversion H. discriminate.
  - rewrite IH. split; [intros H; now constructor | intros H; now inversion H].
Qed.

(** The loop once the reference is chosen: what each way of leaving it tells
    about the replies still to read. *)
Lemma scan_after_reference servers futures firstValid reference :
  0 <= firstValid -> getReply futures firstValid = reference ->
  forall rest j s,
    match readLocationReplies servers futures rest j firstValid s with
    | (Next firstValid', s') =>
        firstValid' = firstValid /\ s' = s /\ allAgree reference rest
        /\ (performQuiescentChecks (self s) = true -> Forall (fun x => present x = true) rest)
    | (Return b, s') =>
        b = false
        /\ exists ev message,
             s' = testFailure message (traceEvent ev s)
             /\ String.eqb (eventType ev) "TestFailure" = false
             /\ ((message = "Key server unavailable"
                  /\ performQuiescentChecks (self s) = true
                  /\ exists e, In (Failed e) rest)
                 \/ (message = "Key servers inconsistent"
                     /\ exists current, In (Present current) rest
                                        /\ replyDiffers current reference = true))
    | (Throw _, _) => False
    | (Stuck, _) => False
    end.
Proof.
  intros Hvalid Href. induction rest as [|reply rest IH]; intros j s.
  - simpl. repeat split; [intros c []|constructor].
  - cbn [readLocationReplies]. unfold readLocationReply.
    replace (firstValid <? 0) with false by (symmetry; apply Z.ltb_ge; lia).
    rewrite Href. destruct reply as [current|e].
    + destruct (replyDiffers current reference) eqn:Hdiff.
      * split; [reflexivity|]. eexists _, _. split; [reflexivity|]. split; [reflexivity|].
        right. split; [reflexivity|]. exists current. split; [now left|exact Hdiff].
      * specialize (IH (j + 1) s).
        destruct (readLocationReplies servers futures rest (j + 1) firstValid s)
          as [[fv'|b|e'|] s']; auto.
        -- destruct IH as [-> [-> [Hagree Hall]]].
           split; [reflexivity|]. split; [reflexivity|]. split.
           ++ intros c [Hc|Hc]; [injection Hc as <-; exact Hdiff|now apply Hagree].
           ++ intros Hq. constructor; [reflexivity|now apply Hall].
        -- destruct IH as [-> [ev [message [-> [Hev Hcases]]]]]. split; [reflexivity|].
           exists ev, message. split; [reflexivity|]. split; [exact Hev|].
           destruct Hcases as [[-> [Hq [e0 Hin]]]|[-> [c [Hin Hc]]]].
           ++ left. repeat split; auto. exists e0. now right.
           ++ right. split; [reflexivity|]. exists c. split; [now right|exact Hc].
    + destruct (performQuiescentChecks (self s)) eqn:Hq.
      * split; [reflexivity|]. eexists _, _. split; [reflexivity|]. split; [reflexivity|].
        left. repeat split. exists e. now left.
      * simpl. specialize (IH (j + 1) s).
        destruct (readLocationReplies servers futures rest (j + 1) firstValid s)
          as [[fv'|b|e'|] s']; auto.
        -- destruct IH as [-> [-> [Hagree Hall]]].
           split; [reflexivity|]. split; [reflexivity|]. split.
           ++ intros c [Hc|Hc]; [discriminate|now apply Hagree].
           ++ intros Hq'. try rewrite Hq in Hq'. discriminate.
        -- destruct IH as [-> [ev [message [-> [Hev Hcases]]]]]. split; [reflexivity|].
           exists ev, message. split; [reflexivity|]. split; [exact Hev|].
           destruct Hcases as [[-> [Hq' [e0 Hin]]]|[-> [c [Hin Hc]]]].
           ++ rewrite Hq in Hq'. discriminate.
           ++ right. split; [reflexivity|]. exists c. split; [now right|exact Hc].
Qed.

(** The loop before a reference is chosen, at the index where [rest]
    starts. *)
Lemma scan_before_reference servers futures firstValid :
  firstValid < 0 ->
  forall rest before s,
    futures = before ++ rest ->
    match readLocationReplies servers futures rest (Z.of_nat (List.length before))
            firstValid s with
    | (Next firstValid', s') =>
        s' = s
        /\ (performQuiescentChecks (self s) = true -> Forall (fun x => present x = true) rest)
        /\ match firstPresentFrom (Z.of_nat (List.length before)) rest with
           | Some (i, reference) => firstValid' = i /\ allAgree reference rest
           | None => rest = [] /\ firstValid' = firstValid
           end
    | (Return b, s') =>
        b = false
        /\ exists ev message,
             s' = testFailure message (traceEvent ev s)
             /\ String.eqb (eventType ev) "TestFailure" = false
             /\ ((message = "Key server unavailable"
                  /\ performQuiescentChecks (self s) = true
                  /\ exists e, In (Failed e) rest)
                 \/ (message = "Key servers inconsistent"
                     /\ exists i reference current,
                          firstPresentFrom (Z.of_nat (List.length before)) rest
                          = Some (i, reference)
                          /\ In (Present current) rest
                          /\ replyDiffers current reference = true))
    | (Throw e, s') =>
        e = all_alternatives_failed /\ s' = s
        /\ performQuiescentChecks (self s) = false
        /\ firstPresentFrom (Z.of_nat (List.length before)) rest = None
        /\ rest <> []
    | (Stuck, _) => False
    end.
Proof.
  intros Hnone. induction rest as [|reply rest IH]; intros before s Hfutures.
  - simpl. repeat split. constructor.
  - assert (Hnext : Z.of_nat (List.length before) + 1
                    = Z.of_nat (List.length (before ++ [reply])))
      by (rewrite length_app; simpl; lia).
    assert (Hfutures' : futures = (before ++ [reply]) ++ rest)
      by (rewrite <- app_assoc; exact Hfutures).
    cbn [readLocationReplies firstPresentFrom]. unfold readLocationReply.
    replace (firstValid <? 0) with true by (symmetry; apply Z.ltb_lt; lia).
    destruct reply as [current|e].
    + pose proof (scan_after_reference servers futures (Z.of_nat (List.length before)) current
                    ltac:(lia) ltac:(rewrite Hfutures; apply getReply_app)
                    rest (Z.of_nat (List.length before) + 1) s) as H.
      destruct (readLocationReplies servers futures rest _ _ s) as [[fv'|b|e'|] s'];
        try contradiction.
      * destruct H as [-> [-> [Hagree Hall]]].
        split; [reflexivity|]. split.
        -- intros Hq. constructor; [reflexivity|now apply Hall].
        -- split; [reflexivity|].
           intros c [Hc|Hc]; [injection Hc as <-; apply replyDiffers_refl|now apply Hagree].
      * destruct H as [-> [ev [message [-> [Hev Hcases]]]]]. split; [reflexivity|].
        exists ev, message. split; [reflexivity|]. split; [exact Hev|].
        destruct Hcases as [[-> [Hq [e0 Hin]]]|[-> [c [Hin Hc]]]].
        -- left. repeat split; auto. exists e0. now right.
        -- right. split; [reflexivity|].
           exists (Z.of_nat (List.length before)), current, c.
           repeat split; [now right|exact Hc].
    + destruct (performQuiescentChecks (self s)) eqn:Hq.
      * split; [reflexivity|]. eexists _, _. split; [reflexivity|]. split; [reflexivity|].
        left. repeat split. exists e. now left.
      * cbn [andb].
        assert (Hlast : (Z.of_nat (List.length before)
                         =? Z.of_nat (List.length futures) - 1)
                        = match rest with [] => true | _ => false end).
        { rewrite Hfutures, length_app. simpl. destruct rest; simpl.
          - apply Z.eqb_eq. lia.
          - apply Z.eqb_neq. lia. }
        rewrite Hlast. destruct rest as [|next rest'] eqn:Hrest.
        -- repeat split. discriminate.
        -- rewrite <- Hrest in *. clear Hlast. rewrite Hnext.
           specialize (IH (before ++ [Failed e]) s Hfutures').
           destruct (readLocationReplies servers futures rest _ _ s) as [[fv'|b|e'|] s'];
        try contradiction.
           ++ destruct IH as [-> [Hall Hfirst]]. split; [reflexivity|].
              split; [intros Hq'; discriminate|].
              destruct (firstPresentFrom _ rest) as [[i reference]|].
              ** destruct Hfirst as [-> Hagree]. split; [reflexivity|].
                 intros c [Hc|Hc]; [discriminate|now apply Hagree].
              ** destruct Hfirst as [Hnil _]. rewrite Hrest in Hnil. discriminate.
           ++ destruct IH as [-> [ev [message [-> [Hev Hcases]]]]]. split; [reflexivity|].
              exists ev, message. split; [reflexivity|]. split; [exact Hev|].
              destruct Hcases as [[-> [Hq' _]]|[-> [i [reference [c [Hfirst [Hin Hc]]]]]]].
              ** rewrite Hq in Hq'. discriminate.
              ** right. split; [reflexivity|]. exists i, reference, c.
                 repeat split; [exact Hfirst|now right|exact Hc].
           ++ destruct IH as [-> [-> [_ [Hfirst _]]]]. repeat split; auto. discriminate.
Qed.

(** What each way of leaving the loop over the replies of a page tells about
    the replies. *)
Lemma scan_outcome servers futures s :
  match readShardLocationResults servers futures s with
  | (Next firstValid, s') =>
      s' = s
      /\ (performQuiescentChecks (self s) = true -> Forall (fun x => present x = true) futures)
      /\ match firstPresent futures with
         | Some (i, reference) => firstValid = i /\ allAgree reference futures
         | None => futures = [] /\ firstValid = -1
         end
  | (Return b, s') =>
      b = false
      /\ exists ev message,
           s' = testFailure message (traceEvent ev s)
           /\ String.eqb (eventType ev) "TestFailure" = false
           /\ ((message = "Key server unavailable"
                /\ performQuiescentChecks (self s) = true
                /\ exists e, In (Failed e) futures)
               \/ (message = "Key servers inconsistent"
                   /\ exists i reference current,
                        firstPresent futures = Some (i, reference)
                        /\ In (Present current) futures
                        /\ replyDiffers current reference = true))
  | (Throw e, s') =>
      e = all_alternatives_failed /\ s' = s
      /\ performQuiescentChecks (self s) = false
      /\ firstPresent futures = None
      /\ futures <> []
  | (Stuck, _) => False
  end.
Proof.
  exact (scan_before_reference servers futures (-1) ltac:(lia) futures [] s eq_refl).
Qed.

Lemma firstPresentFrom_split (rest : list (ErrorOr GetKeyValuesReply)) :
  forall j i reference,
    firstPresentFrom j rest = Some (i, reference) ->
    exists pre post,
      rest = pre ++ Present reference :: post /\ i = j + Z.of_nat (List.length pre).
Proof.
  induction rest as [|[r|e] rest IH]; intros j i reference; simpl.
  - discriminate.
  - intros H. injection H as <- <-. exists [], rest. split; [reflexivity|simpl; lia].
  - intros H. destruct (IH _ _ _ H) as [pre [post [-> ->]]].
    exists (Failed e :: pre), post. split; [reflexivity|]. simpl List.length. lia.
Qed.

Lemma firstPresent_getReply futures i reference :
  firstPresent futures = Some (i, reference) -> getReply futures i = reference.
Proof.
  intros H. destruct (firstPresentFrom_split _ _ _ _ H) as [pre [post [-> ->]]].
  apply getReply_app.
Qed.

(** The loop goes past replies that are the reference. *)
Lemma scan_agreeing servers futures firstValid reference agreeing :
  0 <= firstValid -> getReply futures firstValid = reference ->
  (forall x, In x agreeing -> x = Present reference) ->
  forall rest j s,
    readLocationReplies servers futures (agreeing ++ rest) j firstValid s
    = readLocationReplies servers futures rest (j + Z.of_nat (List.length agreeing))
        firstValid s.
Proof.
  intros Hvalid Href. induction agreeing as [|x agreeing IH]; intros Hall rest j s.
  - simpl. now rewrite Z.add_0_r.
  - rewrite (Hall x (or_introl eq_refl)). cbn [app readLocationReplies].
    unfold readLocationReply.
    replace (firstValid <? 0) with false by (symmetry; apply Z.ltb_ge; lia).
    rewrite Href, replyDiffers_refl.
    rewrite IH by (intros y Hy; apply Hall; now right).
    f_equal. simpl List.length. lia.
Qed.

(** A page whose first reply is the reference and whose next replies agree
    with it, up to a reply that is read next. *)
Lemma scan_reaches servers reference agreeing next after s :
  (forall x, In x agreeing -> x = Present reference) ->
  let futures := Present reference :: agreeing ++ next :: after in
  readShardLocationResults servers futures s
  = match readLocationReply servers futures (1 + Z.of_nat (List.length agreeing)) next 0 s with
    | (Next firstValid, s') =>
        readLocationReplies servers futures after (1 + Z.of_nat (List.length agreeing) + 1)
          firstValid s'
    | other => other
    end.
Proof.
  intros Hall futures. unfold readShardLocationResults.
  change (readLocationReplies servers futures futures 0 (-1) s)
    with (readLocationReplies servers futures (agreeing ++ next :: after) (0 + 1) 0 s).
  rewrite (scan_agreeing servers futures 0 reference agreeing ltac:(lia) eq_refl Hall).
  reflexivity.
Qed.

(** The loop goes past replies that agree with the reference and, in a run
    that is not quiescent, past missing replies. *)
Lemma scan_past servers futures firstValid reference mid :
  0 <= firstValid -> getReply futures firstValid = reference ->
  allAgree reference mid ->
  forall rest j s,
    performQuiescentChecks (self s) = false \/ Forall (fun x => present x = true) mid ->
    readLocationReplies servers futures (mid ++ rest) j firstValid s
    = readLocationReplies servers futures rest (j + Z.of_nat (List.length mid)) firstValid s.
Proof.
  intros Hvalid Href. induction mid as [|x mid IH]; intros Hagree rest j s Hmode.
  - simpl. now rewrite Z.add_0_r.
  - assert (Htail : allAgree reference mid) by (intros c Hc; apply Hagree; now right).
    assert (Hmode' : performQuiescentChecks (self s) = false
                     \/ Forall (fun x => present x = true) mid).
    { destruct Hmode as [H|H]; [now left|right; exact (Forall_inv_tail H)]. }
    cbn [app readLocationReplies]. unfold readLocationReply.
    replace (firstValid <? 0) with false by (symmetry; apply Z.ltb_ge; lia).
    destruct x as [current|e].
    + rewrite Href, (Hagree current (or_introl eq_refl)).
      rewrite (IH Htail rest (j + 1) s Hmode'). f_equal. simpl List.length. lia.
    + destruct Hmode as [Hq|Hall]; [|apply Forall_inv in Hall; discriminate].
      rewrite Hq. cbn [andb].
      rewrite (IH Htail rest (j + 1) s Hmode'). f_equal. simpl List.length. lia.
Qed.

(** In a run that is not quiescent the loop goes past the missing replies
    before the first reply that is present. *)
Lemma scan_past_missing servers futures missing :
  forall rest j s,
    performQuiescentChecks (self s) = false ->
    Forall (fun x => present x = false) missing ->
    rest <> [] ->
    j + Z.of_nat (List.length (missing ++ rest)) = Z.of_nat (List.length futures) ->
    readLocationReplies servers futures (missing ++ rest) j (-1) s
    = readLocationReplies servers futures rest (j + Z.of_nat (List.length missing)) (-1) s.
Proof.
  induction missing as [|x missing IH]; intros rest j s Hq Hmissing Hrest Hlen.
  - simpl. now rewrite Z.add_0_r.
  - destruct x as [r|e]; [apply Forall_inv in Hmissing; discriminate|].
    cbn [app readLocationReplies]. unfold readLocationReply. rewrite Hq.
    replace (j =? Z.of_nat (List.length futures) - 1) with false.
    + rewrite andb_false_r.
      rewrite (IH rest (j + 1) s Hq (Forall_inv_tail Hmissing) Hrest).
      * f_equal. simpl List.length. lia.
      * rewrite <- Hlen. cbn [app]. simpl List.length. lia.
    + symmetry. apply Z.eqb_neq. rewrite <- Hlen. cbn [app].
      destruct rest as [|r0 rest']; [contradiction|].
      rewrite length_cons, length_app, length_cons. lia.
Qed.

(** A page on which the first reply that differs from the reference is
    read: in a run that is not quiescent whatever replies are missing before
    it, in a quiescent run when none is. *)
Lemma scan_first_difference servers missing reference mid current after s :
  Forall (fun x => present x = false) missing ->
  allAgree reference mid -> replyDiffers current reference = true ->
  performQuiescentChecks (self s) = false
  \/ (missing = [] /\ Forall (fun x => present x = true) mid) ->
  readShardLocationResults servers
    (missing ++ Present reference :: mid ++ Present current :: after) s
  = (Return false,
     testFailure "Key servers inconsistent"
       (traceEvent
          (event "ConsistencyCheck_InconsistentKeyServers"
             [("StorageServer1",
               DUID (ssi_id (serverAt servers (Z.of_nat (List.length missing)))));
              ("StorageServer2",
               DUID (ssi_id (serverAt servers
                               (Z.of_nat (List.length missing) + 1
                                + Z.of_nat (List.length mid)))))])
          s)).
Proof.
  intros Hmissing Hagree Hdiff Hmode.
  set (futures := missing ++ Present reference :: mid ++ Present current :: after).
  assert (Href : getReply futures (Z.of_nat (List.length missing)) = reference)
    by apply getReply_app.
  unfold readShardLocationResults.
  assert (Hskip : readLocationReplies servers futures futures 0 (-1) s
                  = readLocationReplies servers futures
                      (Present reference :: mid ++ Present current :: after)
                      (Z.of_nat (List.length missing)) (-1) s).
  { destruct Hmode as [Hq|[Hnil _]].
    - rewrite <- (Z.add_0_l (Z.of_nat (List.length missing))).
      apply scan_past_missing; [exact Hq|exact Hmissing|discriminate|apply Z.add_0_l].
    - subst futures. rewrite Hnil. reflexivity. }
  rewrite Hskip. cbn [readLocationReplies]. unfold readLocationReply at 1.
  change (-1 <? 0) with true. cbv iota.
  assert (Hmode' : performQuiescentChecks (self s) = false
                   \/ Forall (fun x => present x = true) mid)
    by (destruct Hmode as [H|[_ H]]; [now left|now right]).
  rewrite (scan_past servers futures (Z.of_nat (List.length missing)) reference mid
             ltac:(lia) Href Hagree (Present current :: after) _ s Hmode').
  cbn [readLocationReplies]. unfold readLocationReply.
  replace (Z.of_nat (List.length missing) <? 0) with false
    by (symmetry; apply Z.ltb_ge; lia).
  rewrite Href, Hdiff. reflexivity.
Qed.

(** A quiescent page on which a missing reply is read: the replies before
    it are present and the same. *)
Lemma scan_first_missing servers reference agreeing e after s :
  performQuiescentChecks (self s) = true ->
  (forall x, In x agreeing -> x = Present reference) ->
  readShardLocationResults servers (agreeing ++ Failed e :: after) s
  = (Return false,
     testFailure "Key server unavailable"
       (traceEvent
          (event "ConsistencyCheck_KeyServerUnavailable"
             [("StorageServer",
               DUID (ssi_id (serverAt servers (Z.of_nat (List.length agreeing)))))])
          s)).
Proof.
  intros Hq Hall. destruct agreeing as [|x agreeing].
  - unfold readShardLocationResults. cbn [app readLocationReplies].
    unfold readLocationReply. now rewrite Hq.
  - rewrite (Hall x (or_introl eq_refl)). cbn [app].
    rewrite (scan_reaches servers reference agreeing (Failed e) after s)
      by (intros y Hy; apply Hall; now right).
    unfold readLocationReply. rewrite Hq.
    replace (1 + Z.of_nat (List.length agreeing))
      with (Z.of_nat (List.length (Present reference :: agreeing)))
      by (simpl List.length; lia).
    reflexivity.
Qed.

(** The failure a page records when its loop over the replies returns. *)
Lemma scan_failure servers futures s b s' :
  readShardLocationResults servers futures s = (Return b, s') ->
  b = false /\ check s' = false
  /\ ((newReasons s s' = ["Consistency check: Key server unavailable"]
       /\ performQuiescentChecks (self s) = true /\ exists e, In (Failed e) futures)
      \/ (newReasons s s' = ["Consistency check: Key servers inconsistent"]
          /\ exists i reference current,
               firstPresent futures = Some (i, reference)
               /\ In (Present current) futures /\ current <> reference)).
Proof.
  intros Hscan. pose proof (scan_outcome servers futures s) as H. rewrite Hscan in H.
  destruct H as [-> [ev [message [-> [Hev Hcases]]]]].
  split; [reflexivity|]. split; [reflexivity|].
  assert (Hnew : newReasons s (testFailure message (traceEvent ev s))
                 = [("Consistency check: " ++ message)%string]).
  { apply newReasons_app. now rewrite reasons_testFailure, reasons_traceEvent. }
  destruct Hcases as [[-> [Hq Hmissing]]|[-> [i [reference [current [Hfirst [Hin Hdiff]]]]]]].
  - left. split; [exact Hnew|]. split; [exact Hq|exact Hmissing].
  - right. split; [exact Hnew|]. exists i, reference, current.
    split; [exact Hfirst|]. split; [exact Hin|].
    intros ->. rewrite replyDiffers_refl in Hdiff. discriminate.
Qed.

(** A page with a present reply that is not the reference is not accepted,
    nor is a page with a missing reply in a quiescent run. *)
Lemma differing_not_accepted quiescent page i reference current :
  firstPresent page = Some (i, reference) -> In (Present current) page ->
  current <> reference -> ~ pageAccepted quiescent page.
Proof.
  intros Hfirst Hin Hdiff [Hagree _]. unfold replicasAgree in Hagree.
  rewrite Hfirst in Hagree. apply Hdiff. apply replyDiffers_false. now apply Hagree.
Qed.

Lemma missing_not_accepted page e :
  In (Failed e) page -> ~ pageAccepted true page.
Proof.
  intros Hin [_ [Hall _]]. specialize (Hall eq_refl). rewrite Forall_forall in Hall.
  specialize (Hall _ Hin). discriminate.
Qed.

Section KeyLocationsProperties.

Variable getReadVersion : nat -> nat -> ErrorOr Version.
Variable onError : nat -> nat -> Error -> ErrorOr unit.
Variable getKeyValues :
  nat -> StorageServerInterface -> GetKeyValuesRequest -> ErrorOr GetKeyValuesReply.
Variable krmDecodeRanges : Key -> KeyRange -> GetKeyValuesReply -> list KeyValueRef.
Variables keyServersPrefix allKeys_begin allKeys_end : Key.
Variables MOVE_KEYS_KRM_LIMIT MOVE_KEYS_KRM_LIMIT_BYTES : Z.

Let request := keyLocationsRequest keyServersPrefix allKeys_end
                 MOVE_KEYS_KRM_LIMIT MOVE_KEYS_KRM_LIMIT_BYTES.
Let futuresOf := keyLocationsFutures getKeyValues.
Let loop := keyLocationsLoop getReadVersion onError getKeyValues krmDecodeRanges
              keyServersPrefix allKeys_end MOVE_KEYS_KRM_LIMIT MOVE_KEYS_KRM_LIMIT_BYTES.
Let pagesOf := keyLocationPages getReadVersion onError getKeyValues krmDecodeRanges
                 keyServersPrefix allKeys_end MOVE_KEYS_KRM_LIMIT MOVE_KEYS_KRM_LIMIT_BYTES.
Let attempt := keyLocationsTry getReadVersion onError getKeyValues krmDecodeRanges
                 keyServersPrefix allKeys_end MOVE_KEYS_KRM_LIMIT MOVE_KEYS_KRM_LIMIT_BYTES.

(** A page whose loop over the replies leaves [getKeyLocations] does so for
    the loop over the shards, in whatever round it is asked for. *)
Lemma keyLocationsLoop_leaves fuel shard shards round st s version s' :
  String.ltb (beginKey st) (minKey (range_end (fst shard)) (endKey keyServersPrefix allKeys_end))
  = true ->
  getVersion (getReadVersion round) (onError round) fuel = Ok version ->
  (readShardLocationResults (snd shard) (futuresOf shard round (request shard st version)) s
   = (Return false, s') ->
   loop (S fuel) (shard :: shards) round st s = (Return false, s'))
  /\ (readShardLocationResults (snd shard) (futuresOf shard round (request shard st version)) s
      = (Throw all_alternatives_failed, s') ->
      loop (S fuel) (shard :: shards) round st s = (Throw all_alternatives_failed, s')).
Proof.
  intros Hlt Hversion. subst loop futuresOf request.
  split; intros Hscan; cbn [keyLocationsLoop]; rewrite Hlt;
    unfold keyLocationsTry, keyLocationsPage; rewrite Hversion; cbv zeta;
    rewrite Hscan; reflexivity.
Qed.

(** One turn of the [while] loop, once the read version is in. *)
Lemma keyLocationsTry_cases shard round fuel st s version :
  getVersion (getReadVersion round) (onError round) fuel = Ok version ->
  let page := futuresOf shard round (request shard st version) in
  match attempt shard round fuel st s with
  | (Next _, s') => s' = s /\ pageAccepted (performQuiescentChecks (self s)) page
  | (Return b, s') => readShardLocationResults (snd shard) page s = (Return b, s')
  | (Throw e, s') =>
      s' = s
      /\ ((e = all_alternatives_failed
           /\ readShardLocationResults (snd shard) page s = (Throw all_alternatives_failed, s))
          \/ (e = internal_error /\ pageAccepted (performQuiescentChecks (self s)) page))
  | (Stuck, _) => False
  end.
Proof.
  intros Hversion page. subst page attempt futuresOf request.
  unfold keyLocationsTry, keyLocationsPage. rewrite Hversion. cbv zeta.
  pose proof (scan_outcome (snd shard)
                (keyLocationsFutures getKeyValues shard round
                   (keyLocationsRequest keyServersPrefix allKeys_end MOVE_KEYS_KRM_LIMIT
                      MOVE_KEYS_KRM_LIMIT_BYTES shard st version)) s) as H.
  destruct (readShardLocationResults _ _ s) as [[fv|b|e|] s'].
  - destruct H as [-> [Hall Hfirst]].
    assert (Haccepted : pageAccepted (performQuiescentChecks (self s))
                          (keyLocationsFutures getKeyValues shard round
                             (keyLocationsRequest keyServersPrefix allKeys_end
                                MOVE_KEYS_KRM_LIMIT MOVE_KEYS_KRM_LIMIT_BYTES shard st version))).
    { split; [|split; [exact Hall|]].
      - unfold replicasAgree. destruct (firstPresent _) as [[i reference]|]; [apply Hfirst|exact I].
      - intros Hnone. rewrite Hnone in Hfirst. apply Hfirst. }
    destruct (negb (_ >? 1)).
    + cbn [isVersionProblem]. split; [reflexivity|]. right. split; [reflexivity|exact Haccepted].
    + split; [reflexivity|exact Haccepted].
  - reflexivity.
  - destruct H as [-> [-> _]]. cbn [isVersionProblem]. split; [reflexivity|].
    left. split; reflexivity.
  - contradiction.
Qed.

(** The run of the two loops of [getKeyLocations]: every page it reads is
    accepted, but the last one when the loop over the replies of that page
    returns or throws; the state is written by a page that returns, and by
    nothing else. *)
Lemma keyLocationsLoop_pages fuel :
  forall shards round st s,
    let accepted := pageAccepted (performQuiescentChecks (self s)) in
    match loop fuel shards round st s with
    | (Return b, s') =>
        exists before page servers,
          pagesOf fuel shards round st s = before ++ [page] /\ Forall accepted before
          /\ readShardLocationResults servers page s = (Return b, s')
    | (Throw e, s') =>
        s' = s
        /\ ((e = all_alternatives_failed
             /\ exists before page servers,
                  pagesOf fuel shards round st s = before ++ [page]
                  /\ Forall accepted before
                  /\ readShardLocationResults servers page s
                     = (Throw all_alternatives_failed, s))
            \/ (e = internal_error /\ Forall accepted (pagesOf fuel shards round st s)))
    | (Next _, s') => s' = s /\ Forall accepted (pagesOf fuel shards round st s)
    | (Stuck, s') => s' = s /\ Forall accepted (pagesOf fuel shards round st s)
    end.
Proof.
  subst loop pagesOf.
  induction fuel as [|fuel IH]; intros shards round st s accepted;
    cbn [keyLocationsLoop keyLocationPages].
  - split; [reflexivity|constructor].
  - destruct shards as [|shard shards']; [split; [reflexivity|constructor]|].
    destruct (String.ltb _ _); [|apply IH].
    destruct (getVersion (getReadVersion round) (onError round) fuel) as [version|e|] eqn:Hversion.
    + pose proof (keyLocationsTry_cases shard round fuel st s version Hversion) as Htry.
      cbv zeta in Htry. subst attempt futuresOf request.
      destruct (keyLocationsTry _ _ _ _ _ _ _ _ shard round fuel st s) as [[st'|b|e|] s'].
      * destruct Htry as [-> Hpage].
        specialize (IH (shard :: shards') (S round) st' s). cbv zeta in IH.
        destruct (keyLocationsLoop _ _ _ _ _ _ _ _ fuel _ _ _ _) as [[st''|b|e|] s''].
        -- destruct IH as [-> Hpages]. split; [reflexivity|now constructor].
        -- destruct IH as [before [page [servers [Hpages [Hbefore Hscan]]]]].
           eexists (_ :: before), page, servers. rewrite Hpages.
           split; [reflexivity|]. split; [now constructor|exact Hscan].
        -- destruct IH as [-> [[-> [before [page [servers [Hpages [Hbefore Hscan]]]]]]|[-> Hpages]]].
           ++ split; [reflexivity|]. left. split; [reflexivity|].
              eexists (_ :: before), page, servers. rewrite Hpages.
              split; [reflexivity|]. split; [now constructor|exact Hscan].
           ++ split; [reflexivity|]. right. split; [reflexivity|now constructor].
        -- destruct IH as [-> Hpages]. split; [reflexivity|now constructor].
      * eexists [], _, (snd shard). split; [reflexivity|]. split; [constructor|exact Htry].
      * destruct Htry as [-> [[-> Hscan]|[-> Hpage]]].
        -- split; [reflexivity|]. left. split; [reflexivity|].
           eexists [], _, (snd shard). split; [reflexivity|]. split; [constructor|exact Hscan].
        -- split; [reflexivity|]. right. split; [reflexivity|].
           constructor; [exact Hpage|constructor].
      * contradiction.
    + exfalso. exact (getVersion_from_never_throws _ _ _ _ _ Hversion).
    + unfold keyLocationsTry, keyLocationsPage. rewrite Hversion.
      split; [reflexivity|constructor].
Qed.

Let actor := getKeyLocations getReadVersion onError getKeyValues krmDecodeRanges
               keyServersPrefix allKeys_begin allKeys_end MOVE_KEYS_KRM_LIMIT
               MOVE_KEYS_KRM_LIMIT_BYTES.
Let firstState := mkLoc [] (withPrefix keyServersPrefix allKeys_begin).

(** A page of a run that is not accepted ends [getKeyLocations]: its loop
    over the replies returns false, or throws [all_alternatives_failed]. *)
Lemma getKeyLocations_rejects fuel shards s page :
  In page (pagesOf fuel shards 0%nat firstState s) ->
  ~ pageAccepted (performQuiescentChecks (self s)) page ->
  (exists s' servers,
     actor fuel shards s = (Ok false, None, s')
     /\ readShardLocationResults servers page s = (Return false, s'))
  \/ (actor fuel shards s = (Thrown all_alternatives_failed, None, s)
      /\ exists servers,
           readShardLocationResults servers page s = (Throw all_alternatives_failed, s)).
Proof.
  intros Hin Hnot. subst actor. unfold getKeyLocations.
  pose proof (keyLocationsLoop_pages fuel shards 0%nat firstState s) as H.
  cbv zeta in H. subst loop pagesOf firstState.
  assert (Hpassed : forall pages,
            Forall (pageAccepted (performQuiescentChecks (self s))) pages ->
            ~ In page pages).
  { intros pages Hall Hp. rewrite Forall_forall in Hall. exact (Hnot (Hall _ Hp)). }
  destruct (keyLocationsLoop _ _ _ _ _ _ _ _ fuel shards _ _ s) as [[st|b|e|] s'].
  - destruct H as [_ Hall]. exfalso. exact (Hpassed _ Hall Hin).
  - destruct H as [before [last [servers [Hpages [Hbefore Hscan]]]]].
    rewrite Hpages in Hin. apply in_app_or in Hin.
    destruct Hin as [Hin|[<-|[]]]; [exfalso; exact (Hpassed _ Hbefore Hin)|].
    destruct (scan_failure _ _ _ _ _ Hscan) as [-> _].
    left. exists s', servers. split; [reflexivity|exact Hscan].
  - destruct H as [-> [[-> [before [last [servers [Hpages [Hbefore Hscan]]]]]]|[_ Hall]]].
    + rewrite Hpages in Hin. apply in_app_or in Hin.
      destruct Hin as [Hin|[<-|[]]]; [exfalso; exact (Hpassed _ Hbefore Hin)|].
      right. split; [reflexivity|]. exists servers. exact Hscan.
    + exfalso. exact (Hpassed _ Hall Hin).
  - destruct H as [_ Hall]. exfalso. exact (Hpassed _ Hall Hin).
Qed.

(** A run that returns true accepted every page it read, and wrote
    nothing. *)
Lemma getKeyLocations_accepts fuel shards s promise s' :
  actor fuel shards s = (Ok true, promise, s') ->
  s' = s
  /\ Forall (pageAccepted (performQuiescentChecks (self s)))
       (pagesOf fuel shards 0%nat firstState s).
Proof.
  subst actor. unfold getKeyLocations.
  pose proof (keyLocationsLoop_pages fuel shards 0%nat firstState s) as H.
  cbv zeta in H. subst loop pagesOf firstState.
  destruct (keyLocationsLoop _ _ _ _ _ _ _ _ fuel shards _ _ s) as [[st|b|e|] s0];
    intros Hr; try discriminate.
  - injection Hr as _ <-. exact H.
  - exfalso. destruct H as [before [last [servers [_ [_ Hscan]]]]].
    destruct (scan_failure _ _ _ _ _ Hscan) as [-> _]. discriminate.
Qed.

(** The first page of a run. *)
Lemma first_page_read fuel shard shards s version :
  String.ltb (beginKey firstState)
    (minKey (range_end (fst shard)) (endKey keyServersPrefix allKeys_end)) = true ->
  getVersion (getReadVersion 0%nat) (onError 0%nat) fuel = Ok version ->
  In (futuresOf shard 0%nat (request shard firstState version))
     (pagesOf (S fuel) (shard :: shards) 0%nat firstState s).
Proof.
  intros Hlt Hversion. subst pagesOf futuresOf request. cbn [keyLocationPages].
  rewrite Hlt, Hversion. now left.
Qed.

(** C3 (as amended).  For every page of key-server locations
    [getKeyLocations] reads, in quiescent and non-quiescent runs alike: when
    a reply that is present differs (in [data] or in [more]) from the first
    reply that is present, the reference, [getKeyLocations] returns false,
    sends nothing through the promise and records one failure.  The failure
    is "Key servers inconsistent", after the event naming the two servers,
    whenever the loop over the replies reads the differing reply: in a run
    that is not quiescent, and in a quiescent run when no reply before the
    differing one is missing.  In a quiescent run a reply that is missing
    before it ends the page first, with the failure "Key server
    unavailable".  Hence in a run that returns true every page has every
    present reply equal to the reference.  In turn:
    - the body of the loop over the replies at a differing reply;
    - a page up to its first differing reply, with replies missing before
      it only in a run that is not quiescent;
    - in a quiescent run, a page up to its first missing reply, whatever
      the replies after it;
    - any page with a differing reply;
    - the first page [getKeyLocations] asks for, and any page of its run;
    - the pages of a run that returns true. *)
Theorem differing_key_server_replies_fail :
  (forall servers futures j current firstValid s,
     0 <= firstValid ->
     replyDiffers current (getReply futures firstValid) = true ->
     readLocationReply servers futures j (Present current) firstValid s
     = (Return false,
        testFailure "Key servers inconsistent"
          (traceEvent (event "ConsistencyCheck_InconsistentKeyServers"
                         [("StorageServer1", DUID (ssi_id (serverAt servers firstValid)));
                          ("StorageServer2", DUID (ssi_id (serverAt servers j)))]) s)))
  /\ (forall servers missing reference mid current after s,
        Forall (fun x => present x = false) missing ->
        allAgree reference mid -> current <> reference ->
        performQuiescentChecks (self s) = false
        \/ (missing = [] /\ Forall (fun x => present x = true) mid) ->
        readShardLocationResults servers
          (missing ++ Present reference :: mid ++ Present current :: after) s
        = (Return false,
           testFailure "Key servers inconsistent"
             (traceEvent
                (event "ConsistencyCheck_InconsistentKeyServers"
                   [("StorageServer1",
                     DUID (ssi_id (serverAt servers (Z.of_nat (List.length missing)))));
                    ("StorageServer2",
                     DUID (ssi_id (serverAt servers
                                     (Z.of_nat (List.length missing) + 1
                                      + Z.of_nat (List.length mid)))))])
                s)))
  /\ (forall servers reference agreeing e after s,
        performQuiescentChecks (self s) = true ->
        (forall x, In x agreeing -> x = Present reference) ->
        readShardLocationResults servers (agreeing ++ Failed e :: after) s
        = (Return false,
           testFailure "Key server unavailable"
             (traceEvent
                (event "ConsistencyCheck_KeyServerUnavailable"
                   [("StorageServer",
                     DUID (ssi_id (serverAt servers (Z.of_nat (List.length agreeing)))))])
                s)))
  /\ (forall servers futures s i reference current,
        firstPresent futures = Some (i, reference) ->
        In (Present current) futures -> current <> reference ->
        exists s',
          readShardLocationResults servers futures s = (Return false, s')
          /\ check s' = false
          /\ (newReasons s s' = ["Consistency check: Key servers inconsistent"]
              \/ (performQuiescentChecks (self s) = true
                  /\ (exists e, In (Failed e) futures)
                  /\ newReasons s s' = ["Consistency check: Key server unavailable"])))
  /\ (forall fuel shard shards s version i reference current,
        let page := futuresOf shard 0%nat (request shard firstState version) in
        String.ltb (beginKey firstState)
          (minKey (range_end (fst shard)) (endKey keyServersPrefix allKeys_end)) = true ->
        getVersion (getReadVersion 0%nat) (onError 0%nat) fuel = Ok version ->
        firstPresent page = Some (i, reference) ->
        In (Present current) page -> current <> reference ->
        exists s',
          actor (S fuel) (shard :: shards) s = (Ok false, None, s')
          /\ check s' = false
          /\ (newReasons s s' = ["Consistency check: Key servers inconsistent"]
              \/ (performQuiescentChecks (self s) = true
                  /\ (exists e, In (Failed e) page)
                  /\ newReasons s s' = ["Consistency check: Key server unavailable"])))
  /\ (forall fuel shards s page i reference current,
        In page (pagesOf fuel shards 0%nat firstState s) ->
        firstPresent page = Some (i, reference) ->
        In (Present current) page -> current <> reference ->
        exists s',
          actor fuel shards s = (Ok false, None, s')
          /\ check s' = false
          /\ (newReasons s s' = ["Consistency check: Key servers inconsistent"]
              \/ (performQuiescentChecks (self s) = true
                  /\ (exists e, In (Failed e) page)
                  /\ newReasons s s' = ["Consistency check: Key server unavailable"])))
  /\ (forall fuel shards s promise s',
        actor fuel shards s = (Ok true, promise, s') ->
        s' = s
        /\ forall page i reference current,
             In page (pagesOf fuel shards 0%nat firstState s) ->
             firstPresent page = Some (i, reference) ->
             In (Present current) page -> current = reference).
Proof.
  assert (Hpage : forall servers futures s i reference current,
            firstPresent futures = Some (i, reference) ->
            In (Present current) futures -> current <> reference ->
            forall b s',
              readShardLocationResults servers futures s = (Return b, s') ->
              b = false /\ check s' = false
              /\ (newReasons s s' = ["Consistency check: Key servers inconsistent"]
                  \/ (performQuiescentChecks (self s) = true
                      /\ (exists e, In (Failed e) futures)
                      /\ newReasons s s' = ["Consistency check: Key server unavailable"]))).
  { intros servers futures s i reference current Hfirst Hin Hdiff b s' Hscan.
    destruct (scan_failure _ _ _ _ _ Hscan) as [-> [Hcheck [[Hr [Hq Hm]]|[Hr _]]]].
    - split; [reflexivity|]. split; [exact Hcheck|]. right. auto.
    - split; [reflexivity|]. split; [exact Hcheck|]. now left. }
  assert (Hany : forall fuel shards s page i reference current,
            In page (pagesOf fuel shards 0%nat firstState s) ->
            firstPresent page = Some (i, reference) ->
            In (Present current) page -> current <> reference ->
            exists s',
              actor fuel shards s = (Ok false, None, s')
              /\ check s' = false
              /\ (newReasons s s' = ["Consistency check: Key servers inconsistent"]
                  \/ (performQuiescentChecks (self s) = true
                      /\ (exists e, In (Failed e) page)
                      /\ newReasons s s' = ["Consistency check: Key server unavailable"]))).
  { intros fuel shards s page i reference current Hin Hfirst Hcurrent Hdiff.
    destruct (getKeyLocations_rejects fuel shards s page Hin
                (differing_not_accepted _ _ _ _ _ Hfirst Hcurrent Hdiff))
      as [[s' [servers [Hactor Hscan]]]|[_ [servers Hscan]]].
    - exists s'. split; [exact Hactor|].
      now destruct (Hpage servers page s i reference current Hfirst Hcurrent Hdiff _ _ Hscan)
        as [_ H].
    - exfalso. pose proof (scan_outcome servers page s) as H. rewrite Hscan in H.
      destruct H as [_ [_ [_ [Hnone _]]]]. rewrite Hfirst in Hnone. discriminate. }
  split; [|split; [|split; [|split; [|split; [|split]]]]].
  - intros servers futures j current firstValid s Hvalid Hdiff.
    unfold readLocationReply.
    replace (firstValid <? 0) with false by (symmetry; apply Z.ltb_ge; lia).
    now rewrite Hdiff.
  - intros servers missing reference mid current after s Hmissing Hagree Hdiff Hmode.
    apply scan_first_difference; auto.
    destruct (replyDiffers current reference) eqn:E; [reflexivity|].
    apply replyDiffers_false in E. contradiction.
  - intros servers reference agreeing e after s Hq Hall.
    exact (scan_first_missing servers reference agreeing e after s Hq Hall).
  - intros servers futures s i reference current Hfirst Hin Hdiff.
    pose proof (scan_outcome servers futures s) as H.
    destruct (readShardLocationResults servers futures s) as [[fv|b|e|] s'] eqn:Hscan.
    + exfalso. destruct H as [_ [_ H]]. rewrite Hfirst in H. destruct H as [_ Hagree].
      apply Hdiff. apply replyDiffers_false. now apply Hagree.
    + exists s'.
      destruct (Hpage servers futures s i reference current Hfirst Hin Hdiff _ _ Hscan)
        as [-> Hrecorded]. split; [reflexivity|exact Hrecorded].
    + exfalso. destruct H as [_ [_ [_ [Hnone _]]]]. rewrite Hfirst in Hnone. discriminate.
    + contradiction.
  - intros fuel shard shards s version i reference current page Hlt Hversion.
    apply Hany. now apply first_page_read.
  - exact Hany.
  - intros fuel shards s promise s' Hactor.
    destruct (getKeyLocations_accepts _ _ _ _ _ Hactor) as [-> Hall].
    split; [reflexivity|].
    intros page i reference current Hin Hfirst Hcurrent.
    rewrite Forall_forall in Hall. destruct (Hall _ Hin) as [Hagree _].
    unfold replicasAgree in Hagree. rewrite Hfirst in Hagree.
    apply replyDiffers_false. now apply Hagree.
Qed.

(** C4 (as amended).  In [getKeyLocations], a replica that does not reply:
    - in a quiescent run, the body of the loop over the replies at a
      missing reply logs [ConsistencyCheck_KeyServerUnavailable], records
      the failure "Key server unavailable" and returns false; a page with a
      missing reply always ends [getKeyLocations] with false, nothing sent
      and one failure on record: "Key server unavailable" when the replies
      before the missing one are the same, and "Key servers inconsistent"
      when two replies before it differ, for then the loop returns before
      it reads the missing reply;
    - in a run that is not quiescent, the body of the loop goes on past a
      missing reply with nothing recorded, unless no reply was present and
      this is the last one, where it throws [all_alternatives_failed]; so
      for a shard with at least one replica the page throws exactly when
      every reply is missing, the error leaves [getKeyLocations] with
      nothing recorded (it is not one of the version problems its handler
      asks the page again for), and the handler of [runCheck] logs it as
      [ConsistencyCheck_Retry], without a failure; a page with missing
      replies whose present replies agree is accepted with nothing
      recorded. *)
Theorem missing_key_server_reply :
  (forall servers futures j e firstValid s,
     performQuiescentChecks (self s) = true ->
     readLocationReply servers futures j (Failed e) firstValid s
     = (Return false,
        testFailure "Key server unavailable"
          (traceEvent (event "ConsistencyCheck_KeyServerUnavailable"
                         [("StorageServer", DUID (ssi_id (serverAt servers j)))]) s)))
  /\ (forall servers futures s e,
        performQuiescentChecks (self s) = true -> In (Failed e) futures ->
        exists s',
          readShardLocationResults servers futures s = (Return false, s')
          /\ check s' = false
          /\ (newReasons s s' = ["Consistency check: Key server unavailable"]
              \/ (newReasons s s' = ["Consistency check: Key servers inconsistent"]
                  /\ exists i reference current,
                       firstPresent futures = Some (i, reference)
                       /\ In (Present current) futures /\ current <> reference)))
  /\ (forall servers reference agreeing e after s,
        performQuiescentChecks (self s) = true ->
        (forall x, In x agreeing -> x = Present reference) ->
        readShardLocationResults servers (agreeing ++ Failed e :: after) s
        = (Return false,
           testFailure "Key server unavailable"
             (traceEvent
                (event "ConsistencyCheck_KeyServerUnavailable"
                   [("StorageServer",
                     DUID (ssi_id (serverAt servers (Z.of_nat (List.length agreeing)))))])
                s)))
  /\ (forall servers reference agreeing current after s,
        performQuiescentChecks (self s) = true ->
        (forall x, In x agreeing -> x = Present reference) -> current <> reference ->
        readShardLocationResults servers
          (Present reference :: agreeing ++ Present current :: after) s
        = (Return false,
           testFailure "Key servers inconsistent"
             (traceEvent
                (event "ConsistencyCheck_InconsistentKeyServers"
                   [("StorageServer1", DUID (ssi_id (serverAt servers 0)));
                    ("StorageServer2",
                     DUID (ssi_id (serverAt servers (1 + Z.of_nat (List.length agreeing)))))])
                s)))
  /\ (forall servers futures j e firstValid s,
        performQuiescentChecks (self s) = false ->
        readLocationReply servers futures j (Failed e) firstValid s
        = if (firstValid <? 0) && (j =? Z.of_nat (List.length futures) - 1)
          then (Throw all_alternatives_failed, s)
          else (Next firstValid, s))
  /\ (forall servers futures s,
        performQuiescentChecks (self s) = false -> futures <> [] ->
        (Forall (fun x => present x = false) futures
         <-> readShardLocationResults servers futures s = (Throw all_alternatives_failed, s)))
  /\ (forall servers futures s i reference,
        performQuiescentChecks (self s) = false ->
        firstPresent futures = Some (i, reference) ->
        (forall current, In (Present current) futures -> current = reference) ->
        readShardLocationResults servers futures s = (Next i, s))
  /\ (forall fuel shards s page e,
        performQuiescentChecks (self s) = true ->
        In page (pagesOf fuel shards 0%nat firstState s) -> In (Failed e) page ->
        exists s',
          actor fuel shards s = (Ok false, None, s')
          /\ check s' = false
          /\ (newReasons s s' = ["Consistency check: Key server unavailable"]
              \/ (newReasons s s' = ["Consistency check: Key servers inconsistent"]
                  /\ exists i reference current,
                       firstPresent page = Some (i, reference)
                       /\ In (Present current) page /\ current <> reference)))
  /\ (forall fuel shards s page,
        performQuiescentChecks (self s) = false ->
        In page (pagesOf fuel shards 0%nat firstState s) ->
        page <> [] -> Forall (fun x => present x = false) page ->
        actor fuel shards s = (Thrown all_alternatives_failed, None, s))
  /\ (forall fuel shard shards s version,
        let page := futuresOf shard 0%nat (request shard firstState version) in
        String.ltb (beginKey firstState)
          (minKey (range_end (fst shard)) (endKey keyServersPrefix allKeys_end)) = true ->
        getVersion (getReadVersion 0%nat) (onError 0%nat) fuel = Ok version ->
        (performQuiescentChecks (self s) = true -> (exists e, In (Failed e) page) ->
         exists s',
           actor (S fuel) (shard :: shards) s = (Ok false, None, s')
           /\ check s' = false
           /\ (newReasons s s' = ["Consistency check: Key server unavailable"]
               \/ newReasons s s' = ["Consistency check: Key servers inconsistent"]))
        /\ (performQuiescentChecks (self s) = false ->
            page <> [] -> Forall (fun x => present x = false) page ->
            actor (S fuel) (shard :: shards) s = (Thrown all_alternatives_failed, None, s)))
  /\ (forall errorCode errorName s,
        runCheckCatch errorCode errorName all_alternatives_failed s
        = traceEvent (event "ConsistencyCheck_Retry"
                        [("Error", DError all_alternatives_failed)]) s).
Proof.
  assert (Hquiet : forall fuel shards s page e,
            performQuiescentChecks (self s) = true ->
            In page (pagesOf fuel shards 0%nat firstState s) -> In (Failed e) page ->
            exists s',
              actor fuel shards s = (Ok false, None, s')
              /\ check s' = false
              /\ (newReasons s s' = ["Consistency check: Key server unavailable"]
                  \/ (newReasons s s' = ["Consistency check: Key servers inconsistent"]
                      /\ exists i reference current,
                           firstPresent page = Some (i, reference)
                           /\ In (Present current) page /\ current <> reference))).
  { intros fuel shards s page e Hq Hin Hmissing.
    assert (Hnot : ~ pageAccepted (performQuiescentChecks (self s)) page)
      by (rewrite Hq; exact (missing_not_accepted _ _ Hmissing)).
    destruct (getKeyLocations_rejects fuel shards s page Hin Hnot)
      as [[s' [servers [Hactor Hscan]]]|[_ [servers Hscan]]].
    - exists s'. split; [exact Hactor|].
      destruct (scan_failure _ _ _ _ _ Hscan) as [_ [Hcheck [[Hr _]|[Hr Hdiff]]]];
        (split; [exact Hcheck|]); [now left|right; now split].
    - exfalso. pose proof (scan_outcome servers page s) as H. rewrite Hscan in H.
      destruct H as [_ [_ [Hbusy _]]]. rewrite Hq in Hbusy. discriminate. }
  assert (Hbusy : forall fuel shards s page,
            performQuiescentChecks (self s) = false ->
            In page (pagesOf fuel shards 0%nat firstState s) ->
            page <> [] -> Forall (fun x => present x = false) page ->
            actor fuel shards s = (Thrown all_alternatives_failed, None, s)).
  { intros fuel shards s page Hq Hin Hsome Hnone.
    apply firstPresentFrom_none with (j := 0) in Hnone. fold (firstPresent page) in Hnone.
    assert (Hnot : ~ pageAccepted (performQuiescentChecks (self s)) page)
      by (intros [_ [_ Hempty]]; exact (Hsome (Hempty Hnone))).
    destruct (getKeyLocations_rejects fuel shards s page Hin Hnot)
      as [[s' [servers [_ Hscan]]]|[Hactor _]]; [|exact Hactor].
    exfalso.
    destruct (scan_failure _ _ _ _ _ Hscan)
      as [_ [_ [[_ [Hq' _]]|[_ [i [reference [current [Hfirst _]]]]]]]].
    - rewrite Hq in Hq'. discriminate.
    - rewrite Hnone in Hfirst. discriminate. }
  split; [|split; [|split; [|split; [|split; [|split; [|split; [|split; [|split; [|split]]]]]]]]].
  - intros servers futures j e firstValid s Hq. unfold readLocationReply. now rewrite Hq.
  - intros servers futures s e Hq Hmissing.
    pose proof (scan_outcome servers futures s) as H.
    destruct (readShardLocationResults servers futures s) as [[fv|b|e'|] s'] eqn:Hscan.
    + exfalso. destruct H as [_ [Hall _]]. specialize (Hall Hq).
      rewrite Forall_forall in Hall. specialize (Hall _ Hmissing). discriminate.
    + exists s'.
      destruct (scan_failure _ _ _ _ _ Hscan) as [-> [Hcheck [[Hr _]|[Hr Hdiff]]]];
        (split; [reflexivity|]); (split; [exact Hcheck|]); [now left|right; now split].
    + exfalso. destruct H as [_ [_ [Hbusy' _]]]. rewrite Hq in Hbusy'. discriminate.
    + contradiction.
  - intros servers reference agreeing e after s Hq Hall.
    exact (scan_first_missing servers reference agreeing e after s Hq Hall).
  - intros servers reference agreeing current after s Hq Hall Hdiff.
    assert (Hagree : allAgree reference agreeing).
    { intros c Hc. specialize (Hall _ Hc). injection Hall as ->. apply replyDiffers_refl. }
    assert (Hpresent : Forall (fun x => present x = true) agreeing).
    { apply Forall_forall. intros x Hx. now rewrite (Hall x Hx). }
    assert (Hdiffers : replyDiffers current reference = true).
    { destruct (replyDiffers current reference) eqn:E; [reflexivity|].
      apply replyDiffers_false in E. contradiction. }
    pose proof (scan_first_difference servers [] reference agreeing current after s
                  (Forall_nil _) Hagree Hdiffers (or_intror (conj eq_refl Hpresent))) as H.
    cbn [app List.length Z.of_nat] in H. rewrite H. reflexivity.
  - intros servers futures j e firstValid s Hq. unfold readLocationReply. now rewrite Hq.
  - intros servers futures s Hq Hsome.
    pose proof (scan_outcome servers futures s) as H. split.
    + intros Hnone. apply firstPresentFrom_none with (j := 0) in Hnone.
      fold (firstPresent futures) in Hnone.
      destruct (readShardLocationResults servers futures s) as [[fv|b|e'|] s'].
      * exfalso. destruct H as [_ [_ H]]. rewrite Hnone in H. now destruct H.
      * exfalso. destruct H as [_ [ev [message [_ [_ Hcases]]]]].
        destruct Hcases as [[_ [Hq' _]]|[_ [i [reference [current [Hfirst _]]]]]].
        -- rewrite Hq in Hq'. discriminate.
        -- rewrite Hnone in Hfirst. discriminate.
      * destruct H as [-> [-> _]]. reflexivity.
      * contradiction.
    + intros Hscan. rewrite Hscan in H. destruct H as [_ [_ [_ [Hnone _]]]].
      now apply firstPresentFrom_none in Hnone.
  - intros servers futures s i reference Hq Hfirst Hagree.
    pose proof (scan_outcome servers futures s) as H.
    destruct (readShardLocationResults servers futures s) as [[fv|b|e'|] s'].
    + destruct H as [-> [_ H]]. rewrite Hfirst in H. now destruct H as [-> _].
    + exfalso. destruct H as [_ [ev [message [_ [_ Hcases]]]]].
      destruct Hcases as [[_ [Hq' _]]|[_ [i' [reference' [current [Hfirst' [Hin Hdiff]]]]]]].
      * rewrite Hq in Hq'. discriminate.
      * rewrite Hfirst in Hfirst'. injection Hfirst' as <- <-.
        rewrite (Hagree _ Hin), replyDiffers_refl in Hdiff. discriminate.
    + exfalso. destruct H as [_ [_ [_ [Hnone _]]]]. rewrite Hfirst in Hnone. discriminate.
    + contradiction.
  - exact Hquiet.
  - exact Hbusy.
  - intros fuel shard shards s version page Hlt Hversion.
    pose proof (first_page_read fuel shard shards s version Hlt Hversion) as Hin.
    split.
    + intros Hq [e Hmissing].
      destruct (Hquiet (S fuel) (shard :: shards) s _ e Hq Hin Hmissing)
        as [s' [Hactor [Hcheck Hr]]].
      exists s'. split; [exact Hactor|]. split; [exact Hcheck|].
      destruct Hr as [Hr|[Hr _]]; [now left|now right].
    + intros Hq Hsome Hnone. exact (Hbusy (S fuel) (shard :: shards) s _ Hq Hin Hsome Hnone).
  - reflexivity.
Qed.

End KeyLocationsProperties.

(** C3, the claim as stated fails: in a quiescent run a reply that is
    missing before the differing one ends the page first.  On a shard of
    three servers of which the first answers [replyA], the second does not
    answer and the third answers [replyB], the one page [getKeyLocations]
    reads has a present reply that differs from the reference, and the
    failure on record is "Key server unavailable": "Key servers
    inconsistent" is not recorded. *)
Lemma missing_reply_before_differing_reply :
  let r := getKeyLocations steadyVersion retryAll gapBeforeDifference plainRanges
             "keyServers/" "" "z" 10 10 5 oneShard quiescentState in
  let page := [Present replyA; Failed internal_error; Present replyB] in
  keyLocationPages steadyVersion retryAll gapBeforeDifference plainRanges
    "keyServers/" "z" 10 10 5 oneShard 0 (mkLoc [] "keyServers/") quiescentState = [page]
  /\ firstPresent page = Some (0, replyA)
  /\ In (Present replyB) page /\ replyB <> replyA
  /\ fst r = (Ok false, None)
  /\ reasons (trace (snd r)) = ["Consistency check: Key server unavailable"].
Proof.
  cbv zeta. split; [vm_compute; reflexivity|]. split; [reflexivity|].
  split; [right; right; now left|]. split; [discriminate|].
  split; vm_compute; reflexivity.
Qed.

Lemma differing_key_server_replies_fail_witness :
  exists s',
    getKeyLocations steadyVersion retryAll splitAnswers plainRanges "keyServers/" "" "z"
      10 10 5 oneShard quiescentState = (Ok false, None, s')
    /\ check s' = false
    /\ newReasons quiescentState s' = ["Consistency check: Key servers inconsistent"].
Proof.
  destruct (differing_key_server_replies_fail steadyVersion retryAll splitAnswers plainRanges
              "keyServers/" "" "z" 10 10) as [_ [_ [_ [_ [Hfirst _]]]]].
  destruct (Hfirst 4%nat (mkRange "keyServers/" "keyServers/z", threeServers) [] quiescentState
              42 0 replyA replyB)
    as [s' [Hactor [Hcheck Hreasons]]].
  - reflexivity.
  - reflexivity.
  - reflexivity.
  - right. now left.
  - discriminate.
  - exists s'. split; [exact Hactor|]. split; [exact Hcheck|].
    destruct Hreasons as [H|[_ [[e He] _]]]; [exact H|].
    exfalso. destruct He as [He|[He|[He|[]]]]; discriminate.
Defined.

(** C4, the claim as stated fails: in a quiescent run two replies that
    differ before the missing one end the page first.  On a shard of three
    servers of which the first answers [replyA], the second [replyB] and the
    third does not answer, [getKeyLocations] returns false in a quiescent
    run and the failure on record is "Key servers inconsistent": "Key
    server unavailable" is not recorded. *)
Lemma differing_replies_before_missing_reply :
  let r := getKeyLocations steadyVersion retryAll gapAfterDifference plainRanges
             "keyServers/" "" "z" 10 10 5 oneShard quiescentState in
  performQuiescentChecks (self quiescentState) = true
  /\ keyLocationPages steadyVersion retryAll gapAfterDifference plainRanges
       "keyServers/" "z" 10 10 5 oneShard 0 (mkLoc [] "keyServers/") quiescentState
     = [[Present replyA; Present replyB; Failed internal_error]]
  /\ fst r = (Ok false, None)
  /\ reasons (trace (snd r)) = ["Consistency check: Key servers inconsistent"].
Proof.
  cbv zeta. split; [reflexivity|]. split; [vm_compute; reflexivity|].
  split; vm_compute; reflexivity.
Qed.

Lemma missing_key_server_reply_witness :
  (exists s',
     getKeyLocations steadyVersion retryAll gapBeforeDifference plainRanges
       "keyServers/" "" "z" 10 10 5 oneShard quiescentState = (Ok false, None, s')
     /\ check s' = false)
  /\ getKeyLocations steadyVersion retryAll noAnswers plainRanges "keyServers/" "" "z"
       10 10 5 oneShard busyState
     = (Thrown all_alternatives_failed, None, busyState).
Proof.
  split.
  - destruct (missing_key_server_reply steadyVersion retryAll gapBeforeDifference plainRanges
                "keyServers/" "" "z" 10 10) as [_ [_ [_ [_ [_ [_ [_ [_ [_ [Hfirst _]]]]]]]]]].
    destruct (Hfirst 4%nat (mkRange "keyServers/" "keyServers/z", threeServers) []
                quiescentState 42 eq_refl eq_refl) as [Hquiet _].
    destruct Hquiet as [s' [Hactor [Hcheck _]]]; [reflexivity| |].
    + exists internal_error. right. now left.
    + exists s'. now split.
  - destruct (missing_key_server_reply steadyVersion retryAll noAnswers plainRanges
                "keyServers/" "" "z" 10 10) as [_ [_ [_ [_ [_ [_ [_ [_ [_ [Hfirst _]]]]]]]]]].
    destruct (Hfirst 4%nat (mkRange "keyServers/" "keyServers/z", threeServers) [] busyState
                42 eq_refl eq_refl) as [_ Hbusy].
    apply Hbusy; [reflexivity|discriminate|]. repeat constructor.
Defined.

(** ** The order of keys *)

Lemma ascii_compare_refl (c : ascii) : Ascii.compare c c = Eq.
Proof. unfold Ascii.compare. apply N.compare_refl. Qed.

Lemma ascii_compare_lt_trans (a b c : ascii) :
  Ascii.compare a b = Lt -> Ascii.compare b c = Lt -> Ascii.compare a c = Lt.
Proof.
  unfold Ascii.compare. rewrite !N.compare_lt_iff. apply N.lt_trans.
Qed.

Lemma string_compare_refl (s : string) : String.compare s s = Eq.
Proof. induction s as [|c s IH]; simpl; [reflexivity|]. now rewrite ascii_compare_refl. Qed.

Lemma string_compare_lt_trans (s1 : string) :
  forall s2 s3, String.compare s1 s2 = Lt -> String.compare s2 s3 = Lt ->
                String.compare s1 s3 = Lt.
Proof.
  induction s1 as [|c1 s1 IH]; intros [|c2 s2] [|c3 s3]; simpl; try discriminate; auto.
  destruct (Ascii.compare c1 c2) eqn:E12; try discriminate;
    destruct (Ascii.compare c2 c3) eqn:E23; try discriminate; intros H12 H23.
  - apply Ascii.compare_eq_iff in E12, E23. subst. rewrite ascii_compare_refl. eauto.
  - apply Ascii.compare_eq_iff in E12. subst. now rewrite E23.
  - apply Ascii.compare_eq_iff in E23. subst. now rewrite E12.
  - now rewrite (ascii_compare_lt_trans _ _ _ E12 E23).
Qed.

Lemma ltb_trans (a b c : Key) :
  String.ltb a b = true -> String.ltb b c = true -> String.ltb a c = true.
Proof.
  unfold String.ltb. intros Hab Hbc.
  destruct (String.compare a b) eqn:Eab; try discriminate.
  destruct (String.compare b c) eqn:Ebc; try discriminate.
  now rewrite (string_compare_lt_trans _ _ _ Eab Ebc).
Qed.

Lemma ltb_not_eqb (a b : Key) : String.ltb a b = true -> String.eqb a b = false.
Proof.
  unfold String.ltb. intros H. apply String.eqb_neq. intros ->.
  rewrite string_compare_refl in H. discriminate.
Qed.

Lemma ltb_not_eqb_sym (a b : Key) : String.ltb a b = true -> String.eqb b a = false.
Proof. intros H. rewrite String.eqb_sym. now apply ltb_not_eqb. Qed.

(** Keys that are neither equal nor in order are in the opposite order. *)
Lemma ltb_total (a b : Key) :
  String.eqb a b = false -> String.ltb a b = false -> String.ltb b a = true.
Proof.
  unfold String.ltb. intros Hne Hnlt. rewrite String.compare_antisym.
  destruct (String.compare a b) eqn:E; try discriminate; [|reflexivity].
  apply String.compare_eq_iff in E. apply String.eqb_neq in Hne. contradiction.
Qed.

(** ** Lists in key order *)

Lemma keysIncrease_tail (a : KeyValueRef) (l : list KeyValueRef) :
  keysIncrease (a :: l) -> keysIncrease l.
Proof. destruct l; simpl; intuition. Qed.

Lemma keysIncrease_above (l : list KeyValueRef) :
  forall a, keysIncrease (a :: l) -> keysAbove (key a) l.
Proof.
  induction l as [|b l IH]; intros a H; [constructor|].
  destruct H as [Hab Hrest]. constructor; [exact Hab|].
  specialize (IH b Hrest). unfold keysAbove in *. rewrite Forall_forall in *.
  intros x Hx. eapply ltb_trans; [exact Hab|now apply IH].
Qed.

Lemma hasKey_above (k : Key) (l : list KeyValueRef) : keysAbove k l -> hasKey k l = false.
Proof.
  induction 1 as [|b l Hb _ IH]; simpl; [reflexivity|].
  now rewrite (ltb_not_eqb _ _ Hb), IH.
Qed.

Lemma hasKeyValue_hasKey (a : KeyValueRef) (l : list KeyValueRef) :
  hasKey (key a) l = false -> hasKeyValue a l = false.
Proof.
  unfold hasKey, hasKeyValue. induction l as [|b l IH]; simpl; [reflexivity|].
  rewrite !orb_false_iff. intros [Hb Hl]. split; [|now apply IH].
  unfold KeyValueRef_eqb. now rewrite Hb.
Qed.

Lemma count_cons {A : Type} (f : A -> bool) (a : A) (l : list A) :
  count f (a :: l) = (if f a then 1 else 0) + count f l.
Proof.
  unfold count. simpl. destruct (f a); simpl List.length; lia.
Qed.

Lemma count_ext {A : Type} (f g : A -> bool) (l : list A) :
  (forall a, In a l -> f a = g a) -> count f l = count g l.
Proof.
  induction l as [|a l IH]; intros H; [reflexivity|].
  rewrite !count_cons, (H a (or_introl eq_refl)), IH; [reflexivity|].
  intros x Hx. apply H. now right.
Qed.

(** ** The alignment of two replies *)

Lemma alignmentLoop_nil_cons referenceKV reference t :
  alignmentLoop [] (referenceKV :: reference) t
  = alignmentLoop [] reference (countReferenceUnique (key referenceKV) t).
Proof. reflexivity. Qed.

Lemma alignmentLoop_cons_nil currentKV current t :
  alignmentLoop (currentKV :: current) [] t
  = alignmentLoop current [] (countCurrentUnique (key currentKV) t).
Proof. reflexivity. Qed.

Lemma alignmentLoop_cons_cons currentKV current referenceKV reference t :
  alignmentLoop (currentKV :: current) (referenceKV :: reference) t
  = if String.eqb (key currentKV) (key referenceKV) then
      alignmentLoop current reference
        (if String.eqb (value currentKV) (value referenceKV)
         then countMatchingKVPair t
         else countValueMismatch (key currentKV) t)
    else if String.ltb (key currentKV) (key referenceKV) then
      alignmentLoop current (referenceKV :: reference)
        (countCurrentUnique (key currentKV) t)
    else
      alignmentLoop (currentKV :: current) reference
        (countReferenceUnique (key referenceKV) t).
Proof. reflexivity. Qed.

Lemma incr_small (x : Z) : 0 <= x -> x + 1 <= Int32.max_int -> Int32.incr x = x + 1.
Proof.
  intros H0 H1. unfold Int32.incr, Int32.add. apply wrap_in_range.
  unfold Int32.in_range, Int32.min_int, Int32.max_int in *. lia.
Qed.

Ltac room :=
  unfold roomFor, countCurrentUnique, countReferenceUnique, countValueMismatch,
    countMatchingKVPair in *;
  cbn [currentUniques referenceUniques valueMismatches matchingKVPairs List.length] in *;
  repeat match goal with
         | H : context [Int32.incr ?x] |- _ => rewrite (incr_small x) in H by lia
         | |- context [Int32.incr ?x] => rewrite (incr_small x) by lia
         end;
  lia.

(** Every item of either list is counted once, and no counter wraps. *)
Lemma alignmentLoop_sums (current : list KeyValueRef) :
  forall reference t,
    roomFor current reference t ->
    let t' := alignmentLoop current reference t in
    roomFor [] [] t'
    /\ currentUniques t' + valueMismatches t' + matchingKVPairs t'
       = currentUniques t + valueMismatches t + matchingKVPairs t
         + Z.of_nat (List.length current)
    /\ referenceUniques t' + valueMismatches t' + matchingKVPairs t'
       = referenceUniques t + valueMismatches t + matchingKVPairs t
         + Z.of_nat (List.length reference).
Proof.
  induction current as [|c current IHc]; intros reference;
    induction reference as [|r reference IHr]; intros t Hroom; cbv zeta.
  - simpl. room.
  - rewrite alignmentLoop_nil_cons.
    destruct (IHr (countReferenceUnique (key r) t)) as [H1 [H2 H3]]; [room|].
    cbv zeta in *. repeat split; room.
  - rewrite alignmentLoop_cons_nil.
    destruct (IHc [] (countCurrentUnique (key c) t)) as [H1 [H2 H3]]; [room|].
    cbv zeta in *. repeat split; room.
  - rewrite alignmentLoop_cons_cons.
    destruct (String.eqb (key c) (key r)); [|destruct (String.ltb (key c) (key r))].
    + destruct (String.eqb (value c) (value r)).
      * destruct (IHc reference (countMatchingKVPair t)) as [H1 [H2 H3]]; [room|].
        cbv zeta in *. repeat split; room.
      * destruct (IHc reference (countValueMismatch (key c) t)) as [H1 [H2 H3]]; [room|].
        cbv zeta in *. repeat split; room.
    + destruct (IHc (r :: reference) (countCurrentUnique (key c) t)) as [H1 [H2 H3]]; [room|].
      cbv zeta in *. repeat split; room.
    + destruct (IHr (countReferenceUnique (key r) t)) as [H1 [H2 H3]]; [room|].
      cbv zeta in *. repeat split; room.
Qed.

Lemma hasKey_cons (k : Key) (b : KeyValueRef) (l : list KeyValueRef) :
  hasKey k (b :: l) = String.eqb k (key b) || hasKey k l.
Proof. reflexivity. Qed.

Lemma hasKeyValue_cons (a b : KeyValueRef) (l : list KeyValueRef) :
  hasKeyValue a (b :: l)
  = (String.eqb (key a) (key b) && String.eqb (value a) (value b)) || hasKeyValue a l.
Proof. reflexivity. Qed.

Lemma count_nil {A : Type} (f : A -> bool) : count f [] = 0.
Proof. reflexivity. Qed.

(** For key-ordered lists the counters count what their names say. *)
Lemma alignmentLoop_counts (current : list KeyValueRef) :
  forall reference t,
    roomFor current reference t -> keysIncrease current -> keysIncrease reference ->
    let t' := alignmentLoop current reference t in
    matchingKVPairs t'
    = matchingKVPairs t + count (fun a => hasKeyValue a reference) current
    /\ valueMismatches t'
       = valueMismatches t
         + count (fun a => hasKey (key a) reference && negb (hasKeyValue a reference)) current
    /\ currentUniques t'
       = currentUniques t + count (fun a => negb (hasKey (key a) reference)) current
    /\ referenceUniques t'
       = referenceUniques t + count (fun b => negb (hasKey (key b) current)) reference.
Proof.
  induction current as [|c current IHc]; intros reference;
    induction reference as [|r reference IHr]; intros t Hroom Hcur Href; cbv zeta.
  - simpl. rewrite !count_nil. lia.
  - rewrite alignmentLoop_nil_cons.
    destruct (IHr (countReferenceUnique (key r) t)) as [H1 [H2 [H3 H4]]];
      [room|exact Hcur|now apply keysIncrease_tail in Href|].
    cbv zeta in *. rewrite !count_nil in *. rewrite count_cons. cbn [hasKey existsb negb] in *.
    repeat split; room.
  - rewrite alignmentLoop_cons_nil.
    destruct (IHc [] (countCurrentUnique (key c) t)) as [H1 [H2 [H3 H4]]];
      [room|now apply keysIncrease_tail in Hcur|exact Href|].
    cbv zeta in *. rewrite !count_nil in *. rewrite !count_cons.
    cbn [hasKey hasKeyValue existsb negb andb] in *.
    repeat split; room.
  - pose proof (keysIncrease_above _ _ Hcur) as Hc_above.
    pose proof (keysIncrease_above _ _ Href) as Hr_above.
    pose proof (keysIncrease_tail _ _ Hcur) as Hcur'.
    pose proof (keysIncrease_tail _ _ Href) as Href'.
    unfold keysAbove in Hc_above, Hr_above. rewrite Forall_forall in Hc_above, Hr_above.
    rewrite alignmentLoop_cons_cons.
    destruct (String.eqb (key c) (key r)) eqn:Eeq;
      [|destruct (String.ltb (key c) (key r)) eqn:Elt].
    + (* the same key on both sides *)
      apply String.eqb_eq in Eeq.
      assert (Hcr : forall a, In a current -> String.eqb (key a) (key r) = false)
        by (intros a Ha; rewrite <- Eeq; apply ltb_not_eqb_sym; now apply Hc_above).
      assert (Hrc : forall b, In b reference -> String.eqb (key b) (key c) = false)
        by (intros b Hb; rewrite Eeq; apply ltb_not_eqb_sym; now apply Hr_above).
      assert (Hhead : hasKeyValue c reference = false).
      { apply hasKeyValue_hasKey. apply hasKey_above. unfold keysAbove.
        rewrite Forall_forall. intros b Hb. rewrite Eeq. now apply Hr_above. }
      rewrite !count_cons.
      rewrite (count_ext (fun a => hasKeyValue a (r :: reference))
                         (fun a => hasKeyValue a reference))
        by (intros a Ha; rewrite hasKeyValue_cons, (Hcr a Ha); reflexivity).
      rewrite (count_ext (fun a => hasKey (key a) (r :: reference)
                                   && negb (hasKeyValue a (r :: reference)))
                         (fun a => hasKey (key a) reference && negb (hasKeyValue a reference)))
        by (intros a Ha; rewrite hasKey_cons, hasKeyValue_cons, (Hcr a Ha); reflexivity).
      rewrite (count_ext (fun a => negb (hasKey (key a) (r :: reference)))
                         (fun a => negb (hasKey (key a) reference)))
        by (intros a Ha; rewrite hasKey_cons, (Hcr a Ha); reflexivity).
      rewrite (count_ext (fun b => negb (hasKey (key b) (c :: current)))
                         (fun b => negb (hasKey (key b) current)))
        by (intros b Hb; rewrite hasKey_cons, (Hrc b Hb); reflexivity).
      rewrite !hasKey_cons, hasKeyValue_cons, Hhead, Eeq, !String.eqb_refl.
      cbn [orb andb negb].
      destruct (String.eqb (value c) (value r)).
      * destruct (IHc reference (countMatchingKVPair t)) as [H1 [H2 [H3 H4]]];
          [room|exact Hcur'|exact Href'|].
        cbv zeta in *. cbn [orb andb negb]. repeat split; room.
      * match goal with
        | |- context [alignmentLoop current reference ?t1] =>
            destruct (IHc reference t1) as [H1 [H2 [H3 H4]]];
              [room|exact Hcur'|exact Href'|]
        end.
        cbv zeta in *. cbn [orb andb negb]. repeat split; room.
    + (* the key of the current side comes first *)
      assert (Hrc : forall b, In b (r :: reference) -> String.eqb (key b) (key c) = false).
      { intros b [<-|Hb]; apply ltb_not_eqb_sym; [exact Elt|].
        eapply ltb_trans; [exact Elt|now apply Hr_above]. }
      assert (Hhead : hasKey (key c) (r :: reference) = false).
      { apply hasKey_above. constructor; [exact Elt|].
        rewrite Forall_forall. intros b Hb. eapply ltb_trans; [exact Elt|now apply Hr_above]. }
      destruct (IHc (r :: reference) (countCurrentUnique (key c) t)) as [H1 [H2 [H3 H4]]];
        [room|exact Hcur'|exact Href|].
      cbv zeta in *.
      rewrite (count_cons _ c current), (count_cons _ c current), (count_cons _ c current).
      rewrite (count_ext (fun b => negb (hasKey (key b) (c :: current)))
                         (fun b => negb (hasKey (key b) current)))
        by (intros b Hb; rewrite hasKey_cons, (Hrc b Hb); reflexivity).
      rewrite (hasKeyValue_hasKey _ _ Hhead), Hhead. cbn [orb andb negb].
      repeat split; room.
    + (* the key of the reference side comes first *)
      pose proof (ltb_total _ _ Eeq Elt) as Egt.
      assert (Hcr : forall a, In a (c :: current) -> String.eqb (key a) (key r) = false).
      { intros a [<-|Ha]; apply ltb_not_eqb_sym; [exact Egt|].
        eapply ltb_trans; [exact Egt|now apply Hc_above]. }
      assert (Hhead : hasKey (key r) (c :: current) = false).
      { apply hasKey_above. constructor; [exact Egt|].
        rewrite Forall_forall. intros a Ha. eapply ltb_trans; [exact Egt|now apply Hc_above]. }
      destruct (IHr (countReferenceUnique (key r) t)) as [H1 [H2 [H3 H4]]];
        [room|exact Hcur|exact Href'|].
      cbv zeta in *.
      rewrite (count_ext (fun a => hasKeyValue a (r :: reference))
                         (fun a => hasKeyValue a reference))
        by (intros a Ha; rewrite hasKeyValue_cons, (Hcr a Ha); reflexivity).
      rewrite (count_ext (fun a => hasKey (key a) (r :: reference)
                                   && negb (hasKeyValue a (r :: reference)))
                         (fun a => hasKey (key a) reference && negb (hasKeyValue a reference)))
        by (intros a Ha; rewrite hasKey_cons, hasKeyValue_cons, (Hcr a Ha); reflexivity).
      rewrite (count_ext (fun a => negb (hasKey (key a) (r :: reference)))
                         (fun a => negb (hasKey (key a) reference)))
        by (intros a Ha; rewrite hasKey_cons, (Hcr a Ha); reflexivity).
      rewrite (count_cons _ r reference), Hhead. cbn [negb].
      repeat split; room.
Qed.

Lemma roomFor_noTotals (current reference : list KeyValueRef) :
  Z.of_nat (List.length current) <= Int32.max_int ->
  Z.of_nat (List.length reference) <= Int32.max_int ->
  roomFor current reference noTotals.
Proof. intros Hc Hr. unfold roomFor, noTotals. simpl. lia. Qed.

(** C2.  The alignment of the data of two replies, [current] (A) and
    [reference] (B), whose sizes are [int]s.
    - The walk: equal keys with equal values count a matching pair, equal
      keys with different values a value mismatch (and keep the key); a key
      of A before the key of B counts as unique to A, a key of A after the
      key of B counts the key of B as unique to B; when A is exhausted the
      next item of B is unique to B, and when B is exhausted the next item
      of A is unique to A.
    - Every index of A and every index of B is counted exactly once: the
      uniques of a side, the mismatches and the matching pairs add up to the
      size of that side; so an exhausted side leaves every remaining item of
      the other side unique to it.
    - For sequences in key order the counters are: the items of A that are
      in B with the same value; the items of A whose key is in B with
      another value; the items of A whose key is not in B; the items of B
      whose key is not in A.
    - For A = [(k1, va)] and B = [(k1, vb)] with different values, the
      totals are one value mismatch and no matching pair, and the reply of A
      read after the reply of B logs [ConsistencyCheck_DataInconsistent]
      with [ValueMismatches = 1] and [MatchingKVPairs = 0], records the
      failure "Data inconsistent" and returns false. *)
Theorem alignment_counts_each_pair_once (current reference : list KeyValueRef) :
  Z.of_nat (List.length current) <= Int32.max_int ->
  Z.of_nat (List.length reference) <= Int32.max_int ->
  let t := alignmentDiff current reference in
  ((forall c cur r ref t0,
      key c = key r -> value c = value r ->
      alignmentLoop (c :: cur) (r :: ref) t0 = alignmentLoop cur ref (countMatchingKVPair t0))
   /\ (forall c cur r ref t0,
         key c = key r -> value c <> value r ->
         alignmentLoop (c :: cur) (r :: ref) t0
         = alignmentLoop cur ref (countValueMismatch (key c) t0))
   /\ (forall c cur r ref t0,
         String.ltb (key c) (key r) = true ->
         alignmentLoop (c :: cur) (r :: ref) t0
         = alignmentLoop cur (r :: ref) (countCurrentUnique (key c) t0))
   /\ (forall c cur r ref t0,
         String.ltb (key r) (key c) = true ->
         alignmentLoop (c :: cur) (r :: ref) t0
         = alignmentLoop (c :: cur) ref (countReferenceUnique (key r) t0))
   /\ (forall r ref t0,
         alignmentLoop [] (r :: ref) t0
         = alignmentLoop [] ref (countReferenceUnique (key r) t0))
   /\ (forall c cur t0,
         alignmentLoop (c :: cur) [] t0
         = alignmentLoop cur [] (countCurrentUnique (key c) t0)))
  /\ (currentUniques t + valueMismatches t + matchingKVPairs t
      = Z.of_nat (List.length current)
      /\ referenceUniques t + valueMismatches t + matchingKVPairs t
         = Z.of_nat (List.length reference)
      /\ 0 <= currentUniques t /\ 0 <= referenceUniques t
      /\ 0 <= valueMismatches t /\ 0 <= matchingKVPairs t)
  /\ (current = [] -> referenceUniques t = Z.of_nat (List.length reference))
  /\ (reference = [] -> currentUniques t = Z.of_nat (List.length current))
  /\ (keysIncrease current -> keysIncrease reference ->
      matchingKVPairs t = count (fun a => hasKeyValue a reference) current
      /\ valueMismatches t
         = count (fun a => hasKey (key a) reference && negb (hasKeyValue a reference)) current
      /\ currentUniques t = count (fun a => negb (hasKey (key a) reference)) current
      /\ referenceUniques t = count (fun b => negb (hasKey (key b) current)) reference)
  /\ (forall k1 va vb,
        va <> vb ->
        alignmentDiff [mkKV k1 va] [mkKV k1 vb] = mkTotals 0 0 1 0 "" "" k1
        /\ forall expectedSize storageServers interfaces range req isRelocating total s,
             let replyA := mkReply [mkKV k1 va] false in
             let replyB := mkReply [mkKV k1 vb] false in
             let ev := dataInconsistentEvent storageServers req 1 0
                         (mkTotals 0 0 1 0 "" "" k1) in
             readRangeResult expectedSize storageServers interfaces range req isRelocating
               [Present replyB; Present replyA] 1 (Present replyA) (0, total) s
             = (Return false, testFailure "Data inconsistent" (traceEvent ev s))
             /\ In ("ValueMismatches", DInt 1) (details ev)
             /\ In ("MatchingKVPairs", DInt 0) (details ev)).
Proof.
  intros Hc Hr t.
  pose proof (roomFor_noTotals _ _ Hc Hr) as Hroom.
  destruct (alignmentLoop_sums current reference noTotals Hroom) as [Hpos [Hsum1 Hsum2]].
  fold (alignmentDiff current reference) in Hpos, Hsum1, Hsum2. fold t in Hpos, Hsum1, Hsum2.
  cbn [noTotals currentUniques referenceUniques valueMismatches matchingKVPairs] in Hsum1, Hsum2.
  unfold roomFor in Hpos.
  split; [|split; [|split; [|split; [|split]]]].
  - repeat split.
    + intros c cur r ref t0 Hk Hv. rewrite alignmentLoop_cons_cons.
      rewrite Hk, Hv, !String.eqb_refl. reflexivity.
    + intros c cur r ref t0 Hk Hv. rewrite alignmentLoop_cons_cons.
      rewrite Hk, String.eqb_refl. apply String.eqb_neq in Hv. rewrite Hv. reflexivity.
    + intros c cur r ref t0 Hlt. rewrite alignmentLoop_cons_cons.
      now rewrite (ltb_not_eqb _ _ Hlt), Hlt.
    + intros c cur r ref t0 Hgt. rewrite alignmentLoop_cons_cons.
      rewrite (ltb_not_eqb_sym _ _ Hgt).
      destruct (String.ltb (key c) (key r)) eqn:Hlt; [|reflexivity].
      pose proof (ltb_trans _ _ _ Hlt Hgt) as Hcc.
      apply ltb_not_eqb in Hcc. rewrite String.eqb_refl in Hcc. discriminate.
  - repeat split; lia.
  - intros ->. simpl List.length in *. lia.
  - intros ->. simpl List.length in *. lia.
  - intros Hcur Href.
    destruct (alignmentLoop_counts current reference noTotals Hroom Hcur Href)
      as [H1 [H2 [H3 H4]]].
    fold (alignmentDiff current reference) in H1, H2, H3, H4. fold t in H1, H2, H3, H4.
    cbn [noTotals currentUniques referenceUniques valueMismatches matchingKVPairs]
      in H1, H2, H3, H4.
    repeat split; lia.
  - intros k1 va vb Hdiff.
    assert (Hv : String.eqb va vb = false) by now apply String.eqb_neq.
    assert (Htotals : alignmentDiff [mkKV k1 va] [mkKV k1 vb] = mkTotals 0 0 1 0 "" "" k1).
    { unfold alignmentDiff. rewrite alignmentLoop_cons_cons. cbn [key value].
      rewrite String.eqb_refl, Hv. reflexivity. }
    split; [exact Htotals|].
    intros expectedSize storageServers interfaces range req isRelocating total s replyA replyB ev.
    split; [|split; [|simpl; tauto]].
    + unfold readRangeResult. cbn [Z.eqb getReply nth_error Z.to_nat Z.ltb Z.compare].
      assert (Hreplies : replyDiffers replyA replyB = true).
      { unfold replyDiffers, replyA, replyB, KeyValueRef_eqb. simpl.
        unfold KeyValueRef_eqb. simpl. rewrite String.eqb_refl, Hv. reflexivity. }
      rewrite Hreplies. subst ev replyA replyB. cbn [data]. now rewrite Htotals.
    + simpl. tauto.
Qed.

Lemma alignment_counts_each_pair_once_witness :
  let t := alignmentDiff dataA dataB in
  matchingKVPairs t = 1 /\ valueMismatches t = 1
  /\ currentUniques t = 1 /\ referenceUniques t = 2.
Proof.
  destruct (alignment_counts_each_pair_once dataA dataB) as [_ [_ [_ [_ [Hcounts _]]]]].
  - cbn. unfold Int32.max_int. lia.
  - cbn. unfold Int32.max_int. lia.
  - destruct Hcounts as [H1 [H2 [H3 H4]]].
    + simpl. repeat split.
    + simpl. repeat split.
    + cbv zeta. rewrite H1, H2, H3, H4. repeat split.
Defined.

(** * Further properties *)

(** ** Failures by message *)

Lemma extendsBy_extends (allowed : string -> Prop) (s s' : State) :
  extendsBy allowed s s' -> extends s s'.
Proof. induction 1; [apply extends_refl|now apply extends_trace|now apply extends_failure]. Qed.

Lemma extendsBy_trans (allowed : string -> Prop) (s1 s2 s3 : State) :
  extendsBy allowed s1 s2 -> extendsBy allowed s2 s3 -> extendsBy allowed s1 s3.
Proof.
  intros H12 H23. induction H23.
  - exact H12.
  - now apply extendsBy_trace.
  - now apply extendsBy_failure.
Qed.

Lemma extendsBy_weaken (allowed allowed' : string -> Prop) (s s' : State) :
  (forall m, allowed m -> allowed' m) -> extendsBy allowed s s' -> extendsBy allowed' s s'.
Proof.
  intros Hsub H. induction H.
  - apply extendsBy_refl.
  - now apply extendsBy_trace.
  - apply extendsBy_failure; auto.
Qed.

Lemma extendsBy_quiescent (allowed : string -> Prop) (s s' : State) :
  extendsBy allowed s s' -> performQuiescentChecks (self s') = performQuiescentChecks (self s).
Proof. intros H. apply extends_quiescent. eapply extendsBy_extends, H. Qed.

(** The failures on record after a run that [extendsBy] describes. *)
Lemma extendsBy_reasons (allowed : string -> Prop) (s s' : State) :
  extendsBy allowed s s' ->
  exists messages,
    Forall allowed messages
    /\ reasons (trace s')
       = reasons (trace s) ++ map (fun m => ("Consistency check: " ++ m)%string) messages.
Proof.
  induction 1 as [|s' ev Hev _ [messages [Hall Hr]]|s' m Hm _ [messages [Hall Hr]]].
  - exists []. split; [constructor|]. now rewrite app_nil_r.
  - exists messages. split; [exact Hall|]. now rewrite reasons_traceEvent.
  - exists (messages ++ [m]). split.
    + apply Forall_app. split; [exact Hall|]. now constructor.
    + rewrite reasons_testFailure, Hr, map_app, <- app_assoc. reflexivity.
Qed.

Lemma quietly_reasons (s s' : State) : quietly s s' -> newReasons s s' = [].
Proof.
  intros H. destruct (extendsBy_reasons _ _ _ H) as [messages [Hall Hr]].
  destruct messages as [|m messages]; [|now inversion Hall].
  apply newReasons_app. exact Hr.
Qed.

Lemma quietly_self (s s' : State) : quietly s s' -> self s' = self s.
Proof.
  induction 1 as [|s' ev _ _ IH|s' m Hm _ _]; [reflexivity|exact IH|contradiction].
Qed.

Ltac quiet :=
  repeat first [ apply extendsBy_refl
               | apply extendsBy_trace; [reflexivity|] ].

(** ** getStorageSizeEstimate *)

Lemma storageSizeEstimatesFrom_spec shard servers metric rest :
  forall i estimatedBytes firstValid s,
    let r := storageSizeEstimatesFrom shard servers metric i rest estimatedBytes firstValid s in
    fst r = estimatedBytes ++ map (fun server => estimateOf (metric server)) rest
    /\ quietly s (snd r).
Proof.
  induction rest as [|server rest IH]; intros i estimatedBytes firstValid s;
    cbn [storageSizeEstimatesFrom map].
  - cbn. rewrite app_nil_r. split; [reflexivity|apply extendsBy_refl].
  - destruct (metric server) as [numBytes|e]; cbn [estimateOf].
    + destruct (firstValid <? 0).
      * destruct (IH (i + 1) (estimatedBytes ++ [numBytes]) i s) as [Hfst Hq].
        cbv zeta in *. rewrite Hfst, <- app_assoc. split; [reflexivity|exact Hq].
      * match goal with
        | |- context [storageSizeEstimatesFrom _ _ _ _ _ _ _ ?s1] =>
            destruct (IH (i + 1) (estimatedBytes ++ [numBytes]) firstValid s1) as [Hfst Hq]
        end.
        cbv zeta in *. rewrite Hfst, <- app_assoc. split; [reflexivity|].
        eapply extendsBy_trans; [|exact Hq].
        destruct (negb _); quiet.
    + match goal with
      | |- context [storageSizeEstimatesFrom _ _ _ _ _ _ _ ?s1] =>
          destruct (IH (i + 1) (estimatedBytes ++ [-1]) firstValid s1) as [Hfst Hq]
      end.
      cbv zeta in *. rewrite Hfst, <- app_assoc. split; [reflexivity|].
      eapply extendsBy_trans; [|exact Hq]. quiet.
Qed.

(** X1.  [getStorageSizeEstimate] returns one estimate for each storage
    server, in the order of the servers: the bytes the server answered, or
    -1 for a server that did not answer.  When waiting for the answers throws
    the result is empty.  In either case the actor only logs events: it
    records no failure and leaves the workload object as it was. *)
Theorem storage_size_estimate_per_server
  (env : ShardEnv) (storageServers : list StorageServerInterface) (shard : KeyRange)
  (s : State) :
  let r := getStorageSizeEstimate env storageServers shard s in
  (waitMetricsError env = None ->
   fst r = map (fun server => estimateOf (waitMetrics env server)) storageServers
   /\ List.length (fst r) = List.length storageServers)
  /\ (waitMetricsError env <> None -> fst r = [])
  /\ self (snd r) = self s
  /\ newReasons s (snd r) = [].
Proof.
  cbv zeta. unfold getStorageSizeEstimate.
  destruct (waitMetricsError env) as [e|].
  - cbn [fst snd]. repeat split; try discriminate.
    apply quietly_reasons. quiet.
  - destruct (storageSizeEstimatesFrom_spec shard storageServers (waitMetrics env)
                storageServers 0 [] (-1) s) as [Hfst Hq].
    cbv zeta in *. rewrite Hfst. cbn [app].
    repeat split.
    + now rewrite length_map.
    + congruence.
    + now apply quietly_self.
    + now apply quietly_reasons.
Qed.

(** ** The server list of a shard *)

Lemma serverListEntries_spec (values : list (option StorageServerInterface)) :
  forall interfaces s,
    let r := serverListEntries values interfaces s in
    fst r = interfaces ++ presentValues values
    /\ reasons (trace (snd r))
       = reasons (trace s)
         ++ (if performQuiescentChecks (self s)
             then repeat "Consistency check: /FF/serverList changing in a quiescent database"
                         (List.length (filter isNone values))
             else [])
    /\ performQuiescentChecks (self (snd r)) = performQuiescentChecks (self s)
    /\ (performQuiescentChecks (self s) = false -> snd r = s).
Proof.
  induction values as [|[interface|] values IH]; intros interfaces s;
    cbn [serverListEntries presentValues filter isNone].
  - cbn. rewrite !app_nil_r.
    destruct (performQuiescentChecks (self s)); rewrite ?app_nil_r; auto.
  - destruct (IH (interfaces ++ [interface]) s) as [Hfst [Hr [Hq Hsame]]].
    cbv zeta in *. rewrite Hfst, <- app_assoc. auto.
  - destruct (performQuiescentChecks (self s)) eqn:E.
    + destruct (IH interfaces (testFailure "/FF/serverList changing in a quiescent database" s))
        as [Hfst [Hr [Hq Hsame]]].
      cbv zeta in *.
      assert (E' : performQuiescentChecks
                     (self (testFailure "/FF/serverList changing in a quiescent database" s))
                   = true) by exact E.
      rewrite E' in Hr, Hq. rewrite Hfst, Hr, Hq, reasons_testFailure.
      repeat split; try discriminate.
      rewrite <- app_assoc. reflexivity.
    + destruct (IH interfaces s) as [Hfst [Hr [Hq Hsame]]].
      cbv zeta in *. rewrite E in Hr, Hq. rewrite Hfst, Hr, Hq. auto.
Qed.

(** X2.  The storage server interfaces of a shard are the entries of the
    server list that are present, in the order of the shard's servers; an
    entry that is missing is skipped.  In a quiescent run each missing entry
    records the failure "/FF/serverList changing in a quiescent database",
    once per entry; otherwise nothing at all is recorded. *)
Theorem server_list_entries_present_in_order
  (serverListValues : list (option StorageServerInterface)) (s : State) :
  let r := serverListEntries serverListValues [] s in
  fst r = presentValues serverListValues
  /\ newReasons s (snd r)
     = (if performQuiescentChecks (self s)
        then repeat "Consistency check: /FF/serverList changing in a quiescent database"
                    (List.length (filter isNone serverListValues))
        else [])
  /\ (performQuiescentChecks (self s) = false -> snd r = s).
Proof.
  destruct (serverListEntries_spec serverListValues [] s) as [Hfst [Hr [_ Hsame]]].
  cbv zeta in *. repeat split.
  - exact Hfst.
  - now apply newReasons_app.
  - exact Hsame.
Qed.

(** ** checkForUndesirableServers *)

Lemma sameAddressAfter_none (address : NetworkAddress) (rest : list StorageServerInterface) :
  sameAddressAfter address rest = None <-> ~ In address (map ssi_address rest).
Proof.
  induction rest as [|ss rest IH]; simpl.
  - split; auto.
  - destruct (String.eqb_spec address (ssi_address ss)) as [->|Hne].
    + split; [discriminate|]. intros H. exfalso. apply H. now left.
    + rewrite IH. split.
      * intros H [Heq|Hin]; [now apply Hne|now apply H].
      * intros H Hin. apply H. now right.
Qed.

Lemma undesirableServersFrom_false typeReply configuration rest :
  forall i s,
    fst (undesirableServersFrom typeReply configuration i rest s) = false
    <-> (forall k storeType,
           (k < List.length rest)%nat -> typeReply (i + Z.of_nat k) = Present storeType ->
           storeType = storageServerStoreType configuration)
        /\ NoDup (map ssi_address rest).
Proof.
  induction rest as [|ss rest IH]; intros i s; cbn [undesirableServersFrom map List.length].
  - cbn. split; [|reflexivity]. intros _. split; [intros k t Hk; lia|constructor].
  - assert (Hshift : forall s1,
              fst (match sameAddressAfter (ssi_address ss) rest with
                   | Some other =>
                       (true,
                        testFailure "Multiple storage servers have the same address"
                          (traceEvent (event "ConsistencyCheck_UndesirableServer"
                                         [("StorageServer1", DUID (ssi_id ss));
                                          ("StorageServer2", DUID (ssi_id other));
                                          ("Address", DStr (ssi_address ss))]) s1))
                   | None => undesirableServersFrom typeReply configuration (i + 1) rest s1
                   end) = false
              <-> (forall k storeType,
                     (k < List.length rest)%nat ->
                     typeReply (i + 1 + Z.of_nat k) = Present storeType ->
                     storeType = storageServerStoreType configuration)
                  /\ NoDup (map ssi_address (ss :: rest))).
    { intros s1. cbn [map]. rewrite NoDup_cons_iff, <- sameAddressAfter_none.
      destruct (sameAddressAfter (ssi_address ss) rest) as [other|].
      - cbn [fst]. split; [discriminate|]. intros [_ [H _]]. discriminate.
      - rewrite IH. intuition. }
    destruct (typeReply i) as [storeType0|e] eqn:Ei.
    + destruct (Z.eqb_spec storeType0 (storageServerStoreType configuration)) as [Heq|Hne];
        cbn [negb].
      * rewrite Hshift. split.
        -- intros [Htypes Hnodup]. split; [|exact Hnodup].
           intros [|k] t Hk Ht.
           ++ cbn in Ht. rewrite Z.add_0_r, Ei in Ht. now injection Ht as <-.
           ++ apply (Htypes k); [lia|]. rewrite <- Ht. f_equal. lia.
        -- intros [Htypes Hnodup]. split; [|exact Hnodup].
           intros k t Hk Ht. apply (Htypes (S k)); [lia|]. rewrite <- Ht. f_equal. lia.
      * cbn [fst]. split; [discriminate|]. intros [Htypes _]. exfalso. apply Hne.
        apply (Htypes 0%nat); [lia|]. cbn. now rewrite Z.add_0_r.
    + rewrite Hshift. split.
      * intros [Htypes Hnodup]. split; [|exact Hnodup].
        intros [|k] t Hk Ht.
        -- cbn in Ht. rewrite Z.add_0_r, Ei in Ht. discriminate.
        -- apply (Htypes k); [lia|]. rewrite <- Ht. f_equal. lia.
      * intros [Htypes Hnodup]. split; [|exact Hnodup].
        intros k t Hk Ht. apply (Htypes (S k)); [lia|]. rewrite <- Ht. f_equal. lia.
Qed.

(** X3.  [checkForUndesirableServers] returns false exactly when no storage
    server answered with a store type other than the configured one and no
    two storage servers have the same address.  A storage server that does
    not answer does not make the result true. *)
Theorem no_undesirable_servers_iff
  (storageServers : list StorageServerInterface) (typeReply : Z -> ErrorOr KeyValueStoreType)
  (configuration : DatabaseConfiguration) (s : State) :
  fst (checkForUndesirableServers storageServers typeReply configuration s) = false
  <-> (forall i storeType,
         (i < List.length storageServers)%nat ->
         typeReply (Z.of_nat i) = Present storeType ->
         storeType = storageServerStoreType configuration)
      /\ NoDup (map ssi_address storageServers).
Proof.
  unfold checkForUndesirableServers. rewrite undesirableServersFrom_false. cbn [Z.add].
  reflexivity.
Qed.

(** ** The alignment of two replies, read from either side *)

Lemma ltb_asym (a b : Key) : String.ltb a b = true -> String.ltb b a = false.
Proof.
  unfold String.ltb. rewrite (String.compare_antisym a b).
  destruct (String.compare b a); simpl; intros H; try discriminate; reflexivity.
Qed.

Lemma alignmentLoop_swap (current : list KeyValueRef) :
  forall reference t,
    alignmentLoop reference current (swapTotals t)
    = swapTotals (alignmentLoop current reference t).
Proof.
  induction current as [|c current IHc]; intros reference.
  - induction reference as [|r reference IHr]; intros t; [reflexivity|].
    rewrite alignmentLoop_nil_cons, alignmentLoop_cons_nil, <- IHr. reflexivity.
  - induction reference as [|r reference IHr]; intros t.
    + rewrite alignmentLoop_nil_cons, alignmentLoop_cons_nil, <- IHc. reflexivity.
    + rewrite !alignmentLoop_cons_cons.
      destruct (String.eqb_spec (key c) (key r)) as [Heq|Hne].
      * rewrite Heq, String.eqb_refl, (String.eqb_sym (value r) (value c)), <- IHc.
        destruct (String.eqb (value c) (value r)); reflexivity.
      * assert (Hne' : String.eqb (key r) (key c) = false)
          by (apply String.eqb_neq; congruence).
        rewrite Hne'.
        destruct (String.ltb (key c) (key r)) eqn:Hlt.
        -- rewrite (ltb_asym _ _ Hlt), <- IHc. reflexivity.
        -- rewrite (ltb_total (key c) (key r)), <- IHr; [reflexivity| |exact Hlt].
           now apply String.eqb_neq.
Qed.

(** X4.  The alignment of two replies does not depend on which of them is
    taken as the reference: with the two replies exchanged, the keys unique
    to one side and the keys unique to the other side change places (counts
    and last keys), and the value mismatches, the last mismatching key and
    the matching pairs are the same.  This holds for any two sequences, in
    key order or not. *)
Theorem alignment_swaps_with_the_replies (current reference : list KeyValueRef) :
  alignmentDiff reference current = swapTotals (alignmentDiff current reference).
Proof. unfold alignmentDiff. now rewrite <- alignmentLoop_swap. Qed.

(** ** The ranges of the shards *)

Lemma rangesOf_cons (a b : KeyValueRef) (rest : list KeyValueRef) :
  rangesOf (a :: b :: rest) = mkRange (key a) (key b) :: rangesOf (b :: rest).
Proof. reflexivity. Qed.

Lemma rangesOf_length (keyLocations : list KeyValueRef) :
  List.length (rangesOf keyLocations) = Nat.pred (List.length keyLocations).
Proof.
  induction keyLocations as [|a [|b rest] IH]; try reflexivity.
  rewrite rangesOf_cons. cbn [List.length Nat.pred] in *. now rewrite IH.
Qed.

Lemma rangesOf_nth (keyLocations : list KeyValueRef) :
  forall k,
    (S k < List.length keyLocations)%nat ->
    nth k (rangesOf keyLocations) (mkRange "" "")
    = mkRange (key (nth k keyLocations (mkKV "" "")))
              (key (nth (S k) keyLocations (mkKV "" ""))).
Proof.
  induction keyLocations as [|a [|b rest] IH]; intros k Hk; cbn [List.length] in Hk; try lia.
  rewrite rangesOf_cons. destruct k as [|k]; [reflexivity|].
  cbn [nth]. rewrite IH by (cbn [List.length]; lia). reflexivity.
Qed.

(** X5.  For key locations that are not empty, the ranges
    [checkDataConsistency] walks are the gaps between adjacent key
    locations: one range fewer than there are locations, the [k]-th from the
    key of location [k] to the key of location [k + 1].  So each range
    begins where the one before it ends, the first begins at the first
    location and the last ends at the last location.  (With no key location
    at all the bound [keyLocations.size() - 1] of the source wraps around
    and the loop reads past the end of the vector.) *)
Theorem ranges_are_adjacent_key_locations (keyLocations : list KeyValueRef)
  (Hlocations : keyLocations <> []) :
  let ranges := rangesOf keyLocations in
  let location k := key (nth k keyLocations (mkKV "" "")) in
  let range k := nth k ranges (mkRange "" "") in
  List.length ranges = Nat.pred (List.length keyLocations)
  /\ (forall k, (k < List.length ranges)%nat ->
        range k = mkRange (location k) (location (S k)))
  /\ (forall k, (S k < List.length ranges)%nat ->
        range_begin (range (S k)) = range_end (range k))
  /\ (forall n, List.length ranges = S n ->
        range_begin (range 0%nat) = location 0%nat
        /\ range_end (range n) = location (Nat.pred (List.length keyLocations))).
Proof.
  cbv zeta. pose proof (rangesOf_length keyLocations) as Hlen.
  repeat split.
  - exact Hlen.
  - intros k Hk. apply rangesOf_nth. lia.
  - intros k Hk. rewrite !rangesOf_nth by lia. reflexivity.
  - rewrite rangesOf_nth by lia. reflexivity.
  - rewrite rangesOf_nth by lia. cbn [range_end]. do 2 f_equal. lia.
Qed.

Lemma ranges_are_adjacent_key_locations_witness :
  List.length (rangesOf [mkKV "a" "1"; mkKV "m" "2"; mkKV "z" "3"]) = 2%nat.
Proof.
  apply (ranges_are_adjacent_key_locations [mkKV "a" "1"; mkKV "m" "2"; mkKV "z" "3"]).
  discriminate.
Defined.

(** ** The shards a client visits *)

Lemma multiple_above (inc d : Z) : 1 <= inc -> 0 < d -> d mod inc = 0 -> inc <= d.
Proof.
  intros Hinc Hd Hmod.
  destruct (Z_lt_le_dec d inc) as [Hlt|Hle]; [|exact Hle].
  rewrite Z.mod_small in Hmod by lia. lia.
Qed.

Lemma multiple_shift (inc d : Z) : 1 <= inc -> (d - inc) mod inc = 0 <-> d mod inc = 0.
Proof.
  intros Hinc. replace (d - inc) with (d + (-1) * inc) by lia.
  now rewrite Z.mod_add by lia.
Qed.

Lemma shardIndices_progression (n inc : Z) :
  0 <= n <= 2 ^ 31 -> 1 <= inc <= Int32.max_int ->
  forall (fuel : nat) (i : Z),
    Int32.in_range i -> i < 0 \/ n - i <= Z.of_nat fuel ->
    exists indices,
      shardIndices fuel n i inc = Ok indices
      /\ (i < 0 -> indices = [])
      /\ (0 <= i -> forall x, In x indices <-> i <= x < n /\ (x - i) mod inc = 0)
      /\ NoDup indices.
Proof.
  intros Hn Hinc. induction fuel as [|fuel IH]; intros i Hi Hfuel.
  - destruct (Z.ltb_spec i 0) as [Hneg|Hpos].
    + exists []. rewrite shardIndices_stops_below_zero
        by (unfold Int32.in_range in Hi; lia).
      repeat split; auto; try constructor; try lia; try contradiction.
    + exists []. simpl.
      unfold Int32.in_range, Int32.max_int in Hi.
      rewrite to_size_t_nonneg by lia.
      replace (i <? n) with false by (symmetry; apply Z.ltb_ge; lia).
      repeat split; auto; try constructor; try lia; try contradiction.
  - destruct (Z.ltb_spec i 0) as [Hneg|Hpos].
    + exists []. rewrite shardIndices_stops_below_zero
        by (unfold Int32.in_range in Hi; lia).
      repeat split; auto; try constructor; try lia; try contradiction.
    + simpl. unfold Int32.in_range, Int32.max_int, Int32.min_int in Hi.
      rewrite to_size_t_nonneg by lia.
      destruct (Z.ltb_spec i n) as [Hlt|Hge].
      2:{ exists []. repeat split; auto; try constructor; try lia; try contradiction. }
      unfold Int32.max_int in Hinc.
      destruct (Z_le_gt_dec (i + inc) Int32.max_int) as [Hfit|Hover].
      * assert (Enext : Int32.add i inc = i + inc).
        { unfold Int32.add. apply wrap_in_range.
          unfold Int32.in_range, Int32.min_int, Int32.max_int in *. lia. }
        destruct (IH (i + inc)) as [indices [Hrun [_ [Hmem Hnodup]]]].
        -- unfold Int32.in_range, Int32.min_int, Int32.max_int in *. lia.
        -- right. lia.
        -- rewrite Enext, Hrun. exists (i :: indices).
           split; [reflexivity|]. split; [lia|]. split.
           ++ intros _ x. cbn [In]. rewrite (Hmem ltac:(lia)). split.
              ** intros [<-|[Hx Hmod]].
                 --- split; [lia|]. now rewrite Z.sub_diag.
                 --- split; [lia|]. apply (multiple_shift inc (x - i)); [lia|].
                     now replace (x - i - inc) with (x - (i + inc)) by lia.
              ** intros [Hx Hmod].
                 destruct (Z.eq_dec i x) as [Heq|Hne]; [now left|right].
                 pose proof (multiple_above inc (x - i) ltac:(lia) ltac:(lia) Hmod).
                 split; [lia|]. replace (x - (i + inc)) with (x - i - inc) by lia.
                 now apply multiple_shift; [lia|].
           ++ constructor; [|exact Hnodup].
              intros Hin. apply (Hmem ltac:(lia)) in Hin. lia.
      * assert (Enext : Int32.add i inc = i + inc - 2 ^ 32).
        { unfold Int32.add. apply wrap_overflow. unfold Int32.max_int in *. lia. }
        destruct (IH (i + inc - 2 ^ 32)) as [indices [Hrun [Hempty _]]].
        -- unfold Int32.in_range, Int32.min_int, Int32.max_int in *. lia.
        -- left. unfold Int32.max_int in *. lia.
        -- rewrite Enext, Hrun, Hempty by (unfold Int32.max_int in *; lia).
           exists [i]. split; [reflexivity|]. split; [lia|]. split.
           ++ intros _ x. cbn [In]. split.
              ** intros [<-|[]]. split; [lia|]. now rewrite Z.sub_diag.
              ** intros [Hx Hmod].
                 destruct (Z.eq_dec i x) as [Heq|Hne]; [now left|exfalso].
                 pose proof (multiple_above inc (x - i) ltac:(lia) ltac:(lia) Hmod).
                 unfold Int32.max_int in *. lia.
           ++ repeat constructor. intros [].
Qed.

(** X6.  The loop over the shards, when no turn leaves it, visits the shard
    indices [i], [i + increment], [i + 2 * increment], ... below the number
    of ranges, each once, and then ends: an index is visited exactly when
    it is not below the first index, is below the number of ranges, and
    differs from the first index by a multiple of the increment.  This holds
    also when [i + increment] leaves the range of [int], since the negative
    value it wraps to ends the loop. *)
Theorem shard_indices_are_a_progression (shardCount i inc : Z) :
  0 <= shardCount <= 2 ^ 31 -> 0 <= i <= Int32.max_int -> 1 <= inc <= Int32.max_int ->
  exists indices,
    shardIndices (Z.to_nat shardCount) shardCount i inc = Ok indices
    /\ (forall x, In x indices <-> i <= x < shardCount /\ (x - i) mod inc = 0)
    /\ NoDup indices.
Proof.
  intros Hn Hi Hinc.
  destruct (shardIndices_progression shardCount inc Hn Hinc (Z.to_nat shardCount) i)
    as [indices [Hrun [_ [Hmem Hnodup]]]].
  - unfold Int32.in_range, Int32.min_int, Int32.max_int in *. lia.
  - right. lia.
  - exists indices. repeat split; auto; apply Hmem; lia || auto.
Qed.

Lemma shard_indices_are_a_progression_witness :
  exists indices,
    shardIndices 10 10 2 4 = Ok indices
    /\ (forall x, In x indices <-> 2 <= x < 10 /\ (x - 2) mod 4 = 0)
    /\ NoDup indices.
Proof.
  apply (shard_indices_are_a_progression 10 2 4); unfold Int32.max_int; lia.
Defined.

(** ** The sizes read from a page of a shard *)

Lemma wrap_add_wrap (a b : Z) : Int32.wrap (Int32.wrap a + b) = Int32.wrap (a + b).
Proof.
  unfold Int32.wrap. f_equal.
  replace ((a + 2 ^ 31) mod 2 ^ 32 - 2 ^ 31 + b + 2 ^ 31)
    with ((a + 2 ^ 31) mod 2 ^ 32 + b) by lia.
  rewrite Zplus_mod_idemp_l. f_equal. lia.
Qed.

Section SampleSums.

Variable isKeyValueInSample : KeyValueRef -> ByteSampleInfo.
Variable SPLIT_KEY_SIZE_LIMIT : Z.
Variable STORAGE_METRICS_UNFAIR_SPLIT_LIMIT : float.
Variable bounds : ShardSizeBounds.

Let sample := sampleData isKeyValueInSample SPLIT_KEY_SIZE_LIMIT
                STORAGE_METRICS_UNFAIR_SPLIT_LIMIT bounds.

Lemma sampleKeyValue_counters (k : Z) (kv : KeyValueRef) (a : ShardStats) :
  let info := isKeyValueInSample kv in
  let a' := sampleKeyValue isKeyValueInSample SPLIT_KEY_SIZE_LIMIT
              STORAGE_METRICS_UNFAIR_SPLIT_LIMIT bounds k kv a in
  shardBytes a' = Int32.wrap (shardBytes a + size info)
  /\ sampledBytes a'
     = (if inSample info then Int32.wrap (sampledBytes a + sampledSize info)
        else sampledBytes a)
  /\ sampledKeys a'
     = (if inSample info then Int32.wrap (sampledKeys a + 1) else sampledKeys a)
  /\ shardKeys a' = shardKeys a
  /\ firstKeySampledBytes a'
     = (if inSample info && (k =? 0)
        then Int32.wrap (firstKeySampledBytes a + sampledSize info)
        else firstKeySampledBytes a)
  /\ (canSplit a = true -> canSplit a' = true /\ splitBytes a' = splitBytes a).
Proof.
  cbv zeta. unfold sampleKeyValue.
  destruct (inSample (isKeyValueInSample kv)); cbn [shardBytes sampledBytes sampledKeys
    shardKeys firstKeySampledBytes canSplit splitBytes andb].
  - repeat split; try reflexivity;
      try (match goal with H : canSplit _ = true |- _ => rewrite H; reflexivity end).
  - repeat split; auto.
Qed.

Lemma sampleData_counters (data : list KeyValueRef) :
  forall (k : Z) (a : ShardStats),
    Int32.in_range (shardBytes a) -> Int32.in_range (sampledBytes a) ->
    Int32.in_range (sampledKeys a) -> 0 <= k ->
    let infos := map isKeyValueInSample data in
    let a' := sample k data a in
    shardBytes a' = Int32.wrap (shardBytes a + sumZ (map size infos))
    /\ sampledBytes a'
       = Int32.wrap (sampledBytes a + sumZ (map sampledSize (filter inSample infos)))
    /\ sampledKeys a'
       = Int32.wrap (sampledKeys a + Z.of_nat (List.length (filter inSample infos)))
    /\ shardKeys a' = shardKeys a
    /\ (0 < k -> firstKeySampledBytes a' = firstKeySampledBytes a)
    /\ (canSplit a = true -> canSplit a' = true /\ splitBytes a' = splitBytes a).
Proof.
  unfold sample.
  induction data as [|kv data IH]; intros k a Hbytes Hsampled Hkeys Hk.
  - cbn. rewrite !Z.add_0_r, !wrap_in_range by assumption. repeat split; auto.
  - cbn [sampleData map].
    destruct (sampleKeyValue_counters k kv a) as [Eb [Es [Ek [Esk [Ef Ec]]]]].
    cbv zeta in *.
    match goal with
    | |- context [sampleData _ _ _ _ _ _ ?a1] => set (a1' := a1) in *
    end.
    destruct (IH (k + 1) a1') as [Hb [Hs [Hn [Hsk [Hf Hc]]]]].
    + rewrite Eb. apply wrap_range.
    + rewrite Es. destruct (inSample _); [apply wrap_range|assumption].
    + rewrite Ek. destruct (inSample _); [apply wrap_range|assumption].
    + lia.
    + rewrite Hb, Hs, Hn, Hsk, Eb, Es, Ek, Esk.
      cbn [filter sumZ fold_right map]. fold (sumZ (map size (map isKeyValueInSample data))).
      rewrite wrap_add_wrap, Z.add_assoc.
      split; [reflexivity|].
      destruct (inSample (isKeyValueInSample kv)) eqn:Ein.
      * cbn [map fold_right List.length].
        rewrite !wrap_add_wrap, Nat2Z.inj_succ.
        repeat split; try (f_equal; unfold sumZ; lia).
        -- intros Hk0. rewrite Hf by lia. rewrite Ef.
           replace (k =? 0) with false by (symmetry; apply Z.eqb_neq; lia).
           now rewrite andb_false_r.
        -- apply Hc. now apply Ec.
        -- rewrite (proj2 (Hc (proj1 (Ec H)))). now apply Ec.
      * repeat split; try reflexivity.
        -- intros Hk0. rewrite Hf by lia. exact Ef.
        -- apply Hc. now apply Ec.
        -- rewrite (proj2 (Hc (proj1 (Ec H)))). now apply Ec.
Qed.

(** X7.  Over the items of a page, the loop that samples the reference reply
    adds to [shardBytes] the size of every item, to [sampledBytes] the
    sampled size of every item that is in the sample, and to [sampledKeys]
    their number, each reduced to an [int]; it leaves [shardKeys] alone.  Of
    the items in the sample only the first item of the page can add to
    [firstKeySampledBytes].  Once [canSplit] is set it stays set and
    [splitBytes] is not written again. *)
Theorem sample_data_sums (data : list KeyValueRef) (a : ShardStats)
  (Hbytes : Int32.in_range (shardBytes a)) (Hsampled : Int32.in_range (sampledBytes a))
  (Hkeys : Int32.in_range (sampledKeys a)) :
  let infos := map isKeyValueInSample data in
  let a' := sample 0 data a in
  shardBytes a' = Int32.wrap (shardBytes a + sumZ (map size infos))
  /\ sampledBytes a'
     = Int32.wrap (sampledBytes a + sumZ (map sampledSize (filter inSample infos)))
  /\ sampledKeys a'
     = Int32.wrap (sampledKeys a + Z.of_nat (List.length (filter inSample infos)))
  /\ shardKeys a' = shardKeys a
  /\ firstKeySampledBytes a'
     = match infos with
       | first :: _ =>
           if inSample first
           then Int32.wrap (firstKeySampledBytes a + sampledSize first)
           else firstKeySampledBytes a
       | [] => firstKeySampledBytes a
       end
  /\ (canSplit a = true -> canSplit a' = true /\ splitBytes a' = splitBytes a).
Proof.
  destruct (sampleData_counters data 0 a Hbytes Hsampled Hkeys ltac:(lia))
    as [Hb [Hs [Hn [Hsk [_ Hc]]]]].
  cbv zeta in *. repeat split; auto; try (now apply Hc).
  destruct data as [|kv data]; [reflexivity|].
  unfold sample. cbn [sampleData map].
  destruct (sampleKeyValue_counters 0 kv a) as [Eb [Es [Ek [_ [Ef _]]]]].
  cbv zeta in *.
  match goal with
  | |- context [sampleData _ _ _ _ _ _ ?a1] => set (a1' := a1) in *
  end.
  destruct (sampleData_counters data (0 + 1) a1') as [_ [_ [_ [_ [Hf _]]]]].
  - rewrite Eb. apply wrap_range.
  - rewrite Es. destruct (inSample _); [apply wrap_range|assumption].
  - rewrite Ek. destruct (inSample _); [apply wrap_range|assumption].
  - lia.
  - unfold sample in Hf. rewrite Hf by lia. rewrite Ef.
    now rewrite andb_true_r.
Qed.

End SampleSums.

Lemma sample_data_sums_witness :
  let a' := sampleData (fun _ => mkSample true 10 20) 100 1%float (mkBounds 0 0 0) 0
              [mkKV "a" "1"; mkKV "b" "2"] noStats in
  shardBytes a' = 20 /\ sampledBytes a' = 40 /\ sampledKeys a' = 2.
Proof.
  destruct (sample_data_sums (fun _ => mkSample true 10 20) 100 1%float (mkBounds 0 0 0)
              [mkKV "a" "1"; mkKV "b" "2"] noStats)
    as [Hb [Hs [Hn _]]];
    try (unfold Int32.in_range, Int32.min_int, Int32.max_int; simpl; lia).
  cbv zeta in *. rewrite Hb, Hs, Hn. repeat split.
Defined.

(** ** Failures of a run that is not quiescent *)

Lemma endsWith_next {A : Type} allowed message (s s' : State) (a : A) :
  extendsBy allowed s s' -> endsWith allowed message s (Next a, s').
Proof. intros H. exact H. Qed.

Lemma endsWith_trans {A : Type} allowed message (s s1 : State) (r : Flow bool A * State) :
  extendsBy allowed s s1 -> endsWith allowed message s1 r -> endsWith allowed message s r.
Proof.
  intros H01. unfold endsWith. destruct (fst r) as [a|b|e|].
  - now apply extendsBy_trans.
  - intros [Hb [s2 [ev [H12 [Hev Hr]]]]]. split; [exact Hb|].
    exists s2, ev. split; [now apply (extendsBy_trans _ _ s1)|]. auto.
  - now apply extendsBy_trans.
  - now apply extendsBy_trans.
Qed.

Lemma endsWith_bind {A B : Type} allowed message (m : Step bool A) (k : A -> Step bool B)
  (s : State) :
  endsWith allowed message s (m s) ->
  (forall a s', extendsBy allowed s s' -> endsWith allowed message s' (k a s')) ->
  endsWith allowed message s (bind m k s).
Proof.
  intros Hm Hk. unfold bind. destruct (m s) as [[a|b|e|] s'] eqn:E; try exact Hm.
  unfold endsWith in Hm. cbn [fst snd] in Hm.
  eapply endsWith_trans; [exact Hm|]. now apply Hk.
Qed.

(** What [endsWith] says of the failures on record. *)
Lemma endsWith_reasons {A : Type} allowed message (s : State) (r : Flow bool A * State) :
  endsWith allowed message s r ->
  exists messages,
    Forall allowed messages
    /\ newReasons s (snd r)
       = map (fun m => ("Consistency check: " ++ m)%string)
             (messages ++ match fst r with Return _ => [message] | _ => [] end)
    /\ fst r <> Return true.
Proof.
  unfold endsWith. destruct r as [[a|b|e|] s']; cbn [fst snd].
  - intros H. destruct (extendsBy_reasons _ _ _ H) as [messages [Hall Hr]].
    exists messages. rewrite app_nil_r. repeat split; auto; try discriminate.
    now apply newReasons_app.
  - intros [-> [s1 [ev [H [Hev ->]]]]].
    destruct (extendsBy_reasons _ _ _ H) as [messages [Hall Hr]].
    exists messages. repeat split; auto; try discriminate.
    apply newReasons_app.
    rewrite reasons_testFailure, reasons_traceEvent, Hr, map_app, <- app_assoc by exact Hev.
    reflexivity.
  - intros H. destruct (extendsBy_reasons _ _ _ H) as [messages [Hall Hr]].
    exists messages. rewrite app_nil_r. repeat split; auto; try discriminate.
    now apply newReasons_app.
  - intros H. destruct (extendsBy_reasons _ _ _ H) as [messages [Hall Hr]].
    exists messages. rewrite app_nil_r. repeat split; auto; try discriminate.
    now apply newReasons_app.
Qed.

Ltac ends_here :=
  unfold endsWith; cbn [fst snd];
  first [ split; [reflexivity|];
          eexists; eexists; split; [apply extendsBy_refl|]; split; [|reflexivity];
          reflexivity
        | quiet ].

(** *** getKeyLocations *)

Lemma readLocationReply_busy servers futures j reply firstValid s :
  performQuiescentChecks (self s) = false ->
  endsWith (fun _ => False) "Key servers inconsistent" s
    (readLocationReply servers futures j reply firstValid s).
Proof.
  intros Hq. unfold readLocationReply. rewrite Hq.
  destruct reply as [current|e].
  - destruct (firstValid <? 0); [ends_here|].
    destruct (replyDiffers _ _); ends_here.
  - destruct (_ && _); ends_here.
Qed.

Lemma readLocationReplies_busy servers futures rest :
  forall j firstValid s,
    performQuiescentChecks (self s) = false ->
    endsWith (fun _ => False) "Key servers inconsistent" s
      (readLocationReplies servers futures rest j firstValid s).
Proof.
  induction rest as [|reply rest IH]; intros j firstValid s Hq; cbn [readLocationReplies].
  - ends_here.
  - pose proof (readLocationReply_busy servers futures j reply firstValid s Hq) as H.
    destruct (readLocationReply servers futures j reply firstValid s) as [[fv|b|e|] s'];
      try exact H.
    unfold endsWith in H. cbn [fst snd] in H.
    eapply endsWith_trans; [exact H|]. apply IH.
    now rewrite (extendsBy_quiescent _ _ _ H).
Qed.

Section KeyLocationsBusy.

Variable getReadVersion : nat -> nat -> ErrorOr Version.
Variable onError : nat -> nat -> Error -> ErrorOr unit.
Variable getKeyValues :
  nat -> StorageServerInterface -> GetKeyValuesRequest -> ErrorOr GetKeyValuesReply.
Variable krmDecodeRanges : Key -> KeyRange -> GetKeyValuesReply -> list KeyValueRef.
Variables keyServersPrefix allKeys_begin allKeys_end : Key.
Variables MOVE_KEYS_KRM_LIMIT MOVE_KEYS_KRM_LIMIT_BYTES : Z.

Let page := keyLocationsPage getReadVersion onError getKeyValues krmDecodeRanges
              keyServersPrefix allKeys_end MOVE_KEYS_KRM_LIMIT MOVE_KEYS_KRM_LIMIT_BYTES.
Let try := keyLocationsTry getReadVersion onError getKeyValues krmDecodeRanges
             keyServersPrefix allKeys_end MOVE_KEYS_KRM_LIMIT MOVE_KEYS_KRM_LIMIT_BYTES.
Let loop := keyLocationsLoop getReadVersion onError getKeyValues krmDecodeRanges
              keyServersPrefix allKeys_end MOVE_KEYS_KRM_LIMIT MOVE_KEYS_KRM_LIMIT_BYTES.

Lemma keyLocationsPage_busy shard round fuel st s :
  performQuiescentChecks (self s) = false ->
  endsWith (fun _ => False) "Key servers inconsistent" s (page shard round fuel st s).
Proof.
  intros Hq. unfold page, keyLocationsPage.
  destruct (getVersion _ _ _); try ends_here.
  unfold readShardLocationResults.
  match goal with
  | |- context [readLocationReplies ?a ?b ?c ?d ?e ?f] =>
      pose proof (readLocationReplies_busy a b c d e f Hq) as H;
      destruct (readLocationReplies a b c d e f) as [[fv|b'|e'|] s']
  end; try exact H.
  unfold endsWith in H. cbn [fst snd] in H.
  destruct (negb _); exact H.
Qed.

Lemma keyLocationsTry_busy shard round fuel st s :
  performQuiescentChecks (self s) = false ->
  endsWith (fun _ => False) "Key servers inconsistent" s (try shard round fuel st s).
Proof.
  intros Hq. unfold try, keyLocationsTry.
  pose proof (keyLocationsPage_busy shard round fuel st s Hq) as H. unfold page in H.
  destruct (keyLocationsPage _ _ _ _ _ _ _ _ _ _ _ _ _) as [[st'|b|e|] s']; try exact H.
  unfold endsWith in H. cbn [fst snd] in H.
  destruct (isVersionProblem e); [|exact H].
  unfold endsWith. cbn [fst snd]. apply extendsBy_trace; [reflexivity|exact H].
Qed.

Lemma keyLocationsLoop_busy fuel :
  forall shards round st s,
    performQuiescentChecks (self s) = false ->
    endsWith (fun _ => False) "Key servers inconsistent" s (loop fuel shards round st s).
Proof.
  unfold loop.
  induction fuel as [|fuel IH]; intros shards round st s Hq; cbn [keyLocationsLoop].
  - ends_here.
  - destruct shards as [|shard shards]; [ends_here|].
    destruct (String.ltb _ _); [|now apply IH].
    pose proof (keyLocationsTry_busy shard round fuel st s Hq) as H. unfold try in H.
    destruct (keyLocationsTry _ _ _ _ _ _ _ _ _ _ _ _ _) as [[st'|b|e|] s']; try exact H.
    unfold endsWith in H. cbn [fst snd] in H.
    eapply endsWith_trans; [exact H|]. apply IH.
    now rewrite (extendsBy_quiescent _ _ _ H).
Qed.

(** X8.  In a run that is not quiescent, [getKeyLocations] records a failure
    only when it returns false, and then exactly one, "Key servers
    inconsistent": it returns false with that failure as the only new one on
    record, or it does not return false (it returns true, throws, or is
    still running) and has recorded none and left the workload object as it
    was.  It sends the key locations exactly when it returns true. *)
Theorem busy_key_locations_fail_only_as_inconsistent
  (fuel : nat) (shards : list (KeyRange * list StorageServerInterface)) (s : State)
  (Hbusy : performQuiescentChecks (self s) = false) :
  let r := getKeyLocations getReadVersion onError getKeyValues krmDecodeRanges
             keyServersPrefix allKeys_begin allKeys_end MOVE_KEYS_KRM_LIMIT
             MOVE_KEYS_KRM_LIMIT_BYTES fuel shards s in
  let result := fst (fst r) in
  let promise := snd (fst r) in
  (result = Ok false
   /\ newReasons s (snd r) = ["Consistency check: Key servers inconsistent"]
   \/ result <> Ok false /\ newReasons s (snd r) = [] /\ self (snd r) = self s)
  /\ (result = Ok true <-> promise <> None).
Proof.
  cbv zeta. unfold getKeyLocations.
  pose proof (keyLocationsLoop_busy fuel shards 0
                (mkLoc [] (withPrefix keyServersPrefix allKeys_begin)) s Hbusy) as H.
  unfold loop in H.
  destruct (keyLocationsLoop _ _ _ _ _ _ _ _ _ _ _ _ _) as [[st'|b|e|] s'];
    unfold endsWith in H; cbn [fst snd] in *.
  - split; [right|split; [discriminate|reflexivity]].
    split; [discriminate|]. split; [now apply quietly_reasons|now apply quietly_self].
  - destruct H as [-> [s1 [ev [Hq [Hev ->]]]]].
    split; [left|split; [discriminate|congruence]].
    split; [reflexivity|]. apply newReasons_app.
    rewrite reasons_testFailure, reasons_traceEvent by exact Hev.
    pose proof (quietly_reasons _ _ Hq) as Hr. unfold newReasons in Hr.
    destruct (extendsBy_reasons _ _ _ Hq) as [messages [Hall Hr']].
    destruct messages as [|m messages]; [|now inversion Hall].
    cbn [map] in Hr'. rewrite app_nil_r in Hr'. now rewrite Hr'.
  - split; [right|split; [discriminate|congruence]].
    split; [discriminate|]. split; [now apply quietly_reasons|now apply quietly_self].
  - split; [right|split; [discriminate|congruence]].
    split; [discriminate|]. split; [now apply quietly_reasons|now apply quietly_self].
Qed.

End KeyLocationsBusy.

Lemma busy_key_locations_fail_only_as_inconsistent_witness :
  let r := getKeyLocations steadyVersion retryAll splitAnswers plainRanges "keyServers/" "" "z"
             10 10 5 oneShard busyState in
  fst (fst r) = Ok false
  /\ newReasons busyState (snd r) = ["Consistency check: Key servers inconsistent"].
Proof.
  destruct (busy_key_locations_fail_only_as_inconsistent steadyVersion retryAll splitAnswers
              plainRanges "keyServers/" "" "z" 10 10 5 oneShard busyState eq_refl)
    as [[H|[H _]] _].
  - exact H.
  - exfalso. apply H. vm_compute. reflexivity.
Defined.

(** *** checkDataConsistency *)

Lemma checkTeamSize_busy configuration range source s :
  performQuiescentChecks (self s) = false ->
  checkTeamSize configuration range source s = (Next tt, s).
Proof. intros Hq. unfold checkTeamSize. now rewrite Hq, andb_false_r. Qed.

Lemma getStorageSizeEstimate_quiet env servers shard s :
  quietly s (snd (getStorageSizeEstimate env servers shard s)).
Proof.
  unfold getStorageSizeEstimate. destruct (waitMetricsError env); cbn [snd]; [quiet|].
  apply storageSizeEstimatesFrom_spec.
Qed.

Lemma checkEstimates_busy servers estimated sampled s :
  performQuiescentChecks (self s) = false ->
  snd (checkEstimates servers estimated sampled s) = s.
Proof. intros Hq. unfold checkEstimates. now rewrite Hq. Qed.

Lemma checkShardEstimate_by bounds range a s :
  extendsBy inaccurateEstimate s (checkShardEstimate bounds range a s).
Proof.
  unfold checkShardEstimate. destruct (inaccurateShardEstimate a); [|apply extendsBy_refl].
  apply extendsBy_failure; [reflexivity|]. apply extendsBy_trace; [reflexivity|].
  apply extendsBy_refl.
Qed.

Section DataConsistencyBusy.

Variable isKeyValueInSample : KeyValueRef -> ByteSampleInfo.
Variable expectedSize : list KeyValueRef -> Z.
Variable randomShuffle : Z -> list Z -> list Z.
Variables SPLIT_KEY_SIZE_LIMIT REPLY_BYTE_LIMIT : Z.
Variable STORAGE_METRICS_UNFAIR_SPLIT_LIMIT : float.
Variables keyServersPrefix allKeys_end : Key.

Lemma checkShardSizes_busy range shardCount env servers estimated read s :
  performQuiescentChecks (self s) = false ->
  endsWith inaccurateEstimate "Data inconsistent" s
    (checkShardSizes keyServersPrefix range shardCount env servers estimated read s).
Proof.
  intros Hq. unfold checkShardSizes.
  pose proof (checkEstimates_busy servers estimated
                (sampledBytes (finishCanSplit (shardBounds env) read)) s Hq) as He.
  destruct (checkEstimates _ _ _ _) as [valid s1]. cbn [snd] in He. subst s1.
  match goal with
  | |- context [checkShardEstimate ?b ?r ?a ?s0] =>
      pose proof (checkShardEstimate_by b r a s0) as Hs;
      set (s2 := checkShardEstimate b r a s0) in *
  end.
  unfold checkShardSize.
  rewrite (extendsBy_quiescent _ _ _ Hs), Hq, andb_false_r. cbn [andb].
  exact Hs.
Qed.

Lemma readRangeResult_busy servers interfaces range req relocating futures j result acc s :
  performQuiescentChecks (self s) = false ->
  endsWith inaccurateEstimate "Data inconsistent" s
    (readRangeResult expectedSize servers interfaces range req relocating futures j
            result acc s).
Proof.
  intros Hq. unfold readRangeResult. destruct acc as [firstValid total].
  destruct result as [current|e].
  - destruct (firstValid =? -1); [ends_here|].
    destruct (replyDiffers _ _); ends_here.
  - destruct (negb relocating); [|ends_here].
    rewrite Hq. ends_here.
Qed.

Lemma readRangeResults_busy servers interfaces range req relocating futures rest :
  forall j acc s,
    performQuiescentChecks (self s) = false ->
    endsWith inaccurateEstimate "Data inconsistent" s
    (readRangeResults expectedSize servers interfaces range req relocating futures
              rest j acc s).
Proof.
  induction rest as [|result rest IH]; intros j acc s Hq; cbn [readRangeResults].
  - ends_here.
  - apply endsWith_bind; [now apply readRangeResult_busy|].
    intros acc' s' Hs'. apply IH. now rewrite (extendsBy_quiescent _ _ _ Hs').
Qed.

Lemma readPage_busy env range relocating servers interfaces round fuel rs s :
  performQuiescentChecks (self s) = false ->
  endsWith inaccurateEstimate "Data inconsistent" s
    (readPage isKeyValueInSample expectedSize SPLIT_KEY_SIZE_LIMIT REPLY_BYTE_LIMIT
            STORAGE_METRICS_UNFAIR_SPLIT_LIMIT allKeys_end env range relocating servers
            interfaces round fuel rs s).
Proof.
  intros Hq. unfold readPage.
  destruct (getVersion _ _ _); try ends_here.
  match goal with
  | |- context [readRangeResults ?a ?b ?c ?d ?e ?f ?g ?h ?i ?j ?k] =>
      pose proof (readRangeResults_busy b c d e f g h i j k Hq) as H;
      destruct (readRangeResults a b c d e f g h i j k) as [[[fv total]|b'|e'|] s']
  end; try exact H.
  unfold endsWith in H. cbn [fst snd] in H.
  repeat (match goal with |- context [if ?c then _ else _] => destruct c end);
    exact H.
Qed.

Lemma readTry_busy env range relocating servers interfaces round fuel rs s :
  performQuiescentChecks (self s) = false ->
  endsWith inaccurateEstimate "Data inconsistent" s
    (readTry isKeyValueInSample expectedSize SPLIT_KEY_SIZE_LIMIT REPLY_BYTE_LIMIT
            STORAGE_METRICS_UNFAIR_SPLIT_LIMIT allKeys_end env range relocating servers
            interfaces round fuel rs s).
Proof.
  intros Hq. unfold readTry.
  pose proof (readPage_busy env range relocating servers interfaces round fuel rs s Hq) as H.
  destruct (readPage _ _ _ _ _ _ _ _ _ _ _ _ _ _ _) as [[next|b|e|] s']; try exact H.
  unfold endsWith in H. cbn [fst snd] in H.
  destruct (isVersionProblem e); [|exact H].
  unfold endsWith. cbn [fst snd]. apply extendsBy_trace; [reflexivity|exact H].
Qed.

Lemma readLoop_busy fuel env range relocating servers interfaces :
  forall round rs s,
    performQuiescentChecks (self s) = false ->
    endsWith inaccurateEstimate "Data inconsistent" s
    (readLoop isKeyValueInSample expectedSize SPLIT_KEY_SIZE_LIMIT REPLY_BYTE_LIMIT
              STORAGE_METRICS_UNFAIR_SPLIT_LIMIT allKeys_end fuel env range relocating
              servers interfaces round rs s).
Proof.
  induction fuel as [|fuel IH]; intros round rs s Hq; cbn [readLoop].
  - ends_here.
  - apply endsWith_bind; [now apply readTry_busy|].
    intros next s' Hs'. destruct (snd next).
    + apply IH. now rewrite (extendsBy_quiescent _ _ _ Hs').
    + ends_here.
Qed.

Lemma readServerList_busy fuel env servers :
  forall n s,
    performQuiescentChecks (self s) = false ->
    endsWith inaccurateEstimate "Data inconsistent" s (readServerList fuel env servers n s).
Proof.
  induction fuel as [|fuel IH]; intros n s Hq; cbn [readServerList]; [ends_here|].
  destruct (serverListError env n) as [e|].
  - destruct (serverList_onError env n e); [now apply IH|ends_here].
  - destruct (serverListEntries_spec (map (serverListValue env) servers) [] s)
      as [_ [_ [_ Hsame]]].
    destruct (serverListEntries _ _ _) as [interfaces s1].
    cbn [snd] in Hsame. rewrite (Hsame Hq). ends_here.
Qed.

Lemma addEstimatedSizes_busy servers estimated s :
  performQuiescentChecks (self s) = false ->
  endsWith inaccurateEstimate "Data inconsistent" s (addEstimatedSizes servers estimated s).
Proof.
  intros Hq. unfold addEstimatedSizes. rewrite Hq. cbn [andb].
  destruct (firstClient (self s)); [|ends_here].
  destruct (_ && _); [|ends_here]. destruct (_ <? _); ends_here.
Qed.

Lemma shardIsSampled_busy shard s :
  endsWith inaccurateEstimate "Data inconsistent" s (shardIsSampled shard s).
Proof.
  unfold shardIsSampled. destruct (negb _); [ends_here|]. destruct (_ || _); ends_here.
Qed.

Lemma checkShard_busy configuration shardCount shard range env fuel s :
  performQuiescentChecks (self s) = false ->
  endsWith inaccurateEstimate "Data inconsistent" s
    (checkShard isKeyValueInSample expectedSize SPLIT_KEY_SIZE_LIMIT REPLY_BYTE_LIMIT
            STORAGE_METRICS_UNFAIR_SPLIT_LIMIT keyServersPrefix allKeys_end configuration
            shardCount shard range env fuel s).
Proof.
  intros Hq. unfold checkShard, shardServers.
  unfold bind at 1. unfold bind at 1. rewrite (checkTeamSize_busy _ _ _ _ Hq).
  unfold pure at 1. cbn [fst snd].
  apply endsWith_bind; [now apply readServerList_busy|].
  intros interfaces s1 Hs1. apply endsWith_bind.
  { pose proof (getStorageSizeEstimate_quiet env interfaces range s1) as Hest.
    destruct (getStorageSizeEstimate env interfaces range s1) as [estimated s2].
    cbn [snd] in Hest. unfold endsWith. cbn [fst snd].
    eapply extendsBy_weaken; [|exact Hest]. contradiction. }
  intros estimated s2 Hs2.
  assert (Hq2 : performQuiescentChecks (self s2) = false).
  { rewrite (extendsBy_quiescent _ _ _ Hs2). now rewrite (extendsBy_quiescent _ _ _ Hs1). }
  apply endsWith_bind; [now apply addEstimatedSizes_busy|].
  intros _ s3 Hs3.
  assert (Hq3 : performQuiescentChecks (self s3) = false)
    by now rewrite (extendsBy_quiescent _ _ _ Hs3).
  apply endsWith_bind; [apply shardIsSampled_busy|].
  intros sampled s4 Hs4.
  assert (Hq4 : performQuiescentChecks (self s4) = false)
    by now rewrite (extendsBy_quiescent _ _ _ Hs4).
  apply endsWith_bind.
  - destruct sampled; [|ends_here].
    apply endsWith_bind; [now apply readLoop_busy|].
    intros rs s' Hs'. apply endsWith_bind.
    + apply checkShardSizes_busy. now rewrite (extendsBy_quiescent _ _ _ Hs').
    + intros _ s'' _. ends_here.
  - intros bytesRead s' _. destruct (bytesRead >? 0); ends_here.
Qed.

Lemma shardLoop_busy fuel configuration ranges order env :
  forall i inc s,
    performQuiescentChecks (self s) = false ->
    endsWith inaccurateEstimate "Data inconsistent" s
    (shardLoop isKeyValueInSample expectedSize SPLIT_KEY_SIZE_LIMIT REPLY_BYTE_LIMIT
              STORAGE_METRICS_UNFAIR_SPLIT_LIMIT keyServersPrefix allKeys_end fuel
              configuration ranges order env i inc s).
Proof.
  induction fuel as [|fuel IH]; intros i inc s Hq; cbn [shardLoop].
  - ends_here.
  - destruct (_ <? _); [|ends_here].
    apply endsWith_bind; [now apply checkShard_busy|].
    intros _ s' Hs'. apply IH. now rewrite (extendsBy_quiescent _ _ _ Hs').
Qed.

(** X9.  In a run that is not quiescent, the only failures
    [checkDataConsistency] records are "Shard size is more than 7.000000 std
    dev from estimate", which does not end it, and "Data inconsistent",
    which it records once, as the last failure, exactly when it returns
    false.  None of the failures of a quiescent database (team size, server
    list, storage metrics, unavailable server, estimates of the servers,
    permitted shard size) is recorded.  This covers the runs that end
    without a result (out of fuel, or where the body of the loop leaves
    defined behaviour), up to the state they reach. *)
Theorem busy_data_consistency_failures
  (fuel : nat) (keyLocations : list KeyValueRef) (configuration : DatabaseConfiguration)
  (env : Z -> ShardEnv) (s : State)
  (Hbusy : performQuiescentChecks (self s) = false) :
  let r := checkDataConsistency isKeyValueInSample expectedSize randomShuffle
             SPLIT_KEY_SIZE_LIMIT REPLY_BYTE_LIMIT STORAGE_METRICS_UNFAIR_SPLIT_LIMIT
             keyServersPrefix allKeys_end fuel keyLocations configuration env s in
  exists estimates : nat,
    newReasons s (snd r)
    = repeat "Consistency check: Shard size is more than 7.000000 std dev from estimate"
             estimates
      ++ (if match fst r with Ok false => true | _ => false end
          then ["Consistency check: Data inconsistent"] else []).
Proof.
  cbv zeta. unfold checkDataConsistency.
  match goal with
  | |- context [shardLoop ?a ?b ?c ?d ?e ?f ?g ?h ?i ?j ?k ?l ?m ?n s] =>
      pose proof (shardLoop_busy h i j k l m n s Hbusy) as H;
      destruct (shardLoop a b c d e f g h i j k l m n s) as [[u|b'|e'|] s'] eqn:E
  end.
  all: destruct (endsWith_reasons _ _ _ _ H) as [messages [Hall [Hr Hne]]];
    cbn [fst snd] in *; exists (List.length messages); rewrite Hr, map_app.
  all: assert (Hm : map (fun m => ("Consistency check: " ++ m)%string) messages
                    = repeat "Consistency check: Shard size is more than 7.000000 std dev from estimate"
                             (List.length messages))
    by (clear - Hall; induction Hall as [|m messages Hm _ IH]; [reflexivity|];
        cbn [map List.length repeat]; rewrite IH, Hm; reflexivity).
  all: rewrite Hm; try reflexivity.
  destruct b'; [now contradiction Hne|reflexivity].
Qed.

End DataConsistencyBusy.

Lemma busy_data_consistency_failures_witness :
  let r := checkDataConsistency sampleAll (fun data => Z.of_nat (List.length data))
             (fun _ order => order) 100 1000 1%float "keyServers/" "z" 5
             [mkKV "a" ""; mkKV "m" ""] someConfiguration (fun _ => divergedShard)
             busyState in
  fst r = Ok false
  /\ In "Consistency check: Data inconsistent" (newReasons busyState (snd r)).
Proof.
  destruct (busy_data_consistency_failures sampleAll (fun data => Z.of_nat (List.length data))
              (fun _ order => order) 100 1000 1%float "keyServers/" "z" 5
              [mkKV "a" ""; mkKV "m" ""] someConfiguration (fun _ => divergedShard)
              busyState eq_refl) as [estimates H].
  cbv zeta in *.
  match type of H with
  | context [fst ?r] => assert (E : fst r = Ok false) by (vm_compute; reflexivity)
  end.
  rewrite E in H. split; [exact E|]. rewrite H. apply in_or_app. right. now left.
Defined.

(** ** getDatabaseSize *)

Lemma getDatabaseSize_body_cases getStorageMetrics onError (n : nat) :
  getDatabaseSize_body getStorageMetrics onError n
  = match getStorageMetrics n with
    | Present bytes => Return bytes
    | Failed e =>
        match onError n e with
        | Present _ => Next tt
        | Failed e' => Throw e'
        end
    end.
Proof.
  unfold getDatabaseSize_body, wait, try_catch.
  destruct (getStorageMetrics n) as [bytes|e]; [reflexivity|].
  now destruct (onError n e).
Qed.

Lemma getDatabaseSize_from_spec getStorageMetrics onError (fuel : nat) :
  forall k,
    (forall bytes,
       getDatabaseSize_from getStorageMetrics onError fuel k = Ok bytes
       <-> exists n, (n < fuel)%nat /\ getStorageMetrics (k + n)%nat = Present bytes
                     /\ forall m, (m < n)%nat ->
                          retriedAt getStorageMetrics onError (k + m)%nat)
    /\ (forall e',
          getDatabaseSize_from getStorageMetrics onError fuel k = Thrown e'
          <-> exists n e, (n < fuel)%nat /\ getStorageMetrics (k + n)%nat = Failed e
                          /\ onError (k + n)%nat e = Failed e'
                          /\ forall m, (m < n)%nat ->
                               retriedAt getStorageMetrics onError (k + m)%nat).
Proof.
  induction fuel as [|fuel IH]; intros k; cbn [getDatabaseSize_from].
  - split; intros x; (split; [discriminate|]).
    + intros [n [Hn _]]. lia.
    + intros [n [e [Hn _]]]. lia.
  - rewrite getDatabaseSize_body_cases.
    assert (Hshift : forall (P : nat -> Prop),
              P k ->
              forall n, (forall m, (m < n)%nat -> P (S k + m)%nat) ->
                        forall m, (m < S n)%nat -> P (k + m)%nat).
    { intros P Hk n Hn [|m] Hm; [now rewrite Nat.add_0_r|].
      rewrite Nat.add_succ_r. apply Hn. lia. }
    assert (Hunshift : forall (P : nat -> Prop) n,
              (forall m, (m < S n)%nat -> P (k + m)%nat) ->
              forall m, (m < n)%nat -> P (S k + m)%nat).
    { intros P n Hn m Hm. specialize (Hn (S m) ltac:(lia)).
      now rewrite Nat.add_succ_r in Hn. }
    destruct (getStorageMetrics k) as [bytes0|e0] eqn:E.
    + split; intros x; split.
      * intros H. injection H as ->. exists 0%nat. rewrite Nat.add_0_r.
        repeat split; [lia|exact E|]. intros m Hm. lia.
      * intros [[|n] [_ [Hn Hbefore]]].
        -- rewrite Nat.add_0_r, E in Hn. now injection Hn as ->.
        -- destruct (Hbefore 0%nat ltac:(lia)) as [e [He _]].
           rewrite Nat.add_0_r, E in He. discriminate.
      * discriminate.
      * intros [[|n] [e [_ [Hn [_ Hbefore]]]]].
        -- rewrite Nat.add_0_r, E in Hn. discriminate.
        -- destruct (Hbefore 0%nat ltac:(lia)) as [e1 [He _]].
           rewrite Nat.add_0_r, E in He. discriminate.
    + destruct (onError k e0) as [[]|e1] eqn:Eon.
      * assert (Hk : retriedAt getStorageMetrics onError k) by (exists e0; auto).
        destruct (IH (S k)) as [IHok IHthrown].
        split; intros x; [rewrite IHok|rewrite IHthrown]; split.
        -- intros [n [Hn [Hv Hbefore]]]. exists (S n).
           repeat split; [lia|now rewrite Nat.add_succ_r|].
           now apply Hshift.
        -- intros [[|n] [Hn [Hv Hbefore]]].
           ++ rewrite Nat.add_0_r, E in Hv. discriminate.
           ++ exists n. repeat split; [lia|now rewrite Nat.add_succ_r in Hv|].
              now apply Hunshift.
        -- intros [n [e [Hn [Hv [Hon Hbefore]]]]]. exists (S n), e.
           rewrite Nat.add_succ_r. repeat split; auto; [lia|]. now apply Hshift.
        -- intros [[|n] [e [Hn [Hv [Hon Hbefore]]]]].
           ++ rewrite Nat.add_0_r in Hv, Hon. rewrite E in Hv. injection Hv as <-.
              rewrite Eon in Hon. discriminate.
           ++ exists n, e. rewrite Nat.add_succ_r in Hv, Hon.
              repeat split; auto; [lia|]. now apply Hunshift.
      * split; intros x; split.
        -- discriminate.
        -- intros [[|n] [_ [Hn Hbefore]]].
           ++ rewrite Nat.add_0_r, E in Hn. discriminate.
           ++ destruct (Hbefore 0%nat ltac:(lia)) as [e [He Hon]].
              rewrite Nat.add_0_r in He, Hon. rewrite E in He. injection He as <-.
              rewrite Eon in Hon. discriminate.
        -- intros H. injection H as ->. exists 0%nat, e0. rewrite Nat.add_0_r.
           repeat split; auto; [lia|]. intros m Hm. lia.
        -- intros [[|n] [e [_ [Hn [Hon Hbefore]]]]].
           ++ rewrite Nat.add_0_r in Hn, Hon. rewrite E in Hn. injection Hn as <-.
              rewrite Eon in Hon. now injection Hon as ->.
           ++ destruct (Hbefore 0%nat ltac:(lia)) as [e2 [He Hon2]].
              rewrite Nat.add_0_r in He, Hon2. rewrite E in He. injection He as <-.
              rewrite Eon in Hon2. discriminate.
Qed.

(** X10.  [getDatabaseSize] asks for the storage metrics until it gets
    them, going on to the next attempt only after [tr.onError(e)] let the
    failed one pass.  So it returns the bytes of the first attempt that
    succeeds, when every attempt before it failed with an error that
    [onError] lets pass; it throws the error of [onError] for the first
    failed attempt that [onError] does not let pass; and it never ends when
    every attempt fails and is let pass.  (This is unlike [getVersion],
    which drops the future of [onError] and never throws.) *)
Theorem database_size_or_error_of_onError
  (getStorageMetrics : nat -> ErrorOr Z) (onError : nat -> Error -> ErrorOr unit) :
  (forall fuel bytes,
     getDatabaseSize getStorageMetrics onError fuel = Ok bytes
     <-> exists n, (n < fuel)%nat /\ getStorageMetrics n = Present bytes
                   /\ forall m, (m < n)%nat -> retriedAt getStorageMetrics onError m)
  /\ (forall fuel e',
        getDatabaseSize getStorageMetrics onError fuel = Thrown e'
        <-> exists n e, (n < fuel)%nat /\ getStorageMetrics n = Failed e
                        /\ onError n e = Failed e'
                        /\ forall m, (m < n)%nat -> retriedAt getStorageMetrics onError m)
  /\ ((forall n, retriedAt getStorageMetrics onError n) ->
      forall fuel, getDatabaseSize getStorageMetrics onError fuel = Unfinished).
Proof.
  unfold getDatabaseSize. split; [|split].
  - intros fuel bytes. apply (getDatabaseSize_from_spec getStorageMetrics onError fuel 0).
  - intros fuel e'. apply (getDatabaseSize_from_spec getStorageMetrics onError fuel 0).
  - intros Hall fuel.
    destruct (getDatabaseSize_from getStorageMetrics onError fuel 0) as [v|e|] eqn:E.
    + apply (getDatabaseSize_from_spec getStorageMetrics onError fuel 0) in E.
      destruct E as [n [_ [Hv _]]]. destruct (Hall (0 + n)%nat) as [e [He _]].
      rewrite Hv in He. discriminate.
    + apply (getDatabaseSize_from_spec getStorageMetrics onError fuel 0) in E.
      destruct E as [n [e0 [_ [Hv [Hon _]]]]]. destruct (Hall (0 + n)%nat) as [e1 [He Hon1]].
      rewrite Hv in He. injection He as <-. rewrite Hon in Hon1. discriminate.
    + reflexivity.
Qed.

(** ** getKeyServers *)


Lemma readKeyServerLocations_first replies :
  forall inserted st s,
    performQuiescentChecks (self s) = false \/ allAnswered replies ->
    readKeyServerLocations replies inserted st s
    = (Next (if inserted then (true, st)
             else match firstReply replies with
                  | Some reply => (true, insertShards st reply)
                  | None => (false, st)
                  end), s).
Proof.
  induction replies as [|[p [reply|e]] replies IH]; intros inserted st s Hcase;
    cbn [readKeyServerLocations firstReply present negb].
  - now destruct inserted.
  - rewrite andb_false_r. destruct inserted; cbn [negb].
    + rewrite IH; [reflexivity|].
      destruct Hcase as [Hq|Hall]; [now left|right]. now inversion Hall.
    + destruct (performQuiescentChecks (self s)) eqn:Hq; cbn [negb]; [|reflexivity].
      rewrite IH; [reflexivity|].
      destruct Hcase as [Hq'|Hall]; [discriminate|right]. now inversion Hall.
  - destruct Hcase as [Hq|Hall].
    + rewrite Hq. cbn [andb]. apply IH. now left.
    + inversion Hall as [|x l Hx _]; subst. discriminate.
Qed.

Section KeyServersProperties.

Variable getMasterProxies : nat -> ErrorOr (list MasterProxyInterface).
Variable getKeyServersLocations :
  nat -> MasterProxyInterface -> GetKeyServerLocationsRequest
  -> ErrorOr GetKeyServerLocationsReply.
Variable onMasterProxiesChanged : nat -> bool.
Variables keyServersKeys_begin keyServersKeys_end : Key.
Variable BUGGIFY : bool.

Let futures := keyServerLocationFutures getKeyServersLocations keyServersKeys_end BUGGIFY.
Let round := keyServersRound getMasterProxies getKeyServersLocations onMasterProxiesChanged
               keyServersKeys_end BUGGIFY.
Let loop := keyServersLoop getMasterProxies getKeyServersLocations onMasterProxiesChanged
              keyServersKeys_end BUGGIFY.
Let actor := getKeyServers getMasterProxies getKeyServersLocations onMasterProxiesChanged
               keyServersKeys_begin keyServersKeys_end BUGGIFY.




Lemma readKeyServerLocations_busy replies :
  forall inserted st s,
    performQuiescentChecks (self s) = false ->
    exists next, readKeyServerLocations replies inserted st s = (Next next, s).
Proof.
  intros inserted st s Hq. eexists. apply readKeyServerLocations_first. now left.
Qed.

Lemma keyServersLoop_busy (fuel : nat) :
  forall n st s,
    performQuiescentChecks (self s) = false ->
    snd (loop fuel n st s) = s /\ forall b, fst (loop fuel n st s) <> Return b.
Proof.
  unfold loop.
  induction fuel as [|fuel IH]; intros n st s Hq; cbn [keyServersLoop];
    destruct (String.ltb _ _); try (split; [reflexivity|discriminate]).
  unfold keyServersRound.
  destruct (getMasterProxies n) as [proxyInfo|e]; [|split; [reflexivity|discriminate]].
  destruct (onMasterProxiesChanged n); [now apply IH|].
  match goal with
  | |- context [readKeyServerLocations ?r ?i ?t s] =>
      destruct (readKeyServerLocations_busy r i t s Hq) as [[inserted st'] ->]
  end.
  now apply IH.
Qed.

(** X13.  In a run that is not quiescent [getKeyServers] cannot fail the
    check: it never returns false, records nothing and leaves the state as
    it was, however many proxies do not answer.  It sends the key servers
    through the promise exactly when it returns true. *)
Theorem busy_key_servers_never_fail
  (fuel : nat) (s : State) (Hbusy : performQuiescentChecks (self s) = false) :
  let r := actor fuel s in
  snd r = s
  /\ fst (fst r) <> Ok false
  /\ (fst (fst r) = Ok true <-> snd (fst r) <> None).
Proof.
  cbv zeta. unfold actor, getKeyServers.
  destruct (keyServersLoop_busy fuel 0 (mkKeyServers [] keyServersKeys_begin) s Hbusy)
    as [Hs Hr].
  unfold loop in *.
  destruct (keyServersLoop _ _ _ _ _ _ _ _ _) as [[st'|b|e|] s']; cbn [fst snd] in *.
  - repeat split; auto; discriminate.
  - now contradiction (Hr b).
  - repeat split; auto; try discriminate. intros H. now contradiction H.
  - repeat split; auto; try discriminate. intros H. now contradiction H.
Qed.

End KeyServersProperties.



Lemma busy_key_servers_never_fail_witness :
  snd (getKeyServers twoProxies secondProxyDown proxiesStay "keyServers/" "keyServers/z"
         false 3 busyState) = busyState.
Proof.
  apply (busy_key_servers_never_fail twoProxies secondProxyDown proxiesStay "keyServers/"
           "keyServers/z" false 3 busyState eq_refl).
Defined.

(** ** checkForStorage *)

Lemma found_iff (address : NetworkAddress) (storageServers : list StorageServerInterface) :
  found address storageServers = true <-> In address (map ssi_address storageServers).
Proof.
  induction storageServers as [|ss rest IH]; cbn [found map In].
  - split; [discriminate|contradiction].
  - destruct (String.eqb_spec (ssi_address ss) address) as [Heq|Hne].
    + split; auto.
    + rewrite IH. split; auto. intros [H|H]; [contradiction|exact H].
Qed.

Section StorageProperties.

Variable isExcludedServer : DatabaseConfiguration -> NetworkAddress -> bool.
Variables UnsetClass StorageClass : ClassType.
Variable configuration : DatabaseConfiguration.
Variable storageServers : list StorageServerInterface.

Let needs := needsStorage isExcludedServer UnsetClass StorageClass configuration.
Let covered (worker : WorkerInterface * ProcessClass) : Prop :=
  needs worker = true -> In (worker_address (fst worker)) (map ssi_address storageServers).

Lemma checkForStorageFrom_true (workers : list (WorkerInterface * ProcessClass)) (s : State) :
  Forall covered workers <->
  checkForStorageFrom isExcludedServer UnsetClass StorageClass configuration storageServers
    workers s = (true, s).
Proof.
  induction workers as [|worker rest IH]; cbn [checkForStorageFrom].
  - split; [reflexivity|constructor].
  - fold (needs worker). destruct (needs worker) eqn:En; cbn [andb].
    + destruct (found _ _) eqn:Ef; cbn [negb].
      * rewrite <- IH. split.
        -- intros H. now inversion H.
        -- intros H. constructor; [|exact H]. intros _. now apply found_iff.
      * split; [|discriminate]. intros H. inversion H as [|x l Hc _]; subst.
        specialize (Hc En). apply found_iff in Hc. congruence.
    + rewrite <- IH. split.
      * intros H. now inversion H.
      * intros H. constructor; [|exact H]. unfold covered. congruence.
Qed.

Lemma checkForStorageFrom_false (before : list (WorkerInterface * ProcessClass)) :
  forall worker after s,
    Forall covered before -> ~ covered worker ->
    checkForStorageFrom isExcludedServer UnsetClass StorageClass configuration storageServers
      (before ++ worker :: after) s
    = (false,
       testFailure "No storage server on worker"
         (traceEvent (event "ConsistencyCheck_NoStorage"
                        [("Address", DStr (worker_address (fst worker)))]) s)).
Proof.
  induction before as [|w before IH]; intros worker after s Hbefore Hworker;
    cbn [app checkForStorageFrom].
  - fold (needs worker). destruct (needs worker) eqn:En.
    + destruct (found _ _) eqn:Ef; [|reflexivity].
      exfalso. apply Hworker. intros _. now apply found_iff.
    + exfalso. apply Hworker. unfold covered. congruence.
  - inversion Hbefore as [|x l Hw Hrest]; subst.
    fold (needs w). destruct (needs w) eqn:En; cbn [andb]; [|now apply IH].
    apply (fun H => proj2 (found_iff _ _) (Hw H)) in En as Ef. rewrite Ef. cbn [negb].
    now apply IH.
Qed.

(** X14.  [checkForStorage] returns true, with nothing recorded, exactly
    when every worker that is not excluded and whose class is [StorageClass]
    or [UnsetClass] has a storage server at its address.  Otherwise it
    returns false at the first worker without one: it logs
    [ConsistencyCheck_NoStorage] with the address of that worker and records
    the failure "No storage server on worker" once, whatever the workers
    after it. *)
Theorem storage_on_every_worker_iff
  (workers : list (WorkerInterface * ProcessClass)) (s : State) :
  let r := checkForStorage isExcludedServer UnsetClass StorageClass
             (Present workers) (Present storageServers) configuration s in
  (Forall covered workers <-> r = (Ok true, s))
  /\ (forall before worker after,
        workers = before ++ worker :: after -> Forall covered before -> ~ covered worker ->
        r = (Ok false,
             testFailure "No storage server on worker"
               (traceEvent (event "ConsistencyCheck_NoStorage"
                              [("Address", DStr (worker_address (fst worker)))]) s))).
Proof.
  cbv zeta. unfold checkForStorage. split.
  - rewrite (checkForStorageFrom_true workers s).
    destruct (checkForStorageFrom _ _ _ _ _ _ _) as [b s']. split.
    + intros H. now injection H as -> ->.
    + intros H. now injection H as -> ->.
  - intros before worker after -> Hbefore Hworker.
    now rewrite checkForStorageFrom_false.
Qed.

End StorageProperties.

(** ** checkForExtraDataStores *)

Lemma hasUID_iff (id : UID) (ids : list UID) : hasUID id ids = true <-> In id ids.
Proof.
  unfold hasUID. rewrite existsb_exists. split.
  - intros [x [Hin Heq]]. apply Z.eqb_eq in Heq. now subst.
  - intros Hin. exists id. split; [exact Hin|apply Z.eqb_refl].
Qed.

Lemma storesAt_insertStore (address a : NetworkAddress) (id i : UID) (m : StatefulProcesses) :
  In i (storesAt a (insertStore address id m))
  <-> (a = address /\ i = id) \/ In i (storesAt a m).
Proof.
  induction m as [|[a0 ids] m IH]; cbn [insertStore storesAt].
  - destruct (String.eqb_spec address a) as [->|Hne]; cbn [In].
    + intuition.
    + split; [contradiction|]. intros [[H _]|[]]. congruence.
  - destruct (String.eqb_spec a0 address) as [->|Hne]; cbn [storesAt].
    + destruct (String.eqb_spec address a) as [->|Hne'].
      * destruct (hasUID id ids) eqn:Eh; cbn [In].
        -- apply hasUID_iff in Eh. split; [auto|]. intros [[_ ->]|H]; auto.
        -- intuition.
      * split; [auto|]. intros [[H _]|H]; [congruence|exact H].
    + destruct (String.eqb_spec a0 a) as [->|Hne'].
      * split; [auto|]. intros [[H _]|H]; [congruence|exact H].
      * exact IH.
Qed.

Lemma storesAt_statefulProcessesOf storageServers logs (a : NetworkAddress) (i : UID) :
  In i (storesAt a (statefulProcessesOf storageServers logs))
  <-> registered storageServers logs a i.
Proof.
  unfold statefulProcessesOf, registered.
  assert (Hss : forall (l : list StorageServerInterface) m,
            In i (storesAt a (fold_left (fun m ss => insertStore (ssi_address ss) (ssi_id ss) m)
                                l m))
            <-> (exists ss, In ss l /\ ssi_address ss = a /\ ssi_id ss = i)
                \/ In i (storesAt a m)).
  { induction l as [|ss l IH]; intros m; cbn [fold_left].
    - split; [auto|]. intros [[ss [[] _]]|H]. exact H.
    - rewrite IH, storesAt_insertStore. split.
      + intros [[x [Hin Hx]]|[[-> ->]|H]]; auto.
        * left. exists x. split; [now right|exact Hx].
        * left. exists ss. split; [now left|auto].
      + intros [[x [[<-|Hin] [Ha Hi]]]|H]; auto.
        left. exists x. auto. }
  assert (Hlogs : forall (l : list TLogInterface) m,
            In i (storesAt a (fold_left (fun m log => insertStore (tlog_address log)
                                                        (tlog_id log) m) l m))
            <-> (exists log, In log l /\ tlog_address log = a /\ tlog_id log = i)
                \/ In i (storesAt a m)).
  { induction l as [|log l IH]; intros m; cbn [fold_left].
    - split; [auto|]. intros [[log [[] _]]|H]. exact H.
    - rewrite IH, storesAt_insertStore. split.
      + intros [[x [Hin Hx]]|[[-> ->]|H]]; auto.
        * left. exists x. split; [now right|exact Hx].
        * left. exists log. split; [now left|auto].
      + intros [[x [[<-|Hin] [Ha Hi]]]|H]; auto.
        left. exists x. auto. }
  rewrite Hlogs, Hss. cbn [storesAt In]. tauto.
Qed.

Lemma extraStoresOf_quiet isSimulated address registeredHere stores :
  forall foundExtra s,
    let r := extraStoresOf isSimulated address registeredHere stores foundExtra s in
    quietly s (snd r)
    /\ fst r = foundExtra || negb (forallb (fun id => hasUID id registeredHere) stores)
    /\ (forallb (fun id => hasUID id registeredHere) stores = true -> snd r = s).
Proof.
  induction stores as [|id stores IH]; intros foundExtra s; cbn [extraStoresOf forallb].
  - cbn. rewrite orb_false_r. repeat split; auto. apply extendsBy_refl.
  - destruct (hasUID id registeredHere); cbn [negb andb].
    + apply IH.
    + match goal with
      | |- context [extraStoresOf _ _ _ _ true ?s1] =>
          pose proof (IH true s1) as Hx; cbv zeta in Hx; destruct Hx as [Hq [Hr _]]
      end. rewrite Hr, orb_true_r. cbn [orb]. repeat split; try discriminate.
      eapply extendsBy_trans; [|exact Hq]. destruct isSimulated; quiet.
Qed.

Section ExtraDataStoresProperties.

Variable isSimulated : bool.
Variable storageServers : list StorageServerInterface.
Variable db : ServerDBInfo.
Variable diskStoreRequest : WorkerInterface -> ErrorOr (list UID).

Let registeredAt := storesRegistered storageServers (allPresentLogs db) diskStoreRequest.
Let answered (worker : WorkerInterface * ProcessClass) : Prop :=
  present (diskStoreRequest (fst worker)) = true.

Lemma extraDataStoresFrom_spec (workers : list (WorkerInterface * ProcessClass)) :
  forall foundExtra s,
    let r := extraDataStoresFrom isSimulated diskStoreRequest
               (statefulProcessesOf storageServers (allPresentLogs db)) workers foundExtra s in
    (Forall answered workers ->
     exists foundExtra',
       fst r = Next foundExtra' /\ quietly s (snd r)
       /\ (foundExtra' = false <-> foundExtra = false /\ Forall registeredAt workers)
       /\ (foundExtra' = false -> snd r = s))
    /\ (~ Forall answered workers ->
        exists s1 ev,
          quietly s s1 /\ String.eqb (eventType ev) "TestFailure" = false
          /\ r = (Return false, testFailure "Failed to get data stores" (traceEvent ev s1))).
Proof.
  induction workers as [|worker workers IH]; intros foundExtra s; cbn [extraDataStoresFrom].
  - cbn. split.
    + intros _. exists foundExtra. repeat split; auto; try apply extendsBy_refl.
      now intros [H _].
    + intros H. exfalso. apply H. constructor.
  - destruct (diskStoreRequest (fst worker)) as [stores|e] eqn:Ed.
    + match goal with
      | |- context [extraStoresOf ?a ?b ?c ?d ?e ?f] =>
          pose proof (extraStoresOf_quiet a b c d e f) as Hx; cbv zeta in Hx;
          destruct Hx as [Hq [Hf Hsame]];
          destruct (extraStoresOf a b c d e f) as [found' s']
      end.
      cbn [fst snd] in Hq, Hf, Hsame.
      destruct (IH found' s') as [IHall IHsome].
      assert (Hreg : forallb (fun id => hasUID id
                       (storesAt (worker_address (fst worker))
                          (statefulProcessesOf storageServers (allPresentLogs db)))) stores
                     = true <-> registeredAt worker).
      { unfold registeredAt, storesRegistered. rewrite forallb_forall, Ed. split.
        - intros H. exists stores. split; [reflexivity|]. intros id Hid.
          apply storesAt_statefulProcessesOf, hasUID_iff. now apply H.
        - intros [stores' [Heq H]] id Hid. injection Heq as <-.
          apply hasUID_iff, storesAt_statefulProcessesOf. now apply H. }
      split.
      * intros Hall. apply Forall_inv_tail in Hall as Hrest.
        destruct (IHall Hrest) as [final [Hr [Hq' [Hiff Hsame']]]].
        exists final. split; [exact Hr|]. split; [now apply (extendsBy_trans _ s s')|].
        split.
        -- rewrite Hiff, Hf, orb_false_iff, negb_false_iff, Hreg. split.
           ++ intros [[Hf0 Hw] Hws]. split; [exact Hf0|]. now constructor.
           ++ intros [Hf0 Hws]. split; [split; [exact Hf0|]|].
              ** now apply Forall_inv in Hws.
              ** now apply Forall_inv_tail in Hws.
        -- intros Hfinal. rewrite (Hsame' Hfinal). apply Hsame.
           apply Hiff in Hfinal. destruct Hfinal as [Hfound' _].
           rewrite Hf in Hfound'. apply orb_false_iff in Hfound'.
           now apply negb_false_iff.
      * intros Hnot. destruct IHsome as [s1 [ev [Hq' [Hev Hr]]]].
        -- intros Hrest. apply Hnot. constructor; [|exact Hrest].
           unfold answered. now rewrite Ed.
        -- exists s1, ev. split; [now apply (extendsBy_trans _ s s')|]. auto.
    + split.
      * intros Hall. apply Forall_inv in Hall as Hx.
        unfold answered in Hx. rewrite Ed in Hx. discriminate.
      * intros _. eexists. eexists. split; [apply extendsBy_refl|].
        split; [|reflexivity]. reflexivity.
Qed.

(** X15.  [checkForExtraDataStores] has three outcomes.  When every worker
    answers the request for its disk stores and every store of every worker
    is the store of a storage server or of a log at that worker's address,
    it returns true and records nothing.  When every worker answers and some
    store is not registered in this way, it returns false and the one
    failure it records is "Extra data stores present on workers", after the
    loop has gone through all the workers.  When some worker does not
    answer, it returns false at the first such worker and the one failure it
    records is "Failed to get data stores": extra stores found before that
    are logged as events but not recorded as a failure. *)
Theorem extra_data_stores_outcomes
  (workers : list (WorkerInterface * ProcessClass)) (s : State) :
  let r := checkForExtraDataStores isSimulated (Present workers) (Present storageServers)
             db diskStoreRequest s in
  (Forall answered workers -> Forall registeredAt workers -> r = (Ok true, s))
  /\ (Forall answered workers -> ~ Forall registeredAt workers ->
      fst r = Ok false
      /\ newReasons s (snd r) = ["Consistency check: Extra data stores present on workers"])
  /\ (~ Forall answered workers ->
      fst r = Ok false
      /\ newReasons s (snd r) = ["Consistency check: Failed to get data stores"])
  /\ (fst r = Ok true <-> Forall registeredAt workers).
Proof.
  cbv zeta. unfold checkForExtraDataStores.
  destruct (extraDataStoresFrom_spec workers false s) as [Hall Hsome]. cbv zeta in *.
  assert (Hreg : Forall registeredAt workers -> Forall answered workers).
  { apply Forall_impl. intros w [stores [Hw _]]. unfold answered. now rewrite Hw. }
  assert (Hdec : Forall answered workers \/ ~ Forall answered workers).
  { clear. induction workers as [|w ws [IH|IH]].
    - left. constructor.
    - destruct (present (diskStoreRequest (fst w))) eqn:E.
      + left. now constructor.
      + right. intros H. apply Forall_inv in H. unfold answered in H. congruence.
    - right. intros H. now apply Forall_inv_tail in H. }
  assert (Hquiet : forall s1 ev message,
            quietly s s1 -> String.eqb (eventType ev) "TestFailure" = false ->
            newReasons s (testFailure message (traceEvent ev s1))
            = [("Consistency check: " ++ message)%string]).
  { intros s1 ev message Hq Hev. apply newReasons_app.
    rewrite reasons_testFailure, reasons_traceEvent by exact Hev.
    destruct (extendsBy_reasons _ _ _ Hq) as [messages [Hm Hr]].
    destruct messages as [|m messages]; [|now inversion Hm].
    cbn [map] in Hr. rewrite app_nil_r in Hr. now rewrite Hr. }
  assert (Hquiet' : forall s1 message,
            quietly s s1 ->
            newReasons s (testFailure message s1)
            = [("Consistency check: " ++ message)%string]).
  { intros s1 message Hq. apply newReasons_app.
    rewrite reasons_testFailure.
    destruct (extendsBy_reasons _ _ _ Hq) as [messages [Hm Hr]].
    destruct messages as [|m messages]; [|now inversion Hm].
    cbn [map] in Hr. rewrite app_nil_r in Hr. now rewrite Hr. }
  destruct Hdec as [Hyes|Hno].
  - destruct (Hall Hyes) as [final [Hr [Hq [Hiff Hsame]]]].
    destruct (extraDataStoresFrom _ _ _ _ _ _) as [flow s']. cbn [fst snd] in *. subst flow.
    destruct final.
    + assert (Hnot : ~ Forall registeredAt workers).
      { intros H. destruct Hiff as [_ Hiff]. discriminate Hiff. auto. }
      cbn [fst snd].
      split; [intros _ H; contradiction|].
      split; [intros _ _; split; [reflexivity|now apply Hquiet']|].
      split; [intros H; contradiction|].
      split; [discriminate|intros H; contradiction].
    + assert (Hyes' : Forall registeredAt workers) by now apply Hiff.
      rewrite (Hsame eq_refl). cbn [fst snd].
      split; [reflexivity|].
      split; [intros _ H; contradiction|].
      split; [intros H; contradiction|].
      split; auto.
  - destruct (Hsome Hno) as [s1 [ev [Hq [Hev Hr]]]]. rewrite Hr. cbn [fst snd].
    split; [intros H; contradiction|].
    split; [intros H; contradiction|].
    split; [intros _; split; [reflexivity|now apply Hquiet]|].
    split; [discriminate|]. intros H. exfalso. now apply Hno, Hreg.
Qed.

End ExtraDataStoresProperties.

(** ** workerHasClass *)

(** X16.  [workerHasClass] lets the first worker at the address decide:
    the result is true exactly when there is a worker at the address and the
    first one in the list has the class asked for or [UnsetClass]; workers
    after it at the same address play no part.  The function logs one event
    when it returns false ([ConsistencyCheck_WorkerNotFound] when no worker
    is at the address, [ConsistencyCheck_InvalidClassType] otherwise) and
    nothing when it returns true, and it never records a failure. *)
Theorem first_worker_at_address_decides
  (UnsetClass : ClassType) (CommandLineSource : ClassSource)
  (classToString : ProcessClass -> string)
  (workers : list (WorkerInterface * ProcessClass)) (address : NetworkAddress)
  (machineClass : ClassType) (interfaceType : string) (s : State) :
  let r := workerHasClass UnsetClass CommandLineSource classToString workers address
             machineClass interfaceType s in
  fst r = match find (workerAt address) workers with
          | Some worker =>
              (classType (snd worker) =? machineClass)
              || (classType (snd worker) =? UnsetClass)
          | None => false
          end
  /\ (fst r = true -> snd r = s)
  /\ (fst r = false ->
      exists ev,
        snd r = traceEvent ev s
        /\ eventType ev = match find (workerAt address) workers with
                          | Some _ => "ConsistencyCheck_InvalidClassType"
                          | None => "ConsistencyCheck_WorkerNotFound"
                          end)
  /\ self (snd r) = self s.
Proof.
  cbv zeta. induction workers as [|worker rest IH]; cbn [workerHasClass find].
  - cbn [fst snd]. repeat split; try discriminate. eexists. split; reflexivity.
  - fold (workerAt address worker). destruct (workerAt address worker); [|exact IH].
    destruct (_ || _); cbn [fst snd]; repeat split; try discriminate.
    eexists. split; reflexivity.
Qed.

(** ** checkWorkerList *)

Section WorkerListProperties.

Variable TesterClass : ClassType.
Variables address_ip address_port : NetworkAddress -> Z.
Variable publicAddress : Z -> Z -> NetworkAddress.
Variable getProcessByAddress : NetworkAddress -> option ProcessInfo.
Variable getAllProcesses : list ProcessInfo.

Let listed (address : NetworkAddress) : NetworkAddress :=
  publicAddress (address_ip address) (address_port address).
Let alive (worker : WorkerInterface * ProcessClass) : Prop :=
  exists info,
    getProcessByAddress (worker_address (fst worker)) = Some info
    /\ process_failed info = false.

Lemma workerAddressesFrom_spec (workers : list (WorkerInterface * ProcessClass)) :
  forall addresses s,
    let r := workerAddressesFrom address_ip address_port publicAddress getProcessByAddress
               workers addresses s in
    (Forall alive workers ->
     exists addresses',
       r = (Next addresses', s)
       /\ forall a, In a addresses'
                    <-> In a (map (fun w => listed (worker_address (fst w))) workers)
                        \/ In a addresses)
    /\ (~ Forall alive workers ->
        exists ev, String.eqb (eventType ev) "TestFailure" = false
                   /\ r = (Return false, traceEvent ev s)).
Proof.
  induction workers as [|worker workers IH]; intros addresses s;
    cbn [workerAddressesFrom map In].
  - split.
    + intros _. exists addresses. split; [reflexivity|]. intros a. tauto.
    + intros H. exfalso. apply H. constructor.
  - assert (Hcase : (exists info, getProcessByAddress (worker_address (fst worker)) = Some info
                                  /\ process_failed info = false)
                    \/ match getProcessByAddress (worker_address (fst worker)) with
                       | Some info => process_failed info
                       | None => true
                       end = true).
    { destruct (getProcessByAddress _) as [info|]; [|now right].
      destruct (process_failed info) eqn:E; [now right|left]. now exists info. }
    destruct Hcase as [[info [Hinfo Hfailed]]|Hdead].
    + rewrite Hinfo, Hfailed.
      destruct (IH (listed (worker_address (fst worker)) :: addresses) s) as [IHall IHsome].
      split.
      * intros Hall. apply Forall_inv_tail in Hall.
        destruct (IHall Hall) as [addresses' [Hr Hmem]].
        exists addresses'. split; [exact Hr|]. intros a. rewrite Hmem. cbn [In]. tauto.
      * intros Hnot. apply IHsome. intros Hrest. apply Hnot.
        constructor; [now exists info|exact Hrest].
    + rewrite Hdead. split.
      * intros Hall. apply Forall_inv in Hall. destruct Hall as [info [Hinfo Hfailed]].
        rewrite Hinfo, Hfailed in Hdead. discriminate.
      * intros _. eexists. split; [|reflexivity]. reflexivity.
Qed.

Lemma hasAddress_iff (address : NetworkAddress) (addresses : list NetworkAddress) :
  hasAddress address addresses = true <-> In address addresses.
Proof.
  unfold hasAddress. rewrite existsb_exists. split.
  - intros [x [Hin Heq]]. apply String.eqb_eq in Heq. now subst.
  - intros Hin. exists address. split; [exact Hin|apply String.eqb_refl].
Qed.

Lemma missingFromList_spec (workerAddresses : list NetworkAddress) (all : list ProcessInfo)
  (s : State) :
  let r := missingFromList TesterClass workerAddresses all s in
  (fst r = true
   <-> forall process, In process all -> isServerProcess TesterClass process = true ->
                       In (process_address process) workerAddresses)
  /\ (fst r = true -> snd r = s)
  /\ (fst r = false ->
      exists ev, String.eqb (eventType ev) "TestFailure" = false /\ snd r = traceEvent ev s).
Proof.
  cbv zeta. induction all as [|process rest IH]; cbn [missingFromList].
  - cbn [fst snd]. split; [|split]; auto; try discriminate.
    split; auto. intros _ p [].
  - destruct IH as [IHiff [IHtrue IHfalse]].
    destruct (isServerProcess TesterClass process) eqn:Eserver; cbn [andb].
    + destruct (hasAddress _ _) eqn:Eh; cbn [negb fst snd].
      * split; [|split]; auto. split.
        -- intros H p [<-|Hin] Hp; [now apply hasAddress_iff|]. now apply IHiff.
        -- intros H. apply IHiff. intros p Hin. apply H. now right.
      * split; [|split]; try discriminate.
        -- split; [discriminate|].
           intros H. specialize (H process (or_introl eq_refl) Eserver).
           apply hasAddress_iff in H. congruence.
        -- intros _. eexists. split; [|reflexivity]. reflexivity.
    + split; [|split]; auto. split.
      * intros H p [<-|Hin] Hp; [congruence|]. now apply IHiff.
      * intros H. apply IHiff. intros p Hin. apply H. now right.
Qed.

(** X17.  With a second database in the simulation [checkWorkerList]
    returns true at once.  Otherwise it returns true exactly when the
    simulator knows every worker of the list as a process that has not
    failed, and every process of the simulator that is reliable, is named
    "Server" and did not start in the tester class has the address of a
    worker of the list (taken as a public address without TLS).  It logs one
    event when it returns false and none when it returns true, and it never
    records a failure itself. *)
Theorem worker_list_matches_the_simulator
  (extraDB : bool) (workers : list (WorkerInterface * ProcessClass)) (s : State) :
  let r := checkWorkerList TesterClass address_ip address_port publicAddress extraDB
             (Present workers) getProcessByAddress getAllProcesses s in
  (extraDB = true -> r = (Ok true, s))
  /\ (extraDB = false ->
      (fst r = Ok true
       <-> Forall alive workers
           /\ forall process,
                In process getAllProcesses -> isServerProcess TesterClass process = true ->
                In (process_address process)
                   (map (fun w => listed (worker_address (fst w))) workers)))
  /\ (fst r = Ok true -> snd r = s)
  /\ (fst r = Ok false ->
      exists ev, String.eqb (eventType ev) "TestFailure" = false /\ snd r = traceEvent ev s)
  /\ (fst r = Ok true \/ fst r = Ok false).
Proof.
  cbv zeta. unfold checkWorkerList. destruct extraDB.
  - cbn [fst snd]. split; [reflexivity|]. split; [discriminate|].
    split; [reflexivity|]. split; [discriminate|now left].
  - pose proof (workerAddressesFrom_spec workers [] s) as Hw. cbv zeta in Hw.
    destruct Hw as [Hall Hsome].
    assert (Hdec : Forall alive workers \/ ~ Forall alive workers).
    { clear. induction workers as [|w ws [IH|IH]].
      - left. constructor.
      - destruct (getProcessByAddress (worker_address (fst w))) as [info|] eqn:Ei.
        + destruct (process_failed info) eqn:Ef.
          * right. intros H. apply Forall_inv in H. destruct H as [i [Hi Hf]].
            rewrite Ei in Hi. injection Hi as <-. congruence.
          * left. constructor; [now exists info|exact IH].
        + right. intros H. apply Forall_inv in H. destruct H as [i [Hi _]]. congruence.
      - right. intros H. now apply Forall_inv_tail in H. }
    destruct Hdec as [Hyes|Hno].
    + destruct (Hall Hyes) as [addresses [-> Hmem]].
      pose proof (missingFromList_spec addresses getAllProcesses s) as Hm. cbv zeta in Hm.
      destruct Hm as [Hiff [Htrue Hfalse]].
      destruct (missingFromList _ _ _ _) as [b s']. cbn [fst snd] in *.
      split; [discriminate|]. split; [|split; [|split]].
      * intros _. split.
        -- intros H. injection H as ->. split; [exact Hyes|].
           intros p Hin Hp. destruct Hiff as [Hiff _].
           specialize (Hiff eq_refl p Hin Hp). apply Hmem in Hiff.
           destruct Hiff as [H|[]]. exact H.
        -- intros [_ H]. f_equal. apply Hiff. intros p Hin Hp. apply Hmem. left.
           now apply H.
      * intros H. injection H as ->. now apply Htrue.
      * intros H. injection H as ->. now apply Hfalse.
      * destruct b; auto.
    + destruct (Hsome Hno) as [ev [Hev ->]]. cbn [fst snd].
      split; [discriminate|]. split; [|split; [|split]].
      * intros _. split; [discriminate|]. intros [H _]. contradiction.
      * discriminate.
      * intros _. now exists ev.
      * now right.
Qed.

End WorkerListProperties.

(** ** getBestAvailableFitness *)

Lemma insertClassType_In (c x : ClassType) (set : list ClassType) :
  In x (insertClassType c set) <-> x = c \/ In x set.
Proof.
  induction set as [|y set IH]; cbn [insertClassType In].
  - intuition.
  - destruct (c <? y); cbn [In]; [intuition|].
    destruct (Z.eqb_spec c y) as [->|Hne]; cbn [In]; [intuition|].
    rewrite IH. intuition.
Qed.

Lemma classTypesOf_In (workers : list (WorkerInterface * ProcessClass)) (c : ClassType) :
  In c (classTypesOf workers) <-> exists worker, In worker workers /\ classType (snd worker) = c.
Proof.
  unfold classTypesOf.
  assert (H : forall set,
            In c (fold_left (fun set worker => insertClassType (classType (snd worker)) set)
                    workers set)
            <-> (exists worker, In worker workers /\ classType (snd worker) = c)
                \/ In c set).
  { induction workers as [|w ws IH]; intros set; cbn [fold_left].
    - split; [auto|]. intros [[w [[] _]]|H]. exact H.
    - rewrite IH, insertClassType_In. split.
      + intros [[x [Hin Hx]]|[->|H]]; auto.
        * left. exists x. split; [now right|exact Hx].
        * left. exists w. split; [now left|reflexivity].
      + intros [[x [[<-|Hin] Hx]]|H]; auto.
        left. exists x. auto. }
  rewrite H. cbn [In]. tauto.
Qed.

Section FitnessProperties.

Variable InvalidSource : ClassSource.
Variable NeverAssign : Fitness.
Variable machineClassFitness : ProcessClass -> ClusterRole -> Fitness.

Let fitnessOf (role : ClusterRole) (c : ClassType) : Fitness :=
  machineClassFitness (mkProcessClass c InvalidSource) role.
Let best := getBestAvailableFitness InvalidSource NeverAssign machineClassFitness.

Lemma fold_min_spec (role : ClusterRole) (types : list ClassType) :
  forall start,
    let result := fold_left (fun b c => Z.min b (fitnessOf role c)) types start in
    result <= start
    /\ (forall c, In c types -> result <= fitnessOf role c)
    /\ (result = start \/ exists c, In c types /\ result = fitnessOf role c).
Proof.
  induction types as [|c types IH]; intros start; cbn [fold_left].
  - cbn. repeat split; [lia|contradiction|now left].
  - destruct (IH (Z.min start (fitnessOf role c))) as [Hle [Hall Hattained]].
    cbv zeta in *. split; [lia|]. split.
    + intros x [<-|Hin]; [lia|now apply Hall].
    + destruct Hattained as [Heq|[x [Hin Hx]]].
      * destruct (Z.min_spec start (fitnessOf role c)) as [[_ Hm]|[_ Hm]].
        -- left. lia.
        -- right. exists c. split; [now left|lia].
      * right. exists x. split; [now right|exact Hx].
Qed.

(** X18.  [getBestAvailableFitness] over the class types of a list of
    workers is the least fitness for the role among [NeverAssign] and the
    classes of the workers (each taken with an invalid source): it is not
    above [NeverAssign] nor above the fitness of the class of any worker,
    and it is [NeverAssign] or the fitness of the class of some worker.
    Hence it does not depend on the order of the workers nor on how often a
    class occurs. *)
Theorem best_available_fitness_is_least
  (workers : list (WorkerInterface * ProcessClass)) (role : ClusterRole) :
  let result := best (classTypesOf workers) role in
  result <= NeverAssign
  /\ (forall worker, In worker workers -> result <= fitnessOf role (classType (snd worker)))
  /\ (result = NeverAssign
      \/ exists worker, In worker workers /\ result = fitnessOf role (classType (snd worker)))
  /\ (forall workers',
        (forall c, (exists w, In w workers /\ classType (snd w) = c)
                   <-> (exists w, In w workers' /\ classType (snd w) = c)) ->
        best (classTypesOf workers') role = result).
Proof.
  cbv zeta. unfold best, getBestAvailableFitness.
  pose proof (fold_min_spec role (classTypesOf workers) NeverAssign) as H. cbv zeta in H.
  unfold fitnessOf in *. destruct H as [Hle [Hall Hattained]].
  split; [exact Hle|]. split; [|split].
  - intros worker Hin. apply Hall, classTypesOf_In. now exists worker.
  - destruct Hattained as [Heq|[c [Hin Hc]]]; [now left|right].
    apply classTypesOf_In in Hin. destruct Hin as [worker [Hin <-]]. now exists worker.
  - intros workers' Hsame.
    pose proof (fold_min_spec role (classTypesOf workers') NeverAssign) as H'. cbv zeta in H'.
    unfold fitnessOf in *. destruct H' as [Hle' [Hall' Hattained']].
    apply Z.le_antisymm.
    + destruct Hattained as [->|[c [Hin ->]]]; [exact Hle'|].
      apply Hall'. apply classTypesOf_In. apply Hsame. now apply classTypesOf_In.
    + destruct Hattained' as [->|[c [Hin ->]]]; [exact Hle|].
      apply Hall. apply classTypesOf_In. apply Hsame. now apply classTypesOf_In.
Qed.

End FitnessProperties.

(** ** checkUsingDesiredClasses *)

Lemma classAt_setClass (address a : NetworkAddress) (class : ProcessClass) (m : ProcessMap) :
  classAt a (setClass address class m)
  = if String.eqb address a then Some class else classAt a m.
Proof.
  induction m as [|[a0 c0] m IH]; cbn [setClass classAt].
  - reflexivity.
  - destruct (String.eqb_spec a0 address) as [->|Hne]; cbn [classAt].
    + now destruct (String.eqb address a).
    + destruct (String.eqb_spec a0 a) as [->|Hne'].
      * destruct (String.eqb_spec address a) as [->|_]; [contradiction|reflexivity].
      * exact IH.
Qed.

Lemma find_first_of_app {A : Type} (f : A -> bool) (l l' : list A) :
  find f (l ++ l') = match find f l with Some a => Some a | None => find f l' end.
Proof.
  induction l as [|a l IH]; cbn [app find]; [reflexivity|].
  now destruct (f a).
Qed.

(** The class a map built from a list of workers holds for an address is
    the class of the last worker of the list at that address. *)
Lemma classAt_processMapOf (workers : list (WorkerInterface * ProcessClass))
  (a : NetworkAddress) :
  classAt a (processMapOf workers) = option_map snd (find (workerAt a) (rev workers)).
Proof.
  unfold processMapOf.
  assert (H : forall m,
            classAt a (fold_left
                         (fun m worker => setClass (worker_address (fst worker)) (snd worker) m)
                         workers m)
            = match find (workerAt a) (rev workers) with
              | Some worker => Some (snd worker)
              | None => classAt a m
              end).
  { induction workers as [|w ws IH]; intros m; cbn [fold_left rev find].
    - reflexivity.
    - rewrite IH, find_first_of_app.
      destruct (find (workerAt a) (rev ws)); [reflexivity|].
      cbn [find]. rewrite classAt_setClass. unfold workerAt.
      now destruct (String.eqb _ a). }
  rewrite H. now destruct (find _ _).
Qed.

Section DesiredClassesProperties.

Variables InvalidSource : ClassSource.
Variables NeverAssign ExcludeFit : Fitness.
Variables ClusterController Master Proxy Resolver : ClusterRole.
Variable machineClassFitness : ProcessClass -> ClusterRole -> Fitness.
Variable defaultProcessClass : ProcessClass.

Let fits := holdsBest machineClassFitness.
Let best := getBestAvailableFitness InvalidSource NeverAssign machineClassFitness.

Lemma notBest_false (m : ProcessMap) (address : NetworkAddress) (role : ClusterRole)
  (fitness : Fitness) :
  notBest machineClassFitness m address role fitness = false <-> fits m address role fitness.
Proof.
  unfold notBest, fits, holdsBest. destruct (classAt address m) as [class|].
  - rewrite negb_false_iff, Z.eqb_eq. split.
    + intros H. now exists class.
    + intros [c [Hc H]]. now injection Hc as ->.
  - split; [discriminate|]. intros [c [Hc _]]. discriminate.
Qed.

Lemma checkProxies_spec (m : ProcessMap) (fitness : Fitness)
  (proxies : list MasterProxyInterface) (s : State) :
  let r := checkProxies Proxy machineClassFitness m fitness proxies s in
  (fst r = true <-> Forall (fun p => fits m (proxy_address p) Proxy fitness) proxies)
  /\ (fst r = true -> snd r = s)
  /\ (fst r = false ->
      exists ev, String.eqb (eventType ev) "TestFailure" = false /\ snd r = traceEvent ev s).
Proof.
  cbv zeta. induction proxies as [|p proxies IH]; cbn [checkProxies].
  - cbn [fst snd]. split; [|split]; auto; try discriminate. split; auto.
  - destruct IH as [IHiff [IHtrue IHfalse]].
    destruct (notBest _ _ _ _ _) eqn:En; cbn [fst snd].
    + split; [|split]; try discriminate.
      * split; [discriminate|]. intros H. apply Forall_inv in H.
        apply notBest_false in H. congruence.
      * intros _. eexists. split; [|reflexivity]. reflexivity.
    + apply notBest_false in En. split; [|split]; auto. rewrite IHiff. split.
      * intros H. now constructor.
      * intros H. now apply Forall_inv_tail in H.
Qed.

Lemma checkResolvers_spec (m : ProcessMap) (fitness : Fitness)
  (resolvers : list ResolverInterface) (s : State) :
  let r := checkResolvers Resolver machineClassFitness m fitness resolvers s in
  (fst r = true <-> Forall (fun x => fits m (resolver_address x) Resolver fitness) resolvers)
  /\ (fst r = true -> snd r = s)
  /\ (fst r = false ->
      exists ev, String.eqb (eventType ev) "TestFailure" = false /\ snd r = traceEvent ev s).
Proof.
  cbv zeta. induction resolvers as [|p resolvers IH]; cbn [checkResolvers].
  - cbn [fst snd]. split; [|split]; auto; try discriminate. split; auto.
  - destruct IH as [IHiff [IHtrue IHfalse]].
    destruct (notBest _ _ _ _ _) eqn:En; cbn [fst snd].
    + split; [|split]; try discriminate.
      * split; [discriminate|]. intros H. apply Forall_inv in H.
        apply notBest_false in H. congruence.
      * intros _. eexists. split; [|reflexivity]. reflexivity.
    + apply notBest_false in En. split; [|split]; auto. rewrite IHiff. split.
      * intros H. now constructor.
      * intros H. now apply Forall_inv_tail in H.
Qed.

Lemma masterNotBest_false (allMap nonExcluded : ProcessMap) (address : NetworkAddress)
  (fitness : Fitness) :
  fst (masterNotBest ExcludeFit Master machineClassFitness defaultProcessClass
         allMap nonExcluded address fitness) = false
  <-> countAt address allMap = true
      /\ (fits nonExcluded address Master fitness
          \/ (classAt address nonExcluded = None /\ fitness = ExcludeFit
              /\ machineClassFitness defaultProcessClass Master = ExcludeFit)).
Proof.
  unfold masterNotBest, fits, holdsBest, countAt.
  destruct (classAt address allMap) as [c0|]; cbn [negb].
  2:{ cbn [fst]. split; [discriminate|]. intros [H _]. discriminate. }
  destruct (classAt address nonExcluded) as [class|]; cbn [negb andb].
  - cbn [fst]. rewrite negb_false_iff, Z.eqb_eq. split.
    + intros H. split; [reflexivity|]. left. now exists class.
    + intros [_ [[c [Hc H]]|[Hc _]]]; [|discriminate]. now injection Hc as ->.
  - destruct (Z.eqb_spec fitness ExcludeFit) as [->|Hne]; cbn [negb fst].
    + rewrite negb_false_iff, Z.eqb_eq. split.
      * intros H. split; [reflexivity|]. right. auto.
      * intros [_ [[c [Hc _]]|[_ [_ H]]]]; [discriminate|exact H].
    + split; [discriminate|]. intros [_ [[c [Hc _]]|[_ [H _]]]]; [discriminate|contradiction].
Qed.

(** X19.  [checkUsingDesiredClasses], once the lists of workers are in,
    returns true exactly when
    - the cluster controller is at the address of a non-excluded worker
      whose class has the best fitness for that role available among the
      non-excluded workers;
    - the master is at the address of a worker, and either that worker is
      not excluded and its class has the fitness the master is held to, or
      it is excluded, the master is held to [ExcludeFit], and the default
      process class has fitness [ExcludeFit] for the master: for an address
      the map of the non-excluded workers does not hold, reading the map
      enters the default class there and the check reads the fitness of
      that class;
    - every proxy and every resolver is at an address which the map left by
      the check of the master holds with a class of the best fitness
      available among the non-excluded workers.
    Where two workers have the same address, the class of the later one in
    the list counts.  The check logs one event when it returns false and
    none when it returns true; it never records a failure itself. *)
Theorem desired_classes_iff
  (allWorkers nonExcludedWorkers : list (WorkerInterface * ProcessClass))
  (db : ServerDBInfo) (s : State) :
  let r := usingDesiredClasses InvalidSource NeverAssign ExcludeFit ClusterController Master
             Proxy Resolver machineClassFitness defaultProcessClass allWorkers
             nonExcludedWorkers db s in
  let nonExcluded := processMapOf nonExcludedWorkers in
  let available := classTypesOf nonExcludedWorkers in
  let bestMaster :=
    bestMasterFitnessOf InvalidSource NeverAssign ExcludeFit Master machineClassFitness
      available (classTypesOf allWorkers) in
  let afterMaster :=
    snd (masterNotBest ExcludeFit Master machineClassFitness defaultProcessClass
           (processMapOf allWorkers) nonExcluded (master_address db) bestMaster) in
  (fst r = true
   <-> fits nonExcluded (clusterController_address db) ClusterController
         (best available ClusterController)
       /\ (countAt (master_address db) (processMapOf allWorkers) = true
           /\ (fits nonExcluded (master_address db) Master bestMaster
               \/ (classAt (master_address db) nonExcluded = None
                   /\ bestMaster = ExcludeFit
                   /\ machineClassFitness defaultProcessClass Master = ExcludeFit)))
       /\ Forall (fun p => fits afterMaster (proxy_address p) Proxy (best available Proxy))
                 (db_proxies db)
       /\ Forall (fun x => fits afterMaster (resolver_address x) Resolver
                             (best available Resolver))
                 (db_resolvers db))
  /\ (forall a,
        classAt a nonExcluded = option_map snd (find (workerAt a) (rev nonExcludedWorkers)))
  /\ (fst r = true -> snd r = s)
  /\ (fst r = false ->
      exists ev, String.eqb (eventType ev) "TestFailure" = false /\ snd r = traceEvent ev s).
Proof.
  cbv zeta. unfold usingDesiredClasses, best.
  split; [|split; [intros a; apply classAt_processMapOf|]].
  - destruct (notBest _ _ _ _ _) eqn:Ecc.
    { cbn [fst]. split; [discriminate|]. intros [H _]. apply notBest_false in H. congruence. }
    apply notBest_false in Ecc.
    rewrite <- masterNotBest_false.
    destruct (masterNotBest _ _ _ _ _ _ _ _) as [masterFails m']. cbn [fst snd].
    destruct masterFails.
    { cbn [fst]. split; [discriminate|]. intros [_ [H _]]. discriminate. }
    match goal with
    | |- context [checkProxies ?a ?b ?c ?d ?e ?f] =>
        pose proof (checkProxies_spec c d e f) as Hp; cbv zeta in Hp;
        destruct Hp as [Hp [Hps _]];
        destruct (checkProxies a b c d e f) as [proxiesBest s1]
    end.
    cbn [fst snd] in Hp, Hps. destruct proxiesBest.
    + rewrite (Hps eq_refl).
      match goal with
      | |- context [checkResolvers ?a ?b ?c ?d ?e ?f] =>
          pose proof (checkResolvers_spec c d e f) as Hr; cbv zeta in Hr;
          destruct Hr as [Hr _]
      end.
      rewrite Hr. intuition.
    + cbn [fst]. split; [discriminate|]. intros [_ [_ [H _]]].
      apply Hp in H. discriminate.
  - destruct (notBest _ _ _ _ _).
    { cbn [fst snd]. split; [discriminate|]. intros _. eexists. split; [|reflexivity].
      reflexivity. }
    destruct (masterNotBest _ _ _ _ _ _ _ _) as [masterFails m']. destruct masterFails.
    { cbn [fst snd]. split; [discriminate|]. intros _. eexists. split; [|reflexivity].
      reflexivity. }
    match goal with
    | |- context [checkProxies ?a ?b ?c ?d ?e ?f] =>
        pose proof (checkProxies_spec c d e f) as Hp; cbv zeta in Hp;
        destruct Hp as [_ [Hps Hpf]];
        destruct (checkProxies a b c d e f) as [proxiesBest s1]
    end.
    cbn [fst snd] in Hps, Hpf. destruct proxiesBest.
    + rewrite (Hps eq_refl).
      match goal with
      | |- context [checkResolvers ?a ?b ?c ?d ?e ?f] =>
          pose proof (checkResolvers_spec c d e f) as Hr; cbv zeta in Hr;
          destruct Hr as [_ Hr]
      end.
      exact Hr.
    + cbn [fst snd]. split; [discriminate|]. intros _. now apply Hpf.
Qed.

End DesiredClassesProperties.

(** ** The state only grows: the other actors *)

Lemma readKeyServerLocations_extends replies :
  forall inserted st s, extends s (snd (readKeyServerLocations replies inserted st s)).
Proof.
  induction replies as [|[proxy [reply|e]] replies IH]; intros inserted st s;
    cbn [readKeyServerLocations].
  - grows.
  - destruct (_ && _); cbn [snd]; [grows|].
    destruct (negb inserted); [|apply IH].
    destruct (negb _); [grows|apply IH].
  - destruct (_ && _); cbn [snd]; [grows|apply IH].
Qed.

Lemma keyServersLoop_extends gmp gksl changed ke buggify fuel :
  forall round st s, extends s (snd (keyServersLoop gmp gksl changed ke buggify fuel round st s)).
Proof.
  induction fuel as [|fuel IH]; intros round st s; cbn [keyServersLoop];
    destruct (String.ltb _ _); cbn [snd]; try grows.
  unfold keyServersRound. destruct (gmp round) as [proxyInfo|e]; cbn [snd]; [|grows].
  destruct (changed round); [apply IH|].
  match goal with
  | |- context [readKeyServerLocations ?r ?i ?t ?s0] =>
      pose proof (readKeyServerLocations_extends r i t s0) as H;
      destruct (readKeyServerLocations r i t s0) as [[[inserted st']|b|e|] s']
  end; cbn [snd] in *; auto.
  eapply extends_trans; [exact H|apply IH].
Qed.

Lemma getKeyServers_extends gmp gksl changed kb ke buggify fuel s :
  extends s (snd (getKeyServers gmp gksl changed kb ke buggify fuel s)).
Proof.
  unfold getKeyServers.
  match goal with
  | |- context [keyServersLoop ?a ?b ?c ?d ?e ?f ?g ?h ?i] =>
      pose proof (keyServersLoop_extends a b c d e f g h i) as H;
      destruct (keyServersLoop a b c d e f g h i) as [[st'|b'|e'|] s']
  end; exact H.
Qed.

Lemma checkForStorage_extends excluded unset storage workers servers configuration s :
  extends s (snd (checkForStorage excluded unset storage workers servers configuration s)).
Proof.
  unfold checkForStorage.
  destruct workers as [ws|e]; [|grows]. destruct servers as [ss|e]; [|grows].
  assert (H : extends s (snd (checkForStorageFrom excluded unset storage configuration ss ws s))).
  { induction ws as [|w ws IH]; cbn [checkForStorageFrom]; [grows|].
    destruct (_ && _); [cbn [snd]; grows|exact IH]. }
  now destruct (checkForStorageFrom _ _ _ _ _ _ _).
Qed.

Lemma quietly_extends (s s' : State) : quietly s s' -> extends s s'.
Proof. apply extendsBy_extends. Qed.

Lemma checkForExtraDataStores_extends simulated workers servers db request s :
  extends s (snd (checkForExtraDataStores simulated workers servers db request s)).
Proof.
  unfold checkForExtraDataStores.
  destruct workers as [ws|e]; [|grows]. destruct servers as [ss|e]; [|grows].
  assert (H : forall foundExtra s0,
            extends s0 (snd (extraDataStoresFrom simulated request
                               (statefulProcessesOf ss (allPresentLogs db)) ws foundExtra s0))).
  { induction ws as [|w ws IH]; intros foundExtra s0; cbn [extraDataStoresFrom]; [grows|].
    destruct (request (fst w)) as [stores|e]; [|cbn [snd]; grows].
    match goal with
    | |- context [extraStoresOf ?a ?b ?c ?d ?e ?f] =>
        pose proof (extraStoresOf_quiet a b c d e f) as Hx; cbv zeta in Hx;
        destruct Hx as [Hq _]; destruct (extraStoresOf a b c d e f) as [found' s1]
    end.
    eapply extends_trans; [apply quietly_extends; exact Hq|apply IH]. }
  specialize (H false s).
  destruct (extraDataStoresFrom _ _ _ _ _ _) as [[[|]|b|e|] s']; cbn [snd] in *; auto.
  now apply extends_failure.
Qed.

Lemma checkProxies_extends role fitness m best proxies s :
  extends s (snd (checkProxies role fitness m best proxies s)).
Proof.
  induction proxies as [|p proxies IH]; cbn [checkProxies]; [grows|].
  destruct (notBest _ _ _ _ _); [cbn [snd]; grows|exact IH].
Qed.

Lemma checkResolvers_extends role fitness m best resolvers s :
  extends s (snd (checkResolvers role fitness m best resolvers s)).
Proof.
  induction resolvers as [|p resolvers IH]; cbn [checkResolvers]; [grows|].
  destruct (notBest _ _ _ _ _); [cbn [snd]; grows|exact IH].
Qed.

Lemma checkUsingDesiredClasses_extends invalid never exclude cc master proxy resolver fitness
  default allWorkers nonExcluded servers db s :
  extends s (snd (checkUsingDesiredClasses invalid never exclude cc master proxy resolver
                    fitness default allWorkers nonExcluded servers db s)).
Proof.
  unfold checkUsingDesiredClasses.
  destruct allWorkers as [ws|e]; [|grows]. destruct nonExcluded as [ns|e]; [|grows].
  destruct servers as [ss|e]; [|grows].
  assert (H : extends s (snd (usingDesiredClasses invalid never exclude cc master proxy
                                resolver fitness default ws ns db s))).
  { unfold usingDesiredClasses.
    destruct (notBest _ _ _ _ _); [cbn [snd]; grows|].
    destruct (masterNotBest _ _ _ _ _ _ _ _) as [[|] m']; [cbn [snd]; grows|].
    match goal with
    | |- context [checkProxies ?a ?b ?c ?d ?e ?f] =>
        pose proof (checkProxies_extends a b c d e f) as Hp;
        destruct (checkProxies a b c d e f) as [[|] s1]
    end; cbn [snd] in *; [|exact Hp].
    eapply extends_trans; [exact Hp|apply checkResolvers_extends]. }
  now destruct (usingDesiredClasses _ _ _ _ _ _ _ _ _ _ _ _ _).
Qed.

Lemma checkWorkerList_extends tester ip port public extra workers byAddress all s :
  extends s (snd (checkWorkerList tester ip port public extra workers byAddress all s)).
Proof.
  unfold checkWorkerList. destruct extra; [grows|]. destruct workers as [ws|e]; [|grows].
  assert (H : forall addresses,
            extends s (snd (workerAddressesFrom ip port public byAddress ws addresses s))
            /\ forall addresses' s',
                 workerAddressesFrom ip port public byAddress ws addresses s
                 = (Next addresses', s') -> s' = s).
  { induction ws as [|w ws IH]; intros addresses; cbn [workerAddressesFrom].
    - split; [grows|]. intros a' s' H. now injection H.
    - destruct (match byAddress _ with Some _ => _ | None => _ end); [|apply IH].
      cbn [snd]. split; [grows|discriminate]. }
  destruct (H []) as [Hext Hsame].
  destruct (workerAddressesFrom _ _ _ _ _ _ _) as [[addresses|b|e|] s'] eqn:E;
    cbn [snd] in *; auto.
  rewrite (Hsame _ _ eq_refl).
  assert (Hm : extends s (snd (missingFromList tester addresses all s))).
  { clear. induction all as [|p all IH]; cbn [missingFromList]; [grows|].
    destruct (_ && _); [cbn [snd]; grows|exact IH]. }
  now destruct (missingFromList _ _ _ _).
Qed.

(** ** runCheck *)

Lemma extends_self (s s' : State) :
  extends s s' -> self s' = self s \/ self s' = set_success false (self s).
Proof.
  induction 1 as [|s' ev _ IH|s' m _ IH]; [now left|exact IH|].
  right. cbn [self testFailure]. now destruct IH as [-> | ->].
Qed.

Lemma waitFor_extends {R T : Type} (f : ErrorOr T) (s : State) :
  extends s (snd (waitFor (R := R) f s)).
Proof. unfold waitFor. destruct f; grows. Qed.

Lemma call_extends {R T : Type} (actor : State -> Result T * State) (s : State) :
  extends s (snd (actor s)) -> extends s (snd (call (R := R) actor s)).
Proof. unfold call. now destruct (actor s) as [[t|e|] s']. Qed.

Lemma endsWith_extendsBy {A : Type} allowed message (s : State) (r : Flow bool A * State) :
  endsWith allowed message s r -> extendsBy (fun m => allowed m \/ m = message) s (snd r).
Proof.
  unfold endsWith. destruct r as [[a|b|e|] s']; cbn [fst snd];
    try (apply extendsBy_weaken; now left).
  intros [_ [s1 [ev [H [Hev ->]]]]].
  apply extendsBy_failure; [now right|]. apply extendsBy_trace; [exact Hev|].
  eapply extendsBy_weaken; [|exact H]. now left.
Qed.

Section RunCheckProperties.

Variable errorCode : Error -> Z.
Variable errorName : Error -> string.
Variable defaultConfiguration : DatabaseConfiguration.
Variable configurationSet : DatabaseConfiguration -> Key -> Value -> DatabaseConfiguration.
Variable krmDecodeRanges : Key -> KeyRange -> GetKeyValuesReply -> list KeyValueRef.
Variables keyServersPrefix allKeys_begin allKeys_end : Key.
Variables keyServersKeys_begin keyServersKeys_end : Key.
Variables MOVE_KEYS_KRM_LIMIT MOVE_KEYS_KRM_LIMIT_BYTES : Z.
Variable isKeyValueInSample : KeyValueRef -> ByteSampleInfo.
Variable expectedSize : list KeyValueRef -> Z.
Variable randomShuffle : Z -> list Z -> list Z.
Variables SPLIT_KEY_SIZE_LIMIT REPLY_BYTE_LIMIT : Z.
Variable STORAGE_METRICS_UNFAIR_SPLIT_LIMIT : float.
Variable isExcludedServer : DatabaseConfiguration -> NetworkAddress -> bool.
Variables UnsetClass StorageClass TesterClass : ClassType.
Variable InvalidSource : ClassSource.
Variables NeverAssign ExcludeFit : Fitness.
Variables ClusterController Master Proxy Resolver : ClusterRole.
Variable machineClassFitness : ProcessClass -> ClusterRole -> Fitness.
Variable defaultProcessClass : ProcessClass.
Variables address_ip address_port : NetworkAddress -> Z.
Variable publicAddress : Z -> Z -> NetworkAddress.

Let configurationOf := readConfiguration defaultConfiguration configurationSet.
Let quiescent := quiescentChecks isExcludedServer UnsetClass StorageClass TesterClass
                   InvalidSource NeverAssign ExcludeFit ClusterController Master Proxy
                   Resolver machineClassFitness defaultProcessClass address_ip address_port
                   publicAddress.
Let dataConsistency := checkDataConsistencyIn keyServersPrefix allKeys_end
                         isKeyValueInSample expectedSize randomShuffle SPLIT_KEY_SIZE_LIMIT
                         REPLY_BYTE_LIMIT STORAGE_METRICS_UNFAIR_SPLIT_LIMIT.
Let shards := checkShards krmDecodeRanges keyServersPrefix allKeys_begin allKeys_end
                keyServersKeys_begin keyServersKeys_end MOVE_KEYS_KRM_LIMIT
                MOVE_KEYS_KRM_LIMIT_BYTES isKeyValueInSample expectedSize randomShuffle
                SPLIT_KEY_SIZE_LIMIT REPLY_BYTE_LIMIT STORAGE_METRICS_UNFAIR_SPLIT_LIMIT.
Let try := runCheckTry defaultConfiguration configurationSet krmDecodeRanges
             keyServersPrefix allKeys_begin allKeys_end keyServersKeys_begin
             keyServersKeys_end MOVE_KEYS_KRM_LIMIT MOVE_KEYS_KRM_LIMIT_BYTES
             isKeyValueInSample expectedSize randomShuffle SPLIT_KEY_SIZE_LIMIT
             REPLY_BYTE_LIMIT STORAGE_METRICS_UNFAIR_SPLIT_LIMIT isExcludedServer UnsetClass
             StorageClass TesterClass InvalidSource NeverAssign ExcludeFit ClusterController
             Master Proxy Resolver machineClassFitness defaultProcessClass address_ip
             address_port publicAddress.
Let run := runCheck errorCode errorName defaultConfiguration configurationSet
             krmDecodeRanges keyServersPrefix allKeys_begin allKeys_end keyServersKeys_begin
             keyServersKeys_end MOVE_KEYS_KRM_LIMIT MOVE_KEYS_KRM_LIMIT_BYTES
             isKeyValueInSample expectedSize randomShuffle SPLIT_KEY_SIZE_LIMIT
             REPLY_BYTE_LIMIT STORAGE_METRICS_UNFAIR_SPLIT_LIMIT isExcludedServer UnsetClass
             StorageClass TesterClass InvalidSource NeverAssign ExcludeFit ClusterController
             Master Proxy Resolver machineClassFitness defaultProcessClass address_ip
             address_port publicAddress.
Let repeated := _start errorCode errorName defaultConfiguration configurationSet
                  krmDecodeRanges keyServersPrefix allKeys_begin allKeys_end
                  keyServersKeys_begin keyServersKeys_end MOVE_KEYS_KRM_LIMIT
                  MOVE_KEYS_KRM_LIMIT_BYTES isKeyValueInSample expectedSize randomShuffle
                  SPLIT_KEY_SIZE_LIMIT REPLY_BYTE_LIMIT STORAGE_METRICS_UNFAIR_SPLIT_LIMIT
                  isExcludedServer UnsetClass StorageClass TesterClass InvalidSource
                  NeverAssign ExcludeFit ClusterController Master Proxy Resolver
                  machineClassFitness defaultProcessClass address_ip address_port
                  publicAddress.

Lemma readConfiguration_extends a fuel :
  forall n s, extends s (snd (configurationOf a fuel n s)).
Proof.
  unfold configurationOf.
  induction fuel as [|fuel IH]; intros n s; cbn [readConfiguration]; [grows|].
  destruct (config_getRange a n) as [res|e].
  - cbn [snd]. destruct (_ =? _); grows.
  - destruct (config_onError a n e); [apply IH|grows].
Qed.

Lemma quiescentChecks_extends a configuration s :
  extends s (snd (quiescent a configuration s)).
Proof.
  unfold quiescent, quiescentChecks.
  repeat (apply bind_extends;
          [|intros; match goal with |- extends ?s0 _ => clear dependent s; rename s0 into s end]).
  - apply waitFor_extends.
  - pose proof (undesirableServersFrom_extends (undesirable_storeType a) configuration a0 0 s)
      as H.
    unfold checkForUndesirableServers.
    now destruct (undesirableServersFrom _ _ _ _ _).
  - apply waitFor_extends.
  - unfold perform. cbn [snd]. destruct (_ >? _); grows.
  - apply waitFor_extends.
  - unfold perform. cbn [snd]. destruct (_ >? _); grows.
  - apply call_extends, checkStorageServerQueue_extends.
  - apply call_extends, checkForStorage_extends.
  - apply call_extends, checkForExtraDataStores_extends.
  - apply call_extends, checkUsingDesiredClasses_extends.
  - destruct (negb _); unfold perform, pure; cbn [snd]; grows.
  - apply call_extends, checkWorkerList_extends.
  - destruct (negb _); unfold perform, pure; cbn [snd]; grows.
Qed.

Lemma checkDataConsistencyIn_extends a fuel keyLocations configuration s :
  extends s (snd (dataConsistency a fuel keyLocations configuration s)).
Proof.
  unfold dataConsistency, checkDataConsistencyIn.
  destruct (isSimulated a); [|apply checkDataConsistency_extends].
  destruct (getDatabaseSize _ _ _); [apply checkDataConsistency_extends|grows|grows].
Qed.

Lemma checkShards_extends a fuel configuration s :
  extends s (snd (shards a fuel configuration s)).
Proof.
  unfold shards, checkShards.
  match goal with
  | |- context [getKeyServers ?a1 ?b ?c ?d ?e ?f ?g ?h] =>
      pose proof (getKeyServers_extends a1 b c d e f g h) as H1;
      destruct (getKeyServers a1 b c d e f g h) as [[[[|]|e1|] [keyServers|]] s1]
  end; cbn [snd] in *; auto.
  match goal with
  | |- context [getKeyLocations ?a1 ?b ?c ?d ?e ?f ?g ?h ?i ?j ?k ?l] =>
      pose proof (getKeyLocations_extends a1 b c d e f g h i j k l) as H2;
      destruct (getKeyLocations a1 b c d e f g h i j k l) as [[[[|]|e2|] [keyLocations|]] s2]
  end; cbn [snd] in *; try (eapply extends_trans; [exact H1|exact H2]).
  pose proof (checkDataConsistencyIn_extends a fuel keyLocations configuration s2) as H3.
  unfold dataConsistency in H3.
  destruct (checkDataConsistencyIn _ _ _ _ _ _ _ _ _ _ _ _ _) as [[b|e3|] s3];
    cbn [snd] in *;
    (eapply extends_trans; [exact H1|]; eapply extends_trans; [exact H2|exact H3]).
Qed.

Lemma runCheckTry_extends a fuel s : extends s (snd (try a fuel s)).
Proof.
  unfold try, runCheckTry.
  apply bind_extends; [apply readConfiguration_extends|]. intros configuration s1.
  apply bind_extends.
  - destruct (_ && _); [apply quiescentChecks_extends|grows].
  - intros _ s2. apply checkShards_extends.
Qed.

Lemma runCheckCatch_extends e s : extends s (runCheckCatch errorCode errorName e s).
Proof. unfold runCheckCatch. destruct (loggedAsRetry e); grows. Qed.

Lemma runCheck_finishes a fuel s :
  (exists s1, extends s s1 /\ run a fuel s = (Ok tt, finishedCheck s1))
  \/ (exists s1, extends s s1 /\ run a fuel s = (Unfinished, s1)).
Proof.
  unfold run, runCheck. destruct (_ || _).
  - pose proof (runCheckTry_extends a fuel s) as H. unfold try in H.
    match type of H with
    | extends _ (snd ?x) => destruct x as [[u|u|e|] s']
    end; cbn [snd] in H.
    + left. now exists s'.
    + left. now exists s'.
    + left. exists (runCheckCatch errorCode errorName e s'). split; [|reflexivity].
      eapply extends_trans; [exact H|apply runCheckCatch_extends].
    + right. now exists s'.
  - left. exists s. split; [grows|reflexivity].
Qed.

(** X20.  [runCheck] never throws to its caller: it returns, or there is no
    result for it (it is still running when the fuel runs out, or its run
    left defined behaviour in the loop over the shards, by a read past the
    end of the estimates or a remainder by zero; the state is then the one
    reached before).  Whatever the cluster answers, it leaves the workload
    object as it was except that it may have set [success] to false (so it
    never sets it back to true, and it does not touch
    [performQuiescentChecks] or [repetitions]), and it only adds to the
    log.  When it returns, the last event it logged is
    [ConsistencyCheck_FinishedCheck], with the number of repetitions of the
    workload.  On a client that is neither the first nor part of a
    distributed check it logs that event and nothing else. *)
Theorem run_check_only_adds (a : ClusterAnswers) (fuel : nat) (s : State) :
  let r := run a fuel s in
  let finished :=
    event "ConsistencyCheck_FinishedCheck" [("repetitions", DInt (repetitions (self s)))] in
  (fst r = Ok tt \/ fst r = Unfinished)
  /\ (self (snd r) = self s \/ self (snd r) = set_success false (self s))
  /\ (exists new,
        trace (snd r) = trace s ++ new
        /\ (fst r = Ok tt -> exists before, new = before ++ [finished]))
  /\ (firstClient (self s) = false -> distributed (self s) = false ->
      r = (Ok tt, traceEvent finished s)).
Proof.
  cbv zeta. split; [|split; [|split]].
  - destruct (runCheck_finishes a fuel s) as [[s1 [_ ->]]|[s1 [_ ->]]]; auto.
  - destruct (runCheck_finishes a fuel s) as [[s1 [H ->]]|[s1 [H ->]]]; cbn [snd];
      apply extends_self; [|exact H].
    unfold finishedCheck. now apply extends_trace.
  - destruct (runCheck_finishes a fuel s) as [[s1 [H ->]]|[s1 [H ->]]]; cbn [fst snd].
    + destruct (extends_trace_prefix _ _ H) as [before Hp].
      destruct (extends_self _ _ H) as [Hs|Hs].
      * exists (before ++ [event "ConsistencyCheck_FinishedCheck"
                             [("repetitions", DInt (repetitions (self s)))]]).
        unfold finishedCheck, traceEvent. cbn [trace]. rewrite Hp, Hs, app_assoc.
        split; [reflexivity|]. intros _. now exists before.
      * exists (before ++ [event "ConsistencyCheck_FinishedCheck"
                             [("repetitions", DInt (repetitions (self s)))]]).
        unfold finishedCheck, traceEvent. cbn [trace]. rewrite Hp, Hs, app_assoc.
        split; [reflexivity|]. intros _. now exists before.
    + destruct (extends_trace_prefix _ _ H) as [new Hp]. exists new.
      split; [exact Hp|discriminate].
  - intros Hfirst Hdistributed. unfold run, runCheck. now rewrite Hfirst, Hdistributed.
Qed.

Let allowed := busyFailure errorCode errorName.

Lemma readConfiguration_by a fuel :
  forall n s, extendsBy allowed s (snd (configurationOf a fuel n s)).
Proof.
  unfold configurationOf.
  induction fuel as [|fuel IH]; intros n s; cbn [readConfiguration]; [apply extendsBy_refl|].
  destruct (config_getRange a n) as [res|e].
  - cbn [snd]. destruct (_ =? _); [|apply extendsBy_refl].
    apply extendsBy_failure; [now left|]. apply extendsBy_trace; [reflexivity|].
    apply extendsBy_refl.
  - destruct (config_onError a n e); [apply IH|apply extendsBy_refl].
Qed.

Lemma getKeyServers_busy a fuel s :
  performQuiescentChecks (self s) = false ->
  snd (getKeyServers (getMasterProxies a) (getKeyServersLocations a)
         (onMasterProxiesChanged a) keyServersKeys_begin keyServersKeys_end (buggify a)
         fuel s) = s.
Proof.
  intros Hq. unfold getKeyServers.
  pose proof (keyServersLoop_busy (getMasterProxies a) (getKeyServersLocations a)
                (onMasterProxiesChanged a) keyServersKeys_end (buggify a) fuel 0
                (mkKeyServers [] keyServersKeys_begin) s Hq) as [H _].
  now destruct (keyServersLoop _ _ _ _ _ _ _ _ _) as [[st'|b|e|] s'].
Qed.

Lemma getKeyLocations_by a fuel keyServers s :
  performQuiescentChecks (self s) = false ->
  extendsBy allowed s
    (snd (getKeyLocations (locations_getReadVersion a) (locations_onError a)
            (locations_getKeyValues a) krmDecodeRanges keyServersPrefix allKeys_begin
            allKeys_end MOVE_KEYS_KRM_LIMIT MOVE_KEYS_KRM_LIMIT_BYTES fuel keyServers s)).
Proof.
  intros Hq. unfold getKeyLocations.
  pose proof (keyLocationsLoop_busy (locations_getReadVersion a) (locations_onError a)
                (locations_getKeyValues a) krmDecodeRanges keyServersPrefix allKeys_end
                MOVE_KEYS_KRM_LIMIT MOVE_KEYS_KRM_LIMIT_BYTES fuel keyServers 0
                (mkLoc [] (withPrefix keyServersPrefix allKeys_begin)) s Hq) as H.
  apply endsWith_extendsBy in H.
  assert (H' : extendsBy allowed s
                 (snd (keyLocationsLoop (locations_getReadVersion a) (locations_onError a)
                         (locations_getKeyValues a) krmDecodeRanges keyServersPrefix
                         allKeys_end MOVE_KEYS_KRM_LIMIT MOVE_KEYS_KRM_LIMIT_BYTES fuel
                         keyServers 0
                         (mkLoc [] (withPrefix keyServersPrefix allKeys_begin)) s))).
  { eapply extendsBy_weaken; [|exact H]. intros m [[]| ->]. right. now left. }
  now destruct (keyLocationsLoop _ _ _ _ _ _ _ _ _ _ _ _ _) as [[st'|b|e|] s'].
Qed.

Lemma checkDataConsistencyIn_by a fuel keyLocations configuration s :
  performQuiescentChecks (self s) = false ->
  extendsBy allowed s (snd (dataConsistency a fuel keyLocations configuration s)).
Proof.
  intros Hq. unfold dataConsistency, checkDataConsistencyIn.
  assert (H : extendsBy allowed s
                (snd (checkDataConsistency isKeyValueInSample expectedSize randomShuffle
                        SPLIT_KEY_SIZE_LIMIT REPLY_BYTE_LIMIT
                        STORAGE_METRICS_UNFAIR_SPLIT_LIMIT keyServersPrefix allKeys_end fuel
                        keyLocations configuration (shardEnv a) s))).
  { unfold checkDataConsistency.
    match goal with
    | |- context [shardLoop ?a1 ?b ?c ?d ?e ?f ?g ?h ?i ?j ?k ?l ?m ?n s] =>
        pose proof (shardLoop_busy a1 b c d e f g h i j k l m n s Hq) as H;
        apply endsWith_extendsBy in H;
        destruct (shardLoop a1 b c d e f g h i j k l m n s) as [[u|b'|e'|] s']
    end; cbn [snd] in *;
      (eapply extendsBy_weaken; [|exact H]);
      intros m0 [->| ->]; unfold allowed, busyFailure; tauto. }
  destruct (isSimulated a); [|exact H].
  destruct (getDatabaseSize _ _ _); [exact H|apply extendsBy_refl|apply extendsBy_refl].
Qed.

Lemma checkShards_by a fuel configuration s :
  performQuiescentChecks (self s) = false ->
  extendsBy allowed s (snd (shards a fuel configuration s)).
Proof.
  intros Hq. unfold shards, checkShards.
  pose proof (getKeyServers_busy a fuel s Hq) as H1.
  destruct (getKeyServers _ _ _ _ _ _ _ _) as [[[[|]|e1|] [keyServers|]] s1];
    cbn [snd] in *; subst s1; try apply extendsBy_refl.
  pose proof (getKeyLocations_by a fuel keyServers s Hq) as H2.
  destruct (getKeyLocations _ _ _ _ _ _ _ _ _ _ _ _) as [[[[|]|e2|] [keyLocations|]] s2];
    cbn [snd] in *; try exact H2.
  pose proof (checkDataConsistencyIn_by a fuel keyLocations configuration s2) as H3.
  unfold dataConsistency in H3.
  rewrite (extendsBy_quiescent _ _ _ H2) in H3. specialize (H3 Hq).
  destruct (checkDataConsistencyIn _ _ _ _ _ _ _ _ _ _ _ _ _) as [[b|e3|] s3];
    cbn [snd] in *; (eapply extendsBy_trans; [exact H2|exact H3]).
Qed.

Lemma runCheckTry_by a fuel s :
  performQuiescentChecks (self s) = false -> extendsBy allowed s (snd (try a fuel s)).
Proof.
  intros Hq. unfold try, runCheckTry, bind.
  pose proof (readConfiguration_by a fuel 0 s) as H1. unfold configurationOf in H1.
  destruct (readConfiguration _ _ _ _ _ _) as [[configuration|u|e|] s1]; cbn [snd] in *;
    try exact H1.
  assert (Hq1 : performQuiescentChecks (self s1) = false)
    by now rewrite (extendsBy_quiescent _ _ _ H1).
  rewrite Hq1, andb_false_r.
  eapply extendsBy_trans; [exact H1|]. now apply checkShards_by.
Qed.

(** X21.  In a run that is not quiescent, the failures [runCheck] can record
    are these and no others: "Read too many configuration options", "Key
    servers inconsistent", "Data inconsistent", "Shard size is more than
    7.000000 std dev from estimate", and "Error <code> - <name>" for an
    error that is not one of the five the handler logs as a retry.  None of
    the failures of the checks of a quiescent database can be recorded. *)
Theorem busy_run_check_failures (a : ClusterAnswers) (fuel : nat) (s : State)
  (Hbusy : performQuiescentChecks (self s) = false) :
  exists messages,
    Forall (busyFailure errorCode errorName) messages
    /\ newReasons s (snd (run a fuel s))
       = map (fun m => ("Consistency check: " ++ m)%string) messages.
Proof.
  assert (H : extendsBy allowed s (snd (run a fuel s))).
  { unfold run, runCheck. destruct (_ || _).
    - pose proof (runCheckTry_by a fuel s Hbusy) as H. unfold try in H.
      match type of H with
      | extendsBy _ _ (snd ?x) => destruct x as [[u|u|e|] s']
      end; cbn [snd] in *; unfold finishedCheck;
        try (apply extendsBy_trace; [reflexivity|]); try exact H.
      unfold runCheckCatch. destruct (loggedAsRetry e) eqn:Ee.
      + apply extendsBy_trace; [reflexivity|exact H].
      + apply extendsBy_failure; [|exact H].
        unfold allowed, busyFailure. do 4 right. now exists e.
    - cbn [snd]. unfold finishedCheck. apply extendsBy_trace; [reflexivity|].
      apply extendsBy_refl. }
  destruct (extendsBy_reasons _ _ _ H) as [messages [Hall Hr]].
  exists messages. split; [exact Hall|]. now apply newReasons_app.
Qed.

Lemma runCheck_keeps a fuel s :
  indefinite (self (snd (run a fuel s))) = indefinite (self s)
  /\ performQuiescentChecks (self (snd (run a fuel s))) = performQuiescentChecks (self s)
  /\ repetitions (self (snd (run a fuel s))) = repetitions (self s)
  /\ (success (self s) = false -> success (self (snd (run a fuel s))) = false).
Proof.
  assert (H : extends s (snd (run a fuel s))).
  { destruct (runCheck_finishes a fuel s) as [[s1 [H ->]]|[s1 [H ->]]]; cbn [snd];
      [|exact H].
    unfold finishedCheck. now apply extends_trace. }
  destruct (extends_self _ _ H) as [-> | ->]; cbn; auto.
Qed.

Lemma start_keeps answers fuel :
  forall round s,
    let s' := snd (repeated answers fuel round s) in
    indefinite (self s') = indefinite (self s)
    /\ performQuiescentChecks (self s') = performQuiescentChecks (self s)
    /\ repetitions (self s) <= repetitions (self s')
    /\ (success (self s) = false -> success (self s') = false)
    /\ (indefinite (self s) = true -> fst (repeated answers fuel round s) = Unfinished).
Proof.
  unfold repeated.
  induction fuel as [|fuel IH]; intros round s; cbn [_start].
  - cbn [fst snd]. repeat split; auto. lia.
  - destruct (runCheck_keeps (answers round) fuel s) as [Hi [Hq [Hr Hs]]]. unfold run in *.
    destruct (runCheck_finishes (answers round) fuel s) as [[s1 [_ E]]|[s1 [_ E]]];
      unfold run in E; rewrite E in *; cbn [fst snd] in *.
    + rewrite Hi. destruct (indefinite (self s)) eqn:Ei; cbn [negb fst snd].
      * match goal with
        | |- context [mkState (set_repetitions ?r ?w) ?t] =>
            specialize (IH (S round) (mkState (set_repetitions r w) t)); cbv zeta in IH;
            cbn [self set_repetitions indefinite performQuiescentChecks repetitions success]
              in IH
        end.
        destruct IH as [IHi [IHq [IHr [IHs IHu]]]].
        rewrite IHi, IHq, Hi, Hq. repeat split; auto; try lia.
      * repeat split; auto; try lia; try discriminate.
    + repeat split; auto; try lia.
Qed.

(** X22.  [_start] runs [runCheck] once when the workload is not
    [indefinite]: it ends as that run ends, with the same state, and does
    not count a repetition.  When the workload is [indefinite] it never
    returns and never throws, however long it runs; after every run that
    ends it adds one to [repetitions] and runs the check again.  In either
    case it never sets [success] back to true, never changes
    [performQuiescentChecks], and [repetitions] never goes down. *)
Theorem start_runs_once_or_forever
  (answers : nat -> ClusterAnswers) (round : nat) (s : State) :
  (indefinite (self s) = false ->
   forall fuel, repeated answers (S fuel) round s = run (answers round) fuel s)
  /\ (indefinite (self s) = true ->
      forall fuel, fst (repeated answers fuel round s) = Unfinished)
  /\ (indefinite (self s) = true ->
      forall fuel s',
        run (answers round) fuel s = (Ok tt, s') ->
        repeated answers (S fuel) round s
        = repeated answers fuel (S round)
            (mkState (set_repetitions (repetitions (self s) + 1) (self s')) (trace s')))
  /\ (forall fuel,
        let s' := snd (repeated answers fuel round s) in
        (success (self s) = false -> success (self s') = false)
        /\ performQuiescentChecks (self s') = performQuiescentChecks (self s)
        /\ repetitions (self s) <= repetitions (self s')).
Proof.
  split; [|split; [|split]].
  - intros Hi fuel. unfold repeated. cbn [_start]. fold (run (answers round) fuel s).
    destruct (runCheck_keeps (answers round) fuel s) as [Hi' _].
    destruct (run (answers round) fuel s) as [[[]|e|] s']; cbn [snd] in *; try reflexivity.
    now rewrite Hi', Hi.
  - intros Hi fuel. now apply start_keeps.
  - intros Hi fuel s' E. unfold repeated. cbn [_start]. fold (run (answers round) fuel s).
    destruct (runCheck_keeps (answers round) fuel s) as [Hi' [_ [Hr _]]].
    rewrite E in *. cbn [snd] in *. now rewrite Hi', Hi, Hr.
  - intros fuel. destruct (start_keeps answers fuel round s) as [_ [Hq [Hr [Hs _]]]].
    cbv zeta. auto.
Qed.

End RunCheckProperties.

Lemma busy_run_check_failures_witness :
  exists messages,
    Forall (busyFailure sampleErrorCode sampleErrorName) messages
    /\ newReasons busyState (snd (sampleRunCheck brokenCluster 3 busyState))
       = map (fun m => ("Consistency check: " ++ m)%string) messages.
Proof.
  apply (busy_run_check_failures sampleErrorCode sampleErrorName someConfiguration
           (fun c _ _ => c) plainRanges "keyServers/" "" "z" "keyServers/" "keyServers/z"
           10 10 sampleAll (fun data => Z.of_nat (List.length data)) (fun _ order => order)
           100 1000 1%float (fun _ _ => false) 0 1 4 (-1) 6 5 5 3 1 4 (fun _ _ => 0)
           (mkProcessClass 0 0) (fun _ => 0) (fun _ => 0) (fun _ _ => "")
           brokenCluster 3 busyState eq_refl).
Defined.

(** ** A page of the data of a shard *)

Section DataPage.

Variable expectedSize : list KeyValueRef -> Z.
Variable storageServers : list UID.
Variable storageServerInterfaces : list StorageServerInterface.
Variable range : KeyRange.
Variable req : GetKeyValuesRequest.
Variable isRelocating : bool.
Variable keyValueFutures : list (ErrorOr GetKeyValuesReply).

Let results := readRangeResults expectedSize storageServers storageServerInterfaces range req
                 isRelocating keyValueFutures.
Let strict (s : State) : bool := negb isRelocating && performQuiescentChecks (self s).
Let amount := readAmount expectedSize.

Lemma readAmount_cons reply rest :
  amount (reply :: rest)
  = match reply with Present r => expectedSize (data r) | Failed _ => 0 end + amount rest.
Proof. reflexivity. Qed.

Lemma range_after_reference (firstValid : Z) (reference : GetKeyValuesReply) :
  0 <= firstValid -> getReply keyValueFutures firstValid = reference ->
  forall rest j total s,
    match results rest j (firstValid, total) s with
    | (Next (firstValid', total'), s') =>
        firstValid' = firstValid /\ total' = total + amount rest
        /\ allAgree reference rest
        /\ (strict s = true -> Forall (fun x => present x = true) rest)
        /\ quietly s s'
    | (Return b, s') =>
        b = false /\ success (self s') = false
        /\ ((exists current, In (Present current) rest
                             /\ replyDiffers current reference = true)
            \/ (strict s = true /\ exists e, In (Failed e) rest))
    | (Throw _, _) => False
    | (Stuck, _) => False
    end.
Proof.
  intros Hvalid Href. unfold results.
  induction rest as [|reply rest IH]; intros j total s; cbn [readRangeResults].
  - unfold pure. split; [reflexivity|]. split; [unfold amount, readAmount; cbn; lia|].
    split; [intros current []|]. split; [intros _; constructor|apply extendsBy_refl].
  - unfold bind, readRangeResult.
    replace (firstValid =? -1) with false by (symmetry; apply Z.eqb_neq; lia).
    destruct reply as [current|e].
    + rewrite Href. destruct (replyDiffers current reference) eqn:Ed.
      * split; [reflexivity|]. split; [reflexivity|]. left. exists current.
        split; [now left|exact Ed].
      * specialize (IH (j + 1) (total + expectedSize (data current)) s).
        destruct (readRangeResults _ _ _ _ _ _ _ _ _ _ _) as [[[fv' total']|b|e'|] s'];
          try exact IH.
        -- destruct IH as [Hfv [Htotal [Hagree [Hstrict Hq]]]].
           split; [exact Hfv|]. split; [rewrite readAmount_cons; lia|].
           split; [|split; [|exact Hq]].
           ++ intros c [Hc|Hc]; [injection Hc as <-; exact Ed|now apply Hagree].
           ++ intros H. constructor; [reflexivity|now apply Hstrict].
        -- destruct IH as [Hb [Hs [[c [Hc Hd]]|[Hst [e0 He0]]]]];
             (split; [exact Hb|]; split; [exact Hs|]).
           ++ left. exists c. split; [now right|exact Hd].
           ++ right. split; [exact Hst|]. exists e0. now right.
    + unfold strict. destruct (negb isRelocating) eqn:Er; cbn [andb].
      * destruct (performQuiescentChecks (self s)) eqn:Eq.
        -- split; [reflexivity|]. split; [reflexivity|]. right.
           split; [reflexivity|]. exists e. now left.
        -- match goal with
           | |- context [readRangeResults _ _ _ _ _ _ _ _ _ _ ?s1] =>
               specialize (IH (j + 1) total s1)
           end.
           unfold strict in IH. rewrite ?Er in IH. cbn [andb] in IH.
           change (performQuiescentChecks (self (traceEvent _ s)))
             with (performQuiescentChecks (self s)) in IH. rewrite Eq in IH.
           destruct (readRangeResults _ _ _ _ _ _ _ _ _ _ _) as [[[fv' total']|b|e'|] s'];
             try exact IH.
           ++ destruct IH as [Hfv [Htotal [Hagree [Hstrict Hq]]]].
              split; [exact Hfv|]. split; [rewrite readAmount_cons; lia|].
              split; [|split; [discriminate|]].
              ** intros c [Hc|Hc]; [discriminate|now apply Hagree].
              ** eapply extendsBy_trans; [|exact Hq]. quiet.
           ++ destruct IH as [Hb [Hs [[c [Hc Hd]]|[Hst _]]]]; [|discriminate].
              split; [exact Hb|]. split; [exact Hs|].
              left. exists c. split; [now right|exact Hd].
      * specialize (IH (j + 1) total s). unfold strict in IH. rewrite ?Er in IH.
        cbn [andb] in IH.
        destruct (readRangeResults _ _ _ _ _ _ _ _ _ _ _) as [[[fv' total']|b|e'|] s'];
          try exact IH.
        -- destruct IH as [Hfv [Htotal [Hagree [Hstrict Hq]]]].
           split; [exact Hfv|]. split; [rewrite readAmount_cons; lia|].
           split; [|split; [discriminate|exact Hq]].
           intros c [Hc|Hc]; [discriminate|now apply Hagree].
        -- destruct IH as [Hb [Hs [[c [Hc Hd]]|[Hst _]]]]; [|discriminate].
           split; [exact Hb|]. split; [exact Hs|].
           left. exists c. split; [now right|exact Hd].
Qed.

Lemma range_before_reference :
  forall rest before total s,
    keyValueFutures = before ++ rest ->
    match results rest (Z.of_nat (List.length before)) (-1, total) s with
    | (Next (firstValid', total'), s') =>
        total' = total + amount rest
        /\ (strict s = true -> Forall (fun x => present x = true) rest)
        /\ quietly s s'
        /\ match firstPresentFrom (Z.of_nat (List.length before)) rest with
           | Some (i, reference) => firstValid' = i /\ allAgree reference rest
           | None => firstValid' = -1
           end
    | (Return b, s') =>
        b = false /\ success (self s') = false
        /\ ((exists i reference current,
               firstPresentFrom (Z.of_nat (List.length before)) rest = Some (i, reference)
               /\ In (Present current) rest /\ replyDiffers current reference = true)
            \/ (strict s = true /\ exists e, In (Failed e) rest))
    | (Throw _, _) => False
    | (Stuck, _) => False
    end.
Proof.
  unfold results.
  induction rest as [|reply rest IH]; intros before total s Hfutures;
    cbn [readRangeResults firstPresentFrom].
  - unfold pure. split; [unfold amount, readAmount; cbn; lia|].
    split; [intros _; constructor|]. split; [apply extendsBy_refl|reflexivity].
  - assert (Hnext : keyValueFutures = (before ++ [reply]) ++ rest)
      by (rewrite <- app_assoc; exact Hfutures).
    assert (Hlen : Z.of_nat (List.length (before ++ [reply]))
                   = Z.of_nat (List.length before) + 1)
      by (rewrite length_app; simpl List.length; lia).
    unfold bind, readRangeResult. change (-1 =? -1) with true.
    destruct reply as [current|e].
    + cbv iota.
      pose proof (range_after_reference (Z.of_nat (List.length before)) current
                    ltac:(lia)) as Hafter.
      assert (Hreference : getReply keyValueFutures (Z.of_nat (List.length before)) = current)
        by (rewrite Hfutures; apply getReply_app).
      specialize (Hafter Hreference rest (Z.of_nat (List.length before) + 1)
                    (total + expectedSize (data current)) s).
      unfold results in Hafter.
      destruct (readRangeResults _ _ _ _ _ _ _ _ _ _ _) as [[[fv' total']|b|e'|] s'];
        try exact Hafter.
      * destruct Hafter as [Hfv [Htotal [Hagree [Hstrict Hq]]]].
        split; [rewrite readAmount_cons; lia|]. split; [|split; [exact Hq|split; [exact Hfv|]]].
        -- intros H. constructor; [reflexivity|now apply Hstrict].
        -- intros c [Hc|Hc]; [injection Hc as <-; apply replyDiffers_refl|now apply Hagree].
      * destruct Hafter as [Hb [Hs [[c [Hc Hd]]|[Hst [e0 He0]]]]];
          (split; [exact Hb|]; split; [exact Hs|]).
        -- left. exists (Z.of_nat (List.length before)), current, c.
           split; [reflexivity|]. split; [now right|exact Hd].
        -- right. split; [exact Hst|]. exists e0. now right.
    + unfold strict. destruct (negb isRelocating) eqn:Er; cbn [andb].
      * destruct (performQuiescentChecks (self s)) eqn:Eq.
        -- split; [reflexivity|]. split; [reflexivity|]. right.
           split; [reflexivity|]. exists e. now left.
        -- match goal with
           | |- context [readRangeResults _ _ _ _ _ _ _ _ _ _ ?s1] =>
               specialize (IH (before ++ [Failed e]) total s1 Hnext)
           end.
           rewrite Hlen in IH.
           unfold strict in IH. rewrite ?Er in IH. cbn [andb] in IH.
           change (performQuiescentChecks (self (traceEvent _ s)))
             with (performQuiescentChecks (self s)) in IH. rewrite Eq in IH.
           destruct (readRangeResults _ _ _ _ _ _ _ _ _ _ _) as [[[fv' total']|b|e'|] s'];
             try exact IH.
           ++ destruct IH as [Htotal [Hstrict [Hq Hfirst]]].
              split; [rewrite readAmount_cons; lia|]. split; [discriminate|]. split.
              ** eapply extendsBy_trans; [|exact Hq]. quiet.
              ** destruct (firstPresentFrom _ rest) as [[i reference]|]; [|exact Hfirst].
                 destruct Hfirst as [Hi Hagree]. split; [exact Hi|].
                 intros c [Hc|Hc]; [discriminate|now apply Hagree].
           ++ destruct IH as [Hb [Hs [[i [reference [c [Hf [Hc Hd]]]]]|[Hst _]]]];
                [|discriminate].
              split; [exact Hb|]. split; [exact Hs|]. left. exists i, reference, c.
              split; [exact Hf|]. split; [now right|exact Hd].
      * specialize (IH (before ++ [Failed e]) total s Hnext).
        rewrite Hlen in IH. unfold strict in IH. rewrite ?Er in IH. cbn [andb] in IH.
        destruct (readRangeResults _ _ _ _ _ _ _ _ _ _ _) as [[[fv' total']|b|e'|] s'];
          try exact IH.
        -- destruct IH as [Htotal [Hstrict [Hq Hfirst]]].
           split; [rewrite readAmount_cons; lia|]. split; [discriminate|].
           split; [exact Hq|].
           destruct (firstPresentFrom _ rest) as [[i reference]|]; [|exact Hfirst].
           destruct Hfirst as [Hi Hagree]. split; [exact Hi|].
           intros c [Hc|Hc]; [discriminate|now apply Hagree].
        -- destruct IH as [Hb [Hs [[i [reference [c [Hf [Hc Hd]]]]]|[Hst _]]]];
             [|discriminate].
           split; [exact Hb|]. split; [exact Hs|]. left. exists i, reference, c.
           split; [exact Hf|]. split; [now right|exact Hd].
Qed.

(** X23.  The loop over the replies to one range request of a shard accepts
    the page exactly when the replies that are present are all the same as
    the first of them (same data, same [more]) and, for a shard that is not
    being relocated in a quiescent run, every server replied.  It then
    leaves [firstValidServer] at the index of the first reply that is
    present (-1 when there is none), has added up in [totalReadAmount] the
    expected size of every reply that is present, and has recorded no
    failure.  Otherwise it returns false with [success] set to false.  It
    never throws. *)
Theorem data_page_accepted_iff_replicas_agree (s : State) :
  let r := results keyValueFutures 0 (-1, 0) s in
  let accepted :=
    replicasAgree keyValueFutures
    /\ (strict s = true -> Forall (fun x => present x = true) keyValueFutures) in
  (accepted <-> exists s', r = (Next (firstValidOf keyValueFutures, amount keyValueFutures), s'))
  /\ (accepted -> newReasons s (snd r) = [] /\ self (snd r) = self s)
  /\ (~ accepted <-> fst r = Return false)
  /\ (fst r = Return false -> check (snd r) = false).
Proof.
  cbv zeta.
  pose proof (range_before_reference keyValueFutures [] 0 s eq_refl) as H.
  cbn [List.length Z.of_nat] in H. fold (firstPresent keyValueFutures) in H.
  unfold replicasAgree, firstValidOf.
  destruct (results keyValueFutures 0 (-1, 0) s) as [[[fv total]|b|e|] s'] eqn:E;
    try contradiction; cbn [fst snd].
  - destruct H as [Htotal [Hstrict [Hq Hfirst]]].
    assert (Haccepted : match firstPresent keyValueFutures with
                        | Some (_, reference) => allAgree reference keyValueFutures
                        | None => True
                        end
                        /\ (strict s = true ->
                            Forall (fun x => present x = true) keyValueFutures)).
    { split; [|exact Hstrict].
      destruct (firstPresent keyValueFutures) as [[i reference]|]; [apply Hfirst|exact I]. }
    split; [|split; [|split]].
    + split; [|intros _; exact Haccepted]. intros _. exists s'.
      assert (Hfv : fv = match firstPresent keyValueFutures with
                         | Some (i, _) => i
                         | None => -1
                         end)
        by (destruct (firstPresent keyValueFutures) as [[i reference]|];
            [apply Hfirst|exact Hfirst]).
      rewrite <- Hfv. replace (amount keyValueFutures) with total by lia. reflexivity.
    + intros _. split; [now apply quietly_reasons|now apply quietly_self].
    + split; [intros Hn; contradiction|discriminate].
    + discriminate.
  - destruct H as [-> [Hs Hwhy]].
    assert (Hnot : ~ (match firstPresent keyValueFutures with
                      | Some (_, reference) => allAgree reference keyValueFutures
                      | None => True
                      end
                      /\ (strict s = true ->
                          Forall (fun x => present x = true) keyValueFutures))).
    { intros [Hagree Hstrict].
      destruct Hwhy as [[i [reference [c [Hf [Hc Hd]]]]]|[Hst [e He]]].
      - fold (firstPresent keyValueFutures) in Hf. rewrite Hf in Hagree.
        specialize (Hagree c Hc). congruence.
      - specialize (Hstrict Hst). rewrite Forall_forall in Hstrict.
        specialize (Hstrict _ He). discriminate. }
    split; [|split; [|split]].
    + split; [intros Ha; contradiction|]. intros [s0 H0]. discriminate.
    + intros Ha. contradiction.
    + split; auto.
    + intros _. exact Hs.
Qed.

End DataPage.

(** ** Where the body of the loop over the shards leaves defined behaviour *)

Lemma extends_partition (s s' : State) :
  extends s s' ->
  firstClient (self s') = firstClient (self s)
  /\ distributed (self s') = distributed (self s)
  /\ performQuiescentChecks (self s') = performQuiescentChecks (self s)
  /\ effectiveClientCount (self s') = effectiveClientCount (self s)
  /\ shardSampleFactor (self s') = shardSampleFactor (self s).
Proof.
  intros H. destruct (extends_self _ _ H) as [-> | ->]; repeat split; reflexivity.
Qed.

Section ShardBodyWithoutResult.

Variable isKeyValueInSample : KeyValueRef -> ByteSampleInfo.
Variable expectedSize : list KeyValueRef -> Z.
Variables SPLIT_KEY_SIZE_LIMIT REPLY_BYTE_LIMIT : Z.
Variable STORAGE_METRICS_UNFAIR_SPLIT_LIMIT : float.
Variables keyServersPrefix allKeys_end : Key.

(** X24.  On the first client, once the team size of a shard passed and its
    server list and estimates are in, the body of the loop over the shards
    leaves defined behaviour in two cases, and there is then no result for
    it, whatever the fuel.  In a distributed check with fewer estimates than
    servers (an entry of the server list was missing, or the wait for the
    metrics threw), unless the run is quiescent and there is no estimate at
    all: the loop over the servers reads [estimatedBytes[j]] past the end of
    the vector.  Otherwise, when [effectiveClientCount * shardSampleFactor]
    is zero as an [int]: the remainder [shard % 0].  Nothing is recorded on
    the way but, in a quiescent run without estimates, the failure "Error
    fetching storage metrics". *)
Theorem shard_body_without_result
  (configuration : DatabaseConfiguration) (shardCount shard : Z) (range : KeyRange)
  (env : ShardEnv) (fuel : nat) (s s0 s1 s2 : State) (isRelocating : bool)
  (storageServers : list UID) (storageServerInterfaces : list StorageServerInterface)
  (estimatedBytes : list Z)
  (Hfirst : firstClient (self s) = true)
  (Hservers : shardServers configuration range env s
              = (Next (isRelocating, storageServers), s0))
  (Hlist : readServerList fuel env storageServers 0 s0 = (Next storageServerInterfaces, s1))
  (Hestimates : getStorageSizeEstimate env storageServerInterfaces range s1
                = (estimatedBytes, s2)) :
  let r := checkShard isKeyValueInSample expectedSize SPLIT_KEY_SIZE_LIMIT REPLY_BYTE_LIMIT
             STORAGE_METRICS_UNFAIR_SPLIT_LIMIT keyServersPrefix allKeys_end configuration
             shardCount shard range env fuel s in
  let noEstimates :=
    performQuiescentChecks (self s) && (Z.of_nat (List.length estimatedBytes) =? 0) in
  let tooFew := (List.length estimatedBytes < List.length storageServers)%nat in
  let divisor := Int32.mul (effectiveClientCount (self s)) (shardSampleFactor (self s)) in
  (noEstimates = false -> distributed (self s) = true -> tooFew -> r = (Stuck, s2))
  /\ (noEstimates = false -> distributed (self s) = false \/ ~ tooFew -> divisor = 0 ->
      r = (Stuck, s2))
  /\ (noEstimates = true -> divisor = 0 ->
      r = (Stuck, testFailure "Error fetching storage metrics" s2)).
Proof.
  intros r noEstimates tooFew divisor.
  assert (E2 : extends s s2).
  { pose proof (shardServers_extends configuration range env s) as E0. rewrite Hservers in E0.
    pose proof (readServerList_extends fuel env storageServers 0%nat s0) as E1.
    rewrite Hlist in E1.
    pose proof (getStorageSizeEstimate_extends env storageServerInterfaces range s1) as E.
    rewrite Hestimates in E. cbn [snd] in *.
    eapply extends_trans; [exact E0|]. eapply extends_trans; [exact E1|exact E]. }
  destruct (extends_partition _ _ E2) as [F2 [D2 [Q2 [C2 S2]]]].
  assert (Hr : r = bind (addEstimatedSizes storageServers estimatedBytes)
                     (fun _ =>
                        bind (shardIsSampled shard)
                          (fun sampled =>
                             bind (if sampled then
                                     bind (readLoop isKeyValueInSample expectedSize
                                             SPLIT_KEY_SIZE_LIMIT REPLY_BYTE_LIMIT
                                             STORAGE_METRICS_UNFAIR_SPLIT_LIMIT allKeys_end
                                             fuel env range isRelocating storageServers
                                             storageServerInterfaces 0
                                             (mkRead noStats
                                                (firstGreaterOrEqual (range_begin range)) 0))
                                       (fun rs =>
                                          bind (checkShardSizes keyServersPrefix range
                                                  shardCount env storageServers
                                                  estimatedBytes (stats rs))
                                            (fun _ => pure (bytesReadInRange rs)))
                                   else pure 0)
                               (fun bytesRead s =>
                                  (Next tt,
                                   if bytesRead >? 0
                                   then traceEvent
                                          (event "ConsistencyCheck_ReadRange"
                                             [("range", DKey (range_begin range));
                                              ("bytesRead", DInt bytesRead)]) s
                                   else s)))) s2).
  { subst r. unfold checkShard.
    unfold bind at 1. rewrite Hservers. cbn [fst snd].
    unfold bind at 1. rewrite Hlist.
    unfold bind at 1. rewrite Hestimates. reflexivity. }
  rewrite Hr. clear Hr.
  assert (Hsampled : forall s3,
            self s3 = self s2 \/ self s3 = set_success false (self s2) ->
            divisor = 0 -> shardIsSampled shard s3 = (Stuck, s3)).
  { intros s3 Hself Hzero. unfold shardIsSampled.
    assert (Hsame : firstClient (self s3) = true
                    /\ Int32.mul (effectiveClientCount (self s3)) (shardSampleFactor (self s3))
                       = 0).
    { subst divisor. destruct Hself as [-> | ->].
      - now rewrite F2, C2, S2.
      - split; [cbn; now rewrite F2|].
        change (effectiveClientCount (set_success false (self s2)))
          with (effectiveClientCount (self s2)).
        change (shardSampleFactor (set_success false (self s2)))
          with (shardSampleFactor (self s2)).
        now rewrite C2, S2. }
    destruct Hsame as [-> ->]. reflexivity. }
  split; [|split].
  - intros Hnone Hdistributed Hfew. unfold bind, addEstimatedSizes.
    rewrite F2, Q2, D2, Hfirst, Hdistributed. fold noEstimates. rewrite Hnone. cbn [andb].
    replace (_ <? _) with true by (symmetry; apply Z.ltb_lt; unfold tooFew in Hfew; lia).
    reflexivity.
  - intros Hnone Hcase Hzero. unfold bind at 1. unfold addEstimatedSizes.
    rewrite F2, Q2, D2, Hfirst. fold noEstimates. rewrite Hnone.
    assert (Hnext : (if distributed (self s) && true
                     then if Z.of_nat (List.length estimatedBytes)
                             <? Z.of_nat (List.length storageServers)
                          then (@Stuck bool unit, s2) else (Next tt, s2)
                     else (Next tt, s2)) = (Next tt, s2)).
    { destruct Hcase as [-> |Hcase]; [reflexivity|].
      destruct (distributed (self s)); [|reflexivity]. cbn [andb].
      replace (_ <? _) with false
        by (symmetry; apply Z.ltb_ge; unfold tooFew in Hcase; lia).
      reflexivity. }
    rewrite Hnext. unfold bind at 1. rewrite (Hsampled s2 (or_introl eq_refl) Hzero).
    reflexivity.
  - intros Hnone Hzero. unfold bind at 1. unfold addEstimatedSizes.
    rewrite F2, Q2, Hfirst. fold noEstimates. rewrite Hnone.
    unfold bind at 1. rewrite (Hsampled (testFailure _ s2) (or_intror eq_refl) Hzero).
    reflexivity.
Qed.

End ShardBodyWithoutResult.

Lemma shard_body_without_result_witness :
  fst (checkShard sampleAll (fun _ => 10) 100 1000 1%float "keyServers/" "z"
         someConfiguration 1 0 (mkRange "a" "z") missingEntryShard 5 busyState)
  = Stuck.
Proof.
  pose proof (shard_body_without_result sampleAll (fun _ => 10) 100 1000 1%float
                "keyServers/" "z" someConfiguration 1 0 (mkRange "a" "z") missingEntryShard
                5%nat busyState busyState busyState busyState false [1; 2]
                [mkSSI 1 "10.0.0.1:4500"] [0] eq_refl eq_refl eq_refl eq_refl) as H.
  cbv zeta in H. destruct H as [Hfew _].
  rewrite Hfew; [reflexivity|reflexivity|reflexivity|].
  cbn. lia.
Defined.

(** ** The checks on the sizes of a sampled shard *)

Lemma passes_trans {A : Type} (s s1 : State) (r : Flow bool A * State) :
  quietly s s1 -> passes s1 r -> passes s r.
Proof.
  intros H. unfold passes. destruct (fst r); auto; now apply extendsBy_trans.
Qed.

Lemma passes_bind {A B : Type} (m : Step bool A) (k : A -> Step bool B) (s : State) :
  passes s (m s) -> (forall a s', passes s' (k a s')) -> passes s (bind m k s).
Proof.
  intros Hm Hk. unfold bind. destruct (m s) as [[a|b|e|] s'] eqn:E; try exact Hm.
  eapply passes_trans; [exact Hm|apply Hk].
Qed.

Lemma filter_nil_of {A : Type} (f : A -> bool) (l : list A) :
  (forall x, In x l -> f x = false) -> filter f l = [].
Proof.
  induction l as [|x l IH]; intros H; cbn [filter]; [reflexivity|].
  rewrite (H x (or_introl eq_refl)). apply IH. intros y Hy. apply H. now right.
Qed.

Lemma filter_all_of {A : Type} (f : A -> bool) (l : list A) :
  (forall x, In x l -> f x = true) -> filter f l = l.
Proof.
  induction l as [|x l IH]; intros H; cbn [filter]; [reflexivity|].
  rewrite (H x (or_introl eq_refl)). f_equal. apply IH. intros y Hy. apply H. now right.
Qed.

(** What is on record of a run that records early failures only. *)
Lemma early_reasons (s s' : State) :
  extendsBy earlyMessage s s' ->
  (forall reason, In reason (newReasons s s') ->
     isEstimateFailure reason = false /\ String.eqb inaccurateEstimateReason reason = false).
Proof.
  intros H. destruct (extendsBy_reasons _ _ _ H) as [messages [Hall Hr]].
  rewrite (newReasons_app _ _ _ Hr). intros reason Hin.
  apply in_map_iff in Hin. destruct Hin as [m [<- Hm]].
  rewrite Forall_forall in Hall. destruct (Hall _ Hm) as [-> | ->]; split; reflexivity.
Qed.

Lemma serverListEntries_early values :
  forall interfaces s,
    extendsBy earlyMessage s (snd (serverListEntries values interfaces s)).
Proof.
  induction values as [|[interface|] values IH]; intros interfaces s;
    cbn [serverListEntries].
  - apply extendsBy_refl.
  - apply IH.
  - eapply extendsBy_trans; [|apply IH].
    destruct (performQuiescentChecks (self s)); [|apply extendsBy_refl].
    apply extendsBy_failure; [now left|apply extendsBy_refl].
Qed.

Lemma readServerList_early fuel env servers :
  forall n s, extendsBy earlyMessage s (snd (readServerList fuel env servers n s)).
Proof.
  induction fuel as [|fuel IH]; intros n s; cbn [readServerList]; [apply extendsBy_refl|].
  destruct (serverListError env n) as [e|].
  - destruct (serverList_onError env n e); [apply IH|apply extendsBy_refl].
  - pose proof (serverListEntries_early (map (serverListValue env) servers) [] s) as H.
    destruct (serverListEntries _ _ _) as [interfaces s']. exact H.
Qed.

Lemma addEstimatedSizes_early servers estimated s :
  extendsBy earlyMessage s (snd (addEstimatedSizes servers estimated s)).
Proof.
  unfold addEstimatedSizes. destruct (firstClient (self s)); [|apply extendsBy_refl].
  destruct (_ && (_ =? 0)).
  - apply extendsBy_failure; [now right|apply extendsBy_refl].
  - destruct (_ && _); [|apply extendsBy_refl]. destruct (_ <? _); apply extendsBy_refl.
Qed.

Section ShardSizeChecks.

Variable isKeyValueInSample : KeyValueRef -> ByteSampleInfo.
Variable expectedSize : list KeyValueRef -> Z.
Variables SPLIT_KEY_SIZE_LIMIT REPLY_BYTE_LIMIT : Z.
Variable STORAGE_METRICS_UNFAIR_SPLIT_LIMIT : float.
Variables keyServersPrefix allKeys_end : Key.

Let shardCheck := checkShard isKeyValueInSample expectedSize SPLIT_KEY_SIZE_LIMIT
                    REPLY_BYTE_LIMIT STORAGE_METRICS_UNFAIR_SPLIT_LIMIT keyServersPrefix
                    allKeys_end.
Let reaches := reachesSizeChecks isKeyValueInSample expectedSize SPLIT_KEY_SIZE_LIMIT
                 REPLY_BYTE_LIMIT STORAGE_METRICS_UNFAIR_SPLIT_LIMIT allKeys_end.
Let sizeChecks := checkShardSizes keyServersPrefix.

(** The loop that reads a shard records a failure only when it returns. *)
Lemma readPage_passes env range relocating servers interfaces round fuel rs s :
  passes s (readPage isKeyValueInSample expectedSize SPLIT_KEY_SIZE_LIMIT REPLY_BYTE_LIMIT
              STORAGE_METRICS_UNFAIR_SPLIT_LIMIT allKeys_end env range relocating servers
              interfaces round fuel rs s).
Proof.
  unfold readPage.
  destruct (getVersion _ _ _) as [version|e|]; try apply extendsBy_refl.
  cbv zeta.
  match goal with
  | |- context [readRangeResults ?a ?b ?c ?d ?e ?f ?g ?g 0 (-1, 0) s] =>
      pose proof (range_before_reference a b c d e f g g [] 0 s eq_refl) as H;
      cbn [List.length Z.of_nat] in H;
      destruct (readRangeResults a b c d e f g g 0 (-1, 0) s) as [[[fv total]|b'|e'|] s']
  end; try contradiction.
  - destruct H as [_ [_ [Hq _]]].
    repeat (match goal with |- context [if ?c then _ else _] => destruct c end);
      exact Hq.
  - exact I.
Qed.

Lemma readTry_passes env range relocating servers interfaces round fuel rs s :
  passes s (readTry isKeyValueInSample expectedSize SPLIT_KEY_SIZE_LIMIT REPLY_BYTE_LIMIT
              STORAGE_METRICS_UNFAIR_SPLIT_LIMIT allKeys_end env range relocating servers
              interfaces round fuel rs s).
Proof.
  unfold readTry.
  pose proof (readPage_passes env range relocating servers interfaces round fuel rs s) as H.
  destruct (readPage _ _ _ _ _ _ _ _ _ _ _ _ _ _ _) as [[next|b|e|] s']; try exact H.
  unfold passes in H. cbn [fst snd] in H.
  destruct (isVersionProblem e); [|exact H].
  unfold passes. cbn [fst snd]. apply extendsBy_trace; [reflexivity|exact H].
Qed.

Lemma readLoop_passes fuel env range relocating servers interfaces :
  forall round rs s,
    passes s (readLoop isKeyValueInSample expectedSize SPLIT_KEY_SIZE_LIMIT REPLY_BYTE_LIMIT
                STORAGE_METRICS_UNFAIR_SPLIT_LIMIT allKeys_end fuel env range relocating
                servers interfaces round rs s).
Proof.
  induction fuel as [|fuel IH]; intros round rs s; cbn [readLoop].
  - apply extendsBy_refl.
  - apply passes_bind; [apply readTry_passes|].
    intros next s'. destruct (snd next); [apply IH|apply extendsBy_refl].
Qed.

(** Up to the checks on the sizes, the body of the loop over the shards
    records early failures only. *)
Lemma reaches_early configuration shard range env fuel s storageServers estimatedBytes rs s' :
  reaches configuration shard range env fuel s storageServers estimatedBytes rs s' ->
  extendsBy earlyMessage s s'.
Proof.
  intros [isRelocating [interfaces [s0 [s1 [s2 [s3 [s4 [H0 [H1 [H2 [H3 [H4 H5]]]]]]]]]]]].
  assert (E0 : s0 = s).
  { unfold shardServers, bind, checkTeamSize, pure in H0.
    destruct (_ && _) in H0; [discriminate|]. now injection H0. }
  pose proof (readServerList_early fuel env storageServers 0%nat s0) as E1. rewrite H1 in E1.
  pose proof (getStorageSizeEstimate_quiet env interfaces range s1) as E2. rewrite H2 in E2.
  pose proof (addEstimatedSizes_early storageServers estimatedBytes s2) as E3.
  rewrite H3 in E3.
  assert (E4 : s4 = s3).
  { unfold shardIsSampled in H4. destruct (negb _) in H4; [now injection H4|].
    destruct (_ || _) in H4; [discriminate|]. now injection H4. }
  pose proof (readLoop_passes fuel env range isRelocating storageServers interfaces 0%nat
                (mkRead noStats (firstGreaterOrEqual (range_begin range)) 0) s4) as E5.
  rewrite H5 in E5. unfold passes in E5. cbn [fst snd] in *. subst s0 s4.
  eapply extendsBy_trans; [exact E1|].
  eapply extendsBy_trans; [eapply extendsBy_weaken; [|exact E2]; contradiction|].
  eapply extendsBy_trans; [exact E3|].
  eapply extendsBy_weaken; [|exact E5]. contradiction.
Qed.

Lemma reaches_extends configuration shard range env fuel s storageServers estimatedBytes rs s' :
  reaches configuration shard range env fuel s storageServers estimatedBytes rs s' ->
  extends s s'.
Proof. intros H. eapply extendsBy_extends, reaches_early, H. Qed.

(** The body of the loop over the shards, from the checks on the sizes of
    the shard on. *)
Lemma checkShard_sampled configuration shardCount shard range env fuel s
  storageServers estimatedBytes rs s' :
  reaches configuration shard range env fuel s storageServers estimatedBytes rs s' ->
  shardCheck configuration shardCount shard range env fuel s
  = match sizeChecks range shardCount env storageServers estimatedBytes (stats rs) s' with
    | (Next _, s'') =>
        (Next tt,
         if bytesReadInRange rs >? 0
         then traceEvent (event "ConsistencyCheck_ReadRange"
                            [("range", DKey (range_begin range));
                             ("bytesRead", DInt (bytesReadInRange rs))]) s''
         else s'')
    | (Return b, s'') => (Return b, s'')
    | (Throw e, s'') => (Throw e, s'')
    | (Stuck, s'') => (Stuck, s'')
    end.
Proof.
  intros [isRelocating [interfaces [s0 [s1 [s2 [s3 [s4 [H0 [H1 [H2 [H3 [H4 H5]]]]]]]]]]]].
  subst shardCheck sizeChecks. unfold checkShard.
  unfold bind at 1. rewrite H0. cbn [fst snd].
  unfold bind at 1. rewrite H1.
  unfold bind at 1. rewrite H2.
  unfold bind at 1. rewrite H3.
  unfold bind at 1. rewrite H4.
  unfold bind at 1. unfold bind at 1. rewrite H5.
  unfold bind, pure.
  destruct (checkShardSizes _ _ _ _ _ _ _ _) as [[u|b|e|] s'']; reflexivity.
Qed.

(** The failures the body of the loop over the shards records for a sampled
    shard that it reads to the end: early failures, then those of the walk
    over the estimates, then that of the sampled size, then that of the
    permitted size, which alone makes the body return. *)
Lemma checkShard_sizes_reasons configuration shardCount shard range env fuel s
  storageServers estimatedBytes rs s' :
  reaches configuration shard range env fuel s storageServers estimatedBytes rs s' ->
  let a := finishCanSplit (shardBounds env) (stats rs) in
  let r := shardCheck configuration shardCount shard range env fuel s in
  let walked := snd (checkEstimates storageServers estimatedBytes (sampledBytes a) s') in
  exists sized,
    newReasons s (snd r)
    = newReasons s s' ++ newReasons s' walked
      ++ (if inaccurateShardEstimate a then [inaccurateEstimateReason] else []) ++ sized
    /\ ((fst r = Next tt /\ sized = [])
        \/ (fst r = Return false /\ performQuiescentChecks (self s) = true
            /\ (sized = ["Consistency check: Shard size in quiescent database is too small"]
                \/ sized
                   = ["Consistency check: Shard size in quiescent database is too large"]))).
Proof.
  intros Hreaches a r walked. subst r walked.
  rewrite (checkShard_sampled _ shardCount _ _ _ _ _ _ _ _ _ Hreaches).
  pose proof (reaches_extends _ _ _ _ _ _ _ _ _ _ Hreaches) as E0.
  pose proof (extends_quiescent _ _ E0) as Hq'.
  subst sizeChecks. unfold checkShardSizes. fold a.
  pose proof (checkEstimates_extends storageServers estimatedBytes (sampledBytes a) s') as E1.
  destruct (checkEstimates storageServers estimatedBytes (sampledBytes a) s') as [valid s1].
  cbn [snd] in *.
  pose proof (checkShardEstimate_extends (shardBounds env) range a s1) as E2.
  pose proof (checkShardEstimate_reasons (shardBounds env) range a s1) as R2.
  set (s2 := checkShardEstimate (shardBounds env) range a s1) in *.
  pose proof (checkShardSize_extends keyServersPrefix (shardBounds env) range shardCount a s2)
    as E3.
  pose proof (checkShardSize_reasons keyServersPrefix (shardBounds env) range shardCount a s2)
    as R3. cbv zeta in R3.
  assert (Hq2 : performQuiescentChecks (self s2) = performQuiescentChecks (self s)).
  { rewrite (extends_quiescent _ _ E2), (extends_quiescent _ _ E1). exact Hq'. }
  assert (Hlast : forall s3,
            extends s2 s3 ->
            newReasons s s3
            = newReasons s s' ++ newReasons s' s1
              ++ (if inaccurateShardEstimate a then [inaccurateEstimateReason] else [])
              ++ newReasons s2 s3).
  { intros s3 E.
    rewrite (newReasons_trans s s' s3 E0
               (extends_trans _ _ _ E1 (extends_trans _ _ _ E2 E))).
    rewrite (newReasons_trans s' s1 s3 E1 (extends_trans _ _ _ E2 E)).
    now rewrite (newReasons_trans s1 s2 s3 E2 E), R2. }
  destruct (checkShardSize keyServersPrefix (shardBounds env) range shardCount a s2)
    as [[u|b|e|] s3]; cbn [fst snd] in *.
  - destruct R3 as [[_ ->]|[H _]]; [|discriminate]. destruct u.
    exists []. split; [|left; now split].
    destruct (bytesReadInRange rs >? 0).
    + rewrite (Hlast _ (extends_trace _ _ _ (extends_refl _))). do 3 f_equal.
      apply newReasons_app. rewrite reasons_traceEvent by reflexivity. now rewrite app_nil_r.
    + rewrite (Hlast _ (extends_refl _)). now rewrite newReasons_same.
  - destruct R3 as [[H _]|[H [Hq3 R3]]]; [discriminate|]. injection H as ->.
    exists (newReasons s2 s3). split; [exact (Hlast _ E3)|].
    right. split; [reflexivity|]. split; [now rewrite <- Hq2|exact R3].
  - destruct R3 as [[H _]|[H _]]; discriminate.
  - destruct R3 as [[H _]|[H _]]; discriminate.
Qed.

(** The failures on record for such a shard, by the check that records
    them. *)
Lemma checkShard_sizes_filtered configuration shardCount shard range env fuel s
  storageServers estimatedBytes rs s' :
  reaches configuration shard range env fuel s storageServers estimatedBytes rs s' ->
  let a := finishCanSplit (shardBounds env) (stats rs) in
  let r := shardCheck configuration shardCount shard range env fuel s in
  let walked := snd (checkEstimates storageServers estimatedBytes (sampledBytes a) s') in
  filter isEstimateFailure (newReasons s (snd r)) = newReasons s' walked
  /\ filter (String.eqb inaccurateEstimateReason) (newReasons s (snd r))
     = (if inaccurateShardEstimate a then [inaccurateEstimateReason] else [])
  /\ (fst r = Next tt \/ fst r = Return false)
  /\ (performQuiescentChecks (self s) = false -> fst r = Next tt).
Proof.
  intros Hreaches a r walked.
  destruct (checkShard_sizes_reasons _ shardCount _ _ _ _ _ _ _ _ _ Hreaches)
    as [sized [Hrecorded Hsized]].
  cbv zeta in Hrecorded. fold a r walked in Hrecorded, Hsized.
  pose proof (early_reasons _ _ (reaches_early _ _ _ _ _ _ _ _ _ _ Hreaches)) as Hearly.
  pose proof (checkEstimates_reasons storageServers estimatedBytes (sampledBytes a) s')
    as Hwalked.
  fold walked in Hwalked. rewrite Forall_forall in Hwalked.
  assert (Hsized' : forall reason, In reason sized ->
            isEstimateFailure reason = false
            /\ String.eqb inaccurateEstimateReason reason = false).
  { intros reason Hin. destruct Hsized as [[_ ->]|[_ [_ [->| ->]]]];
      [destruct Hin|destruct Hin as [<-|[]]; now split|destruct Hin as [<-|[]]; now split]. }
  split; [|split; [|split]].
  - rewrite Hrecorded, !filter_app.
    rewrite (filter_nil_of _ (newReasons s s')) by (intros x Hx; apply (Hearly x Hx)).
    rewrite (filter_all_of _ (newReasons s' walked))
      by (intros x Hx; destruct (Hwalked x Hx) as [-> | ->]; reflexivity).
    rewrite (filter_nil_of _ sized) by (intros x Hx; apply (Hsized' x Hx)).
    destruct (inaccurateShardEstimate a); cbn [filter app]; now rewrite ?app_nil_r.
  - rewrite Hrecorded, !filter_app.
    rewrite (filter_nil_of _ (newReasons s s')) by (intros x Hx; apply (Hearly x Hx)).
    rewrite (filter_nil_of _ (newReasons s' walked))
      by (intros x Hx; destruct (Hwalked x Hx) as [-> | ->]; reflexivity).
    rewrite (filter_nil_of _ sized) by (intros x Hx; apply (Hsized' x Hx)).
    destruct (inaccurateShardEstimate a); cbn [filter app]; now rewrite ?app_nil_r.
  - destruct Hsized as [[H _]|[H _]]; [now left|now right].
  - intros Hq. destruct Hsized as [[H _]|[_ [Hq' _]]]; [exact H|].
    rewrite Hq in Hq'. discriminate.
Qed.

(** C5.  In a quiescent run the estimates of the replicas of a shard are
    walked in order.  At the first estimate that is not the recomputed
    [sampledBytes]: if it is non-negative, the failure "Storage servers had
    incorrect sampled estimate" is recorded (after the event
    [ConsistencyCheck_IncorrectEstimate] naming that replica), and if it is
    negative, the failure "Could not get storage metrics from server"; in
    both cases [hasValidEstimate] is false and the estimates after it play no
    part (the result does not depend on them, and nothing else is
    recorded).  When there is no such estimate nothing is recorded.
    The body of the loop over the shards runs this walk for every sampled
    shard it reads to the end, on the estimates [getStorageSizeEstimate]
    returned for the servers of that shard and on the [sampledBytes] the read
    loop added up: of all the failures the body records for the shard,
    those of the walk are the one failure of the first estimate that is not
    [sampledBytes], and none when there is no such estimate. *)
Theorem estimates_checked_until_first_miss
  (storageServers : list UID) (sampled : Z) (s : State) :
  performQuiescentChecks (self s) = true ->
  (forall before estimate after,
     Forall (goodEstimate sampled) before -> 0 <= estimate -> estimate <> sampled ->
     checkEstimates storageServers (before ++ estimate :: after) sampled s
     = (false,
        testFailure "Storage servers had incorrect sampled estimate"
          (traceEvent (event "ConsistencyCheck_IncorrectEstimate"
                         [("EstimatedBytes", DInt estimate);
                          ("CorrectSampledBytes", DInt sampled);
                          ("StorageServer", DUID (nth (List.length before) storageServers 0))])
             s)))
  /\ (forall before estimate after,
        Forall (goodEstimate sampled) before -> estimate < 0 ->
        checkEstimates storageServers (before ++ estimate :: after) sampled s
        = (false, testFailure "Could not get storage metrics from server" s))
  /\ (forall estimatedBytes,
        Forall (goodEstimate sampled) estimatedBytes ->
        checkEstimates storageServers estimatedBytes sampled s
        = (Z.of_nat (List.length estimatedBytes) >? 0, s))
  /\ (forall configuration shardCount shard range env fuel estimatedBytes rs s',
        reaches configuration shard range env fuel s storageServers estimatedBytes rs s' ->
        sampled = sampledBytes (finishCanSplit (shardBounds env) (stats rs)) ->
        let recorded :=
          filter isEstimateFailure
            (newReasons s (snd (shardCheck configuration shardCount shard range env fuel s))) in
        (forall before estimate after,
           estimatedBytes = before ++ estimate :: after ->
           Forall (goodEstimate sampled) before -> 0 <= estimate -> estimate <> sampled ->
           recorded = ["Consistency check: Storage servers had incorrect sampled estimate"])
        /\ (forall before estimate after,
              estimatedBytes = before ++ estimate :: after ->
              Forall (goodEstimate sampled) before -> estimate < 0 ->
              recorded = ["Consistency check: Could not get storage metrics from server"])
        /\ (Forall (goodEstimate sampled) estimatedBytes -> recorded = [])).
Proof.
  intros Hquiescent.
  destruct (checkEstimates_first_miss storageServers sampled s Hquiescent)
    as [Hwrong [Hnone Hgood]].
  split; [exact Hwrong|]. split; [exact Hnone|]. split; [exact Hgood|].
  intros configuration shardCount shard range env fuel estimatedBytes rs s' Hreaches
         Hsampled recorded.
  pose proof (extends_quiescent _ _ (reaches_extends _ _ _ _ _ _ _ _ _ _ Hreaches)) as Hq'.
  rewrite Hquiescent in Hq'.
  destruct (checkEstimates_first_miss storageServers sampled s' Hq')
    as [Hwrong' [Hnone' Hgood']].
  destruct (checkShard_sizes_filtered _ shardCount _ _ _ _ _ _ _ _ _ Hreaches)
    as [Hrecorded _].
  cbv zeta in Hrecorded. rewrite <- Hsampled in Hrecorded. fold recorded in Hrecorded.
  split; [|split].
  - intros before estimate after -> Hbefore Hpos Hdiff.
    rewrite (Hwrong' before estimate after Hbefore Hpos Hdiff) in Hrecorded.
    cbn [snd] in Hrecorded. now rewrite newReasons_failure in Hrecorded by reflexivity.
  - intros before estimate after -> Hbefore Hneg.
    rewrite (Hnone' before estimate after Hbefore Hneg) in Hrecorded.
    cbn [snd] in Hrecorded. rewrite Hrecorded.
    apply newReasons_app. now rewrite reasons_testFailure.
  - intros Hall. rewrite (Hgood' estimatedBytes Hall) in Hrecorded. cbn [snd] in Hrecorded.
    now rewrite newReasons_same in Hrecorded.
Qed.

(** C6.  With [stdDev = sqrt(shardVariance)] and [estimateError] the [int]
    [abs(shardBytes - sampledBytes)] (the absolute value of the difference
    for sizes that are non-negative [int]s), all in IEEE double arithmetic:
    the check records its failure if and only if [sampledKeys > 30] and
    [estimateError > 7 * stdDev]; otherwise it records nothing and leaves the
    state as it was, in particular for 30 sampled keys or fewer, whatever the
    error; and the check never leaves the loop over the shards: whether the
    checks on the sizes of a shard end the loop depends on the check of the
    permitted size alone.
    The body of the loop over the shards runs this check for every sampled
    shard it reads to the end, on the statistics the read loop added up: of
    all the failures the body records for the shard, the failure of this
    check is one exactly when [sampledKeys > 30] and [estimateError > 7 *
    stdDev] for these statistics, and then once, in quiescent and
    non-quiescent runs alike; the body goes on to the next shard, unless the
    check of the permitted size makes it return false, which it does in a
    quiescent run only. *)
Theorem shard_estimate_failure_iff
  (bounds : ShardSizeBounds) (range : KeyRange) (a : ShardStats) (s : State) :
  let tooFar :=
    PrimFloat.ltb (PrimFloat.mul 7 (PrimFloat.sqrt (shardVariance a)))
                  (double_of_int (estimateError a)) in
  (newReasons s (checkShardEstimate bounds range a s)
   = ["Consistency check: Shard size is more than 7.000000 std dev from estimate"]
   <-> 30 < sampledKeys a /\ tooFar = true)
  /\ (~ (30 < sampledKeys a /\ tooFar = true) -> checkShardEstimate bounds range a s = s)
  /\ (sampledKeys a <= 30 -> checkShardEstimate bounds range a s = s)
  /\ (0 <= shardBytes a <= Int32.max_int -> 0 <= sampledBytes a <= Int32.max_int ->
      estimateError a = Z.abs (shardBytes a - sampledBytes a))
  /\ (forall prefix shardCount env storageServers estimatedBytes read s0,
        fst (checkShardSizes prefix range shardCount env storageServers estimatedBytes read s0)
        = fst (checkShardSize prefix (shardBounds env) range shardCount
                 (finishCanSplit (shardBounds env) read) s0))
  /\ (forall configuration shardCount shard env fuel storageServers estimatedBytes rs s',
        reaches configuration shard range env fuel s storageServers estimatedBytes rs s' ->
        a = finishCanSplit (shardBounds env) (stats rs) ->
        let r := shardCheck configuration shardCount shard range env fuel s in
        let failure :=
          "Consistency check: Shard size is more than 7.000000 std dev from estimate" in
        filter (String.eqb failure) (newReasons s (snd r))
        = (if (30 <? sampledKeys a) && tooFar then [failure] else [])
        /\ (In failure (newReasons s (snd r)) <-> 30 < sampledKeys a /\ tooFar = true)
        /\ (0 <= shardBytes a <= Int32.max_int -> 0 <= sampledBytes a <= Int32.max_int ->
            (In failure (newReasons s (snd r))
             <-> 30 < sampledKeys a
                 /\ PrimFloat.ltb (PrimFloat.mul 7 (PrimFloat.sqrt (shardVariance a)))
                                  (double_of_int (Z.abs (shardBytes a - sampledBytes a)))
                    = true))
        /\ (fst r = Next tt \/ fst r = Return false)
        /\ (performQuiescentChecks (self s) = false -> fst r = Next tt)).
Proof.
  intros tooFar.
  assert (Hcond : inaccurateShardEstimate a = true <-> 30 < sampledKeys a /\ tooFar = true).
  { unfold inaccurateShardEstimate, failErrorNumStdDev, stdDev. unfold tooFar.
    rewrite andb_true_iff, Z.gtb_lt. reflexivity. }
  assert (Hbool : inaccurateShardEstimate a = (30 <? sampledKeys a) && tooFar).
  { unfold inaccurateShardEstimate, failErrorNumStdDev, stdDev, tooFar.
    now rewrite Z.gtb_ltb. }
  assert (Herror : 0 <= shardBytes a <= Int32.max_int ->
                   0 <= sampledBytes a <= Int32.max_int ->
                   estimateError a = Z.abs (shardBytes a - sampledBytes a)).
  { intros Hbytes Hsampled. unfold estimateError, Int32.abs, Int32.sub.
    unfold Int32.max_int in *.
    rewrite (wrap_in_range (shardBytes a - sampledBytes a))
      by (unfold Int32.in_range, Int32.min_int, Int32.max_int; lia).
    apply wrap_in_range. unfold Int32.in_range, Int32.min_int, Int32.max_int. lia. }
  assert (Hnot : ~ (30 < sampledKeys a /\ tooFar = true) ->
                 checkShardEstimate bounds range a s = s).
  { intros H. unfold checkShardEstimate.
    destruct (inaccurateShardEstimate a); [|reflexivity].
    exfalso. apply H. now apply Hcond. }
  split; [|split; [|split; [|split; [|split]]]].
  - split.
    + intros H. destruct (inaccurateShardEstimate a) eqn:E; [now apply Hcond|].
      unfold checkShardEstimate in H. rewrite E, newReasons_same in H. discriminate.
    + intros H. apply Hcond in H. unfold checkShardEstimate. rewrite H.
      apply newReasons_app. rewrite reasons_testFailure.
      now rewrite reasons_traceEvent by reflexivity.
  - exact Hnot.
  - intros H. apply Hnot. lia.
  - exact Herror.
  - intros prefix shardCount env storageServers estimatedBytes read s0.
    unfold checkShardSizes.
    pose proof (checkEstimates_extends storageServers estimatedBytes
                  (sampledBytes (finishCanSplit (shardBounds env) read)) s0) as H.
    destruct (checkEstimates _ _ _ _) as [valid s1]; simpl in H.
    apply checkShardSize_flow. apply extends_quiescent.
    eapply extends_trans; [exact H|apply checkShardEstimate_extends].
  - intros configuration shardCount shard env fuel storageServers estimatedBytes rs s'
           Hreaches Ha r failure.
    destruct (checkShard_sizes_filtered _ shardCount _ _ _ _ _ _ _ _ _ Hreaches)
      as [_ [Hrecorded [Hflow Hbusy]]].
    cbv zeta in Hrecorded. rewrite <- Ha in Hrecorded. fold r in Hrecorded, Hflow, Hbusy.
    change inaccurateEstimateReason with failure in Hrecorded.
    assert (Hiff : In failure (newReasons s (snd r)) <-> 30 < sampledKeys a /\ tooFar = true).
    { rewrite <- Hcond. split.
      - intros Hin.
        assert (Hf : In failure (filter (String.eqb failure) (newReasons s (snd r))))
          by (apply filter_In; split; [exact Hin|apply String.eqb_refl]).
        rewrite Hrecorded in Hf. destruct (inaccurateShardEstimate a); [reflexivity|destruct Hf].
      - intros Hc. rewrite Hc in Hrecorded.
        assert (Hf : In failure (filter (String.eqb failure) (newReasons s (snd r))))
          by (rewrite Hrecorded; now left).
        apply filter_In in Hf. apply Hf. }
    split; [now rewrite <- Hbool|]. split; [exact Hiff|].
    split; [|split; [exact Hflow|exact Hbusy]].
    intros Hbytes Hsampled. rewrite <- (Herror Hbytes Hsampled). exact Hiff.
Qed.

End ShardSizeChecks.

(** The body of the loop over the shards on [agreedShard], in a quiescent
    run of one client, gets as far as the checks on the sizes. *)
Lemma agreedShard_reaches :
  reachesSizeChecks sampleAll (fun _ => 10) 100 1000 1%float "z" someConfiguration 0
    (mkRange "a" "z") agreedShard 5 quiescentState [1; 2; 3] [1000; 1000; 1000]
    agreedShardRead quiescentState.
Proof.
  exists false,
         [mkSSI 1 "10.0.0.1:4500"; mkSSI 2 "10.0.0.1:4500"; mkSSI 3 "10.0.0.1:4500"],
         quiescentState, quiescentState, quiescentState, quiescentState, quiescentState.
  repeat split; vm_compute; reflexivity.
Qed.

Lemma estimates_checked_until_first_miss_witness :
  (reasons (trace (snd (checkEstimates [11; 12; 13] [1200; 1000; -1] 1200 quiescentState)))
   = ["Consistency check: Storage servers had incorrect sampled estimate"]
   /\ fst (checkEstimates [11; 12; 13] [1200; 1000; -1] 1200 quiescentState) = false)
  /\ filter isEstimateFailure
       (newReasons quiescentState
          (snd (checkShard sampleAll (fun _ => 10) 100 1000 1%float "keyServers/" "z"
                  someConfiguration 1 0 (mkRange "a" "z") agreedShard 5 quiescentState)))
     = ["Consistency check: Storage servers had incorrect sampled estimate"].
Proof.
  split.
  - destruct (estimates_checked_until_first_miss sampleAll (fun _ => 10) 100 1000 1%float
                "keyServers/" "z" [11; 12; 13] 1200 quiescentState eq_refl)
      as [Hwrong _].
    change [1200; 1000; -1] with ([1200] ++ 1000 :: [-1]).
    rewrite (Hwrong [1200] 1000 [-1]).
    + split; reflexivity.
    + repeat constructor. lia.
    + lia.
    + lia.
  - destruct (estimates_checked_until_first_miss sampleAll (fun _ => 10) 100 1000 1%float
                "keyServers/" "z" [1; 2; 3] 6 quiescentState eq_refl)
      as [_ [_ [_ Hshard]]].
    pose proof (Hshard someConfiguration 1 0 (mkRange "a" "z") agreedShard 5%nat
                  [1000; 1000; 1000] agreedShardRead quiescentState agreedShard_reaches
                  eq_refl) as H.
    cbv zeta in H. destruct H as [Hwrong _].
    apply (Hwrong [] 1000 [1000; 1000] eq_refl (Forall_nil _)); lia.
Defined.

Lemma shard_estimate_failure_iff_witness :
  (newReasons quiescentState
     (checkShardEstimate (mkBounds 0 5000 10) (mkRange "a" "b") driftedShard quiescentState)
   = ["Consistency check: Shard size is more than 7.000000 std dev from estimate"]
   /\ estimateError driftedShard = 200)
  /\ ~ In "Consistency check: Shard size is more than 7.000000 std dev from estimate"
         (newReasons quiescentState
            (snd (checkShard sampleAll (fun _ => 10) 100 1000 1%float "keyServers/" "z"
                    someConfiguration 1 0 (mkRange "a" "z") agreedShard 5 quiescentState))).
Proof.
  split.
  - destruct (shard_estimate_failure_iff sampleAll (fun _ => 10) 100 1000 1%float
                "keyServers/" "z" (mkBounds 0 5000 10) (mkRange "a" "b")
                driftedShard quiescentState) as [[_ Hrecorded] [_ [_ [Herror _]]]].
    split.
    + apply Hrecorded. split; [cbn; lia|reflexivity].
    + rewrite Herror; [reflexivity | cbn; unfold Int32.max_int; lia
                       | cbn; unfold Int32.max_int; lia].
  - destruct (shard_estimate_failure_iff sampleAll (fun _ => 10) 100 1000 1%float
                "keyServers/" "z" (mkBounds 0 5000 10) (mkRange "a" "z")
                (finishCanSplit (mkBounds 0 5000 10) (stats agreedShardRead)) quiescentState)
      as [_ [_ [_ [_ [_ Hshard]]]]].
    pose proof (Hshard someConfiguration 1 0 agreedShard 5%nat [1; 2; 3] [1000; 1000; 1000]
                  agreedShardRead quiescentState agreedShard_reaches eq_refl) as H.
    cbv zeta in H. destruct H as [_ [Hiff _]].
    intros Hin. apply Hiff in Hin. destruct Hin as [Hkeys _]. cbn in Hkeys. lia.
Defined.
